(** * FileShredder: the shredding engine of [src/modules/fileShredder.js]

    A shallow embedding of the overwrite engine (pattern tables, the pass
    executor [overwriteFileWithPattern], the static and instance file
    shredders and the recursive directory shredder) together with the
    part of [src/modules/utils.js] it calls, and the properties of the
    engine's specification proved or refuted on that embedding.

    Modelling conventions.
    - JavaScript numbers that hold byte counts, offsets and item counters
      are safe integers; they are modelled in [Z] (sizes in [N]) with
      exact arithmetic, and the two places where the source divides by a
      possibly zero buffer size ([0 / 0] and [0 % 0], both [NaN]) are
      written out with [option].
    - JavaScript numbers that hold progress fractions are IEEE 754
      binary64 values.  They are modelled as rationals, every arithmetic
      operation being the exact operation followed by rounding to the
      nearest 53-bit significand, ties to even ([JSNumber.fl]).  All
      values the engine computes stay far inside the normal range, so
      neither overflow nor gradual underflow is modelled.
    - Effects are a state-and-exception monad over a chronological trace
      of events.  The file system is an oracle: whether a call fails may
      depend on the whole history, sizes and existence are read from the
      host, and the tree handed to the directory shredder is what
      [readdirSync]/[statSync] report for it (no other process touches
      the tree while it is shredded).
    - A string holds its text as UTF-8 bytes.  Where the source counts
      UTF-16 code units ([length]) or strips white space ([trim]), the
      text is decoded first ([Utils.codePoints]).
    - The limits of the engine that the code can reach are part of the
      model: [crypto.randomBytes] refuses a size above [2^31 - 1], and
      a call that spreads too many arguments is refused as the host
      decides ([overflows]). *)

From Stdlib Require Import ZArith QArith Qround Qpower Qreduction Lia Lqa List Bool.
From Stdlib Require Import Strings.String Strings.Ascii Strings.Byte.
From Stdlib Require Import Sorting.Sorted.
Import ListNotations.

Set Implicit Arguments.

(* ================================================================== *)
(** ** JavaScript numbers used as fractions *)
(* ================================================================== *)

Module JSNumber.

Local Open Scope Q_scope.

(** Nearest integer, ties to the even one. *)
Definition rne (q : Q) : Z :=
  let f := Qfloor q in
  match Qcompare (q - inject_Z f) (1 # 2) with
  | Lt => f
  | Gt => (f + 1)%Z
  | Eq => if Z.even f then f else (f + 1)%Z
  end.

(** [ilog2 x] is the binade of a positive [x]: [2^(ilog2 x) <= x < 2^(ilog2 x + 1)]. *)
Definition ilog2 (x : Q) : Z :=
  let e0 := (Z.log2 (Qnum x) - Z.log2 (Zpos (Qden x)))%Z in
  if Qle_bool (2 ^ e0) x then e0 else (e0 - 1)%Z.

(** Rounding of a non-negative rational to binary64. *)
Definition fl_pos (x : Q) : Q :=
  let e := ilog2 x in
  inject_Z (rne (x * 2 ^ (52 - e))) * 2 ^ (e - 52).

(** Rounding of an exact result to the nearest binary64 value. *)
Definition fl (x : Q) : Q :=
  match Qnum x with
  | Z0 => 0
  | Zpos _ => Qred (fl_pos x)
  | Zneg _ => Qred (- fl_pos (- x))
  end.

Definition add (x y : Q) : Q := fl (x + y).
Definition sub (x y : Q) : Q := fl (x - y).
Definition mul (x y : Q) : Q := fl (x * y).
Definition div (x y : Q) : Q := fl (x / y).

(** Conversion of an integer-valued number. *)
Definition ofZ (n : Z) : Q := fl (inject_Z n).

(** [Math.floor] and [Math.round] (nearest integer, ties towards +infinity). *)
Definition floor (x : Q) : Z := Qfloor x.
Definition round (x : Q) : Z := Qfloor (x + (1 # 2)).

End JSNumber.

(** Numbers are computed by evaluation, never by simplification. *)
Arguments JSNumber.fl : simpl never.
Arguments JSNumber.add : simpl never.
Arguments JSNumber.sub : simpl never.
Arguments JSNumber.mul : simpl never.
Arguments JSNumber.div : simpl never.
Arguments JSNumber.floor : simpl never.
Arguments JSNumber.round : simpl never.

(* ================================================================== *)
(** ** Events, errors and the host *)
(* ================================================================== *)

Definition path := string.

(** The value handed to the pass executor: a byte, or [null] for random data. *)
Inductive pattern :=
| Fixed (byte : Z)
| Random.

(** [error.code] of a failed [fs] call. *)
Inductive errno := EBUSY | EPERM | ENOENT | EACCES | EIO | ENOSPC | ENOTEMPTY.

(** The synchronous [fs] calls of the engine.  A file descriptor is
    identified with the path it was opened on. *)
Inductive syscall :=
| StatSync (p : path)
| ReaddirSync (p : path)
| OpenSync (p : path)
| WriteSync (fd : path) (data : pattern) (length position : Z)
| FsyncSync (fd : path)
| CloseSync (fd : path)
| RenameSync (oldPath newPath : path)
| UnlinkSync (p : path)
| RmdirSync (p : path)
| MkdirSync (p : path).

(** Exceptions.  The comments give the message of the source. *)
Inductive error :=
| IllegalPath                       (* '文件路径包含非法字符' *)
| FileNotFound (p : path)           (* '文件不存在' *)
| DirNotFound (p : path)            (* '目录不存在: ...' *)
| FileTooLarge                      (* '文件过大，超过...限制' *)
| NoTempDir                         (* '无法创建安全的临时目录' *)
| UnknownMethod                     (* '未知的粉碎方法' *)
| IOError (call : syscall) (code : errno)   (* thrown by an [fs] call *)
| DirectoryFailed (cause : error)   (* '粉碎目录失败: ' + cause.message *)
| SizeOutOfRange (size : Z)         (* RangeError of [crypto.randomBytes(size)] *)
| TooManyArguments (count : N).     (* RangeError of a call that spreads [count] arguments *)

Inductive event :=
| Sys (call : syscall) (failure : option errno)   (* an [fs] call and how it ended *)
| RandomBytes (size : Z)                          (* [crypto.randomBytes(size)] *)
| Pass (p : path) (pat : pattern) (startProgress endProgress : Q)
                                                  (* entry into [overwriteFileWithPattern] *)
| Progress (percent : Z)                          (* the caller's progress callback is invoked *)
| Yield                                           (* [await] of the 1 ms timer *)
| ConsoleError (e : error).                       (* [console.error] in a [catch] *)

(** What [readdirSync]/[statSync] report below a directory. *)
#[local] Unset Elimination Schemes.
Inductive node :=
| File (name : string)
| Dir (name : string) (children : list node).
#[local] Set Elimination Schemes.

Definition nodeName (n : node) : string :=
  match n with File s => s | Dir s _ => s end.

(** The host: the file system, the entropy source, the engine that runs
    the code and Node's [path] and [os] modules.  [fails h c] is the
    error code with which call [c] fails after history [h], or [None]
    when it succeeds.  [tree p] is what lies at [p] when the engine
    cleans up after itself: a file, or a directory with what
    [readdirSync] lists in it.  [overflows h n] tells whether the
    engine, after history [h], refuses a call that spreads [n]
    arguments (the bound depends on the engine and on the stack in
    use). *)
Record World := {
  fails : list event -> syscall -> option errno;
  exists_ : list event -> path -> bool;
  size_of : path -> N;
  entropy : N -> byte;
  tree : path -> node;
  overflows : list event -> N -> bool;
  join : path -> string -> path;
  dirname : path -> path;
  extname : path -> string;
  normalize : path -> path;
  tmpdir : path
}.

(* ================================================================== *)
(** ** The effect monad *)
(* ================================================================== *)

(** A computation reads the history so far and the number of entropy
    bytes drawn, and produces a value or an exception, the events it
    emitted, and the new entropy position. *)
Record outcome (A : Type) := Out {
  result : A + error;
  emitted : list event;
  drawn : N
}.
Arguments Out {A} _ _ _.

Definition M (A : Type) := list event -> N -> outcome A.

Definition ret {A} (a : A) : M A := fun _ d => Out (inl a) [] d.

Definition throw {A} (e : error) : M A := fun _ d => Out (inr e) [] d.

Definition bind {A B} (m : M A) (k : A -> M B) : M B :=
  fun h d =>
    let o := m h d in
    match result o with
    | inl a =>
        let o' := k a (h ++ emitted o) (drawn o) in
        Out (result o') (emitted o ++ emitted o') (drawn o')
    | inr e => Out (inr e) (emitted o) (drawn o)
    end.

Notation "x <- m ;; k" := (bind m (fun x => k))
  (at level 61, m at next level, right associativity).
Notation "m ;;; k" := (bind m (fun _ => k))
  (at level 61, right associativity).

(** [try { m } catch (error) { handler error }] *)
Definition try_catch {A} (m : M A) (handler : error -> M A) : M A :=
  fun h d =>
    let o := m h d in
    match result o with
    | inl a => o
    | inr e =>
        let o' := handler e (h ++ emitted o) (drawn o) in
        Out (result o') (emitted o ++ emitted o') (drawn o')
    end.

(** [try { m } finally { cleanup }]: the cleanup always runs, and an
    exception of the cleanup replaces the outcome of [m]. *)
Definition try_finally {A} (m : M A) (cleanup : M unit) : M A :=
  fun h d =>
    let o := m h d in
    let o' := cleanup (h ++ emitted o) (drawn o) in
    Out (match result o' with inl _ => result o | inr e => inr e end)
        (emitted o ++ emitted o') (drawn o').

Definition emit (e : event) : M unit := fun _ d => Out (inl tt) [e] d.

Definition when_ (b : bool) (m : M unit) : M unit := if b then m else ret tt.

(** Invocation of a nullable callback: [if (cb) cb(v)]. *)
Definition call_if {A} (cb : option (A -> M unit)) (v : A) : M unit :=
  match cb with Some f => f v | None => ret tt end.

(** The progress callback of a caller who records what is reported. *)
Definition report : Z -> M unit := fun percent => emit (Progress percent).

Fixpoint for_each {A} (xs : list A) (body : A -> M unit) : M unit :=
  match xs with
  | [] => ret tt
  | x :: rest => body x ;;; for_each rest body
  end.

(** Indices [from, from + 1, ..., from + count - 1] of a counting loop. *)
Fixpoint indices (from : Z) (count : nat) : list Z :=
  match count with
  | O => []
  | S k => from :: indices (from + 1) k
  end.

(** Hexadecimal rendering, [buffer.toString('hex')]. *)
Definition hexDigit (n : N) : ascii :=
  match n with
  | 0 => "0" | 1 => "1" | 2 => "2" | 3 => "3" | 4 => "4" | 5 => "5"
  | 6 => "6" | 7 => "7" | 8 => "8" | 9 => "9" | 10 => "a" | 11 => "b"
  | 12 => "c" | 13 => "d" | 14 => "e" | _ => "f"
  end%N%char.

Fixpoint toHex (bytes : list byte) : string :=
  match bytes with
  | [] => EmptyString
  | b :: rest =>
      let n := Byte.to_N b in
      String (hexDigit (n / 16)) (String (hexDigit (n mod 16)) (toHex rest))
  end.

Section Host.

Variable W : World.

(** An [fs] call: it is recorded with its outcome and throws when the
    host makes it fail. *)
Definition sys (c : syscall) : M unit :=
  fun h d =>
    match fails W h c with
    | None => Out (inl tt) [Sys c None] d
    | Some code => Out (inr (IOError c code)) [Sys c (Some code)] d
    end.

(** [fs.existsSync] never throws. *)
Definition existsSync (p : path) : M bool :=
  fun h d => Out (inl (exists_ W h p)) [] d.

(** [fs.statSync(p).size] *)
Definition statSize (p : path) : M Z :=
  sys (StatSync p) ;;; ret (Z.of_N (size_of W p)).

(** [crypto.randomBytes(size)] for file data, where [size] is at most
    a buffer of 1 MiB: the content of the buffer is not tracked, only
    the amount of entropy drawn. *)
Definition randomBuffer (size : Z) : M unit :=
  fun _ d => Out (inl tt) [RandomBytes size] (d + Z.to_N size)%N.

(** The sizes [crypto.randomBytes] accepts: from [0] to [2^31 - 1]. *)
Definition sizeAccepted (size : Z) : bool :=
  ((0 <=? size) && (size <=? 2147483647))%Z.

(** [crypto.randomBytes(size)] where the bytes are used (file names):
    a size outside [0 .. 2^31 - 1] is refused with a [RangeError],
    before anything is generated. *)
Definition randomBytes (size : Z) : M (list byte) :=
  fun _ d =>
    if sizeAccepted size
    then Out (inl (map (fun i => entropy W (d + N.of_nat i)%N) (seq 0 (Z.to_nat size))))
             [RandomBytes size] (d + Z.to_N size)%N
    else Out (inr (SizeOutOfRange size)) [] d.

(** [crypto.randomBytes(size).toString('hex')] *)
Definition randomHex (size : Z) : M string :=
  bytes <- randomBytes size ;; ret (toHex bytes).

End Host.

(* ================================================================== *)
(** ** [Utils] (src/modules/utils.js) *)
(* ================================================================== *)

Module Utils.

Local Open Scope Z_scope.

Section WithWorld.

Variable W : World.

(** [isFileLocked]: try to open read-write; a failure counts as a lock
    only for [EBUSY] and [EPERM]. *)
Definition isFileLocked (filePath : path) : M bool :=
  try_catch
    (sys W (OpenSync filePath) ;;; sys W (CloseSync filePath) ;;; ret false)
    (fun error =>
       ret match error with
           | IOError _ EBUSY | IOError _ EPERM => true
           | _ => false
           end).

Definition pathExists (filePath : path) : M bool := existsSync W filePath.

Definition toLowerChar (c : ascii) : ascii :=
  let n := nat_of_ascii c in
  if ((65 <=? n) && (n <=? 90))%nat then ascii_of_nat (n + 32) else c.

Fixpoint toLowerCase (s : string) : string :=
  match s with
  | EmptyString => EmptyString
  | String c r => String (toLowerChar c) (toLowerCase r)
  end.

Definition systemPaths : list string :=
  [ "c:\windows"; "c:\program files"; "c:\program files (x86)";
    "c:\programdata"; "c:\users\default"; "c:\users\public";
    "c:\recovery"; "c:\system volume information" ]%string.

Definition systemExtensions : list string :=
  [ ".sys"; ".dll"; ".exe"; ".bat"; ".cmd"; ".com"; ".scr";
    ".cpl"; ".msc"; ".msp"; ".msi"; ".ps1"; ".vbs"; ".js";
    ".reg"; ".inf"; ".ini"; ".log"; ".evt"; ".evtx" ]%string.

Definition startsWithAny (s : string) (prefixes : list string) : bool :=
  existsb (fun p => String.prefix p s) prefixes.

Definition isSystemCriticalFile (filePath : path) : bool :=
  let normalizedPath := toLowerCase (normalize W filePath) in
  if startsWithAny normalizedPath systemPaths then true
  else
    let ext := extname W normalizedPath in
    if existsb (String.eqb ext) systemExtensions
    then startsWithAny normalizedPath systemPaths
    else false.

(** The object returned by [validateFilePath]. *)
Inductive reason :=
| EmptyPath          (* '文件路径不能为空' *)
| Missing            (* '文件或目录不存在' *)
| SystemCritical     (* '不能粉碎系统关键文件' *)
| Locked             (* '文件被其他程序占用' *)
| PathTooLong.       (* '文件路径过长' *)

Record validation := { isValid : bool; errors : list reason }.

Definition invalid (r : reason) : validation :=
  {| isValid := false; errors := [r] |}.

(** A string holds its text as UTF-8 bytes.  [codePoints s] are the
    code points of the text; a byte that does not begin a well-formed
    sequence stands for the code point of its own value. *)
Definition continuation (c : ascii) : option N :=
  let n := N_of_ascii c in
  if ((128 <=? n) && (n <? 192))%N then Some (n - 128)%N else None.

Fixpoint codePoints (s : string) : list N :=
  match s with
  | EmptyString => []
  | String c r =>
      let n := N_of_ascii c in
      let alone := n :: codePoints r in
      if (n <? 192)%N then alone
      else if (n <? 224)%N then
        match r with
        | String c1 r1 =>
            match continuation c1 with
            | Some x1 => ((n - 192) * 64 + x1)%N :: codePoints r1
            | None => alone
            end
        | _ => alone
        end
      else if (n <? 240)%N then
        match r with
        | String c1 (String c2 r2) =>
            match continuation c1, continuation c2 with
            | Some x1, Some x2 =>
                ((n - 224) * 4096 + x1 * 64 + x2)%N :: codePoints r2
            | _, _ => alone
            end
        | _ => alone
        end
      else if (n <? 248)%N then
        match r with
        | String c1 (String c2 (String c3 r3)) =>
            match continuation c1, continuation c2, continuation c3 with
            | Some x1, Some x2, Some x3 =>
                ((n - 240) * 262144 + x1 * 4096 + x2 * 64 + x3)%N :: codePoints r3
            | _, _, _ => alone
            end
        | _ => alone
        end
      else alone
  end.

(** [s.length]: the number of UTF-16 code units, two for a code point
    above [U+FFFF]. *)
Definition utf16Length (s : string) : nat :=
  fold_right (fun cp n => if (cp <? 65536)%N then S n else S (S n)) O (codePoints s).

(** What [trim] strips: the white space and the line terminators of
    ECMAScript. *)
Definition isWhiteSpace (cp : N) : bool :=
  (((9 <=? cp) && (cp <=? 13))            (* TAB, LF, VT, FF, CR *)
   || (cp =? 32) || (cp =? 160)           (* SP, NBSP *)
   || (cp =? 5760)                        (* U+1680 *)
   || ((8192 <=? cp) && (cp <=? 8202))    (* U+2000 .. U+200A *)
   || (cp =? 8232) || (cp =? 8233)        (* U+2028, U+2029 *)
   || (cp =? 8239) || (cp =? 8287)        (* U+202F, U+205F *)
   || (cp =? 12288) || (cp =? 65279))%N.  (* U+3000, U+FEFF *)

(** [!filePath || filePath.trim() === ''] *)
Definition isBlank (s : string) : bool := forallb isWhiteSpace (codePoints s).

Definition validateFilePath (filePath : path) : M validation :=
  if isBlank filePath then ret (invalid EmptyPath)
  else
    found <- pathExists filePath ;;
    if negb found then ret (invalid Missing)
    else if isSystemCriticalFile filePath then ret (invalid SystemCritical)
    else
      locked <- isFileLocked filePath ;;
      if locked then ret (invalid Locked)
      else if (260 <? utf16Length filePath)%nat then ret (invalid PathTooLong)
      else ret {| isValid := true; errors := [] |}.

(** [generateSecureRandomData]: [crypto.randomBytes] accepts every size
    the engine asks for, so the pseudo-random fallback of the [catch] is
    never entered. *)
Definition generateSecureRandomData (size : Z) : M unit := randomBuffer size.

(** [generateSecureRandomData(size).toString('hex')] *)
Definition generateSecureRandomHex (size : Z) : M string := randomHex W size.

(** [generateRandomString(length)]:
    [randomBytes(ceil(length / 2)).toString('hex').slice(0, length)].
    [randomBytes] refuses a size above [2^31 - 1].  The string built
    has two digits per byte; the properties of this function are
    stated for lengths up to [2^28 - 16], a string every version of
    the engine builds. *)
Definition generateRandomString (length : Z) : M string :=
  bytes <- randomBytes W ((length + 1) / 2) ;;
  ret (String.substring 0 (Z.to_nat length) (toHex bytes)).

Definition ensureDirectoryExists (dirPath : path) : M bool :=
  try_catch
    (found <- existsSync W dirPath ;;
     when_ (negb found) (sys W (MkdirSync dirPath)) ;;;
     ret true)
    (fun error => emit (ConsoleError error) ;;; ret false).

Definition createSecureTempDir : M (option path) :=
  try_catch
    (let tempBaseDir := tmpdir W in
     randomDirName <- generateRandomString 16 ;;
     let tempDirPath := join W tempBaseDir ("shredder-temp-" ++ randomDirName) in
     created <- ensureDirectoryExists tempDirPath ;;
     if negb created then ret None else ret (Some tempDirPath))
    (fun error => emit (ConsoleError error) ;;; ret None).

(** [safeDelete(targetPath)]; [target] is what lies at [targetPath]: a
    file is unlinked, a directory is emptied item by item and removed.
    The call on an item never throws and its result is not read. *)
Fixpoint safeDelete (targetPath : path) (target : node) : M bool :=
  try_catch
    (found <- existsSync W targetPath ;;
     if negb found then ret true
     else
       sys W (StatSync targetPath) ;;;
       match target with
       | Dir _ items =>
           sys W (ReaddirSync targetPath) ;;;
           (fix deleteAll (items : list node) : M unit :=
              match items with
              | [] => ret tt
              | item :: rest =>
                  safeDelete (join W targetPath (nodeName item)) item ;;;
                  deleteAll rest
              end) items ;;;
           sys W (RmdirSync targetPath) ;;;
           ret true
       | File _ =>
           sys W (UnlinkSync targetPath) ;;;
           ret true
       end)
    (fun error => emit (ConsoleError error) ;;; ret false).

Fixpoint deleteAll (targetPath : path) (items : list node) : M unit :=
  match items with
  | [] => ret tt
  | item :: rest =>
      safeDelete (join W targetPath (nodeName item)) item ;;;
      deleteAll targetPath rest
  end.

Definition cleanupTempDir (tempDirPath : path) : M bool :=
  try_catch
    (found <- pathExists tempDirPath ;;
     if (tempDirPath =? "")%string || negb found then ret true
     else safeDelete tempDirPath (tree W tempDirPath))
    (fun error => emit (ConsoleError error) ;;; ret false).

End WithWorld.

End Utils.

(* ================================================================== *)
(** ** JavaScript truthiness *)
(* ================================================================== *)

Inductive jsval :=
| VUndefined
| VNull
| VBoolean (b : bool)
| VString (s : string)
| VObject (o : Utils.validation).

(** [ToBoolean]: every object is truthy. *)
Definition ToBoolean (v : jsval) : bool :=
  match v with
  | VUndefined | VNull => false
  | VBoolean b => b
  | VString s => negb (s =? "")%string
  | VObject _ => true
  end.

(* ================================================================== *)
(** ** [FileShredder] (fileShredder.js) *)
(* ================================================================== *)

Module FileShredder.

Local Open Scope Z_scope.

(** An entry of the pattern tables: a byte or the string ['random']. *)
Inductive tablePattern :=
| Byte (b : Z)
| RandomTag.

Definition dodPatterns : list tablePattern :=
  [ Byte 0x00; Byte 0xFF; RandomTag ].

Definition gutmannPatterns : list tablePattern :=
  [ RandomTag; RandomTag; RandomTag; RandomTag;
    Byte 0x55; Byte 0xAA; Byte 0x92; Byte 0x49; Byte 0x24; Byte 0x92;
    Byte 0x49; Byte 0x24; Byte 0x55; Byte 0xAA; Byte 0x92; Byte 0x49;
    Byte 0x24; Byte 0x92; Byte 0x49; Byte 0x24; Byte 0x55; Byte 0xAA;
    Byte 0x92; Byte 0x49; Byte 0x24; Byte 0x92; Byte 0x49; Byte 0x24;
    Byte 0x55; Byte 0xAA; Byte 0x92;
    RandomTag; RandomTag; RandomTag; RandomTag ].

(** [pattern.pattern === 'random' ? null : pattern.pattern] *)
Definition patternValue (p : tablePattern) : pattern :=
  match p with
  | RandomTag => Random
  | Byte b => Fixed b
  end.

(** [(i / totalOperations) * 100] *)
Definition windowBound (i totalOperations : Z) : Q :=
  JSNumber.mul (JSNumber.div (inject_Z i) (inject_Z totalOperations)) 100.

(** [Math.floor(fileSize / bufferSize)] and [fileSize % bufferSize];
    [None] is [NaN], the value of both when [bufferSize] is [0]. *)
Definition floorDiv (fileSize bufferSize : Z) : option Z :=
  if bufferSize =? 0 then None else Some (fileSize / bufferSize).

Definition remainder (fileSize bufferSize : Z) : option Z :=
  if bufferSize =? 0 then None else Some (fileSize mod bufferSize).

(** Number of iterations of [for (let i = 0; i < fullBuffers; i++)]:
    none when the bound is [NaN]. *)
Definition iterations (fullBuffers : option Z) : nat :=
  match fullBuffers with
  | None => O
  | Some n => Z.to_nat n
  end.

(** [x > 0], false for [NaN]. *)
Definition positive (x : option Z) : bool :=
  match x with
  | None => false
  | Some n => 0 <? n
  end.

(** [fullBuffers * bufferSize]; the product is only read when
    [remainingBytes > 0], where [fullBuffers] is a number. *)
Definition times (x : option Z) (y : Z) : Z :=
  match x with
  | None => 0
  | Some n => n * y
  end.

(** [Math.round(startProgress + (endProgress - startProgress) *
    ((i + 1) * bufferSize / fileSize))] *)
Definition chunkProgress (startProgress endProgress : Q) (i bufferSize fileSize : Z) : Z :=
  JSNumber.round
    (JSNumber.add startProgress
       (JSNumber.mul (JSNumber.sub endProgress startProgress)
          (JSNumber.div (inject_Z ((i + 1) * bufferSize)) (inject_Z fileSize)))).

(** [Math.floor(((processedItems + fileProgress / 100) / totalItems) * 100)] *)
Definition fileShare (processedItems fileProgress totalItems : Z) : Z :=
  JSNumber.floor
    (JSNumber.mul
       (JSNumber.div
          (JSNumber.add (inject_Z processedItems)
             (JSNumber.div (inject_Z fileProgress) 100))
          (inject_Z totalItems))
       100).

(** [Math.floor((processedItems / totalItems) * 100)] *)
Definition itemShare (processedItems totalItems : Z) : Z :=
  JSNumber.floor
    (JSNumber.mul (JSNumber.div (inject_Z processedItems) (inject_Z totalItems)) 100).

Definition maxFileSize : Z := 5 * 1024 * 1024 * 1024.

Arguments windowBound : simpl never.
Arguments chunkProgress : simpl never.
Arguments fileShare : simpl never.
Arguments itemShare : simpl never.
Arguments maxFileSize : simpl never.

Section WithWorld.

Variable W : World.

(** The body of the loop over the full buffers. *)
Definition writeChunk (fileDescriptor : path) (pat : pattern)
    (progressCallback : option (Z -> M unit))
    (startProgress endProgress : Q) (bufferSize fileSize : Z) (i : Z) : M unit :=
  match pat with
  | Random => Utils.generateSecureRandomData bufferSize
  | Fixed _ => ret tt
  end ;;;
  sys W (WriteSync fileDescriptor pat bufferSize (i * bufferSize)) ;;;
  call_if progressCallback
    (chunkProgress startProgress endProgress i bufferSize fileSize) ;;;
  when_ (i mod 10 =? 0) (emit Yield).

(** [static async overwriteFileWithPattern] once [fileSize] is known:
    from the computation of [bufferSize] on. *)
Definition overwriteSized
    (filePath : path) (pat : pattern) (progressCallback : option (Z -> M unit))
    (startProgress endProgress : Q) (fileSize : Z) : M unit :=
  let bufferSize := Z.min (1024 * 1024) fileSize in
  sys W (OpenSync filePath) ;;;
  let fileDescriptor := filePath in
  try_finally
    (let fullBuffers := floorDiv fileSize bufferSize in
     let remainingBytes := remainder fileSize bufferSize in
     match pat with
     | Random => Utils.generateSecureRandomData bufferSize
     | Fixed _ => ret tt
     end ;;;
     for_each (indices 0 (iterations fullBuffers))
       (writeChunk fileDescriptor pat progressCallback
          startProgress endProgress bufferSize fileSize) ;;;
     when_ (positive remainingBytes)
       (match pat with
        | Random =>
            Utils.generateSecureRandomData
              (match remainingBytes with Some r => r | None => 0 end)
        | Fixed _ => ret tt
        end ;;;
        sys W (WriteSync fileDescriptor pat
                 (match remainingBytes with Some r => r | None => 0 end)
                 (times fullBuffers bufferSize))) ;;;
     sys W (FsyncSync fileDescriptor))
    (sys W (CloseSync fileDescriptor)).

(** [static async overwriteFileWithPattern] from [fs.statSync] on. *)
Definition passBody
    (filePath : path) (pat : pattern) (progressCallback : option (Z -> M unit))
    (startProgress endProgress : Q) : M unit :=
  fileSize <- statSize W filePath ;;
  overwriteSized filePath pat progressCallback startProgress endProgress fileSize.

(** [static async overwriteFileWithPattern]: one overwrite pass.  The
    [Pass] event marks the call and records its arguments. *)
Definition overwriteFileWithPattern
    (filePath : path) (pat : pattern) (progressCallback : option (Z -> M unit))
    (startProgress endProgress : Q) : M unit :=
  emit (Pass filePath pat startProgress endProgress) ;;;
  passBody filePath pat progressCallback startProgress endProgress.

(** [performQuickWipe]: one random pass over the whole range. *)
Definition performQuickWipe (filePath : path) (progressCallback : option (Z -> M unit))
  : M unit :=
  overwriteFileWithPattern filePath Random progressCallback 0 100.

(** The loop shared in shape by [performDoDWipeInternal] and
    [performGutmannWipe]: pass [i] of [totalOperations] gets the window
    [(i / totalOperations) * 100 .. ((i + 1) / totalOperations) * 100]. *)
Fixpoint wipeLoop (filePath : path) (progressCallback : option (Z -> M unit))
    (totalOperations : Z) (i : Z) (patterns : list pattern) : M unit :=
  match patterns with
  | [] => ret tt
  | pat :: rest =>
      let progressStart := windowBound i totalOperations in
      let progressEnd := windowBound (i + 1) totalOperations in
      overwriteFileWithPattern filePath pat progressCallback progressStart progressEnd ;;;
      wipeLoop filePath progressCallback totalOperations (i + 1) rest
  end.

(** [performDoDWipeInternal] with its local table [[0, 255, null]]. *)
Definition performDoDWipeInternal (filePath : path)
    (progressCallback : option (Z -> M unit)) : M unit :=
  let patterns := [Fixed 0; Fixed 255; Random] in
  let totalOperations := Z.of_nat (List.length patterns) in
  wipeLoop filePath progressCallback totalOperations 0 patterns.

Definition performDoDWipe (filePath : path)
    (progressCallback : option (Z -> M unit)) : M unit :=
  performDoDWipeInternal filePath progressCallback.

(** [performGutmannWipe] over [this.gutmannPatterns]. *)
Definition performGutmannWipe (filePath : path)
    (progressCallback : option (Z -> M unit)) : M unit :=
  let totalOperations := Z.of_nat (List.length gutmannPatterns) in
  wipeLoop filePath progressCallback totalOperations 0
    (map patternValue gutmannPatterns).

(** The rename loop of [secureDeleteFileName]: up to five renames with
    names of [max(8, 16 - 2 i)] random bytes and the original extension;
    the first failing rename leaves the loop ([break]).  The result is
    [currentPath]. *)
Fixpoint renameShrinking (dir ext : string) (currentPath : path) (steps : list Z)
  : M path :=
  match steps with
  | [] => ret currentPath
  | i :: rest =>
      randomName <- randomHex W (Z.max 8 (16 - i * 2)) ;;
      let newPath := join W dir (randomName ++ ext) in
      renamed <- try_catch
                   (sys W (RenameSync currentPath newPath) ;;; ret true)
                   (fun _ => ret false) ;;
      if renamed then renameShrinking dir ext newPath rest
      else ret currentPath
  end.

Definition secureDeleteFileName (originalPath : path) : M unit :=
  try_catch
    (let dir := dirname W originalPath in
     let ext := extname W originalPath in
     currentPath <- renameShrinking dir ext originalPath (indices 0 5) ;;
     try_catch (sys W (UnlinkSync currentPath)) (fun _ => ret tt))
    (fun _ => ret tt).

(** [shredSingleFile]: the instance path for one file. *)
Definition shredSingleFile (filePath : path)
    (progressCallback : option (Z -> M unit)) : M unit :=
  found <- existsSync W filePath ;;
  if negb found then throw (FileNotFound filePath)
  else
    performDoDWipe filePath progressCallback ;;;
    secureDeleteFileName filePath.

(** The rename loop of the static [shredFile]: ten renames with names of
    16 random bytes; a failing rename throws.  The result is the last
    [filePath]. *)
Fixpoint renameFixed (dir : string) (filePath : path) (steps : list Z) : M path :=
  match steps with
  | [] => ret filePath
  | _ :: rest =>
      randomName <- Utils.generateSecureRandomHex W 16 ;;
      let newPath := join W dir randomName in
      sys W (RenameSync filePath newPath) ;;;
      renameFixed dir newPath rest
  end.

(** The [switch (method)] of the static [shredFile]. *)
Definition wipeByMethod (method : string) (filePath : path)
    (progressCallback : option (Z -> M unit)) : M unit :=
  if (method =? "quick")%string
  then performQuickWipe filePath progressCallback
  else if (method =? "dod")%string
  then performDoDWipe filePath progressCallback
  else if (method =? "gutmann")%string
  then performGutmannWipe filePath progressCallback
  else throw UnknownMethod.

(** The rename loop and the final [unlinkSync] of the static [shredFile]. *)
Definition renameAndUnlink (filePath : path) : M unit :=
  let dir := dirname W filePath in
  lastPath <- renameFixed dir filePath (indices 0 10) ;;
  sys W (UnlinkSync lastPath).

(** [static async shredFile(filePath, method = 'dod', progressCallback = null)] *)
Definition static_shredFile (filePath : path) (method : string)
    (progressCallback : option (Z -> M unit)) : M bool :=
  try_catch
    (validation <- Utils.validateFilePath W filePath ;;
     if negb (ToBoolean (VObject validation)) then throw IllegalPath
     else
       found <- existsSync W filePath ;;
       if negb found then throw (FileNotFound filePath)
       else
         fileSize <- statSize W filePath ;;
         if maxFileSize <? fileSize then throw FileTooLarge
         else
           tempDir <- Utils.createSecureTempDir W ;;
           match tempDir with
           | None => throw NoTempDir
           | Some tempDir =>
               wipeByMethod method filePath progressCallback ;;;
               renameAndUnlink filePath ;;;
               call_if progressCallback 100 ;;;
               Utils.cleanupTempDir W tempDir ;;;
               ret true
           end)
    (fun error => emit (ConsoleError error) ;;; ret false).

(** [countItems] of [shredDirectory]; the counter [totalItems] of the
    enclosing scope is passed in and returned. *)
Fixpoint countItems (currentPath : path) (n : node) (totalItems : Z) : M Z :=
  sys W (StatSync currentPath) ;;;
  match n with
  | Dir _ subItems =>
      sys W (ReaddirSync currentPath) ;;;
      (fix countAll (items : list node) (totalItems : Z) : M Z :=
         match items with
         | [] => ret totalItems
         | item :: rest =>
             t <- countItems (join W currentPath (nodeName item)) item totalItems ;;
             countAll rest t
         end) subItems (totalItems + 1)
  | File _ => ret (totalItems + 1)
  end.

Fixpoint countAll (dirPath : path) (items : list node) (totalItems : Z) : M Z :=
  match items with
  | [] => ret totalItems
  | item :: rest =>
      t <- countItems (join W dirPath (nodeName item)) item totalItems ;;
      countAll dirPath rest t
  end.

(** [processItems] of [shredDirectory]; [processedItems] is passed in
    and returned, [totalItems] is the constant computed before. *)
Fixpoint processItems (totalItems : Z) (progressCallback : option (Z -> M unit))
    (currentPath : path) (n : node) (processedItems : Z) : M Z :=
  sys W (StatSync currentPath) ;;;
  processed <-
    match n with
    | Dir _ subItems =>
        sys W (ReaddirSync currentPath) ;;;
        processed <-
          (fix processAll (items : list node) (processedItems : Z) : M Z :=
             match items with
             | [] => ret processedItems
             | item :: rest =>
                 p <- processItems totalItems progressCallback
                        (join W currentPath (nodeName item)) item processedItems ;;
                 processAll rest p
             end) subItems processedItems ;;
        try_catch (sys W (RmdirSync currentPath)) (fun _ => ret tt) ;;;
        ret processed
    | File _ =>
        shredSingleFile currentPath
          (Some (fun fileProgress =>
                   match progressCallback with
                   | Some callback =>
                       callback (fileShare processedItems fileProgress totalItems)
                   | None => ret tt
                   end)) ;;;
        ret processedItems
    end ;;
  let processedItems := processed + 1 in
  call_if progressCallback (itemShare processedItems totalItems) ;;;
  ret processedItems.

Fixpoint processAll (totalItems : Z) (progressCallback : option (Z -> M unit))
    (dirPath : path) (items : list node) (processedItems : Z) : M Z :=
  match items with
  | [] => ret processedItems
  | item :: rest =>
      p <- processItems totalItems progressCallback
             (join W dirPath (nodeName item)) item processedItems ;;
      processAll totalItems progressCallback dirPath rest p
  end.

(** [shredDirectory(dirPath, progressCallback)]; [items] is what
    [readdirSync(dirPath)] lists, with what lies below. *)
Definition shredDirectory (dirPath : path) (items : list node)
    (progressCallback : option (Z -> M unit)) : M unit :=
  try_catch
    (found <- existsSync W dirPath ;;
     if negb found then throw (DirNotFound dirPath)
     else
       sys W (ReaddirSync dirPath) ;;;
       totalItems <- countAll dirPath items 0 ;;
       processAll totalItems progressCallback dirPath items 0 ;;;
       try_catch (sys W (RmdirSync dirPath)) (fun _ => ret tt))
    (fun error => throw (DirectoryFailed error)).

(** [static async shredDirectory(dirPath, progressCallback = null)] *)
Definition static_shredDirectory (dirPath : path) (items : list node)
    (progressCallback : option (Z -> M unit)) : M bool :=
  try_catch
    (shredDirectory dirPath items progressCallback ;;; ret true)
    (fun error => emit (ConsoleError error) ;;; ret false).

End WithWorld.

End FileShredder.

(* ================================================================== *)
(** ** Observations on traces *)
(* ================================================================== *)

Local Open Scope Z_scope.

(** The percentages handed to the caller's callback, in order. *)
Definition progressOf (es : list event) : list Z :=
  flat_map (fun ev => match ev with Progress v => [v] | _ => [] end) es.

(** The overwrite passes started, with their progress windows. *)
Definition passesOf (es : list event) : list (pattern * Q * Q) :=
  flat_map (fun ev => match ev with
                      | Pass _ pat s e => [(pat, s, e)]
                      | _ => []
                      end) es.

Definition patternsOf (es : list event) : list pattern :=
  map (fun w => fst (fst w)) (passesOf es).

(** The [writeSync] calls attempted. *)
Definition writesOf (es : list event) : list syscall :=
  flat_map (fun ev => match ev with
                      | Sys (WriteSync fd pat n pos) _ => [WriteSync fd pat n pos]
                      | _ => []
                      end) es.

(** The sizes of the random names requested: one [randomBytes] per rename. *)
Definition entropyRequests (es : list event) : list Z :=
  flat_map (fun ev => match ev with RandomBytes n => [n] | _ => [] end) es.

(** The rename calls attempted, with their outcome. *)
Definition renamesOf (es : list event) : list (path * path * option errno) :=
  flat_map (fun ev => match ev with
                      | Sys (RenameSync a b) r => [(a, b, r)]
                      | _ => []
                      end) es.

(** The unlink calls attempted, with their outcome. *)
Definition unlinksOf (es : list event) : list (path * option errno) :=
  flat_map (fun ev => match ev with
                      | Sys (UnlinkSync a) r => [(a, r)]
                      | _ => []
                      end) es.

(** The [fs] calls that failed. *)
Definition failuresOf (es : list event) : list syscall :=
  flat_map (fun ev => match ev with Sys c (Some _) => [c] | _ => [] end) es.

(** The path a file has after a sequence of rename attempts: the target
    of the last rename that succeeded. *)
Definition currentPath (original : path) (renames : list (path * path * option errno))
  : path :=
  fold_left (fun cur r => match r with
                          | (_, newPath, None) => newPath
                          | _ => cur
                          end) renames original.

(** The sizes of the random names of [secureDeleteFileName], in order. *)
Definition shrinkingSizes : list Z := [16; 14; 12; 10; 8].

(** The sizes of the random names of the static [shredFile], in order. *)
Definition fixedSizes : list Z := repeat 16 10.

(** The caller's callback: absent, or recording. *)
Definition callback (enabled : bool) : option (Z -> M unit) :=
  if enabled then Some report else None.

(** [m] emits only events in [E] and throws only errors in [X]. *)
Definition sat {A} (E : event -> Prop) (X : error -> Prop) (m : M A) : Prop :=
  forall h d,
    Forall E (emitted (m h d)) /\
    (forall e, result (m h d) = inr e -> X e).

(** Events every part of the engine may emit: [fs] calls, entropy
    requests, timer waits and the logging of a caught [fs] failure. *)
Definition ambient (E : event -> Prop) : Prop :=
  (forall c r, E (Sys c r)) /\
  (forall n, E (RandomBytes n)) /\
  E Yield /\
  (forall c code, E (ConsoleError (IOError c code))).

Definition io_errors (X : error -> Prop) : Prop :=
  forall c code, X (IOError c code).

Definition never : error -> Prop := fun _ => False.

Definition is_io_error (e : error) : Prop :=
  match e with IOError _ _ => True | _ => False end.

(** Classes of events and of errors. *)
Definition not_pass (ev : event) : Prop :=
  match ev with Pass _ _ _ _ => False | _ => True end.

Definition not_progress (ev : event) : Prop :=
  match ev with Progress _ => False | _ => True end.

(** [fs] calls and entropy requests. *)
Definition plain_event (ev : event) : Prop :=
  match ev with Sys _ _ | RandomBytes _ => True | _ => False end.

(** What the helpers of [Utils] emit: plain events and the logging of a
    caught [fs] failure. *)
Definition utils_event (ev : event) : Prop :=
  match ev with
  | Sys _ _ | RandomBytes _ | ConsoleError (IOError _ _) => True
  | _ => False
  end.

(** The [fs] calls of an overwrite pass. *)
Definition pass_call (c : syscall) : Prop :=
  match c with
  | StatSync _ | OpenSync _ | WriteSync _ _ _ _ | FsyncSync _ | CloseSync _ => True
  | _ => False
  end.

(** What the body of an overwrite pass emits besides calling the callback. *)
Definition body_event (ev : event) : Prop :=
  match ev with
  | Sys c _ => pass_call c
  | RandomBytes _ | Yield => True
  | _ => False
  end.

(** What overwrite passes emit besides calling the callback. *)
Definition pass_event (ev : event) : Prop :=
  match ev with
  | Sys c _ => pass_call c
  | RandomBytes _ | Yield | Pass _ _ _ _ => True
  | _ => False
  end.

(** What a wipe with a reporting callback emits. *)
Definition wipe_event (ev : event) : Prop :=
  match ev with
  | Progress _ => True
  | _ => pass_event ev
  end.

(** Neither a write nor a report. *)
Definition quiet_event (ev : event) : Prop :=
  match ev with
  | Sys (WriteSync _ _ _ _) _ | Progress _ => False
  | _ => True
  end.

(** The calls that only read the tree. *)
Definition read_event (ev : event) : Prop :=
  match ev with
  | Sys (StatSync _) _ | Sys (ReaddirSync _) _ => True
  | _ => False
  end.

(** The failures an overwrite pass can raise. *)
Definition pass_error (e : error) : Prop :=
  match e with
  | IOError c _ => pass_call c
  | _ => False
  end.

(** A nullable callback that reports [g v] when called with [v],
    returns normally and draws no entropy. *)
Definition reports (g : Z -> list Z) (cb : option (Z -> M unit)) : Prop :=
  forall v h d, call_if cb v h d = Out (inl tt) (map Progress (g v)) d.

(** A host on which no [fs] call fails and every path asked for exists. *)
Definition faultless (W : World) : Prop :=
  (forall h c, fails W h c = None) /\ (forall h p, exists_ W h p = true).

(** Number of nodes of a listing: every file and every directory below
    the root, the root itself not included. *)
Fixpoint weight (n : node) : Z :=
  match n with
  | File _ => 1
  | Dir _ children =>
      1 + (fix sum (l : list node) : Z :=
             match l with
             | [] => 0
             | c :: r => weight c + sum r
             end) children
  end.

Fixpoint weights (l : list node) : Z :=
  match l with
  | [] => 0
  | c :: r => weight c + weights r
  end.

(** Files and directories of a listing, counted apart. *)
Fixpoint fileCount (n : node) : Z :=
  match n with
  | File _ => 1
  | Dir _ children =>
      (fix sum (l : list node) : Z :=
         match l with
         | [] => 0
         | c :: r => fileCount c + sum r
         end) children
  end.

Fixpoint dirCount (n : node) : Z :=
  match n with
  | File _ => 0
  | Dir _ children =>
      1 + (fix sum (l : list node) : Z :=
             match l with
             | [] => 0
             | c :: r => dirCount c + sum r
             end) children
  end.

Fixpoint fileCounts (l : list node) : Z :=
  match l with
  | [] => 0
  | c :: r => fileCount c + fileCounts r
  end.

Fixpoint dirCounts (l : list node) : Z :=
  match l with
  | [] => 0
  | c :: r => dirCount c + dirCounts r
  end.

(** The count of leaf units in the words of the specification: every
    file and every directory node, the root itself included. *)
Definition leafUnitsWithRoot (items : list node) : Z :=
  fileCounts items + (dirCounts items + 1).

(** Percentages in ascending order between two bounds. *)
Definition ascending (lo hi : Z) (l : list Z) : Prop :=
  StronglySorted Z.le l /\ Forall (fun v => lo <= v <= hi) l.

(** A failure other than that of removing a directory. *)
Definition not_rmdir_failure (e : error) : Prop :=
  match e with
  | IOError (RmdirSync _) _ => False
  | _ => True
  end.

(** The pass list of each method, as the three [perform...Wipe]
    functions hold it. *)
Definition passList (method : string) : option (list pattern) :=
  if (method =? "quick")%string then Some [Random]
  else if (method =? "dod")%string then Some [Fixed 0; Fixed 255; Random]
  else if (method =? "gutmann")%string
       then Some (map FileShredder.patternValue FileShredder.gutmannPatterns)
  else None.

(** The percentages a pass computes for its full buffers. *)
Definition chunkValues (s e : Q) (size : Z) : list Z :=
  let buf := Z.min (1024 * 1024) size in
  map (fun i => FileShredder.chunkProgress s e i buf size)
      (indices 0 (FileShredder.iterations (FileShredder.floorDiv size buf))).

(** The passes of a wipe loop with their windows: pass [i] of
    [totalOperations] runs from [(i / totalOperations) * 100] to
    [((i + 1) / totalOperations) * 100]. *)
Fixpoint windowsFrom (totalOperations i : Z) (patterns : list pattern)
  : list (pattern * Q * Q) :=
  match patterns with
  | [] => []
  | pat :: rest =>
      (pat, FileShredder.windowBound i totalOperations,
            FileShredder.windowBound (i + 1) totalOperations)
      :: windowsFrom totalOperations (i + 1) rest
  end.

(** The Gutmann sequence as the specification lists it. *)
Definition gutmannSequence : list pattern :=
  repeat Random 4 ++
  map Fixed [ 0x55; 0xAA; 0x92; 0x49; 0x24; 0x92; 0x49; 0x24; 0x55;
              0xAA; 0x92; 0x49; 0x24; 0x92; 0x49; 0x24; 0x55; 0xAA;
              0x92; 0x49; 0x24; 0x92; 0x49; 0x24; 0x55; 0xAA; 0x92 ] ++
  repeat Random 4.

(** The DoD schedule as the specification lists it: pass [i] of 3 with
    the window from [i / 3 * 100] to [(i + 1) / 3 * 100], in the
    arithmetic of JavaScript numbers. *)
Definition percentOf (i n : Z) : Q :=
  JSNumber.mul (JSNumber.div (inject_Z i) (inject_Z n)) 100.

Arguments percentOf : simpl never.

Definition dodSchedule : list (pattern * Q * Q) :=
  [ (Fixed 0x00, percentOf 0 3, percentOf 1 3);
    (Fixed 0xFF, percentOf 1 3, percentOf 2 3);
    (Random,     percentOf 2 3, percentOf 3 3) ].

(** The last element of a list of percentages. *)
Definition lastOf (l : list Z) : option Z :=
  match l with
  | [] => None
  | x :: r => Some (List.last r x)
  end.

(** The invariant of the traversal: while an item is processed from
    the counter value [processed] on, what is reported ascends from the
    share of [processed] items to the share of the items counted once
    the item is done; when the item is done the counter has advanced by
    its weight and the share of the new counter was reported last. *)
Definition item_progress_ok (W : World) (total : Z) (b : bool) (n : node) : Prop :=
  forall currentPath processed h d,
    0 <= processed -> processed + weight n <= total ->
    ascending (FileShredder.itemShare processed total)
              (FileShredder.itemShare (processed + weight n) total)
              (progressOf (emitted (FileShredder.processItems W total (callback b)
                                      currentPath n processed h d))) /\
    forall processed',
      result (FileShredder.processItems W total (callback b)
                currentPath n processed h d) = inl processed' ->
      processed' = processed + weight n /\
      (b = true ->
       lastOf (progressOf (emitted (FileShredder.processItems W total (callback b)
                                      currentPath n processed h d)))
       = Some (FileShredder.itemShare processed' total)).

Definition list_progress_ok (W : World) (total : Z) (b : bool) (l : list node) : Prop :=
  forall dirPath processed h d,
    0 <= processed -> processed + weights l <= total ->
    ascending (FileShredder.itemShare processed total)
              (FileShredder.itemShare (processed + weights l) total)
              (progressOf (emitted (FileShredder.processAll W total (callback b)
                                      dirPath l processed h d))) /\
    forall processed',
      result (FileShredder.processAll W total (callback b)
                dirPath l processed h d) = inl processed' ->
      processed' = processed + weights l /\
      (b = true -> l <> [] ->
       lastOf (progressOf (emitted (FileShredder.processAll W total (callback b)
                                      dirPath l processed h d)))
       = Some (FileShredder.itemShare processed' total)).

(* ================================================================== *)
(** ** Sample hosts *)
(* ================================================================== *)

Module Sample.

(** POSIX flavoured [path] functions. *)
Fixpoint splitLast (c : ascii) (s : string) : option (string * string) :=
  match s with
  | EmptyString => None
  | String a r =>
      match splitLast c r with
      | Some (x, y) => Some (String a x, y)
      | None => if Ascii.eqb a c then Some (EmptyString, r) else None
      end
  end.

Definition posixJoin (dir name : string) : string := (dir ++ "/" ++ name)%string.

Definition posixDirname (p : string) : string :=
  match splitLast "/" p with
  | Some (d, _) => d
  | None => "."%string
  end.

Definition posixBasename (p : string) : string :=
  match splitLast "/" p with
  | Some (_, b) => b
  | None => p
  end.

Definition posixExtname (p : string) : string :=
  match splitLast "." (posixBasename p) with
  | Some (EmptyString, _) => EmptyString
  | Some (_, e) => ("." ++ e)%string
  | None => EmptyString
  end.

(** A host where everything exists and nothing fails; every file has
    [size] bytes, and the directory the engine cleans up is empty. *)
Definition calm (size : N) : World := {|
  fails := fun _ _ => None;
  exists_ := fun _ _ => true;
  size_of := fun _ => size;
  entropy := fun i => match Byte.of_N (i mod 256) with Some b => b | None => x00 end;
  tree := fun _ => Dir "" [];
  overflows := fun _ count => (100000 <? count)%N;
  join := posixJoin;
  dirname := posixDirname;
  extname := posixExtname;
  normalize := fun p => p;
  tmpdir := "/tmp"%string
|}.

(** As [calm], but every [renameSync] and [unlinkSync] fails. *)
Definition sticky (size : N) : World := {|
  fails := fun _ c => match c with
                      | RenameSync _ _ | UnlinkSync _ => Some EPERM
                      | _ => None
                      end;
  exists_ := fun _ _ => true;
  size_of := fun _ => size;
  entropy := entropy (calm size);
  tree := fun _ => Dir "" [];
  overflows := fun _ count => (100000 <? count)%N;
  join := posixJoin;
  dirname := posixDirname;
  extname := posixExtname;
  normalize := fun p => p;
  tmpdir := "/tmp"%string
|}.


End Sample.

(* ================================================================== *)
(** ** The trace of a completed pass *)
(* ================================================================== *)

Module PassTrace.

(** The entropy request that precedes a write of random data. *)
Definition randomly (pat : pattern) (size : Z) : list event :=
  match pat with
  | Random => [RandomBytes size]
  | Fixed _ => []
  end.

(** What one round of the loop over the full buffers emits when its
    write succeeds: the request for fresh random data, the write, the
    report to the caller, the timer wait every tenth round. *)
Definition chunkTrace (fd : path) (pat : pattern) (reporting : bool)
    (startProgress endProgress : Q) (bufferSize fileSize : Z) (i : Z) : list event :=
  randomly pat bufferSize ++
  [Sys (WriteSync fd pat bufferSize (i * bufferSize)) None] ++
  (if reporting
   then [Progress (FileShredder.chunkProgress startProgress endProgress
                     i bufferSize fileSize)]
   else []) ++
  (if i mod 10 =? 0 then [Yield] else []).

(** What [overwriteFileWithPattern] emits when every call succeeds. *)
Definition passTrace (filePath : path) (pat : pattern) (reporting : bool)
    (startProgress endProgress : Q) (fileSize : Z) : list event :=
  let bufferSize := Z.min (1024 * 1024) fileSize in
  let fullBuffers := FileShredder.floorDiv fileSize bufferSize in
  let remainingBytes := FileShredder.remainder fileSize bufferSize in
  [Pass filePath pat startProgress endProgress;
   Sys (StatSync filePath) None;
   Sys (OpenSync filePath) None] ++
  randomly pat bufferSize ++
  flat_map (chunkTrace filePath pat reporting startProgress endProgress
              bufferSize fileSize)
           (indices 0 (FileShredder.iterations fullBuffers)) ++
  (if FileShredder.positive remainingBytes
   then randomly pat (match remainingBytes with Some r => r | None => 0 end) ++
        [Sys (WriteSync filePath pat
                (match remainingBytes with Some r => r | None => 0 end)
                (FileShredder.times fullBuffers bufferSize)) None]
   else []) ++
  [Sys (FsyncSync filePath) None; Sys (CloseSync filePath) None].

(** The writes of a completed pass over a file of [fileSize] bytes: the
    full buffers at their offsets, then the remaining bytes. *)
Definition passWrites (fd : path) (pat : pattern) (fileSize : Z) : list syscall :=
  let bufferSize := Z.min (1024 * 1024) fileSize in
  let fullBuffers := FileShredder.floorDiv fileSize bufferSize in
  let remainingBytes := FileShredder.remainder fileSize bufferSize in
  map (fun i => WriteSync fd pat bufferSize (i * bufferSize))
      (indices 0 (FileShredder.iterations fullBuffers)) ++
  (if FileShredder.positive remainingBytes
   then [WriteSync fd pat
           (match remainingBytes with Some r => r | None => 0 end)
           (FileShredder.times fullBuffers bufferSize)]
   else []).

(** What a wipe emits when every pass completes: the trace of each pass
    with its window, one after the other. *)
Definition wipeTrace (filePath : path) (reporting : bool) (fileSize : Z)
    (windows : list (pattern * Q * Q)) : list event :=
  flat_map (fun w => passTrace filePath (fst (fst w)) reporting
                       (snd (fst w)) (snd w) fileSize) windows.

(** The offset reached by a sequence of writes to [fd] with data [pat]
    that starts at [position], each write of positive length and
    beginning where the one before it ended; [None] when the sequence
    is not of that form. *)
Fixpoint contiguousFrom (fd : path) (pat : pattern) (position : Z)
    (writes : list syscall) : option Z :=
  match writes with
  | [] => Some position
  | WriteSync fd' pat' length position' :: rest =>
      if (fd' =? fd)%string
         && match pat, pat' with
            | Random, Random => true
            | Fixed a, Fixed b => a =? b
            | _, _ => false
            end
         && (position' =? position) && (0 <? length)
      then contiguousFrom fd pat (position + length) rest
      else None
  | _ => None
  end.

Definition sum (l : list Z) : Z := fold_right Z.add 0 l.

(** The [openSync] and [closeSync] calls attempted, with their outcome. *)
Definition opensOf (es : list event) : list (path * option errno) :=
  flat_map (fun ev => match ev with
                      | Sys (OpenSync p) r => [(p, r)]
                      | _ => []
                      end) es.

Definition closesOf (es : list event) : list (path * option errno) :=
  flat_map (fun ev => match ev with
                      | Sys (CloseSync p) r => [(p, r)]
                      | _ => []
                      end) es.

(** Neither an [openSync] nor a [closeSync] call. *)
Definition inner_event (ev : event) : Prop :=
  match ev with
  | Sys (OpenSync _) _ | Sys (CloseSync _) _ => False
  | _ => True
  end.

(** Not a request for entropy. *)
Definition not_entropy (ev : event) : Prop :=
  match ev with RandomBytes _ => False | _ => True end.

(** A check on the windows of a wipe: every window starts at a
    non-negative percentage and does not run backwards, the percentages
    a pass can report within a window lie between [lo] and [hi], and no
    window can report less than the window before it. *)
Fixpoint windowsAscend (lo : Z) (windows : list (pattern * Q * Q)) (hi : Z) : bool :=
  match windows with
  | [] => lo <=? hi
  | (_, s, e) :: rest =>
      let lower := JSNumber.round (JSNumber.fl s) in
      let upper := JSNumber.round
                     (JSNumber.add s (JSNumber.mul (JSNumber.sub e s) 1)) in
      Qle_bool 0 s && Qle_bool 0 (JSNumber.sub e s)
      && (lo <=? lower) && (lower <=? upper)
      && windowsAscend upper rest hi
  end.

End PassTrace.

(* ================================================================== *)
(** ** Further classes of events *)
(* ================================================================== *)

Module TraceClasses.

(** What looks at a file without changing it: [statSync], the
    [openSync]/[closeSync] pair of the lock test, and the logging of a
    failure. *)
Definition probe_event (ev : event) : Prop :=
  match ev with
  | Sys (StatSync _) _ | Sys (OpenSync _) _ | Sys (CloseSync _) _ => True
  | ConsoleError _ => True
  | _ => False
  end.

(** What the helpers around a shred emit: probes, the calls on the
    temporary directory (its creation, its listing, the removal of what
    lies in it and of the directory) and the entropy for its name. *)
Definition housekeeping (ev : event) : Prop :=
  match ev with
  | Sys (StatSync _) _ | Sys (OpenSync _) _ | Sys (CloseSync _) _
  | Sys (ReaddirSync _) _ | Sys (RmdirSync _) _ | Sys (MkdirSync _) _
  | Sys (UnlinkSync _) _ => True
  | RandomBytes _ => True
  | ConsoleError _ => True
  | _ => False
  end.

(** Not a rename. *)
Definition not_rename (ev : event) : Prop :=
  match ev with Sys (RenameSync _ _) _ => False | _ => True end.

(** Neither the start of a pass, nor a write, nor a flush. *)
Definition not_overwriting (ev : event) : Prop :=
  match ev with
  | Pass _ _ _ _ | Sys (WriteSync _ _ _ _) _ | Sys (FsyncSync _) _ => False
  | _ => True
  end.

(** Not a write or a flush that failed. *)
Definition written (ev : event) : Prop :=
  match ev with
  | Sys (WriteSync _ _ _ _) (Some _) | Sys (FsyncSync _) (Some _) => False
  | _ => True
  end.

(** What the static [shredFile] emits before its wipe: probes, the
    creation of the temporary directory and the entropy for its name. *)
Definition prepare_event (ev : event) : Prop :=
  match ev with
  | Sys (StatSync _) _ | Sys (OpenSync _) _ | Sys (CloseSync _) _
  | Sys (MkdirSync _) _ => True
  | RandomBytes _ => True
  | ConsoleError _ => True
  | _ => False
  end.

(** Not a [rmdirSync] call. *)
Definition not_rmdir (ev : event) : Prop :=
  match ev with Sys (RmdirSync _) _ => False | _ => True end.

(** Neither a rename nor an unlink. *)
Definition keeps_names (ev : event) : Prop :=
  match ev with
  | Sys (RenameSync _ _) _ | Sys (UnlinkSync _) _ => False
  | _ => True
  end.

(** What the survey of a tree emits: probes, listings and the logging
    of a failure. *)
Definition survey_event (ev : event) : Prop :=
  match ev with
  | Sys (StatSync _) _ | Sys (OpenSync _) _ | Sys (CloseSync _) _
  | Sys (ReaddirSync _) _ => True
  | ConsoleError _ => True
  | _ => False
  end.

(** Not a timer wait. *)
Definition not_yield (ev : event) : Prop :=
  match ev with Yield => False | _ => True end.

(** The number of timer waits in a trace. *)
Definition waitsOf (es : list event) : nat :=
  List.length (flat_map (fun ev => match ev with Yield => [tt] | _ => [] end) es).

(** A report to the caller. *)
Definition only_progress (ev : event) : Prop :=
  match ev with Progress _ => True | _ => False end.

(** What the deletion of a file name emits: the entropy for the new
    names, the renames and the unlink. *)
Definition name_event (ev : event) : Prop :=
  match ev with
  | RandomBytes _ | Sys (RenameSync _ _) _ | Sys (UnlinkSync _) _ => True
  | _ => False
  end.

(** Renames that all succeeded, the first one from [from] and each of
    the others from the name the one before it gave. *)
Fixpoint chained (from : path) (renames : list (path * path * option errno)) : bool :=
  match renames with
  | [] => true
  | (oldPath, newPath, r) :: rest =>
      (oldPath =? from)%string
      && match r with None => true | Some _ => false end
      && chained newPath rest
  end.

(** Renames attempted one after the other: each starts from the name
    the file has after the renames before it, and only the last one
    may have failed. *)
Fixpoint follows (from : path) (renames : list (path * path * option errno)) : bool :=
  match renames with
  | [] => true
  | (oldPath, newPath, r) :: rest =>
      (oldPath =? from)%string
      && match r with
         | None => follows newPath rest
         | Some _ => match rest with [] => true | _ :: _ => false end
         end
  end.

(** The [rmdirSync] calls attempted, with their outcome. *)
Definition rmdirsOf (es : list event) : list (path * option errno) :=
  flat_map (fun ev => match ev with
                      | Sys (RmdirSync p) r => [(p, r)]
                      | _ => []
                      end) es.

(** The failures logged with [console.error]. *)
Definition loggedOf (es : list event) : list error :=
  flat_map (fun ev => match ev with ConsoleError e => [e] | _ => [] end) es.

End TraceClasses.

(* ================================================================== *)
(** ** The callback of the traversal *)
(* ================================================================== *)

Module Traversal.


End Traversal.

(* ================================================================== *)
(** ** Further sample hosts *)
(* ================================================================== *)

Module Hosts.

(** A host on which no path exists. *)
Definition vacant : World := {|
  fails := fun _ _ => Some ENOENT;
  exists_ := fun _ _ => false;
  size_of := fun _ => 0%N;
  entropy := entropy (Sample.calm 0);
  tree := fun _ => Dir "" [];
  overflows := fun _ count => (100000 <? count)%N;
  join := Sample.posixJoin;
  dirname := Sample.posixDirname;
  extname := Sample.posixExtname;
  normalize := fun p => p;
  tmpdir := "/tmp"%string
|}.

End Hosts.

(* ================================================================== *)
(** ** Shapes of names *)
(* ================================================================== *)

Module Names.

(** A lower-case hexadecimal digit. *)
Definition isHexDigit (c : ascii) : bool :=
  let n := nat_of_ascii c in
  (((48 <=? n) && (n <=? 57)) || ((97 <=? n) && (n <=? 102)))%nat.

Fixpoint isHex (s : string) : bool :=
  match s with
  | EmptyString => true
  | String c r => isHexDigit c && isHex r
  end.

End Names.

(* ================================================================== *)
(** ** More of [Utils] (src/modules/utils.js) *)
(* ================================================================== *)

Module UtilsRest.

(** [crypto.timingSafeEqual(a, b)] on two buffers of the same length. *)
Fixpoint timingSafeEqual (a b : list byte) : bool :=
  match a, b with
  | [], [] => true
  | x :: a', y :: b' => Byte.eqb x y && timingSafeEqual a' b'
  | _, _ => false
  end.

(** The loop of the [catch] branch of [safeBufferCompare]:
    [for (i ...) if (a[i] !== b[i]) return false; return true]. *)
Fixpoint sameAt (a b : list byte) (positions : list nat) : bool :=
  match positions with
  | [] => true
  | i :: rest =>
      if negb (Byte.eqb (nth i a x00) (nth i b x00)) then false
      else sameAt a b rest
  end.

(** [safeBufferCompare(a, b)]; [supported] tells whether
    [crypto.timingSafeEqual] is there or throws, in which case the
    [catch] branch compares byte by byte. *)
Definition safeBufferCompare (supported : bool) (a b : list byte) : bool :=
  if negb (List.length a =? List.length b)%nat then false
  else if supported then timingSafeEqual a b
       else if negb (List.length a =? List.length b)%nat then false
            else sameAt a b (seq 0 (List.length a)).

(** [delay(ms)]: the wait on a timer; the trace does not record how
    long. *)
Definition delay (ms : Z) : M unit := emit Yield.

(** The loop of [retry] with [remaining] attempts after this one: the
    first result of [fn] is returned; a failure is followed by a wait
    and another attempt, and the failure of the last attempt is
    thrown. *)
Fixpoint retryLoop {A} (fn : M A) (delayMs : Z) (remaining : nat) : M A :=
  try_catch fn
    (fun error =>
       match remaining with
       | O => throw error
       | S fewer => delay delayMs ;;; retryLoop fn delayMs fewer
       end).

(** [retry(fn, maxRetries = 3, delayMs = 1000)], for [maxRetries >= 0]. *)
Definition retry {A} (fn : M A) (maxRetries : nat) (delayMs : Z) : M A :=
  retryLoop fn delayMs maxRetries.

Section WithWorld.

Variable W : World.

(** A call inside a [try] whose [catch] logs the failure and lets the
    function go on to its [return]: the result tells whether the call
    succeeded. *)
Definition guarded (c : syscall) : M bool :=
  try_catch (sys W c ;;; ret true)
    (fun error => emit (ConsoleError error) ;;; ret false).

(** [files.push(...subFiles)] inside the [try] of
    [getAllFilesInDirectory]: the engine refuses a call that spreads too
    many arguments with a [RangeError], which the [catch] logs; the
    result is [None] then, and the function goes on to its [return]. *)
Definition pushAll (files subFiles : list path) : M (option (list path)) :=
  fun h d =>
    let count := N.of_nat (List.length subFiles) in
    if overflows W h count
    then Out (inl None) [ConsoleError (TooManyArguments count)] d
    else Out (inl (Some (files ++ subFiles))) [] d.

(** What [getAllFilesInDirectory] does with one item whose [statSync]
    has succeeded: the path of a file is pushed; the files found below a
    directory are listed and pushed in one call.  The result is the new
    value of [files], or [None] when the [catch] was entered.  In a
    directory the listing ends at the first call that fails, with the
    files collected so far. *)
Fixpoint filesOf (itemPath : path) (n : node) (files : list path)
  : M (option (list path)) :=
  match n with
  | File _ => ret (Some (files ++ [itemPath]))
  | Dir _ subItems =>
      listed <- guarded (ReaddirSync itemPath) ;;
      subFiles <-
        (if negb listed then ret []
         else
           (fix collect (items : list node) (files : list path) : M (list path) :=
              match items with
              | [] => ret files
              | item :: rest =>
                  let subPath := join W itemPath (nodeName item) in
                  ok <- guarded (StatSync subPath) ;;
                  if negb ok then ret files
                  else
                    pushed <- filesOf subPath item files ;;
                    match pushed with
                    | None => ret files
                    | Some files => collect rest files
                    end
              end) subItems []) ;;
      pushAll files subFiles
  end.

(** The loop of [getAllFilesInDirectory] over the items of [dirPath]. *)
Fixpoint collect (dirPath : path) (items : list node) (files : list path)
  : M (list path) :=
  match items with
  | [] => ret files
  | item :: rest =>
      let itemPath := join W dirPath (nodeName item) in
      ok <- guarded (StatSync itemPath) ;;
      if negb ok then ret files
      else
        pushed <- filesOf itemPath item files ;;
        match pushed with
        | None => ret files
        | Some files => collect dirPath rest files
        end
  end.

(** [getAllFilesInDirectory(dirPath)]; [items] is what
    [readdirSync(dirPath)] lists, with what lies below. *)
Definition getAllFilesInDirectory (dirPath : path) (items : list node)
  : M (list path) :=
  listed <- guarded (ReaddirSync dirPath) ;;
  if negb listed then ret [] else collect dirPath items [].

(** [for (const file of files) totalSize += fs.statSync(file).size] *)
Fixpoint sumSizes (files : list path) (totalSize : Z) : M Z :=
  match files with
  | [] => ret totalSize
  | file :: rest =>
      sys W (StatSync file) ;;;
      sumSizes rest (totalSize + Z.of_N (size_of W file))
  end.

(** [calculateTotalSize(filePath)]; [target] is what lies at
    [filePath]. *)
Definition calculateTotalSize (filePath : path) (target : node) : M Z :=
  try_catch
    (sys W (StatSync filePath) ;;;
     match target with
     | File _ => ret (Z.of_N (size_of W filePath))
     | Dir _ items =>
         files <- getAllFilesInDirectory filePath items ;;
         sumSizes files 0
     end)
    (fun error => emit (ConsoleError error) ;;; ret 0).

(** The files of a tree in the order of the listing, as paths. *)
Fixpoint pathsOf (itemPath : path) (n : node) : list path :=
  match n with
  | File _ => [itemPath]
  | Dir _ subItems =>
      (fix below (items : list node) : list path :=
         match items with
         | [] => []
         | item :: rest =>
             pathsOf (join W itemPath (nodeName item)) item ++ below rest
         end) subItems
  end.

Fixpoint filesBelow (dirPath : path) (items : list node) : list path :=
  match items with
  | [] => []
  | item :: rest =>
      pathsOf (join W dirPath (nodeName item)) item ++ filesBelow dirPath rest
  end.

Definition sizesOf (files : list path) : Z :=
  fold_right (fun file total => Z.of_N (size_of W file) + total) 0 files.

End WithWorld.

End UtilsRest.

(* ================================================================== *)
(** ** The instance [shredFile] (fileShredder.js) *)
(* ================================================================== *)

Module Entry.

(** The errors [shredFile] throws itself. *)
Inductive rejection :=
| ValidationFailed (errors : list Utils.reason)
                                 (* '文件验证失败: ' + errors.join(', ') *)
| NotFound (p : path)            (* '文件不存在: ' + filePath *)
| LockedFile (p : path)          (* '文件被锁定，无法粉碎: ' + filePath *)
| TooLarge (originalSize : Z).   (* '文件过大，无法粉碎: ' + size *)

(** What leaves [shredFile] as an exception: one of its own errors, or
    the error of [shredDirectory] or [shredSingleFile], thrown again. *)
Inductive failure :=
| Rejected (r : rejection)
| Raised (e : error).

(** The object handed to [logger.logShredding], without its two time
    stamps. *)
Record shredInfo := {
  infoPath : path;
  originalSize : Z;
  succeeded : bool;                    (* result === 'success' *)
  failureReason : option failure
}.

(** How a call of [shredFile] ends: the exception it throws, if any,
    and the record its [finally] block has logged, if there is a
    logger. *)
Record completion := {
  thrown : option failure;
  logged : option shredInfo
}.

Definition children (target : node) : list node :=
  match target with
  | Dir _ items => items
  | File _ => []
  end.

Section WithWorld.

Variable W : World.

(** The checks of [shredFile] before it shreds: the value of
    [originalSize] when they end, and the error thrown by the check
    that failed. *)
Definition preflight (filePath : path) (target : node) (isDirectory : bool)
  : M (Z * option rejection) :=
  validation <- Utils.validateFilePath W filePath ;;
  if negb (Utils.isValid validation)
  then ret (0, Some (ValidationFailed (Utils.errors validation)))
  else
    found <- existsSync W filePath ;;
    if negb found then ret (0, Some (NotFound filePath))
    else
      locked <- Utils.isFileLocked W filePath ;;
      if locked then ret (0, Some (LockedFile filePath))
      else
        originalSize <- UtilsRest.calculateTotalSize W filePath target ;;
        if negb isDirectory && (FileShredder.maxFileSize <? originalSize)
        then ret (originalSize, Some (TooLarge originalSize))
        else ret (originalSize, None).

(** [async shredFile(filePath, isDirectory, progressCallback)].
    [logger] tells whether the shredder was built with a logger;
    [target] is what lies at [filePath].  The exception and the logged
    record are returned as values. *)
Definition shredFile (logger : bool) (filePath : path) (target : node)
    (isDirectory : bool) (progressCallback : option (Z -> M unit)) : M completion :=
  checked <- preflight filePath target isDirectory ;;
  let record (ok : bool) (reason : option failure) :=
    if logger
    then Some {| infoPath := filePath; originalSize := fst checked;
                 succeeded := ok; failureReason := reason |}
    else None in
  match snd checked with
  | Some r =>
      ret {| thrown := Some (Rejected r);
             logged := record false (Some (Rejected r)) |}
  | None =>
      try_catch
        ((if isDirectory
          then FileShredder.shredDirectory W filePath (children target) progressCallback
          else FileShredder.shredSingleFile W filePath progressCallback) ;;;
         ret {| thrown := None; logged := record true None |})
        (fun error =>
           ret {| thrown := Some (Raised error);
                  logged := record false (Some (Raised error)) |})
  end.

End WithWorld.

End Entry.

(* ================================================================== *)
(** ** Facts about the number model *)
(* ================================================================== *)

Module JSNumberFacts.
Import JSNumber.
Local Open Scope Q_scope.

Lemma two_neq0 : ~ 2 == 0.
Proof. discriminate. Qed.

Lemma pow2_pos (k : Z) : 0 < 2 ^ k.
Proof. apply Qpower_0_lt. reflexivity. Qed.

Lemma pow2_add (a b : Z) : 2 ^ (a + b) == 2 ^ a * 2 ^ b.
Proof. apply Qpower_plus, two_neq0. Qed.

Lemma pow2_le (a b : Z) : (a <= b)%Z -> 2 ^ a <= 2 ^ b.
Proof. intros H. apply Qpower_le_compat_l; [exact H | discriminate]. Qed.

Lemma pow2_lt_inv (a b : Z) : 2 ^ a < 2 ^ b -> (a < b)%Z.
Proof. intros H. apply Qpower_lt_compat_l_inv with (q := 2); [exact H | reflexivity]. Qed.

Lemma pow2_cancel (a : Z) : 2 ^ a * 2 ^ (- a) == 1.
Proof. rewrite <- pow2_add. replace (a + - a)%Z with 0%Z by ring. reflexivity. Qed.

Lemma pow2_inject (k : Z) : (0 <= k)%Z -> 2 ^ k == inject_Z (2 ^ k).
Proof. intros H. symmetry. apply (Zpower_Qpower 2 k H). Qed.

(** *** Nearest-even rounding to an integer *)

Lemma rne_bounds (q : Q) :
  (Qfloor q <= rne q <= Qfloor q + 1)%Z.
Proof.
  unfold rne. destruct (Qcompare _ _); [destruct (Z.even _)| |]; lia.
Qed.

Lemma rne_inject (n : Z) : rne (inject_Z n) = n.
Proof.
  unfold rne. rewrite Qfloor_Z.
  assert (E : inject_Z n - inject_Z n == 0) by ring.
  assert (C : Qcompare (inject_Z n - inject_Z n) (1 # 2) = Lt).
  { apply Qlt_alt. rewrite E. reflexivity. }
  now rewrite C.
Qed.

Lemma rne_compat (x y : Q) : x == y -> rne x = rne y.
Proof.
  intros E. unfold rne.
  assert (F : Qfloor x = Qfloor y) by (rewrite E; reflexivity).
  rewrite F.
  assert (C : Qcompare (x - inject_Z (Qfloor y)) (1 # 2)
            = Qcompare (y - inject_Z (Qfloor y)) (1 # 2)).
  { rewrite E. reflexivity. }
  rewrite C. reflexivity.
Qed.

Lemma rne_mono (x y : Q) : x <= y -> (rne x <= rne y)%Z.
Proof.
  intros H.
  pose proof (Qfloor_resp_le _ _ H) as Hf.
  pose proof (rne_bounds x) as Bx. pose proof (rne_bounds y) as By.
  destruct (Z.eq_dec (Qfloor x) (Qfloor y)) as [E|NE]; [| lia].
  unfold rne. rewrite E.
  assert (Hr : x - inject_Z (Qfloor y) <= y - inject_Z (Qfloor y)).
  { apply Qplus_le_compat; [exact H | apply Qle_refl]. }
  destruct (Qcompare_spec (x - inject_Z (Qfloor y)) (1 # 2)) as [Ex|Lx|Gx];
  destruct (Qcompare_spec (y - inject_Z (Qfloor y)) (1 # 2)) as [Ey|Ly|Gy];
    try (destruct (Z.even (Qfloor y))); try lia; exfalso; lra.
Qed.

Lemma rne_ge (n : Z) (q : Q) : inject_Z n <= q -> (n <= rne q)%Z.
Proof. intros H. rewrite <- (rne_inject n). now apply rne_mono. Qed.

Lemma rne_le (n : Z) (q : Q) : q <= inject_Z n -> (rne q <= n)%Z.
Proof. intros H. rewrite <- (rne_inject n). now apply rne_mono. Qed.


(** *** The binade of a positive rational *)

Lemma ilog2_spec (x : Q) :
  0 < x -> 2 ^ (ilog2 x) <= x /\ x < 2 ^ (ilog2 x + 1).
Proof.
  intros Hx. destruct x as [n d].
  assert (Hn : (0 < n)%Z).
  { unfold Qlt in Hx. simpl in Hx. lia. }
  unfold ilog2. cbn [Qnum Qden].
  set (ln := Z.log2 n). set (ld := Z.log2 (Zpos d)).
  destruct (Z.log2_spec n Hn) as [Ln Un]. fold ln in Ln, Un.
  destruct (Z.log2_spec (Zpos d) (Pos2Z.is_pos d)) as [Ld Ud]. fold ld in Ld, Ud.
  assert (Hln : (0 <= ln)%Z) by apply Z.log2_nonneg.
  assert (Hld : (0 <= ld)%Z) by apply Z.log2_nonneg.
  set (X := n # d) in *.
  set (dq := inject_Z (Zpos d)). set (nq := inject_Z n).
  assert (HX : X * dq == nq).
  { unfold X, dq, nq, Qeq, Qmult, inject_Z. simpl. rewrite Pos.mul_1_r. ring. }
  assert (Hdq : 0 < dq) by reflexivity.
  (* upper estimate *)
  assert (A : X < 2 ^ (ln - ld + 1)).
  { pose proof (pow2_pos (ln - ld + 1)) as HT.
    assert (HP : 2 ^ (ln - ld + 1) * 2 ^ ld == 2 ^ (ln + 1)).
    { rewrite <- pow2_add. replace (ln - ld + 1 + ld)%Z with (ln + 1)%Z by ring. reflexivity. }
    assert (H1 : nq < 2 ^ (ln + 1)).
    { rewrite pow2_inject by lia. unfold nq. rewrite <- Zlt_Qlt. lia. }
    assert (H2 : 2 ^ ld <= dq).
    { rewrite pow2_inject by lia. unfold dq. rewrite <- Zle_Qle. lia. }
    pose proof (pow2_pos ld) as H3.
    set (T := 2 ^ (ln - ld + 1)) in *. set (D := 2 ^ ld) in *.
    set (P := 2 ^ (ln + 1)) in *.
    destruct (Qlt_le_dec X T) as [|C]; [assumption|exfalso].
    assert (E1 : T * dq <= X * dq) by (apply Qmult_le_compat_r; lra).
    assert (E2 : T * D <= T * dq) by (apply Qmult_le_l; lra).
    lra. }
  (* lower estimate *)
  assert (B : 2 ^ (ln - ld - 1) < X).
  { pose proof (pow2_pos (ln - ld - 1)) as HT.
    assert (HP : 2 ^ (ln - ld - 1) * 2 ^ (ld + 1) == 2 ^ ln).
    { rewrite <- pow2_add. replace (ln - ld - 1 + (ld + 1))%Z with ln by ring. reflexivity. }
    assert (H1 : 2 ^ ln <= nq).
    { rewrite pow2_inject by lia. unfold nq. rewrite <- Zle_Qle. lia. }
    assert (H2 : dq < 2 ^ (ld + 1)).
    { rewrite pow2_inject by lia. unfold dq. rewrite <- Zlt_Qlt. lia. }
    set (S := 2 ^ (ln - ld - 1)) in *. set (D := 2 ^ (ld + 1)) in *.
    set (L := 2 ^ ln) in *.
    destruct (Qlt_le_dec S X) as [|C]; [assumption|exfalso].
    assert (E1 : X * dq <= S * dq) by (apply Qmult_le_compat_r; lra).
    assert (E2 : S * dq < S * D) by (apply Qmult_lt_l; lra).
    lra. }
  destruct (Qle_bool (2 ^ (ln - ld)) X) eqn:Q.
  - apply Qle_bool_iff in Q. split; assumption.
  - assert (Q' : X < 2 ^ (ln - ld)).
    { apply Qnot_le_lt. intros C. apply Qle_bool_iff in C. congruence. }
    replace (ln - ld - 1 + 1)%Z with (ln - ld)%Z by ring.
    split; [apply Qlt_le_weak; assumption | assumption].
Qed.

Lemma ilog2_mono (x y : Q) : 0 < x -> x <= y -> (ilog2 x <= ilog2 y)%Z.
Proof.
  intros Hx Hxy.
  assert (Hy : 0 < y) by lra.
  destruct (ilog2_spec Hx) as [Lx _]. destruct (ilog2_spec Hy) as [_ Uy].
  assert (H : 2 ^ ilog2 x < 2 ^ (ilog2 y + 1)) by lra.
  apply pow2_lt_inv in H. lia.
Qed.

(** *** Rounding to binary64 *)

Lemma mant_bounds (x : Q) :
  0 < x ->
  inject_Z (2 ^ 52) <= x * 2 ^ (52 - ilog2 x) /\
  x * 2 ^ (52 - ilog2 x) <= inject_Z (2 ^ 53).
Proof.
  intros Hx. destruct (ilog2_spec Hx) as [L U].
  set (e := ilog2 x) in *.
  pose proof (pow2_pos (52 - e)) as Hp.
  rewrite <- !pow2_inject by lia.
  assert (E1 : 2 ^ 52 == 2 ^ e * 2 ^ (52 - e)).
  { rewrite <- pow2_add. replace (e + (52 - e))%Z with 52%Z by ring. reflexivity. }
  assert (E2 : 2 ^ 53 == 2 ^ (e + 1) * 2 ^ (52 - e)).
  { rewrite <- pow2_add. replace (e + 1 + (52 - e))%Z with 53%Z by ring. reflexivity. }
  rewrite E1, E2. split; apply Qmult_le_compat_r; lra.
Qed.

Lemma fl_pos_bounds (x : Q) :
  0 < x -> 2 ^ (ilog2 x) <= fl_pos x /\ fl_pos x <= 2 ^ (ilog2 x + 1).
Proof.
  intros Hx. destruct (mant_bounds Hx) as [L U].
  unfold fl_pos. set (e := ilog2 x) in *.
  apply rne_ge in L. apply rne_le in U.
  set (m := rne (x * 2 ^ (52 - e))) in *.
  pose proof (pow2_pos (e - 52)) as Hp.
  assert (E1 : 2 ^ e == inject_Z (2 ^ 52) * 2 ^ (e - 52)).
  { rewrite <- pow2_inject by lia. rewrite <- pow2_add.
    replace (52 + (e - 52))%Z with e by ring. reflexivity. }
  assert (E2 : 2 ^ (e + 1) == inject_Z (2 ^ 53) * 2 ^ (e - 52)).
  { rewrite <- pow2_inject by lia. rewrite <- pow2_add.
    replace (53 + (e - 52))%Z with (e + 1)%Z by ring. reflexivity. }
  rewrite E1, E2.
  split; apply Qmult_le_compat_r; try lra; rewrite <- Zle_Qle; assumption.
Qed.

Lemma fl_pos_mono (x y : Q) : 0 < x -> x <= y -> fl_pos x <= fl_pos y.
Proof.
  intros Hx Hxy. assert (Hy : 0 < y) by lra.
  pose proof (ilog2_mono Hx Hxy) as He.
  destruct (Z.eq_dec (ilog2 x) (ilog2 y)) as [E|NE].
  - unfold fl_pos. rewrite E. set (e := ilog2 y).
    pose proof (pow2_pos (e - 52)) as Hp. pose proof (pow2_pos (52 - e)) as Hq.
    apply Qmult_le_compat_r; [|lra].
    rewrite <- Zle_Qle. apply rne_mono.
    apply Qmult_le_compat_r; lra.
  - destruct (fl_pos_bounds Hx) as [_ Ux]. destruct (fl_pos_bounds Hy) as [Ly _].
    assert (H : 2 ^ (ilog2 x + 1) <= 2 ^ ilog2 y) by (apply pow2_le; lia).
    lra.
Qed.

Lemma fl_nonneg (x : Q) : 0 <= x -> 0 <= fl x.
Proof.
  intros Hx. destruct x as [[|p|p] d]; unfold fl; cbn [Qnum].
  - lra.
  - rewrite Qred_correct.
    assert (H : 0 < Zpos p # d) by reflexivity.
    destruct (fl_pos_bounds H) as [L _]. pose proof (pow2_pos (ilog2 (Zpos p # d))). lra.
  - exfalso. unfold Qle in Hx. simpl in Hx. lia.
Qed.

(** Rounding is monotone: the property every progress computation of the
    engine relies on. *)
Lemma fl_mono (x y : Q) : 0 <= x -> x <= y -> fl x <= fl y.
Proof.
  intros Hx Hxy.
  destruct x as [[|p|p] d].
  - unfold fl at 1. cbn [Qnum]. apply fl_nonneg. lra.
  - destruct y as [[|q|q] c].
    + exfalso. unfold Qle in Hxy. simpl in Hxy. lia.
    + unfold fl. cbn [Qnum]. rewrite !Qred_correct.
      apply fl_pos_mono; [reflexivity | assumption].
    + exfalso. unfold Qle in Hxy. simpl in Hxy. lia.
  - exfalso. unfold Qle in Hx. simpl in Hx. lia.
Qed.

Lemma Qred_inject (n : Z) : Qred (inject_Z n) = inject_Z n.
Proof.
  unfold Qred, inject_Z.
  pose proof (Z.ggcd_gcd n 1) as G.
  pose proof (Z.ggcd_correct_divisors n 1) as D.
  destruct (Z.ggcd n 1) as [g [a b]]. simpl in G.
  rewrite Z.gcd_1_r in G. subst g. destruct D as [Da Db].
  rewrite Z.mul_1_l in Da, Db. subst a b. reflexivity.
Qed.

(** Integers below [2^53] are binary64 values. *)
Lemma fl_int (n : Z) : (0 <= n < 2 ^ 53)%Z -> fl (inject_Z n) = inject_Z n.
Proof.
  intros [H0 H1].
  destruct n as [|p|p]; [reflexivity| |lia].
  unfold fl. cbn [Qnum inject_Z].
  change (Zpos p # 1) with (inject_Z (Zpos p)).
  assert (Hx : 0 < inject_Z (Zpos p)) by reflexivity.
  assert (E : fl_pos (inject_Z (Zpos p)) == inject_Z (Zpos p)).
  { destruct (ilog2_spec Hx) as [L _].
    unfold fl_pos. set (e := ilog2 (inject_Z (Zpos p))) in *.
    assert (He : (e < 53)%Z).
    { apply pow2_lt_inv. eapply Qle_lt_trans; [exact L|].
      rewrite pow2_inject by lia. rewrite <- Zlt_Qlt. exact H1. }
    assert (M : inject_Z (Zpos p) * 2 ^ (52 - e)
                == inject_Z (Zpos p * 2 ^ (52 - e))).
    { rewrite inject_Z_mult, <- pow2_inject by lia. reflexivity. }
    rewrite (rne_compat M), rne_inject, inject_Z_mult.
    rewrite <- (pow2_inject (k := 52 - e)) by lia.
    rewrite <- Qmult_assoc, <- pow2_add.
    replace (52 - e + (e - 52))%Z with 0%Z by ring.
    change (2 ^ 0) with 1. ring. }
  rewrite (Qred_complete _ _ E). apply Qred_inject.
Qed.

Lemma fl_le_int (x : Q) (n : Z) :
  (0 <= n < 2 ^ 53)%Z -> 0 <= x -> x <= inject_Z n -> fl x <= inject_Z n.
Proof.
  intros Hn H0 H. rewrite <- (fl_int Hn). now apply fl_mono.
Qed.

Lemma fl_ge_int (x : Q) (n : Z) :
  (0 <= n < 2 ^ 53)%Z -> inject_Z n <= x -> inject_Z n <= fl x.
Proof.
  intros Hn H. rewrite <- (fl_int Hn) at 1. apply fl_mono; [|exact H].
  change 0 with (inject_Z 0). rewrite <- Zle_Qle. lia.
Qed.

Lemma ilog2_compat (x y : Q) : 0 < x -> x == y -> ilog2 x = ilog2 y.
Proof.
  intros Hx E. assert (Hy : 0 < y) by (rewrite <- E; exact Hx).
  apply Z.le_antisymm; apply ilog2_mono; try assumption; rewrite E; apply Qle_refl.
Qed.

Lemma fl_pos_compat (x y : Q) : 0 < x -> x == y -> fl_pos x == fl_pos y.
Proof.
  intros Hx E. unfold fl_pos. rewrite (ilog2_compat Hx E).
  assert (M : x * 2 ^ (52 - ilog2 y) == y * 2 ^ (52 - ilog2 y)) by (rewrite E; reflexivity).
  rewrite (rne_compat M). reflexivity.
Qed.

(** Rounding depends on the value only, not on the fraction that
    represents it. *)
Lemma fl_compat (x y : Q) : x == y -> fl x = fl y.
Proof.
  intros E. destruct x as [[|p|p] c], y as [[|q|q] e];
    try (exfalso; unfold Qeq in E; simpl in E; lia).
  - reflexivity.
  - unfold fl. cbn [Qnum]. apply Qred_complete, fl_pos_compat; [reflexivity | exact E].
  - unfold fl. cbn [Qnum]. apply Qred_complete.
    assert (E' : - (Zneg p # c) == - (Zneg q # e)) by (rewrite E; reflexivity).
    rewrite (fl_pos_compat (x := - (Zneg p # c)) (y := - (Zneg q # e))); [reflexivity | reflexivity | exact E'].
Qed.

Lemma div_self (n : Z) : (0 < n)%Z -> div (inject_Z n) (inject_Z n) = 1.
Proof.
  intros H. unfold div.
  assert (E : inject_Z n / inject_Z n == 1).
  { field. intros C. apply (inject_Z_injective n 0) in C. lia. }
  rewrite (fl_compat E). reflexivity.
Qed.

Lemma floor_mono (x y : Q) : x <= y -> (floor x <= floor y)%Z.
Proof. apply Qfloor_resp_le. Qed.

Lemma round_mono (x y : Q) : x <= y -> (round x <= round y)%Z.
Proof. intros H. unfold round. apply Qfloor_resp_le. lra. Qed.

Lemma round_int (n : Z) : round (inject_Z n) = n.
Proof.
  unfold round.
  assert (L : inject_Z n <= inject_Z n + (1 # 2)) by lra.
  assert (U : inject_Z n + (1 # 2) < inject_Z (n + 1)).
  { rewrite inject_Z_plus. change (inject_Z 1) with 1. lra. }
  apply Qfloor_resp_le in L. rewrite Qfloor_Z in L.
  pose proof (Qfloor_le (inject_Z n + (1 # 2))) as F.
  assert (F' : inject_Z (Qfloor (inject_Z n + (1 # 2))) < inject_Z (n + 1)) by lra.
  rewrite <- Zlt_Qlt in F'. lia.
Qed.

End JSNumberFacts.

(* ================================================================== *)
(** ** Reasoning about computations *)
(* ================================================================== *)

Section MonadFacts.

Context {A B : Type}.

Lemma bind_inl (m : M A) (k : A -> M B) h d a :
  result (m h d) = inl a ->
  bind m k h d =
    Out (result (k a (h ++ emitted (m h d)) (drawn (m h d))))
        (emitted (m h d) ++ emitted (k a (h ++ emitted (m h d)) (drawn (m h d))))
        (drawn (k a (h ++ emitted (m h d)) (drawn (m h d)))).
Proof. intros H. unfold bind. rewrite H. reflexivity. Qed.

Lemma bind_inr (m : M A) (k : A -> M B) h d e :
  result (m h d) = inr e ->
  bind m k h d = Out (inr e) (emitted (m h d)) (drawn (m h d)).
Proof. intros H. unfold bind. rewrite H. reflexivity. Qed.

(** A sequence succeeds exactly when both of its parts do. *)
Lemma bind_result_inl (m : M A) (k : A -> M B) h d b :
  result (bind m k h d) = inl b ->
  exists a, result (m h d) = inl a /\
            result (k a (h ++ emitted (m h d)) (drawn (m h d))) = inl b.
Proof.
  unfold bind. destruct (result (m h d)) as [a|e] eqn:R; cbn.
  - intros H. exists a. split; [reflexivity | exact H].
  - discriminate.
Qed.

Lemma sat_bind E X (m : M A) (k : A -> M B) :
  sat E X m -> (forall a, sat E X (k a)) -> sat E X (bind m k).
Proof.
  intros Hm Hk h d. destruct (Hm h d) as [Em Xm].
  unfold bind. destruct (result (m h d)) as [a|e] eqn:R; cbn.
  - destruct (Hk a (h ++ emitted (m h d)) (drawn (m h d))) as [Ek Xk].
    split; [apply Forall_app; split; assumption | exact Xk].
  - split; [exact Em | intros e' [= <-]; apply Xm; reflexivity].
Qed.

End MonadFacts.

Section MonadFacts1.

Context {A : Type}.

Lemma sat_ret E X (a : A) : sat E X (ret a).
Proof. intros h d. split; [constructor | discriminate]. Qed.

Lemma sat_throw E (X : error -> Prop) (e : error) : X e -> sat E X (@throw A e).
Proof. intros H h d. split; [constructor | intros e' [= <-]; exact H]. Qed.

Lemma sat_weaken (E E' : event -> Prop) (X X' : error -> Prop) (m : M A) :
  sat E X m ->
  (forall ev, E ev -> E' ev) -> (forall e, X e -> X' e) ->
  sat E' X' m.
Proof.
  intros H HE HX h d. destruct (H h d) as [He Hx]. split.
  - eapply Forall_impl; [exact HE | exact He].
  - intros e R. apply HX, Hx, R.
Qed.

Lemma sat_try_catch E X X' (m : M A) (handler : error -> M A) :
  sat E X' m -> (forall e, X' e -> sat E X (handler e)) ->
  sat E X (try_catch m handler).
Proof.
  intros Hm Hh h d. destruct (Hm h d) as [Em Xm].
  unfold try_catch. destruct (result (m h d)) as [a|e] eqn:R; cbn.
  - split; [exact Em | rewrite R; discriminate].
  - destruct (Hh e (Xm e eq_refl) (h ++ emitted (m h d)) (drawn (m h d))) as [Ek Xk].
    split; [apply Forall_app; split; assumption | exact Xk].
Qed.

Lemma sat_try_finally E X (m : M A) (cleanup : M unit) :
  sat E X m -> sat E X cleanup -> sat E X (try_finally m cleanup).
Proof.
  intros Hm Hc h d. destruct (Hm h d) as [Em Xm].
  destruct (Hc (h ++ emitted (m h d)) (drawn (m h d))) as [Ec Xc].
  unfold try_finally. cbn. split.
  - apply Forall_app; split; assumption.
  - destruct (result (cleanup _ _)) as [u|e'] eqn:R.
    + exact Xm.
    + intros e [= <-]. apply Xc. reflexivity.
Qed.

End MonadFacts1.

Lemma sat_emit E X (ev : event) : E ev -> sat E X (emit ev).
Proof. intros H h d. split; [repeat constructor; exact H | discriminate]. Qed.

Lemma sat_when E X (b : bool) (m : M unit) : sat E X m -> sat E X (when_ b m).
Proof. intros H. destruct b; [exact H | apply sat_ret]. Qed.

Lemma sat_sys W E (X : error -> Prop) (c : syscall) :
  (forall r, E (Sys c r)) -> (forall code, X (IOError c code)) ->
  sat E X (sys W c).
Proof.
  intros HE HX h d. unfold sys. destruct (fails W h c) as [code|]; cbn.
  - split; [repeat constructor; apply HE | intros e [= <-]; apply HX].
  - split; [repeat constructor; apply HE | discriminate].
Qed.

Lemma sat_existsSync W E X p : sat E X (existsSync W p).
Proof. intros h d. split; [constructor | discriminate]. Qed.

Lemma sat_randomBuffer E X n : E (RandomBytes n) -> sat E X (randomBuffer n).
Proof. intros H h d. split; [repeat constructor; exact H | discriminate]. Qed.

Lemma sat_randomBytes W E (X : error -> Prop) n :
  E (RandomBytes n) -> (sizeAccepted n = false -> X (SizeOutOfRange n)) ->
  sat E X (randomBytes W n).
Proof.
  intros H HX h d. unfold randomBytes. destruct (sizeAccepted n); cbn.
  - split; [repeat constructor; exact H | discriminate].
  - split; [constructor | intros e [= <-]; apply HX; reflexivity].
Qed.

(** A request within the accepted sizes returns its bytes. *)
Lemma randomBytes_run W n h d :
  sizeAccepted n = true ->
  randomBytes W n h d
  = Out (inl (map (fun i => entropy W (d + N.of_nat i)%N) (seq 0 (Z.to_nat n))))
        [RandomBytes n] (d + Z.to_N n)%N.
Proof. intros H. unfold randomBytes. rewrite H. reflexivity. Qed.

(** Induction over a tree and the lists of its children together. *)
Lemma node_list_ind (P : node -> Prop) (Q : list node -> Prop) :
  (forall name, P (File name)) ->
  (forall name children, Q children -> P (Dir name children)) ->
  Q [] ->
  (forall n l, P n -> Q l -> Q (n :: l)) ->
  (forall n, P n) /\ (forall l, Q l).
Proof.
  intros HF HD HN HC.
  assert (HP : forall n, P n).
  { fix IH 1. intros [name|name children].
    - apply HF.
    - apply HD. induction children as [|c cs IHcs]; [apply HN|].
      apply HC; [apply IH | apply IHcs]. }
  split; [exact HP|].
  induction l as [|c cs IHcs]; [apply HN | apply HC; [apply HP | exact IHcs]].
Qed.


Lemma sat_for_each {A} E X (xs : list A) (body : A -> M unit) :
  (forall x, sat E X (body x)) -> sat E X (for_each xs body).
Proof.
  intros H. induction xs as [|x xs IH]; cbn.
  - apply sat_ret.
  - apply sat_bind; [apply H | intros _; exact IH].
Qed.

Lemma sat_call_report E X b v :
  (forall n, E (Progress n)) -> sat E X (call_if (callback b) v).
Proof.
  intros H. destruct b; cbn.
  - apply sat_emit, H.
  - apply sat_ret.
Qed.

(** Side conditions on single events and errors: they follow from the
    class of events (errors) the predicate is assumed to contain. *)
Ltac sat_leaf :=
  cbn;
  first
    [ exact I
    | assumption
    | match goal with
      | H : forall x, _ -> ?P x |- ?P _ => apply H; cbn; exact I
      end
    | tauto
    | discriminate
    | idtac ].

(** Running a computation piece by piece. *)

Lemma run_bind {A B} (m : M A) (k : A -> M B) h d a es1 d1 r es2 d2 :
  m h d = Out (inl a) es1 d1 ->
  k a (h ++ es1) d1 = Out r es2 d2 ->
  bind m k h d = Out r (es1 ++ es2) d2.
Proof. intros Hm Hk. unfold bind. rewrite Hm. cbn. rewrite Hk. reflexivity. Qed.

Lemma run_bind_emitted {A B} (m : M A) (k : A -> M B) h d a es1 d1 :
  m h d = Out (inl a) es1 d1 ->
  emitted (bind m k h d) = es1 ++ emitted (k a (h ++ es1) d1).
Proof. intros Hm. unfold bind. rewrite Hm. reflexivity. Qed.

Lemma run_bind_fail {A B} (m : M A) (k : A -> M B) h d e es1 d1 :
  m h d = Out (inr e) es1 d1 ->
  bind m k h d = Out (inr e) es1 d1.
Proof. intros Hm. unfold bind. rewrite Hm. reflexivity. Qed.

Lemma run_finally {A} (m : M A) (cleanup : M unit) h d r es1 d1 u es2 d2 :
  m h d = Out r es1 d1 ->
  cleanup (h ++ es1) d1 = Out (inl u) es2 d2 ->
  try_finally m cleanup h d = Out r (es1 ++ es2) d2.
Proof. intros Hm Hc. unfold try_finally. rewrite Hm. cbn. rewrite Hc. reflexivity. Qed.

Lemma run_catch_ok {A} (m : M A) handler h d a es1 d1 :
  m h d = Out (inl a) es1 d1 ->
  try_catch m handler h d = Out (inl a) es1 d1.
Proof. intros Hm. unfold try_catch. rewrite Hm. reflexivity. Qed.

Lemma run_catch_fail {A} (m : M A) handler h d e es1 d1 r es2 d2 :
  m h d = Out (inr e) es1 d1 ->
  handler e (h ++ es1) d1 = Out r es2 d2 ->
  try_catch m handler h d = Out r (es1 ++ es2) d2.
Proof. intros Hm Hk. unfold try_catch. rewrite Hm. cbn. rewrite Hk. reflexivity. Qed.

Lemma sys_ok W c h d :
  fails W h c = None -> sys W c h d = Out (inl tt) [Sys c None] d.
Proof. intros F. unfold sys. rewrite F. reflexivity. Qed.

Lemma sys_fail W c h d code :
  fails W h c = Some code ->
  sys W c h d = Out (inr (IOError c code)) [Sys c (Some code)] d.
Proof. intros F. unfold sys. rewrite F. reflexivity. Qed.

Lemma sys_run W c h d :
  sys W c h d = Out (inl tt) [Sys c None] d \/
  exists code, sys W c h d = Out (inr (IOError c code)) [Sys c (Some code)] d.
Proof.
  unfold sys. destruct (fails W h c) as [code|]; [right; exists code|left]; reflexivity.
Qed.

Lemma statSize_run W p h d :
  statSize W p h d = Out (inl (Z.of_N (size_of W p))) [Sys (StatSync p) None] d \/
  exists code,
    statSize W p h d = Out (inr (IOError (StatSync p) code)) [Sys (StatSync p) (Some code)] d.
Proof.
  unfold statSize.
  destruct (sys_run W (StatSync p) h d) as [R|[code R]].
  - left. erewrite run_bind; [|exact R|reflexivity]. reflexivity.
  - right. exists code. erewrite run_bind_fail; [|exact R]. reflexivity.
Qed.

(** One class of events (or errors) lies within another. *)
Ltac class_incl :=
  let x := fresh "x" in
  let H := fresh "H" in
  intros x H; destruct x; cbn in H |- *;
  try contradiction; try exact I; try assumption;
  try (let C := fresh "C" in intros C; discriminate C).

(** Structural decomposition of a [sat] goal. *)
Ltac sat_step :=
  lazymatch goal with
  | |- sat _ _ (bind _ _) => apply sat_bind; [| intros ?]
  | |- sat _ _ (ret _) => apply sat_ret
  | |- sat _ _ (emit _) => apply sat_emit; sat_leaf
  | |- sat _ _ (when_ _ _) => apply sat_when
  | |- sat _ _ (sys _ _) => apply sat_sys; intros; sat_leaf
  | |- sat _ _ (existsSync _ _) => apply sat_existsSync
  | |- sat _ _ (randomBuffer _) => apply sat_randomBuffer; sat_leaf
  | |- sat _ _ (randomBytes _ _) =>
      apply sat_randomBytes;
      [ sat_leaf
      | first [ let C := fresh "C" in
                intros C; change (true = false) in C; discriminate C
              | intros _; sat_leaf;
                try match goal with
                    | H : forall n, ?X (SizeOutOfRange n) |- ?X (SizeOutOfRange _) =>
                        apply H
                    end ] ]
  | |- sat _ _ (try_finally _ _) => apply sat_try_finally
  | |- sat _ _ (for_each _ _) => apply sat_for_each; intros ?
  | |- sat _ _ (throw _) => apply sat_throw; sat_leaf
  | |- sat _ _ (if ?b then _ else _) => destruct b
  | |- sat _ _ (match ?x with _ => _ end) => destruct x
  end.

Ltac sat_auto := repeat sat_step.

(** Computations that agree on every history are interchangeable. *)
Lemma bind_ext {A B} (m : M A) (k k' : A -> M B) h d :
  (forall a h' d', k a h' d' = k' a h' d') -> bind m k h d = bind m k' h d.
Proof.
  intros H. unfold bind. destruct (result (m h d)); [now rewrite H | reflexivity].
Qed.

Lemma bind_cong {A B} (m m' : M A) (k : A -> M B) h d :
  m h d = m' h d -> bind m k h d = bind m' k h d.
Proof. intros H. unfold bind. now rewrite H. Qed.

Lemma try_catch_cong {A} (m m' : M A) handler h d :
  m h d = m' h d -> try_catch m handler h d = try_catch m' handler h d.
Proof. intros H. unfold try_catch. now rewrite H. Qed.

Lemma sat_pointwise {A} E X (m m' : M A) :
  (forall h d, m h d = m' h d) -> sat E X m' -> sat E X m.
Proof. intros H S h d. rewrite H. apply S. Qed.

(** Projections of traces that hold only events of another kind. *)

Lemma progressOf_app a b : progressOf (a ++ b) = progressOf a ++ progressOf b.
Proof. apply flat_map_app. Qed.

Lemma passesOf_app a b : passesOf (a ++ b) = passesOf a ++ passesOf b.
Proof. apply flat_map_app. Qed.

Lemma patternsOf_app a b : patternsOf (a ++ b) = patternsOf a ++ patternsOf b.
Proof. unfold patternsOf. rewrite passesOf_app. apply map_app. Qed.

Lemma writesOf_app a b : writesOf (a ++ b) = writesOf a ++ writesOf b.
Proof. apply flat_map_app. Qed.

Lemma renamesOf_app a b : renamesOf (a ++ b) = renamesOf a ++ renamesOf b.
Proof. apply flat_map_app. Qed.

Lemma unlinksOf_app a b : unlinksOf (a ++ b) = unlinksOf a ++ unlinksOf b.
Proof. apply flat_map_app. Qed.

Lemma entropyRequests_app a b :
  entropyRequests (a ++ b) = entropyRequests a ++ entropyRequests b.
Proof. apply flat_map_app. Qed.

Lemma passesOf_none es : Forall not_pass es -> passesOf es = [].
Proof.
  induction 1 as [|ev es H _ IH]; [reflexivity|].
  destruct ev; cbn in *; try exact IH. contradiction.
Qed.

Lemma patternsOf_none es : Forall not_pass es -> patternsOf es = [].
Proof. intros H. unfold patternsOf. now rewrite passesOf_none. Qed.

Lemma progressOf_none es : Forall not_progress es -> progressOf es = [].
Proof.
  induction 1 as [|ev es H _ IH]; [reflexivity|].
  destruct ev; cbn in *; try exact IH. contradiction.
Qed.

(* ================================================================== *)
(** ** What each function emits and throws *)
(* ================================================================== *)

Module Shape.
Import Utils FileShredder.

Section WithWorld.

Variable W : World.

Lemma isFileLocked_sat (E : event -> Prop) (X : error -> Prop) p :
  (forall ev, plain_event ev -> E ev) -> sat E X (isFileLocked W p).
Proof.
  intros HE. unfold isFileLocked.
  apply sat_try_catch with (X' := fun _ => True).
  - sat_auto.
  - intros e _. sat_auto.
Qed.

Lemma validateFilePath_sat (E : event -> Prop) (X : error -> Prop) p :
  (forall ev, plain_event ev -> E ev) -> sat E X (validateFilePath W p).
Proof.
  intros HE. unfold validateFilePath, pathExists, invalid.
  destruct (isBlank p); [apply sat_ret|].
  apply sat_bind; [apply sat_existsSync|]. intros found.
  destruct (negb found); [apply sat_ret|].
  destruct (isSystemCriticalFile W p); [apply sat_ret|].
  apply sat_bind; [apply isFileLocked_sat, HE|]. intros locked.
  destruct locked; [apply sat_ret|].
  destruct (260 <? utf16Length p)%nat; apply sat_ret.
Qed.

Lemma console_handler_sat {A} (E : event -> Prop) (X : error -> Prop) (a : A) e :
  (forall ev, utils_event ev -> E ev) -> is_io_error e ->
  sat E X (emit (ConsoleError e) ;;; ret a).
Proof.
  intros HE He. destruct e; try contradiction.
  apply sat_bind; [apply sat_emit, HE; exact I | intros _; apply sat_ret].
Qed.

Lemma ensureDirectoryExists_sat (E : event -> Prop) (X : error -> Prop) p :
  (forall ev, utils_event ev -> E ev) -> sat E X (ensureDirectoryExists W p).
Proof.
  intros HE. unfold ensureDirectoryExists.
  apply sat_try_catch with (X' := is_io_error).
  - sat_auto.
  - intros e He. now apply console_handler_sat.
Qed.

Lemma createSecureTempDir_sat (E : event -> Prop) (X : error -> Prop) :
  (forall ev, utils_event ev -> E ev) -> sat E X (createSecureTempDir W).
Proof.
  intros HE. unfold createSecureTempDir, generateRandomString.
  apply sat_try_catch with (X' := is_io_error).
  - apply sat_bind; [sat_auto|]. intros name.
    apply sat_bind; [apply ensureDirectoryExists_sat, HE|]. intros created.
    sat_auto.
  - intros e He. now apply console_handler_sat.
Qed.

(** The local recursion of [safeDelete] over the items of a directory
    is [deleteAll]. *)
Lemma deleteAll_local targetPath items h d :
  (fix deleteAll (items : list node) : M unit :=
     match items with
     | [] => ret tt
     | item :: rest =>
         safeDelete W (join W targetPath (nodeName item)) item ;;;
         deleteAll rest
     end) items h d
  = deleteAll W targetPath items h d.
Proof.
  revert h d. induction items as [|item rest IH]; intros h d.
  - reflexivity.
  - cbn [deleteAll]. apply bind_ext. intros _ h1 d1. apply IH.
Qed.

Lemma safeDelete_dir targetPath name items h d :
  safeDelete W targetPath (Dir name items) h d
  = try_catch
      (found <- existsSync W targetPath ;;
       if negb found then ret true
       else
         sys W (StatSync targetPath) ;;;
         sys W (ReaddirSync targetPath) ;;;
         deleteAll W targetPath items ;;;
         sys W (RmdirSync targetPath) ;;;
         ret true)
      (fun error => emit (ConsoleError error) ;;; ret false) h d.
Proof.
  cbn [safeDelete]. apply try_catch_cong.
  apply bind_ext. intros found h1 d1. destruct (negb found); [reflexivity|].
  apply bind_ext. intros _ h2 d2.
  apply bind_ext. intros _ h3 d3.
  apply bind_cong. apply deleteAll_local.
Qed.

Lemma safeDelete_all_sat (E : event -> Prop) :
  (forall ev, utils_event ev -> E ev) ->
  (forall n p, sat E never (safeDelete W p n)) /\
  (forall l p, sat E never (deleteAll W p l)).
Proof.
  intros HE. apply node_list_ind.
  - intros name p. cbn [safeDelete].
    apply sat_try_catch with (X' := is_io_error).
    + sat_auto.
    + intros e He. now apply console_handler_sat.
  - intros name items IH p.
    apply sat_pointwise with (1 := safeDelete_dir p name items).
    apply sat_try_catch with (X' := is_io_error).
    + apply sat_bind; [apply sat_existsSync|]. intros found.
      destruct (negb found); [apply sat_ret|].
      apply sat_bind; [sat_auto|]. intros _.
      apply sat_bind; [sat_auto|]. intros _.
      apply sat_bind.
      * eapply sat_weaken; [apply IH | trivial | intros e []].
      * intros _. sat_auto.
    + intros e He. now apply console_handler_sat.
  - intros p. apply sat_ret.
  - intros n l IHn IHl p. cbn [deleteAll].
    apply sat_bind; [apply IHn | intros _; apply IHl].
Qed.

Lemma safeDelete_sat (E : event -> Prop) (X : error -> Prop) p n :
  (forall ev, utils_event ev -> E ev) -> sat E X (safeDelete W p n).
Proof.
  intros HE. eapply sat_weaken;
    [apply (proj1 (safeDelete_all_sat E HE)) | trivial | intros e []].
Qed.

Lemma cleanupTempDir_sat (E : event -> Prop) (X : error -> Prop) p :
  (forall ev, utils_event ev -> E ev) -> sat E X (cleanupTempDir W p).
Proof.
  intros HE. unfold cleanupTempDir, pathExists.
  apply sat_try_catch with (X' := is_io_error).
  - apply sat_bind; [apply sat_existsSync|]. intros found.
    destruct (_ || _); [apply sat_ret | apply safeDelete_sat, HE].
  - intros e He. now apply console_handler_sat.
Qed.

(** One overwrite pass. *)
Lemma writeChunk_sat (E : event -> Prop) (X : error -> Prop) fd pat cb s e buf size i :
  (forall ev, body_event ev -> E ev) ->
  (forall er, pass_error er -> X er) ->
  (forall v, sat E X (call_if cb v)) ->
  sat E X (writeChunk W fd pat cb s e buf size i).
Proof.
  intros HE HX Hcb. unfold writeChunk, generateSecureRandomData.
  sat_auto; apply Hcb.
Qed.

Lemma passBody_sat (E : event -> Prop) (X : error -> Prop) p pat cb s e :
  (forall ev, body_event ev -> E ev) ->
  (forall er, pass_error er -> X er) ->
  (forall v, sat E X (call_if cb v)) ->
  sat E X (passBody W p pat cb s e).
Proof.
  intros HE HX Hcb. unfold passBody, overwriteSized, statSize, generateSecureRandomData.
  sat_auto; now apply writeChunk_sat.
Qed.

Lemma overwrite_sat (E : event -> Prop) (X : error -> Prop) p pat cb s e :
  (forall ev, pass_event ev -> E ev) ->
  (forall er, pass_error er -> X er) ->
  (forall v, sat E X (call_if cb v)) ->
  sat E X (overwriteFileWithPattern W p pat cb s e).
Proof.
  intros HE HX Hcb. unfold overwriteFileWithPattern.
  apply sat_bind; [apply sat_emit, HE; exact I | intros _].
  apply passBody_sat; try assumption.
  intros ev Hev. apply HE. revert ev Hev. class_incl.
Qed.

Lemma wipeLoop_sat (E : event -> Prop) (X : error -> Prop) p cb total i pats :
  (forall ev, pass_event ev -> E ev) ->
  (forall er, pass_error er -> X er) ->
  (forall v, sat E X (call_if cb v)) ->
  sat E X (wipeLoop W p cb total i pats).
Proof.
  intros HE HX Hcb. revert i. induction pats as [|pat pats IH]; intros i; cbn.
  - apply sat_ret.
  - apply sat_bind; [now apply overwrite_sat | intros _; apply IH].
Qed.

Lemma renameShrinking_sat (E : event -> Prop) (X : error -> Prop) dir ext cur steps :
  (forall ev, plain_event ev -> E ev) ->
  (forall n, X (SizeOutOfRange n)) ->
  sat E X (renameShrinking W dir ext cur steps).
Proof.
  intros HE HX. revert cur. induction steps as [|i steps IH]; intros cur; cbn.
  - apply sat_ret.
  - unfold randomHex.
    apply sat_bind; [sat_auto|]. intros name.
    apply sat_bind.
    + apply sat_try_catch with (X' := fun _ => True); [sat_auto | intros; sat_auto].
    + intros renamed. destruct renamed; [apply IH | apply sat_ret].
Qed.

Lemma secureDeleteFileName_sat (E : event -> Prop) (X : error -> Prop) p :
  (forall ev, plain_event ev -> E ev) -> sat E X (secureDeleteFileName W p).
Proof.
  intros HE. unfold secureDeleteFileName.
  apply sat_try_catch with (X' := fun _ => True); [|intros; sat_auto].
  apply sat_bind; [apply renameShrinking_sat; [exact HE | trivial]|]. intros cur.
  apply sat_try_catch with (X' := fun _ => True); [sat_auto | intros; sat_auto].
Qed.

Lemma renameFixed_sat (E : event -> Prop) (X : error -> Prop) dir cur steps :
  (forall ev, plain_event ev -> E ev) ->
  (forall a b code, X (IOError (RenameSync a b) code)) ->
  sat E X (renameFixed W dir cur steps).
Proof.
  intros HE HX. revert cur. induction steps as [|i steps IH]; intros cur; cbn.
  - apply sat_ret.
  - unfold generateSecureRandomHex, randomHex.
    apply sat_bind; [sat_auto|]. intros name.
    apply sat_bind; [apply sat_sys; intros; [apply HE; exact I | apply HX]|].
    intros _. apply IH.
Qed.

Lemma renameAndUnlink_sat (E : event -> Prop) (X : error -> Prop) p :
  (forall ev, plain_event ev -> E ev) ->
  (forall er, is_io_error er -> X er) ->
  sat E X (renameAndUnlink W p).
Proof.
  intros HE HX. unfold renameAndUnlink.
  apply sat_bind.
  - apply renameFixed_sat; [exact HE | intros; apply HX; exact I].
  - intros lastPath. apply sat_sys; intros; [apply HE | apply HX]; exact I.
Qed.

Lemma pass_error_io er : pass_error er -> is_io_error er.
Proof. destruct er; try contradiction. intros _. exact I. Qed.

Lemma pass_plain ev : pass_event ev -> not_progress ev.
Proof. destruct ev; try contradiction; intros _; exact I. Qed.

Lemma wipeByMethod_sat (E : event -> Prop) (X : error -> Prop) method p cb :
  (forall ev, pass_event ev -> E ev) ->
  (forall er, pass_error er -> X er) ->
  X UnknownMethod ->
  (forall v, sat E X (call_if cb v)) ->
  sat E X (wipeByMethod W method p cb).
Proof.
  intros HE HX HU Hcb.
  unfold wipeByMethod, performQuickWipe, performDoDWipe, performDoDWipeInternal,
    performGutmannWipe.
  destruct (method =? "quick")%string; [now apply overwrite_sat|].
  destruct (method =? "dod")%string; [now apply wipeLoop_sat|].
  destruct (method =? "gutmann")%string; [now apply wipeLoop_sat|].
  apply sat_throw, HU.
Qed.

Lemma shredSingleFile_sat (E : event -> Prop) (X : error -> Prop) p cb :
  (forall ev, pass_event ev -> E ev) ->
  (forall ev, plain_event ev -> E ev) ->
  (forall er, pass_error er -> X er) ->
  X (FileNotFound p) ->
  (forall v, sat E X (call_if cb v)) ->
  sat E X (shredSingleFile W p cb).
Proof.
  intros HE HP HX HN Hcb. unfold shredSingleFile, performDoDWipe, performDoDWipeInternal.
  apply sat_bind; [apply sat_existsSync|]. intros found.
  destruct (negb found); [apply sat_throw, HN|].
  apply sat_bind; [now apply wipeLoop_sat|]. intros _.
  now apply secureDeleteFileName_sat.
Qed.

End WithWorld.

End Shape.

(* ================================================================== *)
(** ** The progress reported by overwrite passes *)
(* ================================================================== *)

Module Passes.
Import Utils FileShredder.

Lemma emitted_bind {A B} (m : M A) (k : A -> M B) h d :
  emitted (bind m k h d) =
  emitted (m h d) ++
  match result (m h d) with
  | inl a => emitted (k a (h ++ emitted (m h d)) (drawn (m h d)))
  | inr _ => []
  end.
Proof.
  unfold bind. destruct (result (m h d)); cbn; [reflexivity | now rewrite app_nil_r].
Qed.

Lemma silent_progress {A} (m : M A) h d :
  sat not_progress (fun _ => True) m -> progressOf (emitted (m h d)) = [].
Proof. intros H. apply progressOf_none, (H h d). Qed.

Lemma silent_passes {A} (m : M A) h d :
  sat not_pass (fun _ => True) m -> passesOf (emitted (m h d)) = [].
Proof. intros H. apply passesOf_none, (H h d). Qed.

Lemma progress_bind_l {A B} (m : M A) (k : A -> M B) h d :
  sat not_progress (fun _ => True) m ->
  progressOf (emitted (bind m k h d)) =
  match result (m h d) with
  | inl a => progressOf (emitted (k a (h ++ emitted (m h d)) (drawn (m h d))))
  | inr _ => []
  end.
Proof.
  intros H. rewrite emitted_bind, progressOf_app, (silent_progress h d H).
  destruct (result (m h d)); reflexivity.
Qed.

Lemma progress_bind_r {A B} (m : M A) (k : A -> M B) h d :
  (forall a, sat not_progress (fun _ => True) (k a)) ->
  progressOf (emitted (bind m k h d)) = progressOf (emitted (m h d)).
Proof.
  intros H. rewrite emitted_bind, progressOf_app.
  destruct (result (m h d)) as [a|e].
  - rewrite (silent_progress _ _ (H a)). apply app_nil_r.
  - apply app_nil_r.
Qed.

Lemma progressOf_map l : progressOf (map Progress l) = l.
Proof.
  induction l as [|x l IH]; [reflexivity|].
  change (x :: progressOf (map Progress l) = x :: l). now rewrite IH.
Qed.

Lemma reports_callback : reports (fun v => [v]) (callback true).
Proof. intros v h d. reflexivity. Qed.

Lemma reports_none : reports (fun _ => []) (callback false).
Proof. intros v h d. reflexivity. Qed.

Section WithWorld.

Variable W : World.

(** A chunk reports once, after its write succeeded. *)
Lemma writeChunk_progress g cb fd pat s e buf size i h d :
  reports g cb ->
  (result (writeChunk W fd pat cb s e buf size i h d) = inl tt /\
   progressOf (emitted (writeChunk W fd pat cb s e buf size i h d))
   = g (chunkProgress s e i buf size)) \/
  ((exists er, result (writeChunk W fd pat cb s e buf size i h d) = inr er) /\
   progressOf (emitted (writeChunk W fd pat cb s e buf size i h d)) = []).
Proof.
  intros Hcb. unfold writeChunk.
  rewrite progress_bind_l by (unfold generateSecureRandomData; sat_auto).
  set (gen := match pat with Random => _ | Fixed _ => _ end).
  assert (Hgen : result (gen h d) = inl tt) by (subst gen; destruct pat; reflexivity).
  rewrite Hgen. rewrite (bind_inl _ _ _ _ Hgen). cbn [result].
  set (h1 := h ++ emitted (gen h d)). set (d1 := drawn (gen h d)).
  set (c := WriteSync fd pat buf (i * buf)).
  destruct (fails W h1 c) as [code|] eqn:F.
  - right.
    assert (R : result (sys W c h1 d1) = inr (IOError c code))
      by (unfold sys; rewrite F; reflexivity).
    rewrite (bind_inr _ _ _ _ R). cbn [result emitted].
    split; [eexists; reflexivity|].
    unfold sys. rewrite F. reflexivity.
  - left.
    assert (R : sys W c h1 d1 = Out (inl tt) [Sys c None] d1)
      by (unfold sys; rewrite F; reflexivity).
    unfold bind. rewrite R. cbn [result emitted drawn]. rewrite !Hcb.
    cbn [result emitted drawn]. split.
    + destruct (i mod 10 =? 0)%Z; reflexivity.
    + rewrite !progressOf_app, progressOf_map.
      destruct (i mod 10 =? 0)%Z; cbn; apply app_nil_r.
Qed.

(** The loop over the full buffers reports chunk by chunk, up to the
    first failing write. *)
Lemma chunks_progress g cb fd pat s e buf size idx h d :
  reports g cb ->
  exists k,
    progressOf (emitted (for_each idx (writeChunk W fd pat cb s e buf size) h d))
    = flat_map g (firstn k (map (fun i => chunkProgress s e i buf size) idx)) /\
    (result (for_each idx (writeChunk W fd pat cb s e buf size) h d) = inl tt ->
     firstn k (map (fun i => chunkProgress s e i buf size) idx)
     = map (fun i => chunkProgress s e i buf size) idx).
Proof.
  intros Hcb. revert h d. induction idx as [|i idx IH]; intros h d.
  - exists O. split; reflexivity.
  - cbn [for_each]. rewrite emitted_bind, progressOf_app.
    destruct (writeChunk_progress fd pat s e buf size i h d Hcb)
      as [[R P]|[[er R] P]].
    + rewrite P, R.
      destruct (IH (h ++ emitted (writeChunk W fd pat cb s e buf size i h d))
                   (drawn (writeChunk W fd pat cb s e buf size i h d)))
        as [k [Pk Rk]].
      exists (S k). split.
      * cbn. rewrite Pk. reflexivity.
      * intros Hr. cbn. f_equal. apply Rk.
        rewrite (bind_inl _ _ _ _ R) in Hr. exact Hr.
    + rewrite P, R. exists O. split; [reflexivity|].
      intros Hr. rewrite (bind_inr _ _ _ _ R) in Hr. discriminate.
Qed.

Lemma try_finally_progress {A} (m : M A) (cleanup : M unit) h d :
  sat not_progress (fun _ => True) cleanup ->
  progressOf (emitted (try_finally m cleanup h d)) = progressOf (emitted (m h d)).
Proof.
  intros H. unfold try_finally. cbn [emitted].
  rewrite progressOf_app, (silent_progress _ _ H). apply app_nil_r.
Qed.

Lemma try_finally_inl {A} (m : M A) (cleanup : M unit) h d a :
  result (try_finally m cleanup h d) = inl a -> result (m h d) = inl a.
Proof.
  unfold try_finally. cbn [result].
  destruct (result (cleanup _ _)); [trivial | discriminate].
Qed.

(** A pass reports the percentages of its full buffers in order, up
    to the first failure; all of them when it returns. *)
Lemma passBody_progress g cb p pat s e h d :
  reports g cb ->
  exists k,
    progressOf (emitted (passBody W p pat cb s e h d))
    = flat_map g (firstn k (chunkValues s e (Z.of_N (size_of W p)))) /\
    (result (passBody W p pat cb s e h d) = inl tt ->
     firstn k (chunkValues s e (Z.of_N (size_of W p)))
     = chunkValues s e (Z.of_N (size_of W p))).
Proof.
  intros Hcb. unfold passBody, overwriteSized, statSize.
  set (size := Z.of_N (size_of W p)).
  set (stat := sys W (StatSync p) ;;; ret size).
  rewrite progress_bind_l by (subst stat; sat_auto).
  destruct (result (stat h d)) as [sz|er] eqn:R1.
  2:{ exists O. split; [reflexivity|]. rewrite (bind_inr _ _ _ _ R1). discriminate. }
  assert (sz = size) as ->.
  { subst stat. apply bind_result_inl in R1. destruct R1 as [u [_ R]].
    cbn in R. congruence. }
  rewrite (bind_inl _ _ _ _ R1). cbn [result].
  set (h1 := h ++ emitted (stat h d)). set (d1 := drawn (stat h d)).
  rewrite progress_bind_l by sat_auto.
  destruct (result (sys W (OpenSync p) h1 d1)) as [u|er] eqn:R2.
  2:{ exists O. split; [reflexivity|]. rewrite (bind_inr _ _ _ _ R2). discriminate. }
  rewrite (bind_inl _ _ _ _ R2). cbn [result].
  set (h2 := h1 ++ emitted (sys W (OpenSync p) h1 d1)).
  set (d2 := drawn (sys W (OpenSync p) h1 d1)).
  rewrite try_finally_progress by sat_auto.
  set (gen := match pat with Random => _ | Fixed _ => _ end).
  assert (Hgen : result (gen h2 d2) = inl tt) by (subst gen; destruct pat; reflexivity).
  rewrite progress_bind_l by (subst gen; unfold generateSecureRandomData; sat_auto).
  rewrite Hgen.
  rewrite progress_bind_r
    by (intros; unfold generateSecureRandomData; sat_auto).
  destruct (chunks_progress p pat s e (Z.min (1024 * 1024) size) size
              (indices 0 (iterations (floorDiv size (Z.min (1024 * 1024) size))))
              (h2 ++ emitted (gen h2 d2)) (drawn (gen h2 d2)) Hcb) as [k [Pk Rk]].
  exists k. split; [exact Pk|].
  intros H. apply Rk.
  apply try_finally_inl in H.
  rewrite (bind_inl _ _ _ _ Hgen) in H. cbn [result] in H.
  apply bind_result_inl in H. destruct H as [[] [H _]]. exact H.
Qed.

(** The same for the whole pass: its [Pass] event is no report. *)
Lemma overwrite_progress g cb p pat s e h d :
  reports g cb ->
  exists k,
    progressOf (emitted (overwriteFileWithPattern W p pat cb s e h d))
    = flat_map g (firstn k (chunkValues s e (Z.of_N (size_of W p)))) /\
    (result (overwriteFileWithPattern W p pat cb s e h d) = inl tt ->
     firstn k (chunkValues s e (Z.of_N (size_of W p)))
     = chunkValues s e (Z.of_N (size_of W p))).
Proof.
  intros Hcb. unfold overwriteFileWithPattern.
  rewrite progress_bind_l by sat_auto. cbn [emit result emitted drawn].
  destruct (passBody_progress p pat s e (h ++ [Pass p pat s e]) d Hcb) as [k [Pk Rk]].
  exists k. split; [exact Pk|].
  intros H. apply Rk. unfold bind in H. cbn in H. exact H.
Qed.

(** The passes of a wipe loop and their windows, as a list. *)
Lemma wipeLoop_passes cb p total i pats h d :
  (forall v, sat not_pass (fun _ => True) (call_if cb v)) ->
  exists k,
    passesOf (emitted (wipeLoop W p cb total i pats h d))
    = firstn k (windowsFrom total i pats) /\
    (result (wipeLoop W p cb total i pats h d) = inl tt ->
     passesOf (emitted (wipeLoop W p cb total i pats h d))
     = windowsFrom total i pats).
Proof.
  intros Hcb. revert i h d. induction pats as [|pat pats IH]; intros i h d.
  - exists O. split; reflexivity.
  - cbn [wipeLoop windowsFrom]. rewrite emitted_bind, passesOf_app.
    set (s := windowBound i total). set (e := windowBound (i + 1) total).
    assert (P1 : passesOf (emitted (overwriteFileWithPattern W p pat cb s e h d))
                 = [(pat, s, e)]).
    { unfold overwriteFileWithPattern. rewrite emitted_bind, passesOf_app.
      cbn [emit result emitted drawn]. rewrite silent_passes; [reflexivity|].
      apply Shape.passBody_sat; try trivial.
      class_incl. }
    rewrite P1.
    destruct (result (overwriteFileWithPattern W p pat cb s e h d)) as [[]|er] eqn:R.
    + destruct (IH (i + 1) (h ++ emitted (overwriteFileWithPattern W p pat cb s e h d))
                  (drawn (overwriteFileWithPattern W p pat cb s e h d))) as [k [Pk Rk]].
      exists (S k). split.
      * rewrite Pk. reflexivity.
      * intros H. rewrite (bind_inl _ _ _ _ R) in H. cbn [result] in H.
        rewrite (Rk H). reflexivity.
    + exists 1%nat. split; [reflexivity|].
      intros H. rewrite (bind_inr _ _ _ _ R) in H. discriminate.
Qed.

(** The reports of a wipe loop that returns: pass after pass, the
    percentages of the full buffers. *)
Lemma wipeLoop_progress g cb p total i pats h d :
  reports g cb ->
  exists k,
    progressOf (emitted (wipeLoop W p cb total i pats h d))
    = firstn k
        (flat_map (fun w => flat_map g (chunkValues (snd (fst w)) (snd w)
                                          (Z.of_N (size_of W p))))
                  (windowsFrom total i pats)) /\
    (result (wipeLoop W p cb total i pats h d) = inl tt ->
     progressOf (emitted (wipeLoop W p cb total i pats h d))
     = flat_map (fun w => flat_map g (chunkValues (snd (fst w)) (snd w)
                                        (Z.of_N (size_of W p))))
                (windowsFrom total i pats)).
Proof.
  intros Hcb. revert i h d. induction pats as [|pat pats IH]; intros i h d.
  - exists O. split; reflexivity.
  - cbn [wipeLoop windowsFrom flat_map fst snd].
    rewrite emitted_bind, progressOf_app.
    set (s := windowBound i total). set (e := windowBound (i + 1) total).
    destruct (overwrite_progress p pat s e h d Hcb) as [k1 [P1 R1]].
    destruct (result (overwriteFileWithPattern W p pat cb s e h d)) as [[]|er] eqn:R.
    + specialize (R1 eq_refl). rewrite R1 in P1.
      destruct (IH (i + 1) (h ++ emitted (overwriteFileWithPattern W p pat cb s e h d))
                  (drawn (overwriteFileWithPattern W p pat cb s e h d))) as [k [Pk Rk]].
      exists (List.length (flat_map g (chunkValues s e (Z.of_N (size_of W p)))) + k)%nat.
      split.
      * rewrite P1, Pk. rewrite firstn_app_2. reflexivity.
      * intros H. rewrite (bind_inl _ _ _ _ R) in H. cbn [result] in H.
        rewrite P1, (Rk H). reflexivity.
    + rewrite app_nil_r.
      exists (List.length (flat_map g (firstn k1 (chunkValues s e (Z.of_N (size_of W p)))))).
      split.
      * rewrite P1.
        rewrite <- (firstn_skipn k1 (chunkValues s e (Z.of_N (size_of W p)))) at 3.
        rewrite flat_map_app, <- app_assoc, firstn_app.
        rewrite firstn_all, Nat.sub_diag. cbn [firstn]. now rewrite app_nil_r.
      * intros H. rewrite (bind_inr _ _ _ _ R) in H. discriminate.
Qed.

End WithWorld.

Lemma patterns_windowsFrom total i pats :
  map (fun w => fst (fst w)) (windowsFrom total i pats) = pats.
Proof.
  revert i. induction pats as [|pat pats IH]; intros i; cbn; [reflexivity|].
  now rewrite IH.
Qed.

Lemma windowsFrom_snoc total i pats pat :
  windowsFrom total i (pats ++ [pat])
  = windowsFrom total i pats ++
    [(pat, windowBound (i + Z.of_nat (List.length pats)) total,
           windowBound (i + Z.of_nat (List.length pats) + 1) total)].
Proof.
  revert i. induction pats as [|q pats IH]; intros i.
  - cbn. rewrite Z.add_0_r. reflexivity.
  - cbn [app windowsFrom length]. rewrite IH.
    replace (i + 1 + Z.of_nat (List.length pats))%Z with (i + Z.of_nat (S (List.length pats)))%Z by lia.
    reflexivity.
Qed.

Lemma last_cons_default (b : list Z) y z : last (y :: b) z = last b y.
Proof.
  revert y z. induction b as [|w b IH]; intros y z; [reflexivity|].
  change (last (w :: b) z = last (w :: b) y). rewrite (IH w z), (IH w y). reflexivity.
Qed.

Lemma last_app_cons (a b : list Z) y z : last (a ++ y :: b) z = last b y.
Proof.
  revert z. induction a as [|w a IH]; intros z.
  - apply last_cons_default.
  - cbn [app]. rewrite last_cons_default. apply IH.
Qed.

Lemma lastOf_app_nonempty (a b : list Z) x :
  lastOf b = Some x -> lastOf (a ++ b) = Some x.
Proof.
  destruct b as [|y b]; [discriminate|]. cbn [lastOf]. intros [= <-].
  destruct a as [|z a]; cbn [app lastOf]; [reflexivity|].
  f_equal. apply last_app_cons.
Qed.

End Passes.

(* ================================================================== *)
(** ** The phases of the static [shredFile] *)
(* ================================================================== *)

Module StaticPhases.
Import Utils FileShredder Passes.

Lemma try_catch_ok {A} (m : M A) handler h d a :
  result (m h d) = inl a -> try_catch m handler h d = m h d.
Proof. intros R. unfold try_catch. rewrite R. reflexivity. Qed.

Lemma try_catch_emitted {A} (m : M A) handler h d :
  emitted (try_catch m handler h d) =
  emitted (m h d) ++
  match result (m h d) with
  | inl _ => []
  | inr e => emitted (handler e (h ++ emitted (m h d)) (drawn (m h d)))
  end.
Proof.
  unfold try_catch. destruct (result (m h d)); cbn; [now rewrite app_nil_r | reflexivity].
Qed.

(** From the success of a sequence to the success of its parts, with
    the events and the entropy position of the first part named. *)
Lemma bind_ok_inv {A B} (m : M A) (k : A -> M B) h d b :
  result (bind m k h d) = inl b ->
  exists a es1 d1,
    m h d = Out (inl a) es1 d1 /\
    bind m k h d = Out (result (k a (h ++ es1) d1))
                       (es1 ++ emitted (k a (h ++ es1) d1))
                       (drawn (k a (h ++ es1) d1)) /\
    result (k a (h ++ es1) d1) = inl b.
Proof.
  unfold bind. destruct (m h d) as [[a|e] es1 d1]; cbn; [|discriminate].
  intros H. exists a, es1, d1. auto.
Qed.

Tactic Notation "bind_ok" hyp(H) "as" ident(a) ident(es) ident(d) ident(Hm) ident(Hk) :=
  let Hb := fresh "Hb" in
  destruct (bind_ok_inv _ _ _ _ H) as (a & es & d & Hm & Hb & Hk);
  rewrite Hb in *; cbn [result emitted drawn] in *; clear H Hb.

Lemma sat_events {A} E X (m : M A) h d r es d' :
  sat E X m -> m h d = Out r es d' -> Forall E es.
Proof. intros S H. pose proof (proj1 (S h d)) as F. rewrite H in F. exact F. Qed.

Section WithWorld.

Variable W : World.

(** A successful static shred is the preparation, the wipe selected by
    the method, the renames and the unlink, the final report and the
    clean-up, each of them successful. *)
Lemma static_success path method cb h d :
  result (static_shredFile W path method cb h d) = inl true ->
  exists pre d1 wipe d2 ren d3 fin d4 post,
    emitted (static_shredFile W path method cb h d)
    = pre ++ wipe ++ ren ++ fin ++ post /\
    wipeByMethod W method path cb (h ++ pre) d1 = Out (inl tt) wipe d2 /\
    renameAndUnlink W path ((h ++ pre) ++ wipe) d2 = Out (inl tt) ren d3 /\
    call_if cb 100 (((h ++ pre) ++ wipe) ++ ren) d3 = Out (inl tt) fin d4 /\
    Forall utils_event pre /\ Forall utils_event post.
Proof.
  intros H. unfold static_shredFile in *.
  set (body := bind (validateFilePath W path) _) in *.
  destruct (result (body h d)) as [r|er] eqn:R.
  2:{ exfalso. unfold try_catch in H. rewrite R in H. cbn in H. discriminate. }
  rewrite (try_catch_ok _ _ _ _ R) in *. clear R. subst body.
  bind_ok H as v es1 d1 Hv H1. cbn [ToBoolean negb] in *.
  assert (E1 : Forall utils_event es1).
  { eapply sat_events; [|exact Hv].
    apply (@Shape.validateFilePath_sat W utils_event never).
    class_incl. }
  bind_ok H1 as found es2 d2 Hf H2.
  assert (es2 = []) as -> by (unfold existsSync in Hf; congruence).
  destruct (negb found); [discriminate|].
  bind_ok H2 as size es3 d3 Hs H3.
  assert (E3 : Forall utils_event es3).
  { eapply sat_events; [|exact Hs].
    instantiate (1 := fun _ => True). unfold statSize. sat_auto. }
  destruct (maxFileSize <? size)%Z; [discriminate|].
  bind_ok H3 as tmp es4 d4 Ht H4.
  assert (E4 : Forall utils_event es4).
  { eapply sat_events; [|exact Ht].
    apply (@Shape.createSecureTempDir_sat W utils_event never). trivial. }
  destruct tmp as [tempDir|]; [|discriminate].
  bind_ok H4 as u1 es5 d5 Hw H5. destruct u1.
  bind_ok H5 as u2 es6 d6 Hr H6. destruct u2.
  bind_ok H6 as u3 es7 d7 Hc H7. destruct u3.
  bind_ok H7 as ok es8 d8 Hcl H8.
  assert (E8 : Forall utils_event es8).
  { eapply sat_events; [|exact Hcl].
    apply (@Shape.cleanupTempDir_sat W utils_event never). trivial. }
  exists (es1 ++ es3 ++ es4), d4, es5, d5, es6, d6, es7, d7, es8.
  rewrite ?app_nil_r in *.
  split; [rewrite <- !app_assoc; reflexivity|].
  rewrite !app_assoc.
  repeat split; try assumption.
  repeat (apply Forall_app; split); assumption.
Qed.

End WithWorld.

End StaticPhases.

(* ================================================================== *)
(** ** Properties of the file engine *)
(* ================================================================== *)

Module FileClaims.
Import Utils FileShredder Passes StaticPhases.

Local Open Scope string_scope.
Local Open Scope list_scope.

Lemma utils_not_pass es : Forall utils_event es -> Forall not_pass es.
Proof. apply Forall_impl. class_incl. Qed.

Lemma utils_not_progress es : Forall utils_event es -> Forall not_progress es.
Proof. apply Forall_impl. class_incl. Qed.

Lemma callback_not_pass b v : sat not_pass (fun _ => True) (call_if (callback b) v).
Proof.
  destruct b; unfold callback, call_if, report; [apply sat_emit; exact I | apply sat_ret].
Qed.

Lemma renameAndUnlink_not_pass W p : sat not_pass (fun _ => True) (renameAndUnlink W p).
Proof.
  apply Shape.renameAndUnlink_sat; [|trivial].
  class_incl.
Qed.

Lemma renameAndUnlink_not_progress W p :
  sat not_progress (fun _ => True) (renameAndUnlink W p).
Proof.
  apply Shape.renameAndUnlink_sat; [|trivial].
  class_incl.
Qed.

(** The passes of a successful static shred are those of its wipe. *)
Lemma static_passes W path method b h d :
  result (static_shredFile W path method (callback b) h d) = inl true ->
  exists h1 d1,
    result (wipeByMethod W method path (callback b) h1 d1) = inl tt /\
    passesOf (emitted (static_shredFile W path method (callback b) h d))
    = passesOf (emitted (wipeByMethod W method path (callback b) h1 d1)).
Proof.
  intros H.
  destruct (static_success _ _ _ _ _ _ H)
    as (pre & d1 & wipe & d2 & ren & d3 & fin & d4 & post & E & Hw & Hr & Hc & Epre & Epost).
  exists (h ++ pre), d1. rewrite Hw. cbn [result emitted]. split; [reflexivity|].
  rewrite E, !passesOf_app.
  rewrite (passesOf_none (utils_not_pass Epre)), (passesOf_none (utils_not_pass Epost)).
  assert (Pr : passesOf ren = []).
  { apply passesOf_none. eapply sat_events; [apply renameAndUnlink_not_pass | exact Hr]. }
  assert (Pc : passesOf fin = []).
  { apply passesOf_none. eapply sat_events; [apply callback_not_pass | exact Hc]. }
  rewrite Pr, Pc, !app_nil_r. reflexivity.
Qed.

Lemma gutmann_table : map patternValue gutmannPatterns = gutmannSequence.
Proof. reflexivity. Qed.

Lemma dod_windows : windowsFrom 3 0 [Fixed 0; Fixed 255; Random] = dodSchedule.
Proof. reflexivity. Qed.

Lemma dod_passes W path b h d :
  result (performDoDWipe W path (callback b) h d) = inl tt ->
  passesOf (emitted (performDoDWipe W path (callback b) h d)) = dodSchedule.
Proof.
  intros H.
  change (performDoDWipe W path (callback b))
    with (wipeLoop W path (callback b) 3 0 [Fixed 0; Fixed 255; Random]) in *.
  destruct (wipeLoop_passes W (callback b) path 3 0 [Fixed 0; Fixed 255; Random]
              h d (callback_not_pass b)) as [k [_ Pk]].
  rewrite (Pk H). apply dod_windows.
Qed.

Lemma calm_faultless size : faultless (Sample.calm size).
Proof. split; reflexivity. Qed.

(** C10.  On a file of size 0 a pass writes nothing and reports
    nothing, whatever the host does; when no call fails it stats and
    opens the file, forces the flush, closes the file and returns. *)
Theorem C10_empty_file_pass W p pat b s e h d :
  size_of W p = 0%N ->
  writesOf (emitted (overwriteFileWithPattern W p pat (callback b) s e h d)) = [] /\
  progressOf (emitted (overwriteFileWithPattern W p pat (callback b) s e h d)) = [] /\
  (faultless W ->
   result (overwriteFileWithPattern W p pat (callback b) s e h d) = inl tt /\
   emitted (overwriteFileWithPattern W p pat (callback b) s e h d)
   = [Pass p pat s e; Sys (StatSync p) None; Sys (OpenSync p) None] ++
     match pat with Random => [RandomBytes 0] | Fixed _ => [] end ++
     [Sys (FsyncSync p) None; Sys (CloseSync p) None]).
Proof.
  intros Hsize.
  assert (Q : sat quiet_event (fun _ => True)
                (overwriteSized W p pat (callback b) s e 0)).
  { unfold overwriteSized, generateSecureRandomData.
    change (Z.min (1024 * 1024) 0) with 0%Z.
    change (floorDiv 0 0) with (@None Z). change (remainder 0 0) with (@None Z).
    cbn [iterations indices for_each positive when_]. sat_auto. }
  assert (F : Forall quiet_event
                (emitted (overwriteFileWithPattern W p pat (callback b) s e h d))).
  { unfold overwriteFileWithPattern, passBody.
    erewrite run_bind_emitted by reflexivity.
    apply Forall_app. split; [repeat constructor|].
    destruct (statSize_run W p (h ++ [Pass p pat s e]) d) as [R|[code R]].
    - rewrite Hsize in R. erewrite run_bind_emitted by exact R.
      apply Forall_app. split; [repeat constructor | apply Q].
    - erewrite run_bind_fail by exact R. repeat constructor. }
  split; [|split].
  - induction F as [|ev es Hev _ IH]; [reflexivity|].
    destruct ev as [[] ?| | | | |]; try contradiction; exact IH.
  - induction F as [|ev es Hev _ IH]; [reflexivity|].
    destruct ev as [[] ?| | | | |]; try contradiction; exact IH.
  - intros [NF _].
    assert (R : exists d',
      overwriteFileWithPattern W p pat (callback b) s e h d
      = Out (inl tt)
            ([Pass p pat s e] ++ ([Sys (StatSync p) None] ++ []) ++
             [Sys (OpenSync p) None] ++
             (match pat with Random => [RandomBytes 0] | Fixed _ => [] end ++
              [] ++ [] ++ [Sys (FsyncSync p) None]) ++
             [Sys (CloseSync p) None]) d').
    { unfold overwriteFileWithPattern, passBody, statSize. rewrite Hsize.
      unfold overwriteSized, generateSecureRandomData.
      change (Z.of_N 0) with 0%Z. change (Z.min (1024 * 1024) 0) with 0%Z.
      change (floorDiv 0 0) with (@None Z). change (remainder 0 0) with (@None Z).
      cbn [iterations indices for_each positive when_].
      destruct pat; eexists.
      all: eapply run_bind; [reflexivity|].
      all: eapply run_bind;
        [eapply run_bind; [apply sys_ok, NF | reflexivity]|].
      all: eapply run_bind; [apply sys_ok, NF|].
      all: eapply run_finally; [|apply sys_ok, NF].
      all: eapply run_bind; [reflexivity|].
      all: eapply run_bind; [reflexivity|].
      all: eapply run_bind; [reflexivity|].
      all: apply sys_ok, NF. }
    destruct R as [d' R]. rewrite R. split; [reflexivity|].
    destruct pat; reflexivity.
Qed.

Lemma C10_witness :
  size_of (Sample.calm 0) "/data/empty" = 0%N /\
  result (overwriteFileWithPattern (Sample.calm 0) "/data/empty" (Fixed 0)
            (callback true) 0 100 [] 0%N) = inl tt /\
  writesOf (emitted (overwriteFileWithPattern (Sample.calm 0) "/data/empty" (Fixed 0)
                       (callback true) 0 100 [] 0%N)) = [].
Proof.
  split; [reflexivity|].
  pose proof (C10_empty_file_pass (Sample.calm 0) "/data/empty" (Fixed 0) true
                0 100 [] 0%N eq_refl) as [Hw [_ Hf]].
  split; [apply (Hf (calm_faultless 0)) | exact Hw].
Defined.

(** C9.  [validateFilePath] always returns its result object, an
    object is truthy, and so the static [shredFile] never takes the
    branch that rejects the path: the failure it would log never
    appears, whatever the path and the host. *)
Theorem C9_validation_guard_dead W path method b h d :
  (forall v, negb (ToBoolean (VObject v)) = false) /\
  (exists v, result (validateFilePath W path h d) = inl v) /\
  ~ In (ConsoleError IllegalPath)
       (emitted (static_shredFile W path method (callback b) h d)).
Proof.
  split; [reflexivity | split].
  - assert (S : sat plain_event never (validateFilePath W path))
      by (apply Shape.validateFilePath_sat; trivial).
    destruct (result (validateFilePath W path h d)) as [v|e] eqn:R.
    + exists v. reflexivity.
    + destruct (proj2 (S h d) e R).
  - set (E := fun ev => ev <> ConsoleError IllegalPath).
    set (X := fun e => e <> IllegalPath).
    assert (HU : forall ev, utils_event ev -> E ev).
    { intros [] P; try contradiction; try (intros C; discriminate C).
      destruct e; try contradiction. intros C; discriminate C. }
    assert (HP : forall ev, plain_event ev -> E ev).
    { intros [] P; try contradiction; intros C; discriminate C. }
    assert (HB : forall ev, pass_event ev -> E ev).
    { intros [] P; try contradiction; intros C; discriminate C. }
    assert (HX : forall er, is_io_error er -> X er).
    { intros [] P; try contradiction; intros C; discriminate C. }
    assert (Hcb : forall v, sat E X (call_if (callback b) v)).
    { intros v. destruct b; unfold callback, call_if, report;
        [apply sat_emit; intros C; discriminate C | apply sat_ret]. }
    assert (S : sat E never (static_shredFile W path method (callback b))).
    { unfold static_shredFile.
      apply sat_try_catch with (X' := X).
      - apply sat_bind; [apply Shape.validateFilePath_sat, HP|]. intros v.
        cbn [ToBoolean negb].
        apply sat_bind; [apply sat_existsSync|]. intros found.
        destruct (negb found); [apply sat_throw; intros C; discriminate C|].
        apply sat_bind.
        { unfold statSize. apply sat_bind; [|intros; apply sat_ret].
          apply sat_sys; intros; [apply HP | apply HX]; exact I. }
        intros size.
        destruct (maxFileSize <? size)%Z; [apply sat_throw; intros C; discriminate C|].
        apply sat_bind; [apply Shape.createSecureTempDir_sat, HU|]. intros tmp.
        destruct tmp as [tempDir|]; [|apply sat_throw; intros C; discriminate C].
        apply sat_bind.
        { apply Shape.wipeByMethod_sat; try assumption.
          - intros er P. apply HX, Shape.pass_error_io, P.
          - intros C; discriminate C. }
        intros _. apply sat_bind; [now apply Shape.renameAndUnlink_sat|].
        intros _. apply sat_bind; [apply Hcb|].
        intros _. apply sat_bind; [apply Shape.cleanupTempDir_sat, HU|].
        intros _. apply sat_ret.
      - intros er Her. apply sat_bind; [|intros; apply sat_ret].
        apply sat_emit. intros C. apply Her. congruence. }
    intros C. pose proof (proj1 (S h d)) as F.
    rewrite Forall_forall in F. apply (F _ C). reflexivity.
Qed.

(** An invalid path passes the guard: the one-blank path is reported
    invalid by [validateFilePath], and the static [shredFile] goes on
    and shreds what the host finds under it. *)
Lemma C9_blank_path_is_shredded :
  result (validateFilePath (Sample.calm 10) " " [] 0%N)
  = inl (invalid EmptyPath) /\
  result (static_shredFile (Sample.calm 10) " " "quick" (callback false) [] 0%N)
  = inl true.
Proof. split; vm_compute; reflexivity. Qed.

Lemma indices_snoc from n :
  indices from (S n) = indices from n ++ [(from + Z.of_nat n)%Z].
Proof.
  revert from. induction n as [|n IH]; intros from.
  - cbn. now rewrite Z.add_0_r.
  - change (indices from (S (S n))) with (from :: indices (from + 1) (S n)).
    rewrite IH. cbn [indices app]. do 3 f_equal. lia.
Qed.

Lemma flat_map_singleton (l : list Z) : flat_map (fun v => [v]) l = l.
Proof. induction l as [|x l IH]; cbn; [reflexivity | now rewrite IH]. Qed.

(** When the size is a positive multiple of the buffer size, the last
    full buffer of a pass ends the file: the fraction written is 1. *)
Lemma chunkValues_last s e size :
  (0 < size)%Z -> (size mod Z.min (1024 * 1024) size = 0)%Z ->
  lastOf (chunkValues s e size)
  = Some (JSNumber.round
            (JSNumber.add s (JSNumber.mul (JSNumber.sub e s) 1))).
Proof.
  intros Hs Hm. unfold chunkValues.
  set (buf := Z.min (1024 * 1024) size) in *.
  assert (Hb : (0 < buf)%Z) by (subst buf; lia).
  unfold floorDiv. destruct (buf =? 0)%Z eqn:B; [lia|]. cbn [iterations].
  assert (Hq : (1 <= size / buf)%Z).
  { apply Z.div_le_lower_bound; lia. }
  destruct (Z.to_nat (size / buf)) as [|n] eqn:N; [lia|].
  rewrite indices_snoc, map_app. cbn [map].
  erewrite lastOf_app_nonempty; [reflexivity|]. cbn [lastOf last].
  unfold chunkProgress.
  replace ((0 + Z.of_nat n + 1) * buf)%Z with size.
  - rewrite (JSNumberFacts.div_self Hs). reflexivity.
  - replace (0 + Z.of_nat n + 1)%Z with (size / buf)%Z by lia.
    pose proof (Z.div_mod size buf) as D. lia.
Qed.

Lemma overwrite_passes W p pat b s e h d :
  passesOf (emitted (overwriteFileWithPattern W p pat (callback b) s e h d))
  = [(pat, s, e)].
Proof.
  unfold overwriteFileWithPattern. rewrite emitted_bind, passesOf_app.
  cbn [emit result emitted drawn]. rewrite silent_passes; [reflexivity|].
  apply Shape.passBody_sat; [|trivial|apply callback_not_pass].
  class_incl.
Qed.

(** The passes a wipe runs are the pass list of its method. *)
Lemma wipe_patterns W method pats path b h d :
  passList method = Some pats ->
  result (wipeByMethod W method path (callback b) h d) = inl tt ->
  patternsOf (emitted (wipeByMethod W method path (callback b) h d)) = pats.
Proof.
  unfold passList, wipeByMethod, patternsOf.
  destruct (method =? "quick").
  { intros [= <-] _. unfold performQuickWipe. now rewrite overwrite_passes. }
  destruct (method =? "dod").
  { intros [= <-] H. rewrite (dod_passes _ _ _ _ _ H). reflexivity. }
  destruct (method =? "gutmann"); [|discriminate].
  intros [= <-] H.
  change (performGutmannWipe W path (callback b))
    with (wipeLoop W path (callback b) 35 0 (map patternValue gutmannPatterns)) in *.
  destruct (wipeLoop_passes W (callback b) path 35 0 (map patternValue gutmannPatterns)
              h d (callback_not_pass b)) as [k [_ Pk]].
  rewrite (Pk H). apply patterns_windowsFrom.
Qed.

(** The last report of a reporting wipe loop whose last window ends at
    100, on a file that its buffers cover exactly. *)
Lemma wipeLoop_last W path total pats pat h d :
  let size := Z.of_N (size_of W path) in
  let s := windowBound (Z.of_nat (List.length pats)) total in
  let e := windowBound (Z.of_nat (List.length pats) + 1) total in
  JSNumber.round (JSNumber.add s (JSNumber.mul (JSNumber.sub e s) 1)) = 100%Z ->
  (0 < size)%Z -> (size mod Z.min (1024 * 1024) size = 0)%Z ->
  result (wipeLoop W path (callback true) total 0 (pats ++ [pat]) h d) = inl tt ->
  lastOf (progressOf (emitted (wipeLoop W path (callback true) total 0
                                 (pats ++ [pat]) h d))) = Some 100%Z.
Proof.
  intros size s e Hr Hs Hm H.
  destruct (wipeLoop_progress W path total 0 (pats ++ [pat]) h d reports_callback)
    as [k [_ P]].
  rewrite (P H), windowsFrom_snoc, flat_map_app. cbn [flat_map fst snd].
  apply lastOf_app_nonempty. rewrite app_nil_r, flat_map_singleton.
  rewrite Z.add_0_l. fold size s e.
  rewrite (chunkValues_last s e Hs Hm). f_equal. exact Hr.
Qed.

Lemma wipe_last W method pats path h d :
  passList method = Some pats ->
  (0 < Z.of_N (size_of W path))%Z ->
  (Z.of_N (size_of W path) mod Z.min (1024 * 1024) (Z.of_N (size_of W path)) = 0)%Z ->
  result (wipeByMethod W method path (callback true) h d) = inl tt ->
  lastOf (progressOf (emitted (wipeByMethod W method path (callback true) h d)))
  = Some 100%Z.
Proof.
  unfold passList, wipeByMethod.
  destruct (method =? "quick").
  { intros _ Hs Hm H. unfold performQuickWipe in *.
    destruct (overwrite_progress W path Random 0 100 h d reports_callback) as [k' [P R]].
    rewrite P, (R H), flat_map_singleton, (chunkValues_last 0 100 Hs Hm).
    reflexivity. }
  destruct (method =? "dod").
  { intros _ Hs Hm H.
    apply (wipeLoop_last W path 3 [Fixed 0; Fixed 255] Random h d); try assumption.
    vm_compute. reflexivity. }
  destruct (method =? "gutmann"); [|discriminate].
  intros _ Hs Hm H.
  apply (wipeLoop_last W path 35 (removelast (map patternValue gutmannPatterns))
           Random h d); try assumption.
  vm_compute. reflexivity.
Qed.

(** The instance [shredSingleFile] that succeeds has run the wipe of
    the method [dod], which issued all its passes and reports. *)
Lemma instance_wipe W path b h d :
  result (shredSingleFile W path (callback b) h d) = inl tt ->
  exists h1 d1,
    result (wipeByMethod W "dod" path (callback b) h1 d1) = inl tt /\
    passesOf (emitted (shredSingleFile W path (callback b) h d))
    = passesOf (emitted (wipeByMethod W "dod" path (callback b) h1 d1)) /\
    progressOf (emitted (shredSingleFile W path (callback b) h d))
    = progressOf (emitted (wipeByMethod W "dod" path (callback b) h1 d1)).
Proof.
  intros H. unfold shredSingleFile in *.
  bind_ok H as found es1 d1 Hf H1.
  assert (es1 = []) as -> by (unfold existsSync in Hf; congruence).
  destruct (negb found); [discriminate|].
  bind_ok H1 as u es2 d2 Hw H2. destruct u.
  exists (h ++ []), d1.
  change (wipeByMethod W "dod" path (callback b)) with (performDoDWipe W path (callback b)).
  rewrite Hw. cbn [result emitted].
  rewrite !passesOf_app, !progressOf_app. cbn [passesOf progressOf flat_map app].
  rewrite (silent_passes (m := secureDeleteFileName W path))
    by (apply Shape.secureDeleteFileName_sat; class_incl).
  rewrite (silent_progress (m := secureDeleteFileName W path))
    by (apply Shape.secureDeleteFileName_sat; class_incl).
  rewrite !app_nil_r. repeat split.
Qed.

(** C5, as the code has it.  A shred that succeeds has run exactly the
    passes of its method's pass list, whatever the size of the file;
    the instance [shredSingleFile] always runs those of [dod].  The
    last pass brings the reports to 100 when the size is a positive
    multiple of the buffer size.  The reports of the static [shredFile]
    end with the 100 that [shredFile] itself issues after the unlink. *)
Theorem C5_passes_and_final_report W method pats path b h d :
  (passList method = Some pats ->
   result (static_shredFile W path method (callback b) h d) = inl true ->
   patternsOf (emitted (static_shredFile W path method (callback b) h d)) = pats /\
   exists fromPasses,
     progressOf (emitted (static_shredFile W path method (callback b) h d))
     = fromPasses ++ (if b then [100%Z] else []) /\
     (b = true ->
      (0 < Z.of_N (size_of W path))%Z ->
      (Z.of_N (size_of W path) mod Z.min (1024 * 1024) (Z.of_N (size_of W path)) = 0)%Z ->
      lastOf fromPasses = Some 100%Z)) /\
  (result (shredSingleFile W path (callback b) h d) = inl tt ->
   patternsOf (emitted (shredSingleFile W path (callback b) h d))
   = [Fixed 0; Fixed 255; Random] /\
   (b = true ->
    (0 < Z.of_N (size_of W path))%Z ->
    (Z.of_N (size_of W path) mod Z.min (1024 * 1024) (Z.of_N (size_of W path)) = 0)%Z ->
    lastOf (progressOf (emitted (shredSingleFile W path (callback b) h d)))
    = Some 100%Z)).
Proof.
  split.
  - intros HL H. split.
    + destruct (static_passes _ _ _ _ _ _ H) as (h1 & d1 & Rw & P).
      unfold patternsOf. rewrite P. apply (wipe_patterns _ _ _ _ _ _ HL Rw).
    + destruct (static_success _ _ _ _ _ _ H)
        as (pre & d1 & wipe & d2 & ren & d3 & fin & d4 & post
            & E & Hw & Hr & Hc & Epre & Epost).
      exists (progressOf wipe). split.
      * rewrite E, !progressOf_app.
        rewrite (progressOf_none (utils_not_progress Epre)).
        rewrite (progressOf_none (utils_not_progress Epost)).
        assert (Pr : progressOf ren = []).
        { apply progressOf_none.
          eapply sat_events; [apply renameAndUnlink_not_progress | exact Hr]. }
        rewrite Pr, app_nil_r. cbn [app]. f_equal.
        destruct b; cbn in Hc; injection Hc as <- _; reflexivity.
      * intros -> Hs Hm.
        pose proof (wipe_last W method path (h ++ pre) d1 HL Hs Hm) as L.
        rewrite Hw in L. apply L. reflexivity.
  - intros H. destruct (instance_wipe _ _ _ _ _ H) as (h1 & d1 & Rw & P & Q).
    split.
    + unfold patternsOf. rewrite P.
      apply (wipe_patterns W "dod" path b h1 d1 eq_refl Rw).
    + intros -> Hs Hm. rewrite Q.
      apply (wipe_last W "dod" path h1 d1 eq_refl Hs Hm Rw).
Qed.

Lemma C5_witness :
  passList "gutmann" = Some gutmannSequence /\
  patternsOf (emitted (static_shredFile (Sample.calm 4096) "/data/a.bin" "gutmann"
                         (callback true) [] 0%N)) = gutmannSequence.
Proof.
  split; [reflexivity|].
  apply (proj1 (C5_passes_and_final_report (Sample.calm 4096) "gutmann"
                  gutmannSequence "/data/a.bin" true [] 0%N) eq_refl).
  vm_compute; reflexivity.
Defined.

(** C5 as stated fails: on a file of one and a half buffers the three
    passes of [shredSingleFile] all complete, and the reports stop at
    89; 100 is never reported. *)
Lemma C5_counterexample :
  result (shredSingleFile (Sample.calm 1572864) "/data/a.bin" (callback true) [] 0%N)
  = inl tt /\
  List.length (passesOf (emitted (shredSingleFile (Sample.calm 1572864) "/data/a.bin"
                                    (callback true) [] 0%N))) = 3%nat /\
  progressOf (emitted (shredSingleFile (Sample.calm 1572864) "/data/a.bin"
                         (callback true) [] 0%N)) = [22; 56; 89]%Z /\
  ~ In 100%Z (progressOf (emitted (shredSingleFile (Sample.calm 1572864) "/data/a.bin"
                                     (callback true) [] 0%N))).
Proof.
  assert (P : progressOf (emitted (shredSingleFile (Sample.calm 1572864) "/data/a.bin"
                                     (callback true) [] 0%N)) = [22; 56; 89]%Z)
    by (vm_compute; reflexivity).
  repeat split; try (vm_compute; reflexivity); try exact P.
  rewrite P. cbn. intros [C|[C|[C|[]]]]; discriminate C.
Qed.

(** *** Renames and unlink *)

Lemma outcome_eta {A} (o : outcome A) : o = Out (result o) (emitted o) (drawn o).
Proof. destruct o; reflexivity. Qed.

Lemma outcome_with {A} (o : outcome A) r :
  result o = r -> o = Out r (emitted o) (drawn o).
Proof. intros <-. apply outcome_eta. Qed.

Lemma randomHex_run W n h d :
  sizeAccepted n = true ->
  exists name, randomHex W n h d = Out (inl name) [RandomBytes n] (d + Z.to_N n)%N.
Proof.
  intros Hn. eexists. unfold randomHex.
  erewrite run_bind; [|apply randomBytes_run, Hn|reflexivity]. reflexivity.
Qed.

(** The sizes of the shrinking names are accepted by [randomBytes]. *)
Lemma shrinking_size i : (0 <= i)%Z -> sizeAccepted (Z.max 8 (16 - i * 2)) = true.
Proof.
  intros Hi. unfold sizeAccepted. apply andb_true_intro.
  split; apply Z.leb_le; lia.
Qed.

Lemma indices_nonneg from n : (0 <= from)%Z -> Forall (fun i => 0 <= i)%Z (indices from n).
Proof.
  revert from. induction n as [|n IH]; intros from H; cbn [indices]; constructor.
  - exact H.
  - apply IH. lia.
Qed.

(** One step of the shrinking loop: a name is drawn and the rename is
    tried; the loop goes on from the new path, or stops. *)
Lemma renameShrinking_step W dir ext i steps cur h d :
  (0 <= i)%Z ->
  exists name h',
    let n := Z.max 8 (16 - i * 2)%Z in
    let new := join W dir (name ++ ext)%string in
    let d1 := (d + Z.to_N n)%N in
    (renameShrinking W dir ext cur (i :: steps) h d
     = Out (result (renameShrinking W dir ext new steps h' d1))
           ([RandomBytes n; Sys (RenameSync cur new) None] ++
            emitted (renameShrinking W dir ext new steps h' d1))
           (drawn (renameShrinking W dir ext new steps h' d1))) \/
    (exists code,
       renameShrinking W dir ext cur (i :: steps) h d
       = Out (inl cur) [RandomBytes n; Sys (RenameSync cur new) (Some code)] d1).
Proof.
  intros Hi.
  destruct (@randomHex_run W (Z.max 8 (16 - i * 2)%Z) h d (shrinking_size Hi)) as [name Hn].
  exists name. eexists. cbv zeta.
  set (n := Z.max 8 (16 - i * 2)%Z) in *.
  set (new := join W dir (name ++ ext)%string).
  cbn [renameShrinking]. fold n.
  destruct (sys_run W (RenameSync cur new) (h ++ [RandomBytes n]) (d + Z.to_N n)%N)
    as [R|[code R]].
  - left. etransitivity.
    { eapply run_bind; [exact Hn|].
      eapply run_bind.
      + apply run_catch_ok. eapply run_bind; [exact R | reflexivity].
      + apply outcome_eta. }
    reflexivity.
  - right. exists code. etransitivity.
    { eapply run_bind; [exact Hn|].
      eapply run_bind.
      + eapply run_catch_fail; [|reflexivity].
        eapply run_bind_fail. exact R.
      + reflexivity. }
    reflexivity.
Qed.

(** The shrinking rename loop never throws.  It asks for one random
    name per rename attempt, with the sizes of its steps in order, and
    stops at the first rename that fails; nothing is unlinked, and the
    path it returns is the target of the last rename that succeeded. *)
Lemma renameShrinking_spec W dir ext steps cur h d :
  Forall (fun i => 0 <= i)%Z steps ->
  exists k cur',
    (k <= List.length steps)%nat /\
    result (renameShrinking W dir ext cur steps h d) = inl cur' /\
    cur' = currentPath cur (renamesOf (emitted (renameShrinking W dir ext cur steps h d))) /\
    List.length (renamesOf (emitted (renameShrinking W dir ext cur steps h d))) = k /\
    entropyRequests (emitted (renameShrinking W dir ext cur steps h d))
    = firstn k (map (fun i => Z.max 8 (16 - i * 2))%Z steps) /\
    unlinksOf (emitted (renameShrinking W dir ext cur steps h d)) = [] /\
    (failuresOf (emitted (renameShrinking W dir ext cur steps h d)) = [] ->
     k = List.length steps).
Proof.
  intros Hs. revert cur h d. induction Hs as [|i steps Hi Hs IH]; intros cur h d.
  - exists O, cur. cbn. repeat split; auto.
  - destruct (@renameShrinking_step W dir ext i steps cur h d Hi)
      as (name & h' & [E|[code E]]); cbv zeta in E; rewrite E; clear E;
      cbn [result emitted drawn].
    + set (new := join W dir (name ++ ext)%string).
      destruct (IH new h' (d + Z.to_N (Z.max 8 (16 - i * 2)))%N)
        as (k & cur' & Hk & Hr & Hc & Hl & He & Hu & Hf).
      exists (S k), cur'.
      rewrite renamesOf_app, entropyRequests_app, unlinksOf_app.
      unfold failuresOf in *. rewrite flat_map_app.
      cbn [renamesOf entropyRequests unlinksOf flat_map app List.length map firstn].
      rewrite Hu, He, Hl, Hr. cbn [currentPath fold_left]. fold (currentPath new).
      repeat split; auto; try lia;
        try (intros F; f_equal; apply Hf; exact F).
    + exists 1%nat, cur.
      cbn [renamesOf entropyRequests unlinksOf failuresOf flat_map app List.length map firstn
             currentPath fold_left].
      repeat split; auto; try lia. discriminate.
Qed.

(** [secureDeleteFileName] never throws and ends with one attempt to
    unlink the current path. *)
Lemma secureDeleteFileName_spec W p h d :
  exists k r,
    (k <= 5)%nat /\
    result (secureDeleteFileName W p h d) = inl tt /\
    List.length (renamesOf (emitted (secureDeleteFileName W p h d))) = k /\
    entropyRequests (emitted (secureDeleteFileName W p h d)) = firstn k shrinkingSizes /\
    unlinksOf (emitted (secureDeleteFileName W p h d))
    = [(currentPath p (renamesOf (emitted (secureDeleteFileName W p h d))), r)] /\
    (failuresOf (emitted (secureDeleteFileName W p h d)) = [] -> k = 5%nat).
Proof.
  unfold secureDeleteFileName.
  destruct (@renameShrinking_spec W (dirname W p) (extname W p) (indices 0 5) p h d
              (indices_nonneg 5 (Z.le_refl 0)))
    as (k & cur & Hk & Hr & Hc & Hl & He & Hu & Hf).
  set (loop := renameShrinking W (dirname W p) (extname W p) p (indices 0 5)) in *.
  assert (L : loop h d = Out (inl cur) (emitted (loop h d)) (drawn (loop h d))).
  { rewrite (outcome_eta (loop h d)) at 1. rewrite Hr. reflexivity. }
  destruct (sys_run W (UnlinkSync cur) (h ++ emitted (loop h d)) (drawn (loop h d)))
    as [R|[code R]].
  - exists k, None.
    assert (E : exists d',
               try_catch
                 (currentPath <- loop;;
                  try_catch (sys W (UnlinkSync currentPath)) (fun _ => ret tt))
                 (fun _ => ret tt) h d
               = Out (inl tt) (emitted (loop h d) ++ [Sys (UnlinkSync cur) None]) d').
    { eexists. apply run_catch_ok. eapply run_bind; [exact L|].
      apply run_catch_ok. exact R. }
    destruct E as [d' E]. rewrite E.
    cbn [result emitted].
    rewrite renamesOf_app, entropyRequests_app, unlinksOf_app.
    unfold failuresOf in *. rewrite flat_map_app.
    cbn [renamesOf entropyRequests unlinksOf flat_map app].
    rewrite !app_nil_r, Hu, He, Hl, <- Hc.
    repeat split; auto.
  - exists k, (Some code).
    assert (E : exists d',
               try_catch
                 (currentPath <- loop;;
                  try_catch (sys W (UnlinkSync currentPath)) (fun _ => ret tt))
                 (fun _ => ret tt) h d
               = Out (inl tt)
                     (emitted (loop h d) ++ [Sys (UnlinkSync cur) (Some code)] ++ []) d').
    { eexists. apply run_catch_ok. eapply run_bind; [exact L|].
      eapply run_catch_fail; [exact R | reflexivity]. }
    destruct E as [d' E]. rewrite E.
    cbn [result emitted].
    rewrite renamesOf_app, entropyRequests_app, unlinksOf_app.
    unfold failuresOf in *. rewrite !flat_map_app.
    cbn [renamesOf entropyRequests unlinksOf flat_map app].
    rewrite !app_nil_r, Hu, He, Hl, <- Hc.
    repeat split; auto.
    intros F. exfalso. apply app_eq_nil in F. destruct F as [_ F]. discriminate F.
Qed.

Lemma existsSync_bind {B} W p (k : bool -> M B) h d :
  bind (existsSync W p) k h d = k (exists_ W h p) h d.
Proof.
  unfold bind, existsSync. cbn [result emitted drawn]. rewrite app_nil_r.
  symmetry. apply outcome_eta.
Qed.

Lemma wipe_no_renames es :
  Forall wipe_event es -> renamesOf es = [] /\ unlinksOf es = [].
Proof.
  induction 1 as [|ev es Hev _ [IH1 IH2]]; [split; reflexivity|].
  destruct ev as [[] ?| | | | |]; try contradiction; split; assumption.
Qed.

Lemma callback_wipe b v : sat wipe_event (fun _ => True) (call_if (callback b) v).
Proof.
  destruct b; unfold callback, call_if, report; [apply sat_emit; exact I | apply sat_ret].
Qed.

Lemma performDoDWipe_events W path b h d :
  Forall wipe_event (emitted (performDoDWipe W path (callback b) h d)).
Proof.
  apply (Shape.wipeLoop_sat W (E := wipe_event) (X := fun _ => True)); trivial.
  - class_incl.
  - apply callback_wipe.
Qed.

(** The fixed rename loop asks for one 16-byte name per rename attempt
    and throws at the first rename that fails. *)
Lemma renameFixed_spec W dir steps cur h d :
  exists k,
    (k <= List.length steps)%nat /\
    List.length (renamesOf (emitted (renameFixed W dir cur steps h d))) = k /\
    entropyRequests (emitted (renameFixed W dir cur steps h d)) = repeat 16%Z k /\
    unlinksOf (emitted (renameFixed W dir cur steps h d)) = [] /\
    (forall last, result (renameFixed W dir cur steps h d) = inl last ->
                  k = List.length steps).
Proof.
  revert cur h d. induction steps as [|i steps IH]; intros cur h d.
  - exists O. cbn. repeat split; auto.
  - cbn [renameFixed]. unfold generateSecureRandomHex.
    destruct (@randomHex_run W 16 h d eq_refl) as [name Hn].
    set (new := join W dir name).
    destruct (sys_run W (RenameSync cur new) (h ++ [RandomBytes 16]) (d + Z.to_N 16)%N)
      as [R|[code R]].
    + destruct (IH new ((h ++ [RandomBytes 16]) ++ [Sys (RenameSync cur new) None])
                  (d + Z.to_N 16)%N) as (k & Hk & Hl & He & Hu & Hf).
      set (rec := renameFixed W dir new steps _ _) in *.
      assert (E : (randomName <- randomHex W 16;;
                   sys W (RenameSync cur (join W dir randomName));;;
                   renameFixed W dir (join W dir randomName) steps) h d
                  = Out (result rec)
                        ([RandomBytes 16] ++ [Sys (RenameSync cur new) None] ++ emitted rec)
                        (drawn rec)).
      { eapply run_bind; [exact Hn|]. eapply run_bind; [exact R|]. apply outcome_eta. }
      rewrite E. cbn [result emitted]. exists (S k).
      cbn [app renamesOf entropyRequests unlinksOf flat_map List.length repeat].
      fold (renamesOf (emitted rec)) (entropyRequests (emitted rec))
           (unlinksOf (emitted rec)).
      rewrite Hl, He, Hu. repeat split; auto; try lia.
      intros last H. f_equal. eapply Hf. exact H.
    + assert (E : (randomName <- randomHex W 16;;
                   sys W (RenameSync cur (join W dir randomName));;;
                   renameFixed W dir (join W dir randomName) steps) h d
                  = Out (inr (IOError (RenameSync cur new) code))
                        ([RandomBytes 16] ++ [Sys (RenameSync cur new) (Some code)])
                        (d + Z.to_N 16)%N).
      { eapply run_bind; [exact Hn|]. eapply run_bind_fail. exact R. }
      rewrite E. cbn [result emitted]. exists 1%nat.
      cbn [app renamesOf entropyRequests unlinksOf flat_map List.length repeat].
      repeat split; auto; try lia. discriminate.
Qed.

(** C8, as the code has it.  The engine has two rename schemes, each
    used on its own path.  [secureDeleteFileName] (instance path) makes
    at most 5 renames with names of 16, 14, 12, 10 and 8 random bytes,
    all 5 when no call fails; the static [shredFile] makes at most 10
    renames with names of 16 random bytes each, all 10 when its rename
    phase returns. *)
Theorem C8_two_rename_schemes W path h d :
  (exists k,
     (k <= 5)%nat /\
     List.length (renamesOf (emitted (secureDeleteFileName W path h d))) = k /\
     entropyRequests (emitted (secureDeleteFileName W path h d))
     = firstn k shrinkingSizes /\
     (failuresOf (emitted (secureDeleteFileName W path h d)) = [] -> k = 5%nat)) /\
  (exists k,
     (k <= 10)%nat /\
     List.length (renamesOf (emitted (renameAndUnlink W path h d))) = k /\
     entropyRequests (emitted (renameAndUnlink W path h d)) = firstn k fixedSizes /\
     (result (renameAndUnlink W path h d) = inl tt -> k = 10%nat)).
Proof.
  split.
  - destruct (secureDeleteFileName_spec W path h d) as (k & r & Hk & _ & Hl & He & _ & Hf).
    exists k. auto.
  - unfold renameAndUnlink.
    destruct (renameFixed_spec W (dirname W path) (indices 0 10) path h d)
      as (k & Hk & Hl & He & Hu & Hf).
    set (loop := renameFixed W (dirname W path) path (indices 0 10)) in *.
    exists k.
    assert (F : repeat 16%Z k = firstn k fixedSizes).
    { unfold fixedSizes. cbn in Hk.
      do 11 (destruct k as [|k]; [reflexivity|]). lia. }
    destruct (result (loop h d)) as [last|er] eqn:R.
    + rewrite (bind_inl _ _ _ _ R). cbn [result emitted].
      rewrite renamesOf_app, entropyRequests_app.
      assert (S : sat (fun ev => match ev with Sys (UnlinkSync _) _ => True | _ => False end)
                      (fun _ => True) (sys W (UnlinkSync last))) by sat_auto.
      pose proof (proj1 (S (h ++ emitted (loop h d)) (drawn (loop h d)))) as FU.
      assert (Z1 : renamesOf (emitted (sys W (UnlinkSync last) (h ++ emitted (loop h d))
                                         (drawn (loop h d)))) = [] /\
                   entropyRequests (emitted (sys W (UnlinkSync last) (h ++ emitted (loop h d))
                                               (drawn (loop h d)))) = []).
      { induction FU as [|ev es Hev _ [I1 I2]]; [split; reflexivity|].
        destruct ev as [[] ?| | | | |]; try contradiction; split; assumption. }
      destruct Z1 as [Z1 Z2]. rewrite Z1, Z2, !app_nil_r.
      repeat split; auto; try congruence.
      intros _. apply (Hf last). reflexivity.
    + rewrite (bind_inr _ _ _ _ R). cbn [result emitted].
      repeat split; auto; try congruence; discriminate.
Qed.

Lemma C8_witness :
  List.length (renamesOf (emitted (secureDeleteFileName (Sample.calm 10) "/data/a.txt"
                                     [] 0%N))) = 5%nat /\
  List.length (renamesOf (emitted (renameAndUnlink (Sample.calm 10) "/data/a.txt"
                                     [] 0%N))) = 10%nat.
Proof.
  destruct (C8_two_rename_schemes (Sample.calm 10) "/data/a.txt" [] 0%N)
    as [(k1 & _ & L1 & _ & F1) (k2 & _ & L2 & _ & F2)].
  rewrite L1, L2. split.
  - apply F1. vm_compute. reflexivity.
  - apply F2. vm_compute. reflexivity.
Defined.

(** C8 as stated fails: on the same file and host the instance path
    renames 5 times with shrinking names and the static path 10 times
    with names of one length. *)
Lemma C8_counterexample :
  List.length (renamesOf (emitted (shredSingleFile (Sample.calm 10) "/data/a.txt"
                                     (callback false) [] 0%N))) = 5%nat /\
  List.length (renamesOf (emitted (static_shredFile (Sample.calm 10) "/data/a.txt" "dod"
                                     (callback false) [] 0%N))) = 10%nat /\
  entropyRequests (emitted (secureDeleteFileName (Sample.calm 10) "/data/a.txt" [] 0%N))
  = [16; 14; 12; 10; 8]%Z /\
  entropyRequests (emitted (renameAndUnlink (Sample.calm 10) "/data/a.txt" [] 0%N))
  = [16; 16; 16; 16; 16; 16; 16; 16; 16; 16]%Z.
Proof. repeat split; vm_compute; reflexivity. Qed.

End FileClaims.

(* ================================================================== *)
(** ** The arithmetic of directory progress *)
(* ================================================================== *)

Module DirNumbers.
Import JSNumber JSNumberFacts FileShredder.

Local Open Scope Q_scope.

Lemma inject_nonneg (n : Z) : (0 <= n)%Z -> 0 <= inject_Z n.
Proof. intros H. change 0 with (inject_Z 0). now rewrite <- Zle_Qle. Qed.

Lemma inject_pos (n : Z) : (0 < n)%Z -> 0 < inject_Z n.
Proof. intros H. change 0 with (inject_Z 0). now rewrite <- Zlt_Qlt. Qed.

Lemma Qdiv_nonneg (x y : Q) : 0 <= x -> 0 < y -> 0 <= x / y.
Proof.
  intros Hx Hy. apply Qle_shift_div_l; [exact Hy|]. now rewrite Qmult_0_l.
Qed.

Lemma Qdiv_mono (x x' y : Q) : x <= x' -> 0 < y -> x / y <= x' / y.
Proof.
  intros H Hy. unfold Qdiv. apply Qmult_le_compat_r; [exact H|].
  apply Qlt_le_weak, Qinv_lt_0_compat, Hy.
Qed.

Lemma Qdiv_le_1 (x y : Q) : x <= y -> 0 < y -> x / y <= 1.
Proof.
  intros H Hy. apply Qle_shift_div_r; [exact Hy|]. now rewrite Qmult_1_l.
Qed.

(** [div], [mul] and [add] are monotone on non-negative numbers. *)
Lemma div_mono (x x' y : Q) : 0 <= x -> x <= x' -> 0 < y -> div x y <= div x' y.
Proof.
  intros Hx H Hy. unfold div. apply fl_mono.
  - now apply Qdiv_nonneg.
  - now apply Qdiv_mono.
Qed.

Lemma div_nonneg (x y : Q) : 0 <= x -> 0 < y -> 0 <= div x y.
Proof. intros Hx Hy. apply fl_nonneg. now apply Qdiv_nonneg. Qed.

Lemma div_le_1 (x y : Q) : 0 <= x -> x <= y -> 0 < y -> div x y <= 1.
Proof.
  intros Hx H Hy. unfold div. change 1 with (inject_Z 1).
  apply fl_le_int; [lia | now apply Qdiv_nonneg | now apply Qdiv_le_1].
Qed.

Lemma mul_mono_l (x x' y : Q) : 0 <= x -> x <= x' -> 0 <= y -> mul x y <= mul x' y.
Proof.
  intros Hx H Hy. unfold mul. apply fl_mono.
  - now apply Qmult_le_0_compat.
  - now apply Qmult_le_compat_r.
Qed.

Lemma mul_mono_r (x y y' : Q) : 0 <= x -> 0 <= y -> y <= y' -> mul x y <= mul x y'.
Proof.
  intros Hx Hy H. unfold mul. apply fl_mono.
  - now apply Qmult_le_0_compat.
  - rewrite (Qmult_comm x y), (Qmult_comm x y'). now apply Qmult_le_compat_r.
Qed.

Lemma mul_nonneg (x y : Q) : 0 <= x -> 0 <= y -> 0 <= mul x y.
Proof. intros Hx Hy. apply fl_nonneg. now apply Qmult_le_0_compat. Qed.

Lemma add_mono_r (x y y' : Q) : 0 <= x -> 0 <= y -> y <= y' -> add x y <= add x y'.
Proof.
  intros Hx Hy H. unfold add. apply fl_mono; lra.
Qed.

Section Shares.

Variable total : Z.
Hypothesis total_pos : (0 < total)%Z.
Hypothesis total_safe : (total < 2 ^ 53)%Z.

Lemma T_pos : 0 < inject_Z total.
Proof. apply inject_pos, total_pos. Qed.

(** The share of [k] processed items grows with [k]. *)
Lemma itemShare_mono (k k' : Z) :
  (0 <= k <= k')%Z -> (itemShare k total <= itemShare k' total)%Z.
Proof.
  intros [H0 H]. unfold itemShare. apply floor_mono.
  apply mul_mono_l; [| |lra].
  - apply div_nonneg; [now apply inject_nonneg | apply T_pos].
  - apply div_mono; [now apply inject_nonneg | now rewrite <- Zle_Qle | apply T_pos].
Qed.

Lemma itemShare_range (k : Z) :
  (0 <= k <= total)%Z -> (0 <= itemShare k total <= 100)%Z.
Proof.
  intros [H0 H]. unfold itemShare.
  assert (D0 : 0 <= div (inject_Z k) (inject_Z total))
    by (apply div_nonneg; [now apply inject_nonneg | apply T_pos]).
  assert (D1 : div (inject_Z k) (inject_Z total) <= 1).
  { apply div_le_1; [now apply inject_nonneg | | apply T_pos].
    now rewrite <- Zle_Qle. }
  split.
  - apply (Z.le_trans _ (floor 0)); [reflexivity|].
    apply floor_mono. apply mul_nonneg; lra.
  - apply (Z.le_trans _ (floor (inject_Z 100))); [|reflexivity].
    apply floor_mono.
    unfold mul. apply fl_le_int; [lia | apply Qmult_le_0_compat; lra |].
    change (inject_Z 100) with (1 * 100). apply Qmult_le_compat_r; lra.
Qed.

Lemma itemShare_total : itemShare total total = 100%Z.
Proof. unfold itemShare. rewrite (div_self total_pos). reflexivity. Qed.

(** The share reported while a file is shredded grows with the
    percentage of the file and stays between the shares of the items
    before and after it. *)
Lemma fileShare_mono (p v v' : Z) :
  (0 <= p)%Z -> (0 <= v <= v')%Z ->
  (fileShare p v total <= fileShare p v' total)%Z.
Proof.
  intros Hp [H0 H]. unfold fileShare. apply floor_mono.
  assert (P0 : 0 <= inject_Z p) by now apply inject_nonneg.
  assert (V0 : 0 <= div (inject_Z v) 100)
    by (apply div_nonneg; [now apply inject_nonneg | reflexivity]).
  assert (VV : div (inject_Z v) 100 <= div (inject_Z v') 100).
  { apply div_mono; [now apply inject_nonneg | now rewrite <- Zle_Qle | reflexivity]. }
  apply mul_mono_l; [| |lra].
  - apply div_nonneg; [|apply T_pos]. apply fl_nonneg. lra.
  - apply div_mono; [apply fl_nonneg; lra | | apply T_pos].
    apply add_mono_r; assumption.
Qed.

Lemma fileShare_lower (p v : Z) :
  (0 <= p < 2 ^ 53)%Z -> (0 <= v)%Z ->
  (itemShare p total <= fileShare p v total)%Z.
Proof.
  intros Hp Hv. unfold itemShare, fileShare. apply floor_mono.
  assert (P0 : 0 <= inject_Z p) by (apply inject_nonneg; lia).
  assert (V0 : 0 <= div (inject_Z v) 100)
    by (apply div_nonneg; [now apply inject_nonneg | reflexivity]).
  apply mul_mono_l; [| |lra].
  - apply div_nonneg; [exact P0 | apply T_pos].
  - apply div_mono; [exact P0 | | apply T_pos].
    unfold add. apply fl_ge_int; [exact Hp | lra].
Qed.

Lemma fileShare_upper (p v : Z) :
  (0 <= p)%Z -> (p + 1 < 2 ^ 53)%Z -> (0 <= v <= 100)%Z ->
  (fileShare p v total <= itemShare (p + 1) total)%Z.
Proof.
  intros Hp Hp1 [Hv0 Hv]. unfold itemShare, fileShare. apply floor_mono.
  assert (P0 : 0 <= inject_Z p) by (apply inject_nonneg; lia).
  assert (V0 : 0 <= div (inject_Z v) 100)
    by (apply div_nonneg; [now apply inject_nonneg | reflexivity]).
  assert (V1 : div (inject_Z v) 100 <= 1).
  { apply div_le_1; [now apply inject_nonneg | | reflexivity].
    change 100 with (inject_Z 100). now rewrite <- Zle_Qle. }
  apply mul_mono_l; [| |lra].
  - apply div_nonneg; [|apply T_pos]. apply fl_nonneg. lra.
  - apply div_mono; [apply fl_nonneg; lra | | apply T_pos].
    unfold add. apply fl_le_int; [lia | lra |].
    rewrite inject_Z_plus. change (inject_Z 1) with 1. lra.
Qed.

End Shares.

(** The percentages of one pass: ascending, from the start of the
    window rounded up to its end rounded. *)
Lemma chunkProgress_mono (s e : Q) (i j buf size : Z) :
  0 <= s -> 0 <= sub e s -> (0 < buf)%Z -> (0 < size)%Z -> (0 <= i <= j)%Z ->
  (chunkProgress s e i buf size <= chunkProgress s e j buf size)%Z.
Proof.
  intros Hs Hd Hb Hsz [Hi Hij]. unfold chunkProgress. apply round_mono.
  assert (K0 : 0 <= inject_Z ((i + 1) * buf)) by (apply inject_nonneg; nia).
  assert (S0 : 0 < inject_Z size) by now apply inject_pos.
  apply add_mono_r; [exact Hs | |].
  - apply mul_nonneg; [exact Hd|]. now apply div_nonneg.
  - apply mul_mono_r; [exact Hd | now apply div_nonneg |].
    apply div_mono; [exact K0 | | exact S0]. rewrite <- Zle_Qle. nia.
Qed.

Lemma chunkProgress_range (s e : Q) (i buf size : Z) :
  0 <= s -> 0 <= sub e s -> (0 < buf)%Z -> (0 <= i)%Z -> ((i + 1) * buf <= size)%Z ->
  (round (fl s) <= chunkProgress s e i buf size
   <= round (add s (mul (sub e s) 1)))%Z.
Proof.
  intros Hs Hd Hb Hi Hle. unfold chunkProgress.
  assert (K0 : 0 <= inject_Z ((i + 1) * buf)) by (apply inject_nonneg; nia).
  assert (S0 : 0 < inject_Z size) by (apply inject_pos; nia).
  assert (D0 : 0 <= div (inject_Z ((i + 1) * buf)) (inject_Z size))
    by now apply div_nonneg.
  assert (D1 : div (inject_Z ((i + 1) * buf)) (inject_Z size) <= 1).
  { apply div_le_1; [exact K0 | now rewrite <- Zle_Qle | exact S0]. }
  split; apply round_mono.
  - unfold add. apply fl_mono; [exact Hs|].
    assert (M0 : 0 <= mul (sub e s) (div (inject_Z ((i + 1) * buf)) (inject_Z size)))
      by now apply mul_nonneg.
    lra.
  - apply add_mono_r; [exact Hs | now apply mul_nonneg |].
    apply mul_mono_r; [exact Hd | exact D0 | exact D1].
Qed.

End DirNumbers.

(* ================================================================== *)
(** ** The directory engine *)
(* ================================================================== *)

Module Directory.
Import Utils FileShredder Passes StaticPhases FileClaims DirNumbers.

Local Open Scope string_scope.
Local Open Scope list_scope.
Local Open Scope Z_scope.

Lemma weight_dir name children : weight (Dir name children) = 1 + weights children.
Proof.
  change (weight (Dir name children))
    with (1 + (fix sum (l : list node) : Z :=
                 match l with [] => 0 | c :: r => weight c + sum r end) children).
  apply (f_equal (Z.add 1)).
  induction children as [|c cs IH]; [reflexivity|].
  cbn [weights]. now rewrite IH.
Qed.

Lemma weight_pos : (forall n, 0 < weight n) /\ (forall l, 0 <= weights l).
Proof.
  apply node_list_ind.
  - intros name. reflexivity.
  - intros name children IH. rewrite weight_dir. lia.
  - reflexivity.
  - intros n l Hn Hl. cbn [weights]. lia.
Qed.

Lemma weight_counts :
  (forall n, weight n = fileCount n + dirCount n) /\
  (forall l, weights l = fileCounts l + dirCounts l).
Proof.
  apply node_list_ind.
  - intros name. reflexivity.
  - intros name children IH. rewrite weight_dir, IH.
    assert (F : fileCount (Dir name children) = fileCounts children).
    { change (fileCount (Dir name children))
        with ((fix sum (l : list node) : Z :=
                 match l with [] => 0 | c :: r => fileCount c + sum r end) children).
      clear IH. induction children as [|c cs IHc]; [reflexivity|].
      cbn [fileCounts]. now rewrite IHc. }
    assert (D : dirCount (Dir name children) = 1 + dirCounts children).
    { change (dirCount (Dir name children))
        with (1 + (fix sum (l : list node) : Z :=
                     match l with [] => 0 | c :: r => dirCount c + sum r end) children).
      apply (f_equal (Z.add 1)).
      clear IH. induction children as [|c cs IHc]; [reflexivity|].
      cbn [dirCounts]. now rewrite IHc. }
    rewrite F, D. lia.
  - reflexivity.
  - intros n l Hn Hl. cbn [weights fileCounts dirCounts]. lia.
Qed.

(** *** Ascending lists *)

Lemma asc_nil lo hi : ascending lo hi [].
Proof. split; constructor. Qed.

Lemma asc_single lo hi v : lo <= v <= hi -> ascending lo hi [v].
Proof. intros H. split; repeat constructor; lia. Qed.

Lemma asc_widen lo hi lo' hi' l :
  ascending lo hi l -> lo' <= lo -> hi <= hi' -> ascending lo' hi' l.
Proof.
  intros [S F] H1 H2. split; [exact S|].
  eapply Forall_impl; [|exact F]. cbn. intros; lia.
Qed.

Lemma asc_app a b c l1 l2 :
  ascending a b l1 -> ascending b c l2 -> a <= b -> b <= c ->
  ascending a c (l1 ++ l2).
Proof.
  intros [S1 F1] [S2 F2] Hab Hbc. split.
  - induction l1 as [|x l1 IH]; [exact S2|].
    cbn [app]. inversion S1 as [|? ? S1' Hx]; subst.
    inversion F1 as [|? ? Fx F1']; subst.
    constructor; [apply IH; assumption|].
    apply Forall_app. split; [exact Hx|].
    eapply Forall_impl; [|exact F2]. cbn. intros; lia.
  - apply Forall_app. split.
    + eapply Forall_impl; [|exact F1]. cbn. intros; lia.
    + eapply Forall_impl; [|exact F2]. cbn. intros; lia.
Qed.

Lemma asc_firstn lo hi k l : ascending lo hi l -> ascending lo hi (firstn k l).
Proof.
  intros [S F]. split.
  - revert k. induction S as [|x l S IH Hx]; intros k.
    + rewrite firstn_nil. constructor.
    + destruct k; [constructor|]. cbn [firstn].
      inversion F; subst. constructor; [apply IH; assumption|].
      rewrite <- (firstn_skipn k l) in Hx. apply Forall_app in Hx. apply Hx.
  - rewrite <- (firstn_skipn k l) in F. apply Forall_app in F. apply F.
Qed.

Lemma asc_map (f : Z -> Z) lo hi lo' hi' l :
  (forall x y, lo <= x -> x <= y -> y <= hi -> f x <= f y) ->
  (forall x, lo <= x <= hi -> lo' <= f x <= hi') ->
  ascending lo hi l -> ascending lo' hi' (map f l).
Proof.
  intros Hm Hr [S F]. split.
  - induction S as [|x l S IH Hx]; [constructor|].
    inversion F as [|? ? Fx F']; subst. cbn [map].
    constructor; [apply IH; assumption|].
    apply Forall_map. rewrite Forall_forall in *. intros y Hy.
    apply Hm; [lia | apply Hx, Hy | apply (F' y Hy)].
  - apply Forall_map. eapply Forall_impl; [|exact F]. cbn. intros x Hx. now apply Hr.
Qed.

Lemma indices_asc from n :
  ascending from (from + Z.of_nat n - 1) (indices from n).
Proof.
  revert from. induction n as [|n IH]; intros from; [apply asc_nil|].
  cbn [indices]. destruct (IH (from + 1)) as [S F]. split.
  - constructor; [exact S|]. eapply Forall_impl; [|exact F]. cbn. intros; lia.
  - constructor; [lia|]. eapply Forall_impl; [|exact F]. cbn. intros; lia.
Qed.

(** *** The reports of one file *)

Local Open Scope Q_scope.

Lemma chunkValues_asc (s e : Q) (size : Z) :
  0 <= s -> 0 <= JSNumber.sub e s -> (0 <= size)%Z ->
  ascending (JSNumber.round (JSNumber.fl s))
            (JSNumber.round (JSNumber.add s (JSNumber.mul (JSNumber.sub e s) 1)))
            (chunkValues s e size).
Proof.
  intros Hs Hd Hsz. unfold chunkValues.
  set (buf := Z.min (1024 * 1024) size).
  unfold floorDiv. destruct (buf =? 0)%Z eqn:B; [apply asc_nil|].
  apply Z.eqb_neq in B. cbn [iterations].
  assert (Hb : (0 < buf)%Z) by (subst buf; lia).
  assert (Hq : (0 <= size / buf)%Z) by (apply Z.div_pos; lia).
  eapply asc_map; [| |apply indices_asc].
  - intros x y Hx Hxy Hy. apply chunkProgress_mono; try assumption; lia.
  - intros x Hx. apply chunkProgress_range; try assumption; try lia.
    assert (x + 1 <= size / buf)%Z by lia.
    pose proof (Z.mul_div_le size buf Hb). nia.
Qed.

Local Close Scope Q_scope.

(** The percentages of the three DoD passes of a file, in order. *)
Lemma dodValues_asc size :
  0 <= size ->
  ascending 0 100
    (flat_map (fun w => chunkValues (snd (fst w)) (snd w) size) dodSchedule).
Proof.
  intros Hs. unfold dodSchedule. cbn [flat_map fst snd]. rewrite app_nil_r.
  assert (A0 : ascending 0 33 (chunkValues (percentOf 0 3) (percentOf 1 3) size)).
  { pose proof (@chunkValues_asc (percentOf 0 3) (percentOf 1 3) size) as A.
    apply A; [vm_compute; discriminate | vm_compute; discriminate | exact Hs]. }
  assert (A1 : ascending 33 67 (chunkValues (percentOf 1 3) (percentOf 2 3) size)).
  { pose proof (@chunkValues_asc (percentOf 1 3) (percentOf 2 3) size) as A.
    apply A; [vm_compute; discriminate | vm_compute; discriminate | exact Hs]. }
  assert (A2 : ascending 67 100 (chunkValues (percentOf 2 3) (percentOf 3 3) size)).
  { pose proof (@chunkValues_asc (percentOf 2 3) (percentOf 3 3) size) as A.
    apply A; [vm_compute; discriminate | vm_compute; discriminate | exact Hs]. }
  apply (@asc_app 0 33 100); [exact A0 | | lia | lia].
  apply (@asc_app 33 67 100); [exact A1 | exact A2 | lia | lia].
Qed.

Lemma flat_map_flat_map {A B C} (f : A -> list B) (g : B -> list C) l :
  flat_map (fun x => flat_map g (f x)) l = flat_map g (flat_map f l).
Proof.
  induction l as [|x l IH]; [reflexivity|].
  cbn [flat_map]. rewrite IH, flat_map_app. reflexivity.
Qed.

(** What [shredSingleFile] reports: a prefix of the percentages of the
    three passes, each handed through the callback. *)
Lemma shredSingleFile_progress W path g cb h d :
  reports g cb ->
  exists k,
    progressOf (emitted (shredSingleFile W path cb h d))
    = firstn k (flat_map g
                  (flat_map (fun w => chunkValues (snd (fst w)) (snd w)
                                        (Z.of_N (size_of W path)))
                            dodSchedule)).
Proof.
  intros Hcb. unfold shredSingleFile.
  rewrite existsSync_bind.
  destruct (negb (exists_ W h path)); [exists O; reflexivity|].
  rewrite progress_bind_r.
  2:{ intros _. apply Shape.secureDeleteFileName_sat. class_incl. }
  change (performDoDWipe W path cb)
    with (wipeLoop W path cb 3 0 [Fixed 0; Fixed 255; Random]).
  destruct (wipeLoop_progress W path 3 0 [Fixed 0; Fixed 255; Random] h d Hcb)
    as [k [P _]].
  exists k. rewrite P, dod_windows, flat_map_flat_map. reflexivity.
Qed.

(** *** The traversal *)

Section Traversal.

Variable W : World.
Variable total : Z.
Variable cb : option (Z -> M unit).

(** The local recursion of [processItems] over the children of a
    directory is [processAll]. *)
Lemma processAll_local currentPath subItems processed h d :
  (fix processAll (items : list node) (processedItems : Z) {struct items} : M Z :=
     match items with
     | [] => ret processedItems
     | item :: rest =>
         p <- processItems W total cb (join W currentPath (nodeName item)) item
                processedItems ;;
         processAll rest p
     end) subItems processed h d
  = processAll W total cb currentPath subItems processed h d.
Proof.
  revert processed h d. induction subItems as [|item rest IH]; intros processed h d.
  - reflexivity.
  - cbn [processAll]. apply bind_ext. intros p h1 d1. apply IH.
Qed.

Lemma processItems_dir currentPath name subItems processed h d :
  processItems W total cb currentPath (Dir name subItems) processed h d
  = (sys W (StatSync currentPath) ;;;
     done <- (sys W (ReaddirSync currentPath) ;;;
              done <- processAll W total cb currentPath subItems processed ;;
              try_catch (sys W (RmdirSync currentPath)) (fun _ => ret tt) ;;;
              ret done) ;;
     call_if cb (itemShare (done + 1) total) ;;;
     ret (done + 1)) h d.
Proof.
  cbn [processItems].
  apply bind_ext. intros _ h1 d1.
  apply bind_cong. apply bind_ext. intros _ h2 d2.
  apply bind_cong. apply processAll_local.
Qed.

Lemma processItems_file currentPath name processed h d :
  processItems W total cb currentPath (File name) processed h d
  = (sys W (StatSync currentPath) ;;;
     done <- (shredSingleFile W currentPath
                (Some (fun fileProgress =>
                         match cb with
                         | Some callback =>
                             callback (fileShare processed fileProgress total)
                         | None => ret tt
                         end)) ;;;
              ret processed) ;;
     call_if cb (itemShare (done + 1) total) ;;;
     ret (done + 1)) h d.
Proof. reflexivity. Qed.

(** The same for [countItems] and [countAll]. *)
Lemma countAll_local currentPath subItems totalItems h d :
  (fix countAll (items : list node) (totalItems : Z) {struct items} : M Z :=
     match items with
     | [] => ret totalItems
     | item :: rest =>
         t <- countItems W (join W currentPath (nodeName item)) item totalItems ;;
         countAll rest t
     end) subItems totalItems h d
  = countAll W currentPath subItems totalItems h d.
Proof.
  revert totalItems h d. induction subItems as [|item rest IH]; intros totalItems h d.
  - reflexivity.
  - cbn [countAll]. apply bind_ext. intros p h1 d1. apply IH.
Qed.

Lemma countItems_dir currentPath name subItems totalItems h d :
  countItems W currentPath (Dir name subItems) totalItems h d
  = (sys W (StatSync currentPath) ;;;
     sys W (ReaddirSync currentPath) ;;;
     countAll W currentPath subItems (totalItems + 1)) h d.
Proof.
  cbn [countItems].
  apply bind_ext. intros _ h1 d1.
  apply bind_ext. intros _ h2 d2.
  apply countAll_local.
Qed.

End Traversal.

Section Progress.

Variable W : World.
Variable total : Z.
Variable b : bool.
Hypothesis total_pos : 0 < total.
Hypothesis total_safe : total < 2 ^ 53.

(** The report that follows an item. *)
Lemma finish_run v (x : Z) h d :
  (call_if (callback b) v ;;; ret x) h d
  = Out (inl x) (map Progress (if b then [v] else [])) d.
Proof. destruct b; reflexivity. Qed.

Lemma progress_finish v :
  progressOf (map Progress (if b then [v] else [])) = if b then [v] else [].
Proof. apply progressOf_map. Qed.

(** The closure [processItems] hands to [shredSingleFile]. *)
Lemma file_callback_reports processed :
  reports (fun v => if b then [fileShare processed v total] else [])
    (Some (fun fileProgress =>
             match callback b with
             | Some callback => callback (fileShare processed fileProgress total)
             | None => ret tt
             end)).
Proof. destruct b; intros v h d; reflexivity. Qed.

Lemma flat_map_if (f : Z -> Z) l :
  flat_map (fun v => if b then [f v] else []) l = if b then map f l else [].
Proof.
  destruct b.
  - induction l as [|x l IH]; cbn; [reflexivity | now rewrite IH].
  - induction l as [|x l IH]; cbn; [reflexivity | exact IH].
Qed.

(** While a file is shredded the reports ascend between the shares of
    the items before and after it. *)
Lemma file_reports_asc path processed h d :
  0 <= processed -> processed + 1 <= total ->
  ascending (itemShare processed total) (itemShare (processed + 1) total)
    (progressOf (emitted (shredSingleFile W path
       (Some (fun fileProgress =>
                match callback b with
                | Some callback => callback (fileShare processed fileProgress total)
                | None => ret tt
                end)) h d))).
Proof.
  intros Hp Hw.
  destruct (shredSingleFile_progress W path h d (file_callback_reports processed))
    as [k P].
  rewrite P, flat_map_if. apply asc_firstn.
  destruct b; [|apply asc_nil].
  eapply asc_map; [| |apply dodValues_asc; lia].
  - intros x y Hx Hxy Hy. apply fileShare_mono; try assumption; lia.
  - intros x Hx. split.
    + apply fileShare_lower; try assumption; lia.
    + apply fileShare_upper; try assumption; lia.
Qed.

Lemma file_ok name : item_progress_ok W total b (File name).
Proof.
  intros path pr h d Hp Hw. cbn [weight] in Hw |- *.
  rewrite processItems_file.
  set (cb' := Some _).
  pose proof (itemShare_mono total_pos (k := pr) (k' := pr + 1)) as GM.
  destruct (sys_run W (StatSync path) h d) as [R|[code R]].
  2:{ rewrite (run_bind_fail _ _ _ _ R). cbn [result emitted].
      split; [apply asc_nil | discriminate]. }
  pose proof (@file_reports_asc path pr (h ++ [Sys (StatSync path) None]) d Hp Hw) as A.
  fold cb' in A.
  set (o := shredSingleFile W path cb' (h ++ [Sys (StatSync path) None]) d) in *.
  destruct (result o) as [[]|er] eqn:Ro.
  - assert (E : exists d',
        (sys W (StatSync path);;;
         done <- (shredSingleFile W path cb';;; ret pr);;
         call_if (callback b) (itemShare (done + 1) total);;; ret (done + 1)) h d
        = Out (inl (pr + 1))
              ([Sys (StatSync path) None] ++ (emitted o ++ []) ++
               map Progress (if b then [itemShare (pr + 1) total] else [])) d').
    { eexists. eapply run_bind; [exact R|].
      eapply run_bind.
      - eapply run_bind; [exact (outcome_with o Ro) | reflexivity].
      - apply finish_run. }
    destruct E as [d' E]. rewrite E. cbn [result emitted].
    rewrite !progressOf_app, progress_finish, app_nil_r. cbn [progressOf flat_map app].
    split.
    + apply (@asc_app _ (itemShare (pr + 1) total)); [exact A | | lia | lia].
      destruct b; [apply asc_single; lia | apply asc_nil].
    + intros p' [= <-]. split; [reflexivity|].
      intros ->. apply lastOf_app_nonempty. reflexivity.
  - assert (E : (sys W (StatSync path);;;
                 done <- (shredSingleFile W path cb';;; ret pr);;
                 call_if (callback b) (itemShare (done + 1) total);;; ret (done + 1)) h d
                = Out (inr er) ([Sys (StatSync path) None] ++ emitted o) (drawn o)).
    { eapply run_bind; [exact R|].
      eapply run_bind_fail. eapply run_bind_fail.
      exact (outcome_with o Ro). }
    rewrite E. cbn [result emitted]. rewrite progressOf_app.
    cbn [progressOf flat_map app].
    split; [exact A | discriminate].
Qed.

(** Removing a directory never throws: the failure is caught. *)
Lemma rmdir_run p h d :
  exists r,
    try_catch (sys W (RmdirSync p)) (fun _ => ret tt) h d
    = Out (inl tt) [Sys (RmdirSync p) r] d.
Proof.
  destruct (sys_run W (RmdirSync p) h d) as [R|[code R]].
  - exists None. apply run_catch_ok. exact R.
  - exists (Some code).
    change [Sys (RmdirSync p) (Some code)] with ([Sys (RmdirSync p) (Some code)] ++ []).
    eapply run_catch_fail; [exact R | reflexivity].
Qed.

Lemma dir_ok name children :
  list_progress_ok W total b children -> item_progress_ok W total b (Dir name children).
Proof.
  intros IH path pr h d Hp Hw. rewrite weight_dir in Hw |- *.
  rewrite processItems_dir.
  pose proof (proj2 weight_pos children) as Wc.
  destruct (sys_run W (StatSync path) h d) as [R|[code R]].
  2:{ rewrite (run_bind_fail _ _ _ _ R). cbn [result emitted].
      split; [apply asc_nil | discriminate]. }
  set (h1 := h ++ [Sys (StatSync path) None]).
  destruct (sys_run W (ReaddirSync path) h1 d) as [R2|[code R2]].
  2:{ assert (E : (sys W (StatSync path);;;
                   done <- (sys W (ReaddirSync path);;;
                            done <- processAll W total (callback b) path children pr;;
                            try_catch (sys W (RmdirSync path)) (fun _ => ret tt);;;
                            ret done);;
                   call_if (callback b) (itemShare (done + 1) total);;; ret (done + 1)) h d
                  = Out (inr (IOError (ReaddirSync path) code))
                        ([Sys (StatSync path) None] ++ [Sys (ReaddirSync path) (Some code)]) d).
      { eapply run_bind; [exact R|]. eapply run_bind_fail. eapply run_bind_fail. exact R2. }
      rewrite E. cbn [result emitted]. split; [apply asc_nil | discriminate]. }
  set (h2 := h1 ++ [Sys (ReaddirSync path) None]).
  assert (Hc : pr + weights children <= total) by lia.
  destruct (IH path pr h2 d Hp Hc) as [A Post].
  set (o := processAll W total (callback b) path children pr h2 d) in *.
  assert (GM : itemShare (pr + weights children) total
               <= itemShare (pr + (1 + weights children)) total)
    by (apply itemShare_mono; [exact total_pos | lia]).
  assert (G0 : itemShare pr total <= itemShare (pr + weights children) total)
    by (apply itemShare_mono; [exact total_pos | lia]).
  destruct (result o) as [p1|er] eqn:Ro.
  - destruct (Post p1 eq_refl) as [-> _].
    destruct (rmdir_run path (h2 ++ emitted o) (drawn o)) as [r Rr].
    assert (E : exists d',
        (sys W (StatSync path);;;
         done <- (sys W (ReaddirSync path);;;
                  done <- processAll W total (callback b) path children pr;;
                  try_catch (sys W (RmdirSync path)) (fun _ => ret tt);;;
                  ret done);;
         call_if (callback b) (itemShare (done + 1) total);;; ret (done + 1)) h d
        = Out (inl (pr + weights children + 1))
              ([Sys (StatSync path) None] ++
               ([Sys (ReaddirSync path) None] ++
                emitted o ++ [Sys (RmdirSync path) r] ++ []) ++
               map Progress
                 (if b then [itemShare (pr + weights children + 1) total] else [])) d').
    { eexists. eapply run_bind; [exact R|].
      eapply run_bind.
      - eapply run_bind; [exact R2|].
        eapply run_bind; [exact (outcome_with o Ro)|].
        eapply run_bind; [exact Rr | reflexivity].
      - apply finish_run. }
    destruct E as [d' E]. rewrite E. cbn [result emitted].
    rewrite !progressOf_app, progress_finish. cbn [progressOf flat_map app].
    rewrite app_nil_r.
    replace (pr + (1 + weights children)) with (pr + weights children + 1) in * by lia.
    split.
    + apply (@asc_app _ (itemShare (pr + weights children + 1) total)).
      * eapply asc_widen; [exact A | lia | lia].
      * destruct b; [apply asc_single; lia | apply asc_nil].
      * lia.
      * lia.
    + intros p' [= <-]. split; [reflexivity|].
      intros ->. apply lastOf_app_nonempty. reflexivity.
  - assert (E : (sys W (StatSync path);;;
                 done <- (sys W (ReaddirSync path);;;
                          done <- processAll W total (callback b) path children pr;;
                          try_catch (sys W (RmdirSync path)) (fun _ => ret tt);;;
                          ret done);;
                 call_if (callback b) (itemShare (done + 1) total);;; ret (done + 1)) h d
                = Out (inr er)
                      ([Sys (StatSync path) None] ++ [Sys (ReaddirSync path) None] ++ emitted o)
                      (drawn o)).
    { eapply run_bind; [exact R|]. eapply run_bind_fail.
      eapply run_bind; [exact R2|]. eapply run_bind_fail. exact (outcome_with o Ro). }
    rewrite E. cbn [result emitted]. rewrite !progressOf_app.
    cbn [progressOf flat_map app].
    split; [eapply asc_widen; [exact A | lia | lia] | discriminate].
Qed.

Lemma nil_ok : list_progress_ok W total b [].
Proof.
  intros path pr h d Hp Hw. cbn [processAll weights ret result emitted progressOf flat_map].
  split; [apply asc_nil|].
  intros p' [= <-]. split; [lia | intros _ C; contradiction].
Qed.

Lemma cons_ok n l :
  item_progress_ok W total b n -> list_progress_ok W total b l ->
  list_progress_ok W total b (n :: l).
Proof.
  intros IHn IHl path pr h d Hp Hw. cbn [weights] in Hw |- *.
  pose proof (proj1 weight_pos n) as Wn. pose proof (proj2 weight_pos l) as Wl.
  cbn [processAll].
  assert (Hn : pr + weight n <= total) by lia.
  destruct (IHn (join W path (nodeName n)) pr h d Hp Hn) as [A1 Post1].
  set (o1 := processItems W total (callback b) (join W path (nodeName n)) n pr h d) in *.
  assert (G1 : itemShare pr total <= itemShare (pr + weight n) total)
    by (apply itemShare_mono; [exact total_pos | lia]).
  assert (G2 : itemShare (pr + weight n) total
               <= itemShare (pr + (weight n + weights l)) total)
    by (apply itemShare_mono; [exact total_pos | lia]).
  destruct (result o1) as [p1|er] eqn:R1.
  - destruct (Post1 p1 eq_refl) as [-> L1].
    assert (Hp1 : 0 <= pr + weight n) by lia.
    assert (Hl : pr + weight n + weights l <= total) by lia.
    destruct (IHl path (pr + weight n) (h ++ emitted o1) (drawn o1) Hp1 Hl) as [A2 Post2].
    rewrite (bind_inl _ _ _ _ R1). cbn [result emitted].
    set (o2 := processAll W total (callback b) path l (pr + weight n)
                 (h ++ emitted o1) (drawn o1)) in *.
    rewrite progressOf_app.
    replace (pr + (weight n + weights l)) with (pr + weight n + weights l) in * by lia.
    split.
    + apply (@asc_app _ (itemShare (pr + weight n) total)); try assumption.
    + intros p' R2. destruct (Post2 p' R2) as [-> L2].
      split; [reflexivity|].
      intros Hb _. destruct l as [|n' l'].
      * subst o2. cbn [processAll ret emitted progressOf flat_map weights] in *.
        rewrite app_nil_r, Z.add_0_r. apply L1, Hb.
      * apply lastOf_app_nonempty. apply L2; [exact Hb | discriminate].
  - rewrite (bind_inr _ _ _ _ R1). cbn [result emitted].
    split; [eapply asc_widen; [exact A1 | lia | lia] | discriminate].
Qed.

(** The invariant holds for every tree. *)
Lemma traversal_ok :
  (forall n, item_progress_ok W total b n) /\ (forall l, list_progress_ok W total b l).
Proof.
  apply node_list_ind.
  - apply file_ok.
  - apply dir_ok.
  - apply nil_ok.
  - apply cons_ok.
Qed.

End Progress.

(** *** Counting *)

Section Counting.

Variable W : World.

(** Counting only reads, and fails only on a read. *)
Lemma count_sat :
  (forall n path t, sat read_event not_rmdir_failure (countItems W path n t)) /\
  (forall l path t, sat read_event not_rmdir_failure (countAll W path l t)).
Proof.
  apply node_list_ind.
  - intros name path t. cbn [countItems]. sat_auto.
  - intros name children IH path t.
    apply sat_pointwise
      with (m' := sys W (StatSync path);;;
                  sys W (ReaddirSync path);;;
                  countAll W path children (t + 1));
      [intros h d; apply countItems_dir|].
    sat_auto. apply IH.
  - intros path t. apply sat_ret.
  - intros n l IHn IHl path t. cbn [countAll].
    apply sat_bind; [apply IHn | intros t'; apply IHl].
Qed.

(** Counting adds the number of nodes. *)
Lemma count_value :
  (forall n path t h d t',
     result (countItems W path n t h d) = inl t' -> t' = t + weight n) /\
  (forall l path t h d t',
     result (countAll W path l t h d) = inl t' -> t' = t + weights l).
Proof.
  apply node_list_ind.
  - intros name path t h d t' H. cbn [countItems weight] in *.
    apply bind_result_inl in H. destruct H as [u [_ H]]. cbn in H. congruence.
  - intros name children IH path t h d t' H.
    rewrite countItems_dir in H. rewrite weight_dir.
    apply bind_result_inl in H. destruct H as [u1 [_ H]].
    apply bind_result_inl in H. destruct H as [u2 [_ H]].
    apply IH in H. lia.
  - intros path t h d t' H. cbn in *. injection H as <-. lia.
  - intros n l IHn IHl path t h d t' H. cbn [countAll weights] in *.
    apply bind_result_inl in H. destruct H as [t1 [H1 H2]].
    apply IHn in H1. apply IHl in H2. lia.
Qed.

(** The outcomes of [shredDirectory]: it fails before the traversal,
    with what it read so far; or the traversal runs with the number of
    nodes below the root as [totalItems], and either fails, which ends
    the shred, or is followed by the removal of the root. *)
Lemma shredDirectory_run dirPath items cb h d :
  exists pre,
    Forall read_event pre /\
    ((exists e d',
        shredDirectory W dirPath items cb h d = Out (inr (DirectoryFailed e)) pre d' /\
        not_rmdir_failure e) \/
     (exists h' d',
        (exists e,
           result (processAll W (weights items) cb dirPath items 0 h' d') = inr e /\
           shredDirectory W dirPath items cb h d
           = Out (inr (DirectoryFailed e))
                 (pre ++ emitted (processAll W (weights items) cb dirPath items 0 h' d'))
                 (drawn (processAll W (weights items) cb dirPath items 0 h' d'))) \/
        (exists p r,
           result (processAll W (weights items) cb dirPath items 0 h' d') = inl p /\
           shredDirectory W dirPath items cb h d
           = Out (inl tt)
                 (pre ++ emitted (processAll W (weights items) cb dirPath items 0 h' d')
                      ++ [Sys (RmdirSync dirPath) r])
                 (drawn (processAll W (weights items) cb dirPath items 0 h' d'))))).
Proof.
  unfold shredDirectory.
  set (rest := sys W (ReaddirSync dirPath);;; _).
  set (handler := fun error : error => throw (DirectoryFailed error)).
  assert (HB : forall r es d',
             (if negb (exists_ W h dirPath) then throw (DirNotFound dirPath) else rest) h d
             = Out r es d' ->
             (found <- existsSync W dirPath;;
              (if negb found then throw (DirNotFound dirPath) else rest)) h d = Out r es d').
  { intros r es d' H. rewrite existsSync_bind. exact H. }
  assert (HF : forall e es d',
             (if negb (exists_ W h dirPath) then throw (DirNotFound dirPath) else rest) h d
             = Out (inr e) es d' ->
             try_catch
               (found <- existsSync W dirPath;;
                (if negb found then throw (DirNotFound dirPath) else rest)) handler h d
             = Out (inr (DirectoryFailed e)) es d').
  { intros e es d' H. rewrite <- (app_nil_r es).
    eapply run_catch_fail; [apply HB; exact H | reflexivity]. }
  destruct (exists_ W h dirPath); cbn [negb] in HB, HF.
  2:{ exists []. split; [constructor|]. left. exists (DirNotFound dirPath), d.
      split; [|exact I]. apply HF. reflexivity. }
  subst rest.
  destruct (sys_run W (ReaddirSync dirPath) h d) as [R|[code R]].
  2:{ exists [Sys (ReaddirSync dirPath) (Some code)]. split; [repeat constructor|].
      left. exists (IOError (ReaddirSync dirPath) code), d. split; [|exact I].
      apply HF. eapply run_bind_fail. exact R. }
  set (h1 := h ++ [Sys (ReaddirSync dirPath) None]).
  pose proof (proj2 count_sat items dirPath 0 h1 d) as [F FX].
  pose proof (proj2 count_value items dirPath 0 h1 d) as Post.
  set (oc := countAll W dirPath items 0 h1 d) in *.
  destruct (result oc) as [t|er] eqn:Rc.
  2:{ exists ([Sys (ReaddirSync dirPath) None] ++ emitted oc).
      split; [constructor; [exact I | exact F]|].
      left. exists er, (drawn oc). split; [|apply FX; reflexivity].
      apply HF. eapply run_bind; [exact R|].
      eapply run_bind_fail. exact (outcome_with oc Rc). }
  rewrite (Post t eq_refl), Z.add_0_l in *.
  exists ([Sys (ReaddirSync dirPath) None] ++ emitted oc).
  split; [constructor; [exact I | exact F]|].
  right. exists (h1 ++ emitted oc), (drawn oc).
  set (o := processAll W (weights items) cb dirPath items 0 (h1 ++ emitted oc) (drawn oc)).
  destruct (result o) as [p|er] eqn:Ro.
  - right. destruct (rmdir_run W dirPath ((h1 ++ emitted oc) ++ emitted o) (drawn o))
      as [r Rr].
    exists p, r. split; [reflexivity|].
    apply run_catch_ok. apply HB.
    rewrite <- app_assoc.
    eapply run_bind; [exact R|].
    eapply run_bind; [exact (outcome_with oc Rc)|].
    eapply run_bind; [exact (outcome_with o Ro) | exact Rr].
  - left. exists er. split; [reflexivity|].
    apply HF. rewrite <- app_assoc.
    eapply run_bind; [exact R|].
    eapply run_bind; [exact (outcome_with oc Rc)|].
    eapply run_bind_fail. exact (outcome_with o Ro).
Qed.

End Counting.

(** *** Properties of the directory engine *)

Section Failures.

Variable W : World.
Variable total : Z.
Variable b : bool.

(** The traversal never fails on the removal of a directory. *)
Lemma process_sat :
  (forall n path pr,
     sat (fun _ => True) not_rmdir_failure (processItems W total (callback b) path n pr)) /\
  (forall l path pr,
     sat (fun _ => True) not_rmdir_failure (processAll W total (callback b) path l pr)).
Proof.
  assert (Hcb : forall v, sat (fun _ : event => True) not_rmdir_failure
                            (call_if (callback b) v)).
  { intros v. destruct b; unfold callback, call_if, report;
      [apply sat_emit; exact I | apply sat_ret]. }
  apply node_list_ind.
  - intros name path pr.
    apply sat_pointwise
      with (m' := sys W (StatSync path) ;;;
                  done <- (shredSingleFile W path
                             (Some (fun fileProgress =>
                                      match callback b with
                                      | Some callback =>
                                          callback (fileShare pr fileProgress total)
                                      | None => ret tt
                                      end)) ;;;
                           ret pr) ;;
                  call_if (callback b) (itemShare (done + 1) total) ;;;
                  ret (done + 1));
      [intros h d; apply processItems_file|].
    apply sat_bind; [sat_auto|]. intros _.
    apply sat_bind.
    + apply sat_bind; [|intros; apply sat_ret].
      apply Shape.shredSingleFile_sat; try (intros; exact I).
      * intros er Her. destruct er; try exact I.
        match goal with c : syscall |- _ => destruct c end;
          cbn in Her |- *; try exact I; contradiction.
      * intros v. destruct b; unfold callback, call_if, report;
          [apply sat_emit; exact I | apply sat_ret].
    + intros done. apply sat_bind; [apply Hcb | intros; apply sat_ret].
  - intros name children IH path pr.
    apply sat_pointwise
      with (m' := sys W (StatSync path) ;;;
                  done <- (sys W (ReaddirSync path) ;;;
                           done <- processAll W total (callback b) path children pr ;;
                           try_catch (sys W (RmdirSync path)) (fun _ => ret tt) ;;;
                           ret done) ;;
                  call_if (callback b) (itemShare (done + 1) total) ;;;
                  ret (done + 1));
      [intros h d; apply processItems_dir|].
    apply sat_bind; [sat_auto|]. intros _.
    apply sat_bind.
    + apply sat_bind; [sat_auto|]. intros _.
      apply sat_bind; [apply IH|]. intros done.
      apply sat_bind; [|intros; apply sat_ret].
      apply sat_try_catch with (X' := fun _ => True); [sat_auto | intros; apply sat_ret].
    + intros done. apply sat_bind; [apply Hcb | intros; apply sat_ret].
  - intros path pr. apply sat_ret.
  - intros n l IHn IHl path pr. cbn [processAll].
    apply sat_bind; [apply IHn | intros p; apply IHl].
Qed.


End Failures.

End Directory.

(* ================================================================== *)
(** ** Claims about the directory engine *)
(* ================================================================== *)

Module DirectoryClaims.
Import Utils FileShredder Passes StaticPhases FileClaims DirNumbers Directory Traversal.

Local Open Scope string_scope.
Local Open Scope list_scope.
Local Open Scope Z_scope.

(** What only reads the tree reports nothing. *)
Lemma read_only_progress es : Forall read_event es -> progressOf es = [].
Proof.
  intros H. apply progressOf_none. eapply Forall_impl; [|exact H].
  intros [c r| | | | |]; cbn; try contradiction; exact (fun _ => I).
Qed.

(** The reports of a whole traversal, whose denominator is the weight
    of the children of the root. *)
Lemma processAll_progress W b dirPath items h d :
  weights items < 2 ^ 53 ->
  ascending 0 100
    (progressOf (emitted (processAll W (weights items) (callback b) dirPath items 0 h d))) /\
  (forall p,
     result (processAll W (weights items) (callback b) dirPath items 0 h d) = inl p ->
     b = true -> items <> [] ->
     lastOf (progressOf (emitted (processAll W (weights items) (callback b)
                                    dirPath items 0 h d))) = Some 100).
Proof.
  intros Hsafe. destruct items as [|n l].
  - cbn. split; [apply asc_nil | intros; congruence].
  - assert (Hpos : 0 < weights (n :: l)).
    { cbn [weights]. pose proof (proj1 weight_pos n). pose proof (proj2 weight_pos l). lia. }
    destruct (proj2 (traversal_ok W b Hpos Hsafe) (n :: l) dirPath 0 h d) as [Hasc Hres];
      [lia | lia |].
    rewrite Z.add_0_l, (itemShare_total Hpos) in Hasc. split.
    + eapply asc_widen; [exact Hasc | | lia].
      apply (itemShare_range Hpos). lia.
    + intros p Hp Hb Hne. destruct (Hres p Hp) as [-> Hlast].
      rewrite (Hlast Hb Hne), Z.add_0_l. f_equal. apply (itemShare_total Hpos).
Qed.

Lemma lastOf_app_nil (l : list Z) : lastOf (l ++ []) = lastOf l.
Proof. now rewrite app_nil_r. Qed.

(** C6, as the code has it.  For every directory shred the reported overall
    progress values are in non-decreasing order and lie between 0 and
    100; when the shred of a directory that is not empty completes, the
    last value reported is 100, and the removal of the root directory
    is the last step, after every report.  (The value 100 can be
    reported more than once, and is reported before the root is
    removed.) *)
Theorem C6_progress_ascends W dirPath items b h d :
  weights items < 2 ^ 53 ->
  Sorted Z.le (progressOf (emitted (shredDirectory W dirPath items (callback b) h d))) /\
  Forall (fun v => 0 <= v <= 100)
         (progressOf (emitted (shredDirectory W dirPath items (callback b) h d))) /\
  (result (shredDirectory W dirPath items (callback b) h d) = inl tt ->
   (b = true -> items <> [] ->
    lastOf (progressOf (emitted (shredDirectory W dirPath items (callback b) h d)))
    = Some 100) /\
   exists before r,
     emitted (shredDirectory W dirPath items (callback b) h d)
     = before ++ [Sys (RmdirSync dirPath) r] /\
     progressOf before
     = progressOf (emitted (shredDirectory W dirPath items (callback b) h d))).
Proof.
  intros Hsafe.
  destruct (shredDirectory_run W dirPath items (callback b) h d)
    as [pre [Hpre [(e & d' & Hs & _) | (h' & d' & [(e & Hr & Hs) | (p & r & Hr & Hs)])]]];
    rewrite Hs; cbn [emitted result];
    pose proof (read_only_progress Hpre) as Hq.
  - rewrite Hq. split; [constructor | split; [constructor | discriminate]].
  - destruct (processAll_progress W b dirPath items h' d' Hsafe) as [[HS HF] _].
    rewrite progressOf_app, Hq. cbn [app].
    split; [apply StronglySorted_Sorted, HS | split; [exact HF | discriminate]].
  - destruct (processAll_progress W b dirPath items h' d' Hsafe) as [[HS HF] HL].
    rewrite !progressOf_app, Hq. cbn [app progressOf flat_map]. rewrite app_nil_r.
    split; [apply StronglySorted_Sorted, HS | split; [exact HF | intros _; split]].
    + intros Hb Hne. exact (HL p Hr Hb Hne).
    + exists (pre ++ emitted (processAll W (weights items) (callback b) dirPath items 0 h' d')), r.
      split; [now rewrite app_assoc|].
      now rewrite progressOf_app, Hq.
Qed.

Lemma C6_witness :
  weights [Dir "sub" [File "a"; File "b"]; File "c"] < 2 ^ 53 /\
  Sorted Z.le
    (progressOf (emitted (shredDirectory (Sample.calm 10) "/data"
                            [Dir "sub" [File "a"; File "b"]; File "c"]
                            (callback true) [] 0%N))).
Proof.
  split; [reflexivity|].
  apply (C6_progress_ascends (Sample.calm 10) "/data"
           [Dir "sub" [File "a"; File "b"]; File "c"] true [] 0%N).
  reflexivity.
Defined.

(** C6 as stated fails on a directory that holds one file of ten bytes:
    100 is reported twice, by the last chunk of the last pass over the
    file and again when the file is counted as done, and both reports
    come before the root directory is removed. *)
Lemma C6_counterexample :
  progressOf (emitted (shredDirectory (Sample.calm 10) "/data" [File "a"]
                         (callback true) [] 0%N))
  = [33; 67; 100; 100] /\
  count_occ Z.eq_dec
    (progressOf (emitted (shredDirectory (Sample.calm 10) "/data" [File "a"]
                            (callback true) [] 0%N))) 100 = 2%nat /\
  exists before,
    emitted (shredDirectory (Sample.calm 10) "/data" [File "a"] (callback true) [] 0%N)
    = before ++ [Sys (RmdirSync "/data") None] /\
    progressOf before = [33; 67; 100; 100] /\
    ~ In (Sys (RmdirSync "/data") None) before.
Proof.
  split; [vm_compute; reflexivity|]. split; [vm_compute; reflexivity|].
  exists (removelast (emitted (shredDirectory (Sample.calm 10) "/data" [File "a"]
                                 (callback true) [] 0%N))).
  split; [vm_compute; reflexivity|]. split; [vm_compute; reflexivity|].
  vm_compute. intros H.
  repeat (destruct H as [H|H]; [discriminate H|]). exact H.
Qed.

(** C4, as the code has it.  Before any mutation the directory engine counts
    the items below the root directory: each file counts as 1 and each
    subdirectory counts as 1, and the root directory itself is not
    counted.  The count only reads the tree, and it is the denominator
    of every progress value of the traversal that follows. *)
Theorem C4_count_excludes_root W dirPath items b h d :
  (forall t h0 d0 t',
     result (countAll W dirPath items t h0 d0) = inl t' ->
     t' = t + (fileCounts items + dirCounts items)) /\
  (forall t h0 d0, Forall read_event (emitted (countAll W dirPath items t h0 d0))) /\
  exists pre,
    Forall read_event pre /\
    (emitted (shredDirectory W dirPath items (callback b) h d) = pre \/
     exists h' d' post,
       emitted (shredDirectory W dirPath items (callback b) h d)
       = pre ++ emitted (processAll W (fileCounts items + dirCounts items)
                           (callback b) dirPath items 0 h' d') ++ post /\
       (post = [] \/ exists r, post = [Sys (RmdirSync dirPath) r])).
Proof.
  split; [|split].
  - intros t h0 d0 t' H. rewrite <- (proj2 weight_counts).
    exact (proj2 (count_value W) items dirPath t h0 d0 t' H).
  - intros t h0 d0. exact (proj1 (proj2 (count_sat W) items dirPath t h0 d0)).
  - destruct (shredDirectory_run W dirPath items (callback b) h d)
      as [pre [Hpre [(e & d' & Hs & _) | (h' & d' & [(e & Hr & Hs) | (p & r & Hr & Hs)])]]];
      exists pre; (split; [exact Hpre|]); rewrite Hs; cbn [emitted].
    + left. reflexivity.
    + right. exists h', d', []. rewrite <- (proj2 weight_counts), app_nil_r.
      split; [reflexivity | left; reflexivity].
    + right. exists h', d', [Sys (RmdirSync dirPath) r]. rewrite <- (proj2 weight_counts).
      split; [reflexivity | right; exists r; reflexivity].
Qed.

Lemma C4_witness :
  result (countAll (Sample.calm 10) "/data" [Dir "sub" [File "a"; File "b"]; File "c"]
            0 [] 0%N) = inl 4 /\
  4 = 0 + (fileCounts [Dir "sub" [File "a"; File "b"]; File "c"]
           + dirCounts [Dir "sub" [File "a"; File "b"]; File "c"]).
Proof.
  split; [vm_compute; reflexivity|].
  apply (proj1 (C4_count_excludes_root (Sample.calm 10) "/data"
                  [Dir "sub" [File "a"; File "b"]; File "c"] true [] 0%N)
           0 [] 0%N 4).
  vm_compute; reflexivity.
Defined.

(** C4 as stated fails on a directory that holds one file: the count
    is 1, not the 2 that counting the root would give, and the progress
    reported is that of the denominator 1; with the denominator 2 the
    same traversal reports other values. *)
Lemma C4_counterexample :
  result (countAll (Sample.calm 10) "/data" [File "a"] 0 [] 0%N) = inl 1 /\
  leafUnitsWithRoot [File "a"] = 2 /\
  progressOf (emitted (shredDirectory (Sample.calm 10) "/data" [File "a"]
                         (callback true) [] 0%N))
  = progressOf (emitted (processAll (Sample.calm 10) 1 (callback true) "/data"
                           [File "a"] 0 [] 0%N)) /\
  progressOf (emitted (processAll (Sample.calm 10) 1 (callback true) "/data"
                         [File "a"] 0 [] 0%N)) = [33; 67; 100; 100] /\
  progressOf (emitted (processAll (Sample.calm 10) (leafUnitsWithRoot [File "a"])
                         (callback true) "/data" [File "a"] 0 [] 0%N))
  = [16; 33; 50; 50].
Proof.
  split; [vm_compute; reflexivity|]. split; [vm_compute; reflexivity|].
  split; [vm_compute; reflexivity|]. split; vm_compute; reflexivity.
Qed.







End DirectoryClaims.

(* ================================================================== *)
(** ** One overwrite pass, call by call *)
(* ================================================================== *)

Module PassFacts.
Import Utils FileShredder Passes StaticPhases FileClaims PassTrace.

Local Open Scope string_scope.
Local Open Scope list_scope.
Local Open Scope Z_scope.

(** The entropy position after a request of [size] bytes for [pat]. *)
Lemma randomly_run (pat : pattern) size h d :
  (match pat with
   | Random => generateSecureRandomData size
   | Fixed _ => ret tt
   end) h d
  = Out (inl tt) (randomly pat size)
        (match pat with Random => d + Z.to_N size | Fixed _ => d end)%N.
Proof. destruct pat; reflexivity. Qed.

Lemma sys_inl W c h d u es d' :
  sys W c h d = Out (inl u) es d' ->
  fails W h c = None /\ es = [Sys c None] /\ d' = d.
Proof.
  unfold sys. destruct (fails W h c); intros H; [discriminate|].
  injection H as _ <- <-. auto.
Qed.

Lemma try_finally_ok_inv {A} (m : M A) (cleanup : M unit) h d a :
  result (try_finally m cleanup h d) = inl a ->
  exists es1 d1 es2 d2,
    m h d = Out (inl a) es1 d1 /\
    cleanup (h ++ es1) d1 = Out (inl tt) es2 d2 /\
    try_finally m cleanup h d = Out (inl a) (es1 ++ es2) d2.
Proof.
  unfold try_finally. destruct (m h d) as [r es1 d1]. cbn [result emitted drawn].
  destruct (cleanup (h ++ es1) d1) as [[[]|e] es2 d2] eqn:C; cbn [result emitted drawn];
    [|discriminate].
  intros ->. exists es1, d1, es2, d2. repeat split. exact C.
Qed.

Section WithWorld.

Variable W : World.

(** A round of the loop that completes has emitted its whole trace. *)
Lemma writeChunk_ok fd pat b s e buf size i h d :
  result (writeChunk W fd pat (callback b) s e buf size i h d) = inl tt ->
  emitted (writeChunk W fd pat (callback b) s e buf size i h d)
  = chunkTrace fd pat b s e buf size i.
Proof.
  unfold writeChunk, chunkTrace. intros H.
  bind_ok H as u1 es1 d1 H1 H2.
  rewrite (randomly_run pat buf h d) in H1. injection H1 as _ <- <-.
  bind_ok H2 as u2 es2 d2 Hw H3.
  destruct (sys_inl _ _ _ _ Hw) as (_ & -> & ->).
  bind_ok H3 as u3 es3 d3 Hc H4.
  assert (es3 = if b then [Progress (chunkProgress s e i buf size)] else []) as ->.
  { destruct b; cbn in Hc; injection Hc as _ <- _; reflexivity. }
  assert (emitted (when_ (i mod 10 =? 0) (emit Yield)
                     (((h ++ randomly pat buf)
                       ++ [Sys (WriteSync fd pat buf (i * buf)) None])
                      ++ (if b then [Progress (chunkProgress s e i buf size)] else []))
                     d3)
          = if i mod 10 =? 0 then [Yield] else []) as ->.
  { destruct (i mod 10 =? 0); reflexivity. }
  reflexivity.
Qed.

Lemma chunks_ok fd pat b s e buf size idx h d :
  result (for_each idx (writeChunk W fd pat (callback b) s e buf size) h d) = inl tt ->
  emitted (for_each idx (writeChunk W fd pat (callback b) s e buf size) h d)
  = flat_map (chunkTrace fd pat b s e buf size) idx.
Proof.
  revert h d. induction idx as [|i idx IH]; intros h d H; [reflexivity|].
  cbn [for_each flat_map] in *.
  bind_ok H as u es1 d1 H1 H2. destruct u.
  pose proof (writeChunk_ok fd pat b s e buf size i h d) as E1.
  rewrite H1 in E1. cbn [result emitted] in E1. rewrite (E1 eq_refl) in *.
  f_equal. apply IH. exact H2.
Qed.

(** A pass that completes has emitted the whole trace of a pass. *)
Lemma overwrite_ok p pat b s e h d :
  result (overwriteFileWithPattern W p pat (callback b) s e h d) = inl tt ->
  emitted (overwriteFileWithPattern W p pat (callback b) s e h d)
  = passTrace p pat b s e (Z.of_N (size_of W p)).
Proof.
  unfold overwriteFileWithPattern, passBody, passTrace. intros H.
  bind_ok H as u0 es0 d0 H0 H1. injection H0 as _ <- <-.
  bind_ok H1 as size es1 d1 Hs H2.
  destruct (statSize_run W p (h ++ [Pass p pat s e]) d) as [E|[code E]];
    rewrite E in Hs; [|discriminate].
  injection Hs as <- <- <-.
  unfold overwriteSized in *.
  set (size := Z.of_N (size_of W p)) in *.
  set (buf := Z.min (1024 * 1024) size) in *.
  bind_ok H2 as u2 es2 d2 Ho H3.
  destruct (sys_inl _ _ _ _ Ho) as (_ & -> & ->).
  destruct (try_finally_ok_inv _ _ _ _ H3) as (esb & db & esc & dc & Hb & Hc & Hf).
  rewrite Hf. cbn [emitted].
  destruct (sys_inl _ _ _ _ Hc) as (_ & -> & ->).
  clear Hf H3 Hc Ho E.
  assert (Rb := f_equal (@result unit) Hb). cbn [result] in Rb.
  assert (Eb := f_equal (@emitted unit) Hb). cbn [emitted] in Eb.
  rewrite <- Eb. clear Eb Hb.
  bind_ok Rb as u3 es3 d3 Hr H4.
  rewrite (randomly_run pat buf) in Hr. injection Hr as _ <- <-.
  bind_ok H4 as u4 es4 d4 Hl H5. destruct u4.
  pose proof (chunks_ok p pat b s e buf size
                (indices 0 (iterations (floorDiv size buf))) _ _
                (f_equal (@result unit) Hl)) as El.
  rewrite Hl in El. cbn [emitted] in El. subst es4.
  bind_ok H5 as u5 es5 d5 Hm H6.
  destruct (sys_inl _ _ _ _ (outcome_with _ H6)) as (_ & Ef & _).
  rewrite Ef.
  assert (es5 = if positive (remainder size buf)
                then randomly pat (match remainder size buf with
                                   | Some r => r | None => 0 end) ++
                     [Sys (WriteSync p pat
                             (match remainder size buf with Some r => r | None => 0 end)
                             (times (floorDiv size buf) buf)) None]
                else []) as ->.
  { destruct (positive (remainder size buf)); cbn [when_] in Hm.
    - assert (Rm := f_equal (@result unit) Hm). cbn [result] in Rm.
      assert (Em := f_equal (@emitted unit) Hm). cbn [emitted] in Em.
      rewrite <- Em. clear Em Hm.
      bind_ok Rm as u6 es6 d6 Hq Hw.
      rewrite randomly_run in Hq. injection Hq as _ <- <-.
      destruct (sys_inl _ _ _ _ (outcome_with _ Hw)) as (_ & -> & _).
      reflexivity.
    - injection Hm as _ <- _. reflexivity. }
  cbn [app]. repeat rewrite <- app_assoc. reflexivity.
Qed.

(** *** The writes of a pass *)

Lemma writesOf_randomly pat n : writesOf (randomly pat n) = [].
Proof. destruct pat; reflexivity. Qed.

Lemma writesOf_chunkTrace fd pat b s e buf size i :
  writesOf (chunkTrace fd pat b s e buf size i) = [WriteSync fd pat buf (i * buf)].
Proof.
  unfold chunkTrace. rewrite !writesOf_app, writesOf_randomly.
  destruct b, (i mod 10 =? 0); reflexivity.
Qed.

Lemma writesOf_chunks fd pat b s e buf size idx :
  writesOf (flat_map (chunkTrace fd pat b s e buf size) idx)
  = map (fun i => WriteSync fd pat buf (i * buf)) idx.
Proof.
  induction idx as [|i idx IH]; [reflexivity|].
  cbn [flat_map map]. rewrite writesOf_app, writesOf_chunkTrace, IH. reflexivity.
Qed.

Lemma writesOf_passTrace p pat b s e size :
  writesOf (passTrace p pat b s e size)
  = map (fun i => WriteSync p pat (Z.min (1024 * 1024) size)
                    (i * Z.min (1024 * 1024) size))
        (indices 0 (iterations (floorDiv size (Z.min (1024 * 1024) size)))) ++
    (if positive (remainder size (Z.min (1024 * 1024) size))
     then [WriteSync p pat
             (match remainder size (Z.min (1024 * 1024) size) with
              | Some r => r | None => 0 end)
             (times (floorDiv size (Z.min (1024 * 1024) size))
                    (Z.min (1024 * 1024) size))]
     else []).
Proof.
  unfold passTrace. cbn [app writesOf flat_map].
  fold (writesOf (randomly pat (Z.min (1024 * 1024) size) ++
                  flat_map (chunkTrace p pat b s e (Z.min (1024 * 1024) size) size)
                    (indices 0 (iterations (floorDiv size (Z.min (1024 * 1024) size)))) ++
                  (if positive (remainder size (Z.min (1024 * 1024) size))
                   then randomly pat (match remainder size (Z.min (1024 * 1024) size) with
                                      | Some r => r | None => 0 end) ++
                        [Sys (WriteSync p pat
                                (match remainder size (Z.min (1024 * 1024) size) with
                                 | Some r => r | None => 0 end)
                                (times (floorDiv size (Z.min (1024 * 1024) size))
                                       (Z.min (1024 * 1024) size))) None]
                   else []) ++
                  [Sys (FsyncSync p) None; Sys (CloseSync p) None])).
  rewrite !writesOf_app, writesOf_randomly, writesOf_chunks. cbn [app].
  destruct (positive (remainder size (Z.min (1024 * 1024) size))).
  - rewrite writesOf_app, writesOf_randomly. cbn [app writesOf flat_map].
    rewrite ?app_nil_r. reflexivity.
  - cbn [app writesOf flat_map]. rewrite ?app_nil_r. reflexivity.
Qed.

Lemma contiguous_step fd pat n pos rest :
  0 < n ->
  contiguousFrom fd pat pos (WriteSync fd pat n pos :: rest)
  = contiguousFrom fd pat (pos + n) rest.
Proof.
  intros Hn. cbn [contiguousFrom]. rewrite String.eqb_refl, Z.eqb_refl.
  replace (0 <? n) with true by (symmetry; apply Z.ltb_lt; exact Hn).
  destruct pat; rewrite ?Z.eqb_refl; reflexivity.
Qed.

Lemma contiguous_chunks fd pat buf from n rest :
  0 < buf ->
  contiguousFrom fd pat (from * buf)
    (map (fun i => WriteSync fd pat buf (i * buf)) (indices from n) ++ rest)
  = contiguousFrom fd pat ((from + Z.of_nat n) * buf) rest.
Proof.
  intros Hb. revert from. induction n as [|n IH]; intros from.
  - cbn [indices map app]. now rewrite Z.add_0_r.
  - cbn [indices map app]. rewrite (contiguous_step _ _ _ _ Hb).
    replace (from * buf + buf) with ((from + 1) * buf) by lia.
    rewrite IH. f_equal. lia.
Qed.

Lemma failuresOf_app a b : failuresOf (a ++ b) = failuresOf a ++ failuresOf b.
Proof. apply flat_map_app. Qed.

Lemma failuresOf_randomly pat n : failuresOf (randomly pat n) = [].
Proof. destruct pat; reflexivity. Qed.

Lemma failuresOf_chunks fd pat b s e buf size idx :
  failuresOf (flat_map (chunkTrace fd pat b s e buf size) idx) = [].
Proof.
  induction idx as [|i idx IH]; [reflexivity|].
  cbn [flat_map]. rewrite failuresOf_app, IH, app_nil_r.
  unfold chunkTrace. rewrite !failuresOf_app, failuresOf_randomly.
  destruct b, (i mod 10 =? 0); reflexivity.
Qed.

Lemma failuresOf_passTrace p pat b s e size : failuresOf (passTrace p pat b s e size) = [].
Proof.
  unfold passTrace.
  rewrite !failuresOf_app, failuresOf_randomly, failuresOf_chunks.
  destruct (positive _); [rewrite failuresOf_app, failuresOf_randomly|]; reflexivity.
Qed.

(** X1.  The writes of a pass that completes cover the file: they go
    to the file opened, carry the pattern of the pass, each is of
    positive length and begins where the one before it ended, the
    first one at offset 0 and the last one ending at the size the file
    had when the pass started. *)
Theorem pass_writes_cover_file p pat b s e h d :
  result (overwriteFileWithPattern W p pat (callback b) s e h d) = inl tt ->
  contiguousFrom p pat 0
    (writesOf (emitted (overwriteFileWithPattern W p pat (callback b) s e h d)))
  = Some (Z.of_N (size_of W p)) /\
  failuresOf (emitted (overwriteFileWithPattern W p pat (callback b) s e h d)) = [].
Proof.
  intros H. rewrite (overwrite_ok _ _ _ _ _ _ _ H). split.
  - rewrite writesOf_passTrace.
    set (size := Z.of_N (size_of W p)).
    assert (Hs : 0 <= size) by (subst size; lia).
    set (buf := Z.min (1024 * 1024) size).
    unfold floorDiv, remainder. destruct (buf =? 0) eqn:B.
    + apply Z.eqb_eq in B. cbn. f_equal. subst buf. lia.
    + apply Z.eqb_neq in B. assert (Hb : 0 < buf) by (subst buf; lia).
      cbn [iterations positive times].
      pose proof (contiguous_chunks p pat 0 (Z.to_nat (size / buf))
                    (if 0 <? size mod buf
                     then [WriteSync p pat (size mod buf) (size / buf * buf)]
                     else []) Hb) as C.
      rewrite Z.mul_0_l in C. rewrite C. clear C.
      assert (Hq : 0 <= size / buf) by (apply Z.div_pos; lia).
      rewrite Z2Nat.id, Z.add_0_l by exact Hq.
      pose proof (Z.div_mod size buf B) as DM.
      pose proof (Z.mod_pos_bound size buf Hb) as MB.
      destruct (0 <? size mod buf) eqn:R.
      * apply Z.ltb_lt in R. rewrite (contiguous_step _ _ _ _ R). cbn. f_equal. lia.
      * apply Z.ltb_ge in R. cbn. f_equal. lia.
  - apply failuresOf_passTrace.
Qed.

(** X2.  A pass that completes ends with a successful [fsyncSync]
    followed by a successful [closeSync]: every write of the pass comes
    before the flush, and the flush before the descriptor is closed. *)
Theorem pass_flushes_then_closes p pat b s e h d :
  result (overwriteFileWithPattern W p pat (callback b) s e h d) = inl tt ->
  exists before,
    emitted (overwriteFileWithPattern W p pat (callback b) s e h d)
    = before ++ [Sys (FsyncSync p) None; Sys (CloseSync p) None] /\
    writesOf before
    = writesOf (emitted (overwriteFileWithPattern W p pat (callback b) s e h d)) /\
    Forall (fun ev => forall fd r, ev <> Sys (FsyncSync fd) r /\ ev <> Sys (CloseSync fd) r)
           before.
Proof.
  intros H. rewrite (overwrite_ok _ _ _ _ _ _ _ H). unfold passTrace.
  set (size := Z.of_N (size_of W p)). set (buf := Z.min (1024 * 1024) size).
  set (tail := if positive (remainder size buf)
               then randomly pat (match remainder size buf with Some r => r | None => 0 end)
                    ++ [Sys (WriteSync p pat
                               (match remainder size buf with Some r => r | None => 0 end)
                               (times (floorDiv size buf) buf)) None]
               else []).
  exists ([Pass p pat s e; Sys (StatSync p) None; Sys (OpenSync p) None] ++
          randomly pat buf ++
          flat_map (chunkTrace p pat b s e buf size)
            (indices 0 (iterations (floorDiv size buf))) ++ tail).
  split; [|split].
  - rewrite <- !app_assoc. reflexivity.
  - rewrite !app_assoc, (writesOf_app _ [_; _]). cbn [writesOf flat_map app].
    rewrite app_nil_r, <- !app_assoc. reflexivity.
  - assert (R : forall n, Forall (fun ev => forall fd r, ev <> Sys (FsyncSync fd) r /\
                                                       ev <> Sys (CloseSync fd) r)
                            (randomly pat n)).
    { intros n. destruct pat; repeat constructor; discriminate. }
    repeat (apply Forall_cons; [split; discriminate|]).
    cbn [app]. apply Forall_app. split; [apply R|].
    apply Forall_app. split.
    + apply Forall_flat_map, Forall_forall. intros i _. unfold chunkTrace.
      apply Forall_app. split; [apply R|].
      destruct b, (i mod 10 =? 0); repeat constructor; discriminate.
    + subst tail. destruct (positive _); [|constructor].
      apply Forall_app. split; [apply R|]. repeat constructor; discriminate.
Qed.

(** *** The descriptor of a pass *)

Lemma opensOf_app a b : opensOf (a ++ b) = opensOf a ++ opensOf b.
Proof. apply flat_map_app. Qed.

Lemma closesOf_app a b : closesOf (a ++ b) = closesOf a ++ closesOf b.
Proof. apply flat_map_app. Qed.

Lemma inner_quiet es : Forall inner_event es -> opensOf es = [] /\ closesOf es = [].
Proof.
  induction 1 as [|ev es Hev _ [IH1 IH2]]; [split; reflexivity|].
  destruct ev as [c r| | | | |]; try (split; assumption).
  destruct c; try contradiction; split; assumption.
Qed.

(** What lies between the [openSync] and the [closeSync] of a pass
    neither opens nor closes anything. *)
Lemma inside_inner fd pat b s e size :
  sat inner_event (fun _ => True)
    (match pat with
     | Random => generateSecureRandomData (Z.min (1024 * 1024) size)
     | Fixed _ => ret tt
     end ;;;
     for_each (indices 0 (iterations (floorDiv size (Z.min (1024 * 1024) size))))
       (writeChunk W fd pat (callback b) s e (Z.min (1024 * 1024) size) size) ;;;
     when_ (positive (remainder size (Z.min (1024 * 1024) size)))
       (match pat with
        | Random =>
            generateSecureRandomData
              (match remainder size (Z.min (1024 * 1024) size) with
               | Some r => r | None => 0 end)
        | Fixed _ => ret tt
        end ;;;
        sys W (WriteSync fd pat
                 (match remainder size (Z.min (1024 * 1024) size) with
                  | Some r => r | None => 0 end)
                 (times (floorDiv size (Z.min (1024 * 1024) size))
                    (Z.min (1024 * 1024) size)))) ;;;
     sys W (FsyncSync fd)).
Proof.
  unfold writeChunk, generateSecureRandomData.
  sat_auto; apply sat_call_report; intros; exact I.
Qed.

(** X3.  A pass closes the descriptor it opened, whatever happens in
    between: when [openSync] has succeeded, exactly one [closeSync] is
    attempted, on the file opened and as the last call of the pass,
    also when a write or the flush has failed.  When the file could not
    be opened (or its size not read), nothing is closed. *)
Theorem pass_closes_what_it_opened p pat b s e h d :
  (opensOf (emitted (overwriteFileWithPattern W p pat (callback b) s e h d))
   = [(p, None)] /\
   exists before r,
     emitted (overwriteFileWithPattern W p pat (callback b) s e h d)
     = before ++ [Sys (CloseSync p) r] /\
     closesOf before = []) \/
  ((exists er, result (overwriteFileWithPattern W p pat (callback b) s e h d) = inr er) /\
   closesOf (emitted (overwriteFileWithPattern W p pat (callback b) s e h d)) = [] /\
   writesOf (emitted (overwriteFileWithPattern W p pat (callback b) s e h d)) = [] /\
   forall q, ~ In (q, None)
               (opensOf (emitted (overwriteFileWithPattern W p pat (callback b) s e h d)))).
Proof.
  unfold overwriteFileWithPattern, passBody.
  rewrite (bind_inl (emit (Pass p pat s e)) _ h d (a := tt) eq_refl).
  cbn [emit result emitted drawn].
  destruct (statSize_run W p (h ++ [Pass p pat s e]) d) as [E|[code E]].
  - rewrite (run_bind _ _ _ _ E (outcome_eta _)). cbn [result emitted drawn].
    unfold overwriteSized.
    destruct (sys_run W (OpenSync p) ((h ++ [Pass p pat s e]) ++ [Sys (StatSync p) None]) d)
      as [Eo|[code Eo]].
    + left. rewrite (run_bind _ _ _ _ Eo (outcome_eta _)). cbn [result emitted drawn].
      unfold try_finally. cbn [result emitted drawn].
      match goal with
      | |- context [emitted (sys W (CloseSync p) ?hh ?dd)] =>
          destruct (sys_run W (CloseSync p) hh dd) as [Ec|[code Ec]]; rewrite Ec
      end; cbn [result emitted drawn];
      match goal with
      | |- context [emitted (?body ?hh ?dd)] =>
          pose proof (proj1 (inside_inner p pat b s e (Z.of_N (size_of W p)) hh dd)) as Hin;
          destruct (inner_quiet Hin) as [Ho Hc];
          set (inner := emitted (body hh dd)) in *
      end.
      * split.
        -- cbn [app opensOf flat_map]. fold (opensOf (inner ++ [Sys (CloseSync p) None])).
           rewrite opensOf_app, Ho. reflexivity.
        -- exists ([Pass p pat s e; Sys (StatSync p) None; Sys (OpenSync p) None] ++ inner), None.
           split; [now rewrite <- !app_assoc|].
           cbn [app closesOf flat_map]. exact Hc.
      * split.
        -- cbn [app opensOf flat_map].
           fold (opensOf (inner ++ [Sys (CloseSync p) (Some code)])).
           rewrite opensOf_app, Ho. reflexivity.
        -- exists ([Pass p pat s e; Sys (StatSync p) None; Sys (OpenSync p) None] ++ inner),
             (Some code).
           split; [now rewrite <- !app_assoc|].
           cbn [app closesOf flat_map]. exact Hc.
    + right. rewrite (run_bind_fail _ _ _ _ Eo). cbn [result emitted drawn app].
      split; [eexists; reflexivity|]. split; [reflexivity|]. split; [reflexivity|].
      intros q [C|[]]. discriminate C.
  - right. rewrite (run_bind_fail _ _ _ _ E). cbn [result emitted drawn app].
    split; [eexists; reflexivity|]. split; [reflexivity|]. split; [reflexivity|].
    intros q [].
Qed.

(** *** The entropy a pass asks for *)

Lemma sum_app a b : sum (a ++ b) = sum a + sum b.
Proof.
  unfold sum. induction a as [|x a IH]; cbn [app fold_right]; [reflexivity | rewrite IH; lia].
Qed.

Lemma entropy_chunks fd b s e buf size idx :
  sum (entropyRequests (flat_map (chunkTrace fd Random b s e buf size) idx))
  = buf * Z.of_nat (List.length idx).
Proof.
  induction idx as [|i idx IH]; [cbn; lia|].
  cbn [flat_map List.length]. rewrite entropyRequests_app, sum_app, IH.
  assert (E : entropyRequests (chunkTrace fd Random b s e buf size i) = [buf]).
  { unfold chunkTrace. destruct b, (i mod 10 =? 0); reflexivity. }
  rewrite E. cbn. lia.
Qed.

Lemma indices_length from n : List.length (indices from n) = n.
Proof. revert from. induction n as [|n IH]; intros from; cbn; [|rewrite IH]; reflexivity. Qed.

Lemma fixed_pass_no_entropy p v b s e :
  sat not_entropy (fun _ => True) (overwriteFileWithPattern W p (Fixed v) (callback b) s e).
Proof.
  unfold overwriteFileWithPattern, passBody, overwriteSized, statSize, writeChunk.
  sat_auto; apply sat_call_report; intros; exact I.
Qed.

Lemma entropyRequests_none es : Forall not_entropy es -> entropyRequests es = [].
Proof.
  induction 1 as [|ev es Hev _ IH]; [reflexivity|].
  destruct ev; try contradiction; exact IH.
Qed.

(** X4.  A pass with a fixed byte never asks for random data, however
    it ends.  A pass with random data that completes has asked for the
    size of the file plus one buffer: a buffer is generated before the
    loop and replaced by a fresh one before each write, the first one
    is never written. *)
Theorem pass_entropy p pat b s e h d :
  (forall v, pat = Fixed v ->
     entropyRequests (emitted (overwriteFileWithPattern W p pat (callback b) s e h d))
     = []) /\
  (pat = Random ->
   result (overwriteFileWithPattern W p pat (callback b) s e h d) = inl tt ->
   sum (entropyRequests
          (emitted (overwriteFileWithPattern W p pat (callback b) s e h d)))
   = Z.of_N (size_of W p) + Z.min (1024 * 1024) (Z.of_N (size_of W p))).
Proof.
  split.
  - intros v ->. apply entropyRequests_none, (fixed_pass_no_entropy p v b s e h d).
  - intros -> H. rewrite (overwrite_ok _ _ _ _ _ _ _ H). unfold passTrace.
    set (size := Z.of_N (size_of W p)).
    assert (Hs : 0 <= size) by (subst size; lia).
    set (buf := Z.min (1024 * 1024) size).
    cbn [app entropyRequests flat_map randomly].
    fold (entropyRequests
            (flat_map (chunkTrace p Random b s e buf size)
               (indices 0 (iterations (floorDiv size buf))) ++
             (if positive (remainder size buf)
              then [RandomBytes (match remainder size buf with Some r => r | None => 0 end);
                    Sys (WriteSync p Random
                           (match remainder size buf with Some r => r | None => 0 end)
                           (times (floorDiv size buf) buf)) None]
              else []) ++
             [Sys (FsyncSync p) None; Sys (CloseSync p) None])).
    rewrite !entropyRequests_app. cbn [sum fold_right].
    rewrite !sum_app, entropy_chunks, indices_length.
    unfold floorDiv, remainder. destruct (buf =? 0) eqn:B.
    + apply Z.eqb_eq in B. cbn. subst buf. lia.
    + apply Z.eqb_neq in B. assert (Hb : 0 < buf) by (subst buf; lia).
      cbn [iterations positive].
      assert (Hq : 0 <= size / buf) by (apply Z.div_pos; lia).
      rewrite Z2Nat.id by exact Hq.
      pose proof (Z.div_mod size buf B) as DM.
      pose proof (Z.mod_pos_bound size buf Hb) as MB.
      destruct (0 <? size mod buf) eqn:R; cbn.
      * lia.
      * apply Z.ltb_ge in R. lia.
Qed.

End WithWorld.

Lemma X1_witness :
  contiguousFrom "/data/a.bin" Random 0
    (writesOf (emitted (overwriteFileWithPattern (Sample.calm 2621440) "/data/a.bin"
                          Random (callback true) 0 100 [] 0%N)))
  = Some 2621440.
Proof.
  apply (pass_writes_cover_file (Sample.calm 2621440) "/data/a.bin" Random true
           0 100 [] 0%N).
  vm_compute. reflexivity.
Defined.

Lemma X2_witness :
  exists before,
    emitted (overwriteFileWithPattern (Sample.calm 10) "/data/a.bin" (Fixed 0)
               (callback true) 0 100 [] 0%N)
    = before ++ [Sys (FsyncSync "/data/a.bin") None; Sys (CloseSync "/data/a.bin") None].
Proof.
  destruct (pass_flushes_then_closes (Sample.calm 10) "/data/a.bin" (Fixed 0) true
              0 100 [] 0%N) as [before [E _]].
  - vm_compute. reflexivity.
  - exists before. exact E.
Defined.

Lemma X4_witness :
  sum (entropyRequests
         (emitted (overwriteFileWithPattern (Sample.calm 2621440) "/data/a.bin"
                     Random (callback false) 0 100 [] 0%N)))
  = 2621440 + 1048576.
Proof.
  apply (proj2 (pass_entropy (Sample.calm 2621440) "/data/a.bin" Random false
                  0 100 [] 0%N) eq_refl).
  vm_compute. reflexivity.
Defined.

End PassFacts.

(* ================================================================== *)
(** ** The shred of one file *)
(* ================================================================== *)

Module FileFacts.
Import Utils FileShredder Passes StaticPhases FileClaims DirNumbers Directory PassTrace.

Local Open Scope string_scope.
Local Open Scope list_scope.
Local Open Scope Z_scope.

(** *** Progress *)

Lemma windows_asc lo ws hi size :
  0 <= size -> windowsAscend lo ws hi = true ->
  lo <= hi /\
  ascending lo hi (flat_map (fun w => chunkValues (snd (fst w)) (snd w) size) ws).
Proof.
  intros Hs. revert lo. induction ws as [|[[pat s] e] ws IH]; intros lo H.
  - cbn in *. apply Z.leb_le in H. split; [exact H | apply asc_nil].
  - cbn [windowsAscend] in H.
    apply andb_prop in H. destruct H as [H H5].
    apply andb_prop in H. destruct H as [H H4].
    apply andb_prop in H. destruct H as [H H3].
    apply andb_prop in H. destruct H as [H1 H2].
    apply Qle_bool_iff in H1. apply Qle_bool_iff in H2.
    apply Z.leb_le in H3. apply Z.leb_le in H4.
    destruct (IH _ H5) as [Hle Hasc].
    split; [lia|]. cbn [flat_map fst snd].
    eapply asc_app; [| exact Hasc | lia | exact Hle].
    eapply asc_widen; [apply (@chunkValues_asc s e size H1 H2 Hs) | exact H3 | lia].
Qed.

Lemma callback_reports (b : bool) : reports (fun v : Z => if b then [v] else []) (callback b).
Proof. destruct b; intros v h d; reflexivity. Qed.

Lemma shown_values (b : bool) (l : list Z) :
  flat_map (fun v : Z => if b then [v] else []) l = if b then l else [].
Proof. rewrite (flat_map_if b (fun v => v)). now rewrite map_id. Qed.

Lemma asc_shown lo hi (b : bool) k (l : list Z) :
  ascending lo hi l ->
  ascending lo hi (firstn k (flat_map (fun v : Z => if b then [v] else []) l)).
Proof.
  intros H. rewrite shown_values. apply asc_firstn. destruct b; [exact H | apply asc_nil].
Qed.

Lemma quick_window : windowsAscend 0 [(Random, 0%Q, 100%Q)] 100 = true.
Proof. vm_compute. reflexivity. Qed.

Lemma dod_window : windowsAscend 0 (windowsFrom 3 0 [Fixed 0; Fixed 255; Random]) 100 = true.
Proof. vm_compute. reflexivity. Qed.

Lemma gutmann_window :
  windowsAscend 0 (windowsFrom 35 0 (map patternValue gutmannPatterns)) 100 = true.
Proof. vm_compute. reflexivity. Qed.

(** What a wipe reports ascends from 0 to 100, whatever the method and
    however the wipe ends. *)
Lemma wipe_progress_asc W method path b h d :
  ascending 0 100 (progressOf (emitted (wipeByMethod W method path (callback b) h d))).
Proof.
  assert (Hs : 0 <= Z.of_N (size_of W path)) by lia.
  unfold wipeByMethod.
  destruct (method =? "quick")%string.
  { unfold performQuickWipe.
    destruct (overwrite_progress W path Random 0 100 h d (callback_reports b)) as [k [P _]].
    rewrite P, shown_values.
    destruct b; [|apply asc_nil]. apply asc_firstn.
    pose proof (proj2 (windows_asc _ _ _ Hs quick_window)) as A.
    cbn [flat_map fst snd] in A. rewrite app_nil_r in A. exact A. }
  destruct (method =? "dod")%string.
  { unfold performDoDWipe, performDoDWipeInternal. cbn [List.length Z.of_nat Pos.of_succ_nat Pos.succ].
    destruct (wipeLoop_progress W path 3 0 [Fixed 0; Fixed 255; Random] h d
                (callback_reports b)) as [k [P _]].
    rewrite P, flat_map_flat_map. apply asc_shown.
    exact (proj2 (windows_asc _ _ _ Hs dod_window)). }
  destruct (method =? "gutmann")%string.
  { unfold performGutmannWipe.
    change (Z.of_nat (List.length gutmannPatterns)) with 35.
    destruct (wipeLoop_progress W path 35 0 (map patternValue gutmannPatterns) h d
                (callback_reports b)) as [k [P _]].
    rewrite P, flat_map_flat_map. apply asc_shown.
    exact (proj2 (windows_asc _ _ _ Hs gutmann_window)). }
  cbn. apply asc_nil.
Qed.

Lemma statSize_quiet W p : sat not_progress (fun _ => True) (statSize W p).
Proof. unfold statSize. sat_auto. Qed.

(** The reports of the static [shredFile] are those of its wipe,
    followed by the final 100 when the renames and the unlink
    succeeded. *)
Lemma static_progress W path method b h d :
  progressOf (emitted (static_shredFile W path method (callback b) h d)) = [] \/
  exists h1 d1 last,
    progressOf (emitted (static_shredFile W path method (callback b) h d))
    = progressOf (emitted (wipeByMethod W method path (callback b) h1 d1)) ++ last /\
    (last = [] \/ last = [100]).
Proof.
  unfold static_shredFile. rewrite try_catch_emitted, progressOf_app.
  match goal with
  | |- context [progressOf (match ?r with inl _ => [] | inr e => @?f e end)] =>
      assert (Hh : progressOf (match r with inl _ => [] | inr e => f e end) = [])
        by (destruct r; reflexivity)
  end.
  rewrite Hh, app_nil_r. clear Hh.
  rewrite progress_bind_l by (apply Shape.validateFilePath_sat; class_incl).
  destruct (result (validateFilePath W path h d)) as [v|]; [|left; reflexivity].
  cbn [ToBoolean negb]. rewrite existsSync_bind.
  destruct (negb (exists_ W _ path)); [left; reflexivity|].
  rewrite progress_bind_l by apply statSize_quiet.
  destruct (result (statSize W path _ _)) as [size|]; [|left; reflexivity].
  destruct (maxFileSize <? size); [left; reflexivity|].
  rewrite progress_bind_l by (apply Shape.createSecureTempDir_sat; class_incl).
  destruct (result (createSecureTempDir W _ _)) as [[tempDir|]|]; try (left; reflexivity).
  right. rewrite emitted_bind, progressOf_app.
  eexists _, _, _. split; [reflexivity|].
  destruct (result (wipeByMethod W method path (callback b) _ _)); [|left; reflexivity].
  rewrite progress_bind_l
    by (apply Shape.renameAndUnlink_sat; [class_incl | intros; exact I]).
  destruct (result (renameAndUnlink W path _ _)); [|left; reflexivity].
  rewrite progress_bind_r.
  - destruct b; [right | left]; reflexivity.
  - intros _. apply sat_bind; [apply Shape.cleanupTempDir_sat; class_incl|].
    intros _. apply sat_ret.
Qed.

(** X5.  The progress a caller sees while one file is shredded never
    decreases and stays between 0 and 100: for the static [shredFile]
    with every method and for the instance [shredSingleFile], for every
    size of the file and however the shred ends. *)
Theorem file_progress_ascends W path method b h d :
  ascending 0 100
    (progressOf (emitted (static_shredFile W path method (callback b) h d))) /\
  ascending 0 100
    (progressOf (emitted (shredSingleFile W path (callback b) h d))).
Proof.
  split.
  - destruct (static_progress W path method b h d) as [E|(h1 & d1 & last & E & L)];
      rewrite E; [apply asc_nil|].
    eapply asc_app; [apply wipe_progress_asc | | lia | lia].
    destruct L as [-> | ->]; [apply asc_nil | apply asc_single; lia].
  - destruct (shredSingleFile_progress W path h d (callback_reports b)) as [k P].
    rewrite P. apply asc_shown. apply dodValues_asc. lia.
Qed.

End FileFacts.

(* ================================================================== *)
(** ** The static [shredFile], outcome by outcome *)
(* ================================================================== *)

Module StaticFacts.
Import Utils FileShredder Passes StaticPhases FileClaims PassTrace TraceClasses PassFacts
       Names.

Local Open Scope string_scope.
Local Open Scope list_scope.
Local Open Scope Z_scope.

Lemma sat_top {A} (m : M A) : sat (fun _ => True) (fun _ => True) m.
Proof. intros h d. split; [apply Forall_forall; intros; exact I | intros; exact I]. Qed.

Lemma events_of {A} {E X} {m : M A} {h d r es d'} :
  sat E X m -> m h d = Out r es d' -> Forall E es.
Proof. apply sat_events. Qed.

Lemma sat_catch_all {A} E (m : M A) (handler : error -> M A) :
  sat E (fun _ => True) m -> (forall e, sat E never (handler e)) ->
  sat E never (try_catch m handler).
Proof. intros Hm Hh. eapply sat_try_catch; [exact Hm | intros e _; apply Hh]. Qed.

Section WithWorld.

Variable W : World.

Lemma isFileLocked_probe p : sat probe_event never (isFileLocked W p).
Proof.
  unfold isFileLocked. apply sat_catch_all; [sat_auto | intros e; apply sat_ret].
Qed.

Lemma validateFilePath_probe p : sat probe_event never (validateFilePath W p).
Proof.
  unfold validateFilePath, pathExists.
  destruct (isBlank p); [apply sat_ret|].
  apply sat_bind; [apply sat_existsSync|]. intros found.
  destruct (negb found); [apply sat_ret|].
  destruct (isSystemCriticalFile W p); [apply sat_ret|].
  apply sat_bind; [apply isFileLocked_probe|]. intros locked.
  destruct locked; [apply sat_ret|].
  destruct (260 <? utf16Length p)%nat; apply sat_ret.
Qed.

Lemma ensureDirectoryExists_house p : sat housekeeping never (ensureDirectoryExists W p).
Proof.
  unfold ensureDirectoryExists. apply sat_catch_all; [sat_auto | intros e; sat_auto].
Qed.

Lemma createSecureTempDir_house : sat housekeeping never (createSecureTempDir W).
Proof.
  unfold createSecureTempDir, generateRandomString.
  apply sat_catch_all; [|intros e; sat_auto].
  apply sat_bind; [sat_auto|]. intros name.
  apply sat_bind; [|intros created; destruct (negb created); apply sat_ret].
  eapply sat_weaken; [apply ensureDirectoryExists_house | trivial | trivial].
Qed.

Lemma createSecureTempDir_prepare : sat prepare_event never (createSecureTempDir W).
Proof.
  unfold createSecureTempDir, generateRandomString, ensureDirectoryExists.
  apply sat_catch_all; [|intros e; sat_auto].
  apply sat_bind; [sat_auto|]. intros name.
  apply sat_bind; [|intros created; destruct (negb created); apply sat_ret].
  apply sat_try_catch with (X' := fun _ => True); [sat_auto | intros e _; sat_auto].
Qed.

Lemma safeDelete_house :
  (forall n p, sat housekeeping never (safeDelete W p n)) /\
  (forall l p, sat housekeeping never (deleteAll W p l)).
Proof.
  apply node_list_ind.
  - intros name p. cbn [safeDelete].
    apply sat_catch_all; [sat_auto | intros e; sat_auto].
  - intros name items IH p.
    apply sat_pointwise with (1 := Shape.safeDelete_dir W p name items).
    apply sat_catch_all; [|intros e; sat_auto].
    apply sat_bind; [apply sat_existsSync|]. intros found.
    destruct (negb found); [apply sat_ret|].
    apply sat_bind; [sat_auto|]. intros _.
    apply sat_bind; [sat_auto|]. intros _.
    apply sat_bind.
    + eapply sat_weaken; [apply IH | trivial | intros e []].
    + intros _. sat_auto.
  - intros p. apply sat_ret.
  - intros n l IHn IHl p. cbn [deleteAll].
    apply sat_bind; [apply IHn | intros _; apply IHl].
Qed.

Lemma cleanupTempDir_house p : sat housekeeping never (cleanupTempDir W p).
Proof.
  unfold cleanupTempDir, pathExists. apply sat_catch_all; [|intros e; sat_auto].
  apply sat_bind; [apply sat_existsSync|]. intros found.
  destruct ((p =? "")%string || negb found); [apply sat_ret|].
  eapply sat_weaken; [apply (proj1 safeDelete_house) | trivial | trivial].
Qed.

Lemma never_fails {A} E (m : M A) h d :
  sat E never m ->
  exists a, m h d = Out (inl a) (emitted (m h d)) (drawn (m h d)).
Proof.
  intros S. destruct (result (m h d)) as [a|e] eqn:R.
  - exists a. apply outcome_with, R.
  - destruct (proj2 (S h d) e R).
Qed.

Lemma run_bind_nil {A B} (m : M A) (k : A -> M B) h d a es1 d1 r d2 :
  m h d = Out (inl a) es1 d1 ->
  k a (h ++ es1) d1 = Out r [] d2 ->
  bind m k h d = Out r es1 d2.
Proof.
  intros Hm Hk. unfold bind. rewrite Hm. cbn. rewrite Hk. cbn.
  now rewrite app_nil_r.
Qed.

Lemma catch_logs (m : M bool) h d e es d' :
  m h d = Out (inr e) es d' ->
  try_catch m (fun error => emit (ConsoleError error) ;;; ret false) h d
  = Out (inl false) (es ++ [ConsoleError e]) d'.
Proof. intros E. eapply run_catch_fail; [exact E | reflexivity]. Qed.

(** The static [shredFile] phase by phase: the preparation; then
    either a failure before the wipe, or the wipe, the renames with the
    unlink and the final report, each able to fail (not the report),
    and after them the clean-up. *)
Lemma static_phases path method b h d :
  exists pre d1,
    Forall prepare_event pre /\
    ((exists e,
        static_shredFile W path method (callback b) h d
        = Out (inl false) (pre ++ [ConsoleError e]) d1 /\
        match e with
        | FileNotFound _ | FileTooLarge | NoTempDir | IOError (StatSync _) _ => True
        | _ => False
        end) \/
     (exists e wipe d2,
        wipeByMethod W method path (callback b) (h ++ pre) d1 = Out (inr e) wipe d2 /\
        static_shredFile W path method (callback b) h d
        = Out (inl false) (pre ++ wipe ++ [ConsoleError e]) d2) \/
     (exists wipe d2 e ren d3,
        wipeByMethod W method path (callback b) (h ++ pre) d1 = Out (inl tt) wipe d2 /\
        renameAndUnlink W path ((h ++ pre) ++ wipe) d2 = Out (inr e) ren d3 /\
        static_shredFile W path method (callback b) h d
        = Out (inl false) (pre ++ wipe ++ ren ++ [ConsoleError e]) d3) \/
     (exists wipe d2 ren d3 post d4,
        wipeByMethod W method path (callback b) (h ++ pre) d1 = Out (inl tt) wipe d2 /\
        renameAndUnlink W path ((h ++ pre) ++ wipe) d2 = Out (inl tt) ren d3 /\
        Forall housekeeping post /\
        static_shredFile W path method (callback b) h d
        = Out (inl true)
              (pre ++ wipe ++ ren ++ (if b then [Progress 100] else []) ++ post) d4)).
Proof.
  unfold static_shredFile.
  destruct (never_fails h d (validateFilePath_probe path)) as [v V].
  set (es1 := emitted (validateFilePath W path h d)) in *.
  set (d1 := drawn (validateFilePath W path h d)) in *.
  assert (F1 : Forall prepare_event es1).
  { eapply Forall_impl; [|apply (proj1 (validateFilePath_probe path h d))].
    intros [c r| | | | |]; try contradiction; try (intros _; exact I).
    destruct c; try contradiction; intros _; exact I. }
  cbn [ToBoolean negb].
  destruct (negb (exists_ W (h ++ es1) path)) eqn:Ex.
  { exists es1, d1. split; [exact F1|]. left. exists (FileNotFound path).
    split; [|exact I].
    apply catch_logs. eapply run_bind_nil; [exact V|].
    rewrite existsSync_bind, Ex. reflexivity. }
  destruct (statSize_run W path (h ++ es1) d1) as [S|[code S]].
  2:{ exists (es1 ++ [Sys (StatSync path) (Some code)]), d1. split.
      { apply Forall_app. split; [exact F1 | repeat constructor]. }
      left. exists (IOError (StatSync path) code). split; [|exact I].
      apply catch_logs. eapply run_bind; [exact V|].
      rewrite existsSync_bind, Ex. eapply run_bind_fail. exact S. }
  set (h2 := (h ++ es1) ++ [Sys (StatSync path) None]).
  destruct (maxFileSize <? Z.of_N (size_of W path)) eqn:Big.
  { exists (es1 ++ [Sys (StatSync path) None]), d1. split.
    { apply Forall_app. split; [exact F1 | repeat constructor]. }
    left. exists FileTooLarge. split; [|exact I].
    apply catch_logs. eapply run_bind; [exact V|].
    rewrite existsSync_bind, Ex.
    eapply run_bind_nil; [exact S|]. rewrite Big. reflexivity. }
  destruct (never_fails h2 d1 createSecureTempDir_prepare) as [t T].
  set (es3 := emitted (createSecureTempDir W h2 d1)) in *.
  set (d3 := drawn (createSecureTempDir W h2 d1)) in *.
  assert (F3 : Forall prepare_event es3)
    by apply (proj1 (createSecureTempDir_prepare h2 d1)).
  set (pre := es1 ++ [Sys (StatSync path) None] ++ es3).
  assert (Fp : Forall prepare_event pre).
  { subst pre. apply Forall_app. split; [exact F1|].
    apply Forall_app. split; [repeat constructor | exact F3]. }
  assert (Hpre : h ++ pre = h2 ++ es3).
  { subst pre h2. now rewrite <- !app_assoc. }
  assert (Reach : forall r es d',
             match t with
             | Some tempDir =>
                 wipeByMethod W method path (callback b) ;;;
                 renameAndUnlink W path ;;;
                 call_if (callback b) 100 ;;;
                 cleanupTempDir W tempDir ;;; ret true
             | None => throw NoTempDir
             end (h2 ++ es3) d3 = Out r es d' ->
             bind (validateFilePath W path)
               (fun validation =>
                  if negb (ToBoolean (VObject validation)) then throw IllegalPath
                  else
                    found <- existsSync W path ;;
                    if negb found then throw (FileNotFound path)
                    else
                      fileSize <- statSize W path ;;
                      if maxFileSize <? fileSize then throw FileTooLarge
                      else
                        tempDir <- createSecureTempDir W ;;
                        match tempDir with
                        | Some tempDir =>
                            wipeByMethod W method path (callback b) ;;;
                            renameAndUnlink W path ;;;
                            call_if (callback b) 100 ;;;
                            cleanupTempDir W tempDir ;;; ret true
                        | None => throw NoTempDir
                        end) h d
             = Out r (pre ++ es) d').
  { intros r es d' R. subst pre. rewrite <- !app_assoc.
    eapply run_bind; [exact V|]. cbn [ToBoolean negb].
    rewrite existsSync_bind, Ex.
    eapply run_bind; [exact S|]. rewrite Big.
    eapply run_bind; [exact T|]. exact R. }
  exists pre, d3. split; [exact Fp|].
  destruct t as [tempDir|].
  2:{ left. exists NoTempDir. split; [|exact I].
      apply catch_logs. rewrite <- (app_nil_r pre). apply Reach. reflexivity. }
  right. rewrite Hpre.
  destruct (wipeByMethod W method path (callback b) (h2 ++ es3) d3)
    as [[[]|e] wipe d4] eqn:Wp.
  2:{ left. exists e, wipe, d4. split; [reflexivity|].
      rewrite app_assoc. apply catch_logs. apply Reach. eapply run_bind_fail. exact Wp. }
  right.
  destruct (renameAndUnlink W path ((h2 ++ es3) ++ wipe) d4) as [[[]|e] ren d5] eqn:Rn.
  2:{ left. exists wipe, d4, e, ren, d5. split; [reflexivity|]. split; [exact Rn|].
      rewrite !app_assoc. apply catch_logs. rewrite <- app_assoc. apply Reach.
      eapply run_bind; [exact Wp|]. eapply run_bind_fail. exact Rn. }
  right.
  set (h5 := (((h2 ++ es3) ++ wipe) ++ ren) ++ (if b then [Progress 100] else [])).
  destruct (never_fails h5 d5 (cleanupTempDir_house tempDir)) as [ok C].
  exists wipe, d4, ren, d5, (emitted (cleanupTempDir W tempDir h5 d5)),
    (drawn (cleanupTempDir W tempDir h5 d5)).
  split; [reflexivity|]. split; [exact Rn|].
  split; [apply (proj1 (cleanupTempDir_house tempDir h5 d5))|].
  eapply run_catch_ok. apply Reach.
  eapply run_bind; [exact Wp|]. eapply run_bind; [exact Rn|].
  assert (Cb : call_if (callback b) 100 (((h2 ++ es3) ++ wipe) ++ ren) d5
               = Out (inl tt) (if b then [Progress 100] else []) d5)
    by (destruct b; reflexivity).
  eapply run_bind; [exact Cb|].
  eapply run_bind_nil; [exact C | reflexivity].
Qed.

(** *** Failure *)

Lemma rmdirsOf_app a b : rmdirsOf (a ++ b) = rmdirsOf a ++ rmdirsOf b.
Proof. apply flat_map_app. Qed.

Lemma rmdirsOf_none es : Forall not_rmdir es -> rmdirsOf es = [].
Proof.
  induction 1 as [|ev es Hev _ IH]; [reflexivity|].
  destruct ev as [c r| | | | |]; try exact IH.
  destruct c; try contradiction; exact IH.
Qed.

Lemma prepare_not_rmdir es : Forall prepare_event es -> Forall not_rmdir es.
Proof.
  apply Forall_impl. intros [c r| | | | |]; try contradiction; try (intros _; exact I).
  destruct c; try contradiction; intros _; exact I.
Qed.

Lemma wipe_not_rmdir method p b :
  sat not_rmdir (fun _ => True) (wipeByMethod W method p (callback b)).
Proof.
  apply Shape.wipeByMethod_sat; try (intros; exact I).
  - intros [c r| | | | |]; try contradiction; try (intros _; exact I).
    destruct c; try contradiction; intros _; exact I.
  - intros v. apply sat_call_report. intros; exact I.
Qed.

Lemma renameFixed_not_rmdir dir cur steps :
  sat not_rmdir (fun _ => True) (renameFixed W dir cur steps).
Proof.
  revert cur. induction steps as [|i steps IH]; intros cur; cbn [renameFixed].
  - apply sat_ret.
  - unfold generateSecureRandomHex, randomHex.
    apply sat_bind; [sat_auto|]. intros name.
    apply sat_bind; [sat_auto|]. intros _. apply IH.
Qed.

Lemma renameAndUnlink_not_rmdir p :
  sat not_rmdir (fun _ => True) (renameAndUnlink W p).
Proof.
  unfold renameAndUnlink. apply sat_bind; [apply renameFixed_not_rmdir|].
  intros last. sat_auto.
Qed.

(** X6.  The static [shredFile] never throws: it returns [true] or
    [false].  When it returns [false], the failure was logged with
    [console.error] as its last step, and no [rmdirSync] was attempted:
    the temporary directory it may have created is left behind. *)
Theorem static_shredFile_failure path method b h d :
  exists ok,
    result (static_shredFile W path method (callback b) h d) = inl ok /\
    (ok = false ->
     exists before e,
       emitted (static_shredFile W path method (callback b) h d)
       = before ++ [ConsoleError e] /\
       rmdirsOf (emitted (static_shredFile W path method (callback b) h d)) = []).
Proof.
  destruct (static_phases path method b h d)
    as (pre & d1 & Fp &
        [(e & E & _) |
         [(e & wipe & d2 & Wp & E) |
          [(wipe & d2 & e & ren & d3 & Wp & Rn & E) |
           (wipe & d2 & ren & d3 & post & d4 & Wp & Rn & Fpost & E)]]]);
    rewrite E; cbn [result emitted].
  - exists false. split; [reflexivity|]. intros _. exists pre, e. split; [reflexivity|].
    rewrite rmdirsOf_app, (rmdirsOf_none (prepare_not_rmdir Fp)). reflexivity.
  - exists false. split; [reflexivity|]. intros _. exists (pre ++ wipe), e.
    split; [now rewrite <- app_assoc|].
    rewrite !rmdirsOf_app, (rmdirsOf_none (prepare_not_rmdir Fp)).
    rewrite (rmdirsOf_none (events_of (wipe_not_rmdir method path b) Wp)). reflexivity.
  - exists false. split; [reflexivity|]. intros _. exists (pre ++ wipe ++ ren), e.
    split; [now rewrite <- !app_assoc|].
    rewrite !rmdirsOf_app, (rmdirsOf_none (prepare_not_rmdir Fp)).
    rewrite (rmdirsOf_none (events_of (wipe_not_rmdir method path b) Wp)).
    rewrite (rmdirsOf_none (events_of (renameAndUnlink_not_rmdir path) Rn)). reflexivity.
  - exists true. split; [reflexivity | discriminate].
Qed.

(** *** Success *)

Lemma toHex_length bytes : String.length (toHex bytes) = (2 * List.length bytes)%nat.
Proof.
  induction bytes as [|x bytes IH]; [reflexivity|].
  cbn [toHex String.length List.length]. rewrite IH. lia.
Qed.

Lemma hexDigit_hex n : isHexDigit (hexDigit n) = true.
Proof.
  destruct n as [|p]; [reflexivity|].
  do 5 (try (destruct p as [p|p|]; try reflexivity)).
Qed.

Lemma toHex_hex bytes : isHex (toHex bytes) = true.
Proof.
  induction bytes as [|x bytes IH]; [reflexivity|].
  cbn [toHex isHex]. rewrite IH, !hexDigit_hex. reflexivity.
Qed.

Lemma randomHex_name n h d :
  sizeAccepted n = true ->
  exists name,
    randomHex W n h d = Out (inl name) [RandomBytes n] (d + Z.to_N n)%N /\
    String.length name = (2 * Z.to_nat n)%nat /\ isHex name = true.
Proof.
  intros Hn. eexists. split; [|split].
  - unfold randomHex.
    erewrite run_bind; [|apply randomBytes_run, Hn|reflexivity]. reflexivity.
  - rewrite toHex_length, length_map, length_seq. reflexivity.
  - apply toHex_hex.
Qed.

Lemma keeps_names_none es :
  Forall keeps_names es -> renamesOf es = [] /\ unlinksOf es = [].
Proof.
  induction 1 as [|ev es Hev _ [IH1 IH2]]; [split; reflexivity|].
  destruct ev as [c r| | | | |]; try (split; assumption).
  destruct c; try contradiction; split; assumption.
Qed.

Lemma renamesOf_none es : Forall not_rename es -> renamesOf es = [].
Proof.
  induction 1 as [|ev es Hev _ IH]; [reflexivity|].
  destruct ev as [c r| | | | |]; try exact IH.
  destruct c; try contradiction; exact IH.
Qed.

Lemma housekeeping_not_rename es : Forall housekeeping es -> Forall not_rename es.
Proof.
  apply Forall_impl. intros [c r| | | | |]; try contradiction; try (intros _; exact I).
  destruct c; try contradiction; intros _; exact I.
Qed.

Lemma prepare_keeps es : Forall prepare_event es -> Forall keeps_names es.
Proof.
  apply Forall_impl. intros [c r| | | | |]; try contradiction; try (intros _; exact I).
  destruct c; try contradiction; intros _; exact I.
Qed.

Lemma wipe_keeps method p b :
  sat keeps_names (fun _ => True) (wipeByMethod W method p (callback b)).
Proof.
  apply Shape.wipeByMethod_sat; try (intros; exact I).
  - intros [c r| | | | |]; try contradiction; try (intros _; exact I).
    destruct c; try contradiction; intros _; exact I.
  - intros v. apply sat_call_report. intros; exact I.
Qed.

(** A rename loop that completes has renamed the file step by step,
    each time to a name of 32 hexadecimal digits in [dir]. *)
Lemma renameFixed_ok dir steps cur h d last es d' :
  renameFixed W dir cur steps h d = Out (inl last) es d' ->
  chained cur (renamesOf es) = true /\
  last = currentPath cur (renamesOf es) /\
  List.length (renamesOf es) = List.length steps /\
  unlinksOf es = [] /\
  Forall (fun r => exists name,
                     snd (fst r) = join W dir name /\
                     String.length name = 32%nat /\ isHex name = true)
         (renamesOf es).
Proof.
  revert cur h d es. induction steps as [|i steps IH]; intros cur h d es H.
  - cbn in H. injection H as <- <- <-. cbn. repeat split; constructor.
  - cbn [renameFixed] in H. unfold generateSecureRandomHex in H.
    destruct (@randomHex_name 16 h d eq_refl) as (name & Hn & Ln & Xn).
    set (new := join W dir name) in *.
    destruct (sys_run W (RenameSync cur new) (h ++ [RandomBytes 16]) (d + Z.to_N 16)%N)
      as [R|[code R]].
    + set (rec := renameFixed W dir new steps
                    ((h ++ [RandomBytes 16]) ++ [Sys (RenameSync cur new) None])
                    (d + Z.to_N 16)%N) in *.
      assert (E : (randomName <- randomHex W 16;;
                   sys W (RenameSync cur (join W dir randomName));;;
                   renameFixed W dir (join W dir randomName) steps) h d
                  = Out (result rec)
                        ([RandomBytes 16] ++ [Sys (RenameSync cur new) None] ++ emitted rec)
                        (drawn rec)).
      { eapply run_bind; [exact Hn|]. eapply run_bind; [exact R|]. apply outcome_eta. }
      rewrite E in H. injection H as Hr <- <-.
      destruct (IH new _ _ _ (outcome_with _ Hr)) as (Hc & Hl & Hlen & Hu & Hf).
      cbn [app renamesOf unlinksOf flat_map].
      fold (renamesOf (emitted rec)) (unlinksOf (emitted rec)).
      cbn [chained currentPath fold_left List.length].
      rewrite String.eqb_refl, Hc.
      repeat split; auto.
      constructor; [|exact Hf]. exists name. split; [reflexivity | split; [exact Ln | exact Xn]].
    + assert (E : (randomName <- randomHex W 16;;
                   sys W (RenameSync cur (join W dir randomName));;;
                   renameFixed W dir (join W dir randomName) steps) h d
                  = Out (inr (IOError (RenameSync cur new) code))
                        ([RandomBytes 16] ++ [Sys (RenameSync cur new) (Some code)])
                        (d + Z.to_N 16)%N).
      { eapply run_bind; [exact Hn|]. eapply run_bind_fail. exact R. }
      rewrite E in H. discriminate.
Qed.

(** The renames and the unlink of the static [shredFile] that
    complete: the loop of ten renames, then the unlink of the last
    name. *)
Lemma renameAndUnlink_ok p h d es d' :
  renameAndUnlink W p h d = Out (inl tt) es d' ->
  exists loop,
    es = loop ++ [Sys (UnlinkSync (currentPath p (renamesOf loop))) None] /\
    chained p (renamesOf loop) = true /\
    List.length (renamesOf loop) = 10%nat /\
    unlinksOf loop = [] /\
    Forall (fun r => exists name,
                       snd (fst r) = join W (dirname W p) name /\
                       String.length name = 32%nat /\ isHex name = true)
           (renamesOf loop).
Proof.
  unfold renameAndUnlink. intros H.
  assert (R := f_equal (@result unit) H). cbn [result] in R.
  assert (Ev := f_equal (@emitted unit) H). cbn [emitted] in Ev.
  rewrite <- Ev. clear Ev H.
  bind_ok R as last es1 d1 Hr Hu.
  destruct (renameFixed_ok _ _ _ _ _ Hr) as (Hc & Hl & Hlen & Hun & Hf).
  destruct (sys_inl _ _ _ _ (outcome_with _ Hu)) as (_ & Eu & _).
  exists es1. rewrite Eu, <- Hl.
  repeat split; assumption.
Qed.

(** X7.  When the static [shredFile] returns [true], the file has been
    renamed ten times, each rename successful and starting from the
    name the one before it gave, always to a name of 32 hexadecimal
    digits (without extension) in the directory of the file; then the
    file was unlinked under its last name, successfully.  Nothing was
    unlinked before that, and what comes after it is the final report
    and the clean-up of the temporary directory, which renames
    nothing. *)
Theorem static_success_removes path method b h d :
  result (static_shredFile W path method (callback b) h d) = inl true ->
  exists before after,
    emitted (static_shredFile W path method (callback b) h d)
    = before ++ Sys (UnlinkSync (currentPath path (renamesOf before))) None :: after /\
    chained path (renamesOf before) = true /\
    List.length (renamesOf before) = 10%nat /\
    Forall (fun r => exists name,
                       snd (fst r) = join W (dirname W path) name /\
                       String.length name = 32%nat /\ isHex name = true)
           (renamesOf before) /\
    unlinksOf before = [] /\
    renamesOf after = [] /\
    Forall (fun ev => only_progress ev \/ housekeeping ev) after.
Proof.
  intros H.
  destruct (static_phases path method b h d)
    as (pre & d1 & Fp &
        [(e & E & _) |
         [(e & wipe & d2 & Wp & E) |
          [(wipe & d2 & e & ren & d3 & Wp & Rn & E) |
           (wipe & d2 & ren & d3 & post & d4 & Wp & Rn & Fpost & E)]]]);
    rewrite E in H |- *; cbn [result emitted] in H |- *; try discriminate.
  destruct (keeps_names_none (prepare_keeps Fp)) as [P1 P2].
  destruct (keeps_names_none (events_of (wipe_keeps method path b) Wp)) as [W1 W2].
  destruct (renameAndUnlink_ok _ _ _ Rn) as (loop & Eren & Hc & Hlen & Hun & Hf).
  exists (pre ++ wipe ++ loop), ((if b then [Progress 100] else []) ++ post).
  rewrite !renamesOf_app, !unlinksOf_app, P1, P2, W1, W2. cbn [app].
  split; [rewrite Eren, <- !app_assoc; reflexivity|].
  split; [exact Hc|]. split; [exact Hlen|]. split; [exact Hf|]. split; [exact Hun|].
  split.
  - rewrite (renamesOf_none (housekeeping_not_rename Fpost)), app_nil_r.
    destruct b; reflexivity.
  - apply Forall_app. split.
    + destruct b; repeat constructor.
    + eapply Forall_impl; [|exact Fpost]. intros ev Hev. right. exact Hev.
Qed.

(** *** Refusals *)

Lemma unknown_method method p cb h d :
  passList method = None ->
  wipeByMethod W method p cb h d = Out (inr UnknownMethod) [] d.
Proof.
  unfold passList, wipeByMethod.
  destruct (method =? "quick")%string; [discriminate|].
  destruct (method =? "dod")%string; [discriminate|].
  destruct (method =? "gutmann")%string; [discriminate|]. reflexivity.
Qed.

(** X8.  With a method other than [quick], [dod] and [gutmann] the
    static [shredFile] returns [false] and leaves the file alone: it
    only probes the file and prepares its temporary directory; no pass
    starts, nothing is written, renamed or unlinked. *)
Theorem static_unknown_method path method b h d :
  passList method = None ->
  result (static_shredFile W path method (callback b) h d) = inl false /\
  Forall prepare_event (emitted (static_shredFile W path method (callback b) h d)).
Proof.
  intros HL.
  destruct (static_phases path method b h d)
    as (pre & d1 & Fp &
        [(e & E & _) |
         [(e & wipe & d2 & Wp & E) |
          [(wipe & d2 & e & ren & d3 & Wp & Rn & E) |
           (wipe & d2 & ren & d3 & post & d4 & Wp & Rn & Fpost & E)]]]);
    try (rewrite (unknown_method method path _ _ _ HL) in Wp; discriminate).
  - rewrite E. cbn [result emitted]. split; [reflexivity|].
    apply Forall_app. split; [exact Fp | repeat constructor].
  - rewrite (unknown_method method path _ _ _ HL) in Wp. injection Wp as <- <- <-.
    rewrite E. cbn [result emitted]. split; [reflexivity|].
    apply Forall_app. split; [exact Fp | repeat constructor].
Qed.

(** X9.  A file larger than 5 GiB is refused by the static
    [shredFile]: it returns [false] having done no more than probe the
    file and log the refusal; no temporary directory is created, no
    pass starts and nothing is written, renamed or unlinked. *)
Theorem static_refuses_large path method b h d :
  maxFileSize < Z.of_N (size_of W path) ->
  result (static_shredFile W path method (callback b) h d) = inl false /\
  Forall probe_event (emitted (static_shredFile W path method (callback b) h d)).
Proof.
  intros Big. apply Z.ltb_lt in Big. unfold static_shredFile.
  destruct (never_fails h d (validateFilePath_probe path)) as [v V].
  set (es1 := emitted (validateFilePath W path h d)) in *.
  set (d1 := drawn (validateFilePath W path h d)) in *.
  assert (F1 : Forall probe_event es1) by apply (proj1 (validateFilePath_probe path h d)).
  set (body := bind (validateFilePath W path) _).
  assert (Done : forall e es,
             Forall probe_event es ->
             body h d = Out (inr e) es d1 ->
             result (try_catch body
                       (fun error => emit (ConsoleError error) ;;; ret false) h d)
             = inl false /\
             Forall probe_event
               (emitted (try_catch body
                           (fun error => emit (ConsoleError error) ;;; ret false) h d))).
  { intros e es F R. rewrite (@catch_logs body h d e es d1 R). cbn [result emitted].
    split; [reflexivity|]. apply Forall_app. split; [exact F | repeat constructor]. }
  subst body.
  cbn [ToBoolean negb] in *.
  destruct (negb (exists_ W (h ++ es1) path)) eqn:Ex.
  { apply (Done (FileNotFound path) es1 F1).
    eapply run_bind_nil; [exact V|]. rewrite existsSync_bind, Ex. reflexivity. }
  destruct (statSize_run W path (h ++ es1) d1) as [S|[code S]].
  - apply (Done FileTooLarge (es1 ++ [Sys (StatSync path) None])).
    + apply Forall_app. split; [exact F1 | repeat constructor].
    + eapply run_bind; [exact V|]. rewrite existsSync_bind, Ex.
      eapply run_bind_nil; [exact S|]. rewrite Big. reflexivity.
  - apply (Done (IOError (StatSync path) code) (es1 ++ [Sys (StatSync path) (Some code)])).
    + apply Forall_app. split; [exact F1 | repeat constructor].
    + eapply run_bind; [exact V|]. rewrite existsSync_bind, Ex.
      eapply run_bind_fail. exact S.
Qed.

Lemma validate_missing path h d :
  exists_ W h path = false ->
  exists v, validateFilePath W path h d = Out (inl v) [] d /\ isValid v = false.
Proof.
  intros Ex. unfold validateFilePath, pathExists.
  destruct (isBlank path).
  - eexists. split; reflexivity.
  - rewrite existsSync_bind, Ex. eexists. split; reflexivity.
Qed.

(** X10.  A path that does not exist is refused by both entry points
    before any [fs] call is made: the static [shredFile] logs the
    failure and returns [false], the instance [shredSingleFile] throws
    its file-not-found error. *)
Theorem missing_file_refused path method cb h d :
  exists_ W h path = false ->
  static_shredFile W path method cb h d
  = Out (inl false) [ConsoleError (FileNotFound path)] d /\
  shredSingleFile W path cb h d = Out (inr (FileNotFound path)) [] d.
Proof.
  intros Ex. split.
  - unfold static_shredFile.
    destruct (validate_missing path h d Ex) as (v & V & _).
    change [ConsoleError (FileNotFound path)] with ([] ++ [ConsoleError (FileNotFound path)]).
    apply catch_logs. eapply run_bind_nil; [exact V|].
    cbn [ToBoolean negb]. rewrite existsSync_bind, app_nil_r, Ex. reflexivity.
  - unfold shredSingleFile. rewrite existsSync_bind, Ex. reflexivity.
Qed.

End WithWorld.

Lemma X6_witness :
  exists before e,
    emitted (static_shredFile (Sample.sticky 10) "/data/a.txt" "quick"
               (callback true) [] 0%N)
    = before ++ [ConsoleError e].
Proof.
  destruct (static_shredFile_failure (Sample.sticky 10) "/data/a.txt" "quick" true [] 0%N)
    as (ok & R & F).
  destruct F as (before & e & E & _).
  - vm_compute in R. injection R as <-. reflexivity.
  - exists before, e. exact E.
Defined.

Lemma X7_witness :
  exists before after,
    emitted (static_shredFile (Sample.calm 10) "/data/a.txt" "quick"
               (callback true) [] 0%N)
    = before ++ Sys (UnlinkSync (currentPath "/data/a.txt" (renamesOf before))) None
             :: after /\
    List.length (renamesOf before) = 10%nat /\
    unlinksOf before = [].
Proof.
  destruct (static_success_removes (Sample.calm 10) "/data/a.txt" "quick" true [] 0%N)
    as (before & after & E & _ & L & _ & U & _); [vm_compute; reflexivity|].
  exists before, after. split; [exact E|]. split; [exact L | exact U].
Defined.

Lemma X8_witness :
  result (static_shredFile (Sample.calm 10) "/data/a.txt" "zeros" (callback true) [] 0%N)
  = inl false.
Proof.
  apply (static_unknown_method (Sample.calm 10) "/data/a.txt" "zeros" true [] 0%N).
  reflexivity.
Defined.

Lemma X9_witness :
  result (static_shredFile (Sample.calm 6442450944) "/data/a.bin" "dod"
            (callback true) [] 0%N)
  = inl false.
Proof.
  apply (static_refuses_large (Sample.calm 6442450944) "/data/a.bin" "dod" true [] 0%N).
  vm_compute. reflexivity.
Defined.

Lemma X10_witness :
  static_shredFile Hosts.vacant "/data/a.txt" "dod" (callback true) [] 0%N
  = Out (inl false) [ConsoleError (FileNotFound "/data/a.txt")] 0%N.
Proof.
  apply (missing_file_refused Hosts.vacant "/data/a.txt" "dod" (callback true) [] 0%N).
  reflexivity.
Defined.

End StaticFacts.

(* ================================================================== *)
(** ** The schedule of a wipe and the end of a shred *)
(* ================================================================== *)

Module WipeClaims.
Import Utils FileShredder Passes StaticPhases FileClaims PassTrace TraceClasses PassFacts
       StaticFacts Names.

Local Open Scope string_scope.
Local Open Scope list_scope.
Local Open Scope Z_scope.

(** *** What lies beside the overwriting *)

Lemma not_overwriting_none es :
  Forall not_overwriting es ->
  passesOf es = [] /\ writesOf es = [] /\ Forall written es.
Proof.
  induction 1 as [|ev es Hev _ (IH1 & IH2 & IH3)]; [repeat split; constructor|].
  destruct ev as [c r| | | | |]; try contradiction;
    try (repeat split; [assumption | assumption | constructor; [exact I | assumption]]).
  destruct c; try contradiction;
    (repeat split; [assumption | assumption | constructor; [|assumption]]);
    destruct r; exact I.
Qed.

Lemma prepare_beside es : Forall prepare_event es -> Forall not_overwriting es.
Proof.
  apply Forall_impl. intros [c r| | | | |]; try contradiction; try (intros _; exact I).
  destruct c; try contradiction; intros _; exact I.
Qed.

Lemma housekeeping_beside es : Forall housekeeping es -> Forall not_overwriting es.
Proof.
  apply Forall_impl. intros [c r| | | | |]; try contradiction; try (intros _; exact I).
  destruct c; try contradiction; intros _; exact I.
Qed.

Lemma name_beside es : Forall name_event es -> Forall not_overwriting es.
Proof.
  apply Forall_impl. intros [c r| | | | |]; try contradiction; try (intros _; exact I).
  destruct c; try contradiction; intros _; exact I.
Qed.

Lemma written_app a b : Forall written a -> Forall written b -> Forall written (a ++ b).
Proof. intros Ha Hb. apply Forall_app. split; assumption. Qed.

(** *** The trace of a completed pass *)

Lemma randomly_plain (P : event -> Prop) pat n :
  (forall k, P (RandomBytes k)) -> Forall P (randomly pat n).
Proof. intros H. destruct pat; repeat constructor. apply H. Qed.

Lemma chunkTrace_plain (P : event -> Prop) fd pat b s e buf size i :
  (forall c, P (Sys c None)) -> (forall k, P (RandomBytes k)) ->
  (forall v, P (Progress v)) -> P Yield ->
  Forall P (chunkTrace fd pat b s e buf size i).
Proof.
  intros Hs Hr Hp Hy. unfold chunkTrace.
  apply Forall_app. split; [apply randomly_plain, Hr|].
  apply Forall_app. split; [repeat constructor; apply Hs|].
  apply Forall_app. split.
  - destruct b; repeat constructor. apply Hp.
  - destruct (i mod 10 =? 0); repeat constructor. exact Hy.
Qed.

(** A completed pass is its [Pass] mark followed by calls that
    succeeded, entropy requests, reports and timer waits. *)
Lemma passTrace_tail (P : event -> Prop) p pat b s e size :
  (forall c, P (Sys c None)) -> (forall k, P (RandomBytes k)) ->
  (forall v, P (Progress v)) -> P Yield ->
  exists tail,
    passTrace p pat b s e size = Pass p pat s e :: tail /\ Forall P tail.
Proof.
  intros Hs Hr Hp Hy. unfold passTrace. eexists. split; [reflexivity|].
  constructor; [apply Hs|]. constructor; [apply Hs|].
  apply Forall_app. split; [apply randomly_plain, Hr|].
  apply Forall_app. split.
  { apply Forall_forall. intros ev Hin. apply in_flat_map in Hin.
    destruct Hin as (i & _ & Hin).
    pose proof (chunkTrace_plain P p pat b s e (Z.min (1024 * 1024) size) size i
                  Hs Hr Hp Hy) as F.
    rewrite Forall_forall in F. apply F, Hin. }
  apply Forall_app. split.
  - destruct (positive _); [|constructor].
    apply Forall_app. split; [apply randomly_plain, Hr | repeat constructor; apply Hs].
  - repeat constructor; apply Hs.
Qed.

Lemma passTrace_passes p pat b s e size :
  passesOf (passTrace p pat b s e size) = [(pat, s, e)].
Proof.
  destruct (passTrace_tail not_pass p pat b s e size) as (tail & -> & F);
    try (intros; exact I).
  cbn [passesOf flat_map]. fold (passesOf tail).
  rewrite (passesOf_none F). reflexivity.
Qed.

Lemma passTrace_written p pat b s e size : Forall written (passTrace p pat b s e size).
Proof.
  destruct (passTrace_tail written p pat b s e size) as (tail & -> & F);
    try (intros; exact I).
  - intros c. destruct c; exact I.
  - constructor; [exact I | exact F].
Qed.

Lemma passTrace_writes p pat b s e size :
  writesOf (passTrace p pat b s e size) = passWrites p pat size.
Proof. apply writesOf_passTrace. Qed.

(** The writes of a completed pass cover the file from its first byte
    to its last. *)
Lemma passWrites_cover p pat size :
  0 <= size -> contiguousFrom p pat 0 (passWrites p pat size) = Some size.
Proof.
  intros Hs. unfold passWrites.
  set (buf := Z.min (1024 * 1024) size).
  unfold floorDiv, remainder. destruct (buf =? 0) eqn:B.
  - apply Z.eqb_eq in B. cbn. f_equal. subst buf. lia.
  - apply Z.eqb_neq in B. assert (Hb : 0 < buf) by (subst buf; lia).
    cbn [iterations positive times].
    pose proof (contiguous_chunks p pat 0 (Z.to_nat (size / buf))
                  (if 0 <? size mod buf
                   then [WriteSync p pat (size mod buf) (size / buf * buf)]
                   else []) Hb) as C.
    rewrite Z.mul_0_l in C. rewrite C. clear C.
    assert (Hq : 0 <= size / buf) by (apply Z.div_pos; lia).
    rewrite Z2Nat.id, Z.add_0_l by exact Hq.
    pose proof (Z.div_mod size buf B) as DM.
    pose proof (Z.mod_pos_bound size buf Hb) as MB.
    destruct (0 <? size mod buf) eqn:R.
    + apply Z.ltb_lt in R. rewrite (contiguous_step _ _ _ _ R). cbn. f_equal. lia.
    + apply Z.ltb_ge in R. cbn. f_equal. lia.
Qed.

(** *** The trace of a completed wipe *)

Lemma wipeTrace_passes p b size windows :
  passesOf (wipeTrace p b size windows) = windows.
Proof.
  unfold wipeTrace. induction windows as [|[[pat s] e] ws IH]; [reflexivity|].
  cbn [flat_map fst snd]. rewrite passesOf_app, passTrace_passes, IH. reflexivity.
Qed.

Lemma wipeTrace_writes p b size total i pats :
  writesOf (wipeTrace p b size (windowsFrom total i pats))
  = flat_map (fun pat => passWrites p pat size) pats.
Proof.
  unfold wipeTrace. revert i. induction pats as [|pat pats IH]; intros i; [reflexivity|].
  cbn [windowsFrom flat_map fst snd].
  rewrite writesOf_app, passTrace_writes, IH. reflexivity.
Qed.

Lemma wipeTrace_written p b size windows : Forall written (wipeTrace p b size windows).
Proof.
  unfold wipeTrace. induction windows as [|w ws IH]; [constructor|].
  cbn [flat_map]. apply written_app; [apply passTrace_written | exact IH].
Qed.

Section WithWorld.

Variable W : World.

(** A wipe loop that returns has run every pass of its list to the
    end: its trace is that of the completed passes, one after the
    other. *)
Lemma wipeLoop_complete p b total i pats h d :
  result (wipeLoop W p (callback b) total i pats h d) = inl tt ->
  emitted (wipeLoop W p (callback b) total i pats h d)
  = wipeTrace p b (Z.of_N (size_of W p)) (windowsFrom total i pats).
Proof.
  revert i h d. induction pats as [|pat pats IH]; intros i h d H; [reflexivity|].
  cbn [wipeLoop windowsFrom] in *. unfold wipeTrace. cbn [flat_map fst snd].
  fold (wipeTrace p b (Z.of_N (size_of W p)) (windowsFrom total (i + 1) pats)).
  bind_ok H as u es1 d1 H1 H2. destruct u.
  pose proof (overwrite_ok W p pat b (windowBound i total) (windowBound (i + 1) total)
                h d) as E1.
  rewrite H1 in E1. cbn [result emitted] in E1. rewrite (E1 eq_refl) in *.
  f_equal. apply IH. exact H2.
Qed.

Lemma wipeLoop_keeps p b total i pats :
  sat keeps_names (fun _ => True) (wipeLoop W p (callback b) total i pats).
Proof.
  apply Shape.wipeLoop_sat; try (intros; exact I).
  - intros [c r| | | | |]; try contradiction; try (intros _; exact I).
    destruct c; try contradiction; intros _; exact I.
  - intros v. apply sat_call_report. intros; exact I.
Qed.

(** *** The renames *)

Lemma renameFixed_names dir cur steps :
  sat name_event (fun _ => True) (renameFixed W dir cur steps).
Proof.
  revert cur. induction steps as [|i steps IH]; intros cur; cbn [renameFixed].
  - apply sat_ret.
  - unfold generateSecureRandomHex, randomHex.
    apply sat_bind; [sat_auto|]. intros name.
    apply sat_bind; [sat_auto|]. intros _. apply IH.
Qed.

Lemma renameAndUnlink_names p :
  sat name_event (fun _ => True) (renameAndUnlink W p).
Proof.
  unfold renameAndUnlink. apply sat_bind; [apply renameFixed_names|].
  intros last. sat_auto.
Qed.

Lemma renameShrinking_names dir ext cur steps :
  sat name_event (fun _ => True) (renameShrinking W dir ext cur steps).
Proof.
  revert cur. induction steps as [|i steps IH]; intros cur; cbn [renameShrinking].
  - apply sat_ret.
  - unfold randomHex. apply sat_bind; [sat_auto|]. intros name.
    apply sat_bind.
    + apply sat_try_catch with (X' := fun _ => True);
        [sat_auto | intros e _; apply sat_ret].
    + intros renamed. destruct renamed; [apply IH | apply sat_ret].
Qed.

Lemma secureDeleteFileName_names p : sat name_event never (secureDeleteFileName W p).
Proof.
  unfold secureDeleteFileName. apply sat_catch_all; [|intros e; apply sat_ret].
  apply sat_bind.
  - apply renameShrinking_names.
  - intros cur. apply sat_weaken with (E := name_event) (X := never);
      [|auto|intros e []].
    apply sat_catch_all; [sat_auto | intros e; apply sat_ret].
Qed.

(** Renames that are chained have all succeeded. *)
Lemma chained_succeeded from renames a c r :
  chained from renames = true -> In (a, c, r) renames -> r = None.
Proof.
  revert from. induction renames as [|[[o n] x] rest IH]; intros from Hc Hin;
    [destruct Hin|].
  cbn [chained] in Hc. apply andb_prop in Hc. destruct Hc as [Hc Hrest].
  apply andb_prop in Hc. destruct Hc as [_ Hx].
  destruct Hin as [[= <- <- <-]|Hin].
  - destruct x; [discriminate | reflexivity].
  - apply (IH n Hrest Hin).
Qed.

(** When the renames and the unlink of the static [shredFile] fail,
    either a rename has failed and nothing was unlinked, or every
    rename has succeeded and the unlink has failed. *)
Lemma renameAndUnlink_failed p h d e es d' :
  renameAndUnlink W p h d = Out (inr e) es d' ->
  unlinksOf es = [] \/
  (exists last code,
     unlinksOf es = [(last, Some code)] /\
     forall a c r, In (a, c, r) (renamesOf es) -> r = None).
Proof.
  unfold renameAndUnlink. intros H.
  destruct (renameFixed W (dirname W p) p (indices 0 10) h d) as [[last|e1] es1 d1] eqn:R.
  - destruct (renameFixed_ok W _ _ _ _ _ R) as (Hc & _ & _ & Hu & _).
    destruct (sys_run W (UnlinkSync last) (h ++ es1) d1) as [U|[code U]].
    + erewrite run_bind in H; [|exact R|exact U]. discriminate.
    + erewrite run_bind in H; [|exact R|exact U]. injection H as _ <- _.
      right. exists last, code. rewrite unlinksOf_app, renamesOf_app, Hu.
      cbn [unlinksOf renamesOf flat_map app]. split; [reflexivity|].
      rewrite app_nil_r. intros a c r Hin. exact (chained_succeeded _ _ _ _ _ Hc Hin).
  - erewrite run_bind_fail in H; [|exact R]. injection H as _ <- _.
    left.
    destruct (renameFixed_spec W (dirname W p) (indices 0 10) p h d)
      as (k & _ & _ & _ & Hu & _).
    rewrite R in Hu. exact Hu.
Qed.

(** *** The static [shredFile] with a wipe loop *)

(** Every shred whose method runs the wipe loop over [pats]: the
    passes started are the first passes of the list; either the shred
    has stopped before or within the wipe, and then it returns [false]
    without having renamed or unlinked anything, or every pass of the
    list has run to its end. *)
Lemma static_wipe path method pats b h d :
  (forall h' d',
     wipeByMethod W method path (callback b) h' d'
     = wipeLoop W path (callback b) (Z.of_nat (List.length pats)) 0 pats h' d') ->
  (exists n,
     passesOf (emitted (static_shredFile W path method (callback b) h d))
     = firstn n (windowsFrom (Z.of_nat (List.length pats)) 0 pats)) /\
  ((result (static_shredFile W path method (callback b) h d) = inl false /\
    renamesOf (emitted (static_shredFile W path method (callback b) h d)) = [] /\
    unlinksOf (emitted (static_shredFile W path method (callback b) h d)) = []) \/
   (passesOf (emitted (static_shredFile W path method (callback b) h d))
    = windowsFrom (Z.of_nat (List.length pats)) 0 pats /\
    writesOf (emitted (static_shredFile W path method (callback b) h d))
    = flat_map (fun pat => passWrites path pat (Z.of_N (size_of W path))) pats /\
    Forall written (emitted (static_shredFile W path method (callback b) h d)))).
Proof.
  intros Loop.
  set (total := Z.of_nat (List.length pats)) in *.
  assert (Fin : forall es : list event,
             Forall not_overwriting (if b then [Progress 100] else es) ->
             True) by trivial.
  destruct (static_phases W path method b h d)
    as (pre & d1 & Fp &
        [(e & E & _) |
         [(e & wipe & d2 & Wp & E) |
          [(wipe & d2 & e & ren & d3 & Wp & Rn & E) |
           (wipe & d2 & ren & d3 & post & d4 & Wp & Rn & Fpost & E)]]]);
    rewrite E; cbn [result emitted]; clear E.
  - destruct (not_overwriting_none (prepare_beside Fp)) as (P1 & _ & _).
    destruct (keeps_names_none (prepare_keeps Fp)) as [K1 K2].
    split.
    + exists O. rewrite passesOf_app, P1. reflexivity.
    + left. rewrite renamesOf_app, unlinksOf_app, K1, K2. repeat split.
  - destruct (not_overwriting_none (prepare_beside Fp)) as (P1 & _ & _).
    destruct (keeps_names_none (prepare_keeps Fp)) as [K1 K2].
    rewrite Loop in Wp.
    destruct (wipeLoop_passes W (callback b) path total 0 pats (h ++ pre) d1
                (callback_not_pass b)) as [k [Pk _]].
    rewrite Wp in Pk. cbn [emitted] in Pk.
    destruct (keeps_names_none (events_of (wipeLoop_keeps path b total 0 pats) Wp))
      as [W1 W2].
    split.
    + exists k. rewrite !passesOf_app, P1, Pk. cbn. now rewrite app_nil_r.
    + left. rewrite !renamesOf_app, !unlinksOf_app, K1, K2, W1, W2. repeat split.
  - rewrite Loop in Wp.
    pose proof (wipeLoop_complete path b total 0 pats (h ++ pre) d1) as Wt.
    rewrite Wp in Wt. cbn [result emitted] in Wt. specialize (Wt eq_refl). subst wipe.
    destruct (not_overwriting_none (prepare_beside Fp)) as (P1 & P2 & P3).
    destruct (not_overwriting_none
                (name_beside (events_of (renameAndUnlink_names path) Rn)))
      as (R1 & R2 & R3).
    assert (Pw : passesOf
                   (pre ++ wipeTrace path b (Z.of_N (size_of W path))
                             (windowsFrom total 0 pats) ++ ren ++ [ConsoleError e])
                 = windowsFrom total 0 pats).
    { rewrite !passesOf_app, P1, R1, wipeTrace_passes. cbn. now rewrite app_nil_r. }
    split; [exists (List.length (windowsFrom total 0 pats)); rewrite Pw;
            symmetry; apply firstn_all|].
    right. split; [exact Pw|]. split.
    + rewrite !writesOf_app, P2, R2, wipeTrace_writes. cbn. now rewrite app_nil_r.
    + apply written_app; [exact P3|]. apply written_app; [apply wipeTrace_written|].
      apply written_app; [exact R3 | repeat constructor].
  - rewrite Loop in Wp.
    pose proof (wipeLoop_complete path b total 0 pats (h ++ pre) d1) as Wt.
    rewrite Wp in Wt. cbn [result emitted] in Wt. specialize (Wt eq_refl). subst wipe.
    destruct (not_overwriting_none (prepare_beside Fp)) as (P1 & P2 & P3).
    destruct (not_overwriting_none
                (name_beside (events_of (renameAndUnlink_names path) Rn)))
      as (R1 & R2 & R3).
    destruct (not_overwriting_none (housekeeping_beside Fpost)) as (H1 & H2 & H3).
    assert (F1 : passesOf (if b then [Progress 100] else []) = [])
      by (destruct b; reflexivity).
    assert (F2 : writesOf (if b then [Progress 100] else []) = [])
      by (destruct b; reflexivity).
    assert (F3 : Forall written (if b then [Progress 100] else []))
      by (destruct b; repeat constructor).
    assert (Pw : passesOf
                   (pre ++ wipeTrace path b (Z.of_N (size_of W path))
                             (windowsFrom total 0 pats)
                        ++ ren ++ (if b then [Progress 100] else []) ++ post)
                 = windowsFrom total 0 pats).
    { rewrite !passesOf_app, P1, R1, F1, H1, wipeTrace_passes. cbn.
      now rewrite app_nil_r. }
    split; [exists (List.length (windowsFrom total 0 pats)); rewrite Pw;
            symmetry; apply firstn_all|].
    right. split; [exact Pw|]. split.
    + rewrite !writesOf_app, P2, R2, F2, H2, wipeTrace_writes. cbn.
      now rewrite app_nil_r.
    + apply written_app; [exact P3|]. apply written_app; [apply wipeTrace_written|].
      apply written_app; [exact R3|]. apply written_app; [exact F3 | exact H3].
Qed.


End WithWorld.

(** C1.  Every shred with the method [gutmann].  The passes it starts
    are the first passes of the Gutmann sequence, in its order: four
    random passes, the 27 fixed bytes of the table, four random passes;
    never more than 35.  Either the shred has stopped before or within
    the wipe (it was refused, or a call of a pass has failed): then it
    returns [false] and has renamed and unlinked nothing.  Or it has
    executed exactly the 35 passes, each of them to its end: the writes
    of the shred are, pass after pass, the writes that cover the file
    with the data of the pass, and no write or flush has failed; this
    is so whether or not the renames that follow succeed, and in
    particular whenever the shred returns [true].  The writes of a pass
    cover the file from offset 0 to its size. *)
Theorem C1_gutmann_35_passes W path b h d :
  (exists n,
     patternsOf (emitted (static_shredFile W path "gutmann" (callback b) h d))
     = firstn n gutmannSequence) /\
  (List.length (patternsOf (emitted (static_shredFile W path "gutmann" (callback b) h d)))
   <= 35)%nat /\
  ((result (static_shredFile W path "gutmann" (callback b) h d) = inl false /\
    renamesOf (emitted (static_shredFile W path "gutmann" (callback b) h d)) = [] /\
    unlinksOf (emitted (static_shredFile W path "gutmann" (callback b) h d)) = []) \/
   (patternsOf (emitted (static_shredFile W path "gutmann" (callback b) h d))
    = gutmannSequence /\
    List.length (patternsOf (emitted (static_shredFile W path "gutmann"
                                        (callback b) h d))) = 35%nat /\
    writesOf (emitted (static_shredFile W path "gutmann" (callback b) h d))
    = flat_map (fun pat => passWrites path pat (Z.of_N (size_of W path)))
               gutmannSequence /\
    Forall written (emitted (static_shredFile W path "gutmann" (callback b) h d)))) /\
  (result (static_shredFile W path "gutmann" (callback b) h d) = inl true ->
   patternsOf (emitted (static_shredFile W path "gutmann" (callback b) h d))
   = gutmannSequence) /\
  (forall pat,
     contiguousFrom path pat 0 (passWrites path pat (Z.of_N (size_of W path)))
     = Some (Z.of_N (size_of W path))).
Proof.
  destruct (static_wipe W path "gutmann" gutmannSequence b h d) as [[n Pn] D];
    [intros h' d'; reflexivity|].
  change (Z.of_nat (List.length gutmannSequence)) with 35 in *.
  assert (Pre : patternsOf (emitted (static_shredFile W path "gutmann" (callback b) h d))
                = firstn n gutmannSequence).
  { unfold patternsOf. rewrite Pn, <- firstn_map, patterns_windowsFrom. reflexivity. }
  assert (Full : passesOf (emitted (static_shredFile W path "gutmann" (callback b) h d))
                 = windowsFrom 35 0 gutmannSequence ->
                 patternsOf (emitted (static_shredFile W path "gutmann" (callback b) h d))
                 = gutmannSequence).
  { intros E. unfold patternsOf. rewrite E. apply patterns_windowsFrom. }
  split; [exists n; exact Pre|].
  split; [rewrite Pre, length_firstn; exact (Nat.le_min_r n 35)|].
  split; [|split].
  - destruct D as [A|(Pw & Ww & Fw)]; [left; exact A|].
    right. split; [exact (Full Pw)|]. split; [rewrite (Full Pw); reflexivity|].
    split; [exact Ww | exact Fw].
  - intros R. destruct D as [(Rf & _)|(Pw & _)]; [congruence | exact (Full Pw)].
  - intros pat. apply passWrites_cover. lia.
Qed.

Lemma C1_witness :
  patternsOf (emitted (static_shredFile (Sample.calm 10) "/data/a.txt" "gutmann"
                         (callback true) [] 0%N))
  = gutmannSequence.
Proof.
  apply (proj1 (proj2 (proj2 (proj2
           (C1_gutmann_35_passes (Sample.calm 10) "/data/a.txt" true [] 0%N))))).
  vm_compute; reflexivity.
Defined.



(** C3, as the code has it.  On the instance path, once the three
    overwrite passes of a file have completed, [shredSingleFile]
    returns normally whatever the renames and the unlink do: their
    failures are caught, and exactly one unlink is attempted, on the
    path the file has after the renames that succeeded.  The static
    [shredFile] does not suppress them, whatever its method: when one
    of its renames has failed it returns [false] and has attempted no
    unlink, and when the unlink of the file has failed it returns
    [false] too. *)
Theorem C3_instance_suppresses_rename_failures W path method b h d :
  (exists_ W h path = true ->
   result (performDoDWipe W path (callback b) h d) = inl tt ->
   result (shredSingleFile W path (callback b) h d) = inl tt /\
   exists outcome,
     unlinksOf (emitted (shredSingleFile W path (callback b) h d))
     = [(currentPath path (renamesOf (emitted (shredSingleFile W path (callback b) h d))),
         outcome)]) /\
  (forall oldPath newPath code,
     In (oldPath, newPath, Some code)
        (renamesOf (emitted (static_shredFile W path method (callback b) h d))) ->
     result (static_shredFile W path method (callback b) h d) = inl false /\
     unlinksOf (emitted (static_shredFile W path method (callback b) h d)) = []) /\
  (forall p code rest,
     unlinksOf (emitted (static_shredFile W path method (callback b) h d))
     = (p, Some code) :: rest ->
     result (static_shredFile W path method (callback b) h d) = inl false).
Proof.
  split; [|split].
  - intros Hex Hw. unfold shredSingleFile.
    rewrite existsSync_bind, Hex. cbn [negb].
    rewrite (bind_inl _ _ _ _ Hw). cbn [result emitted].
    set (wipe := performDoDWipe W path (callback b) h d) in *.
    destruct (secureDeleteFileName_spec W path (h ++ emitted wipe) (drawn wipe))
      as (k & r & _ & Hr & _ & _ & Hu & _).
    destruct (wipe_no_renames (performDoDWipe_events W path b h d)) as [Nr Nu].
    fold wipe in Nr, Nu.
    split; [exact Hr|]. exists r.
    rewrite renamesOf_app, unlinksOf_app, Nr, Nu. exact Hu.
  - intros oldPath newPath code.
    destruct (static_phases W path method b h d)
      as (pre & d1 & Fp &
          [(e & E & _) |
           [(e & wipe & d2 & Wp & E) |
            [(wipe & d2 & e & ren & d3 & Wp & Rn & E) |
             (wipe & d2 & ren & d3 & post & d4 & Wp & Rn & Fpost & E)]]]);
      rewrite E; cbn [result emitted]; clear E;
      destruct (keeps_names_none (prepare_keeps Fp)) as [P1 P2].
    + rewrite renamesOf_app, P1. intros [].
    + destruct (keeps_names_none (events_of (wipe_keeps W method path b) Wp)) as [W1 W2].
      rewrite !renamesOf_app, P1, W1. intros [].
    + destruct (keeps_names_none (events_of (wipe_keeps W method path b) Wp)) as [W1 W2].
      rewrite !renamesOf_app, !unlinksOf_app, P1, P2, W1, W2.
      cbn [app renamesOf unlinksOf flat_map]. rewrite !app_nil_r.
      intros Hin. split; [reflexivity|].
      destruct (renameAndUnlink_failed W path _ _ Rn) as [U|(last & c & _ & Ok)];
        [exact U|].
      discriminate (Ok _ _ _ Hin).
    + destruct (keeps_names_none (events_of (wipe_keeps W method path b) Wp)) as [W1 W2].
      destruct (renameAndUnlink_ok W _ _ _ Rn) as (loop & -> & Hc & _).
      assert (F : renamesOf (if b then [Progress 100] else []) = [])
        by (destruct b; reflexivity).
      rewrite !renamesOf_app, P1, W1, F,
        (renamesOf_none (housekeeping_not_rename Fpost)).
      cbn [app renamesOf flat_map]. rewrite !app_nil_r. intros Hin.
      discriminate (chained_succeeded _ _ _ _ _ Hc Hin).
  - intros p code rest.
    destruct (static_phases W path method b h d)
      as (pre & d1 & Fp &
          [(e & E & _) |
           [(e & wipe & d2 & Wp & E) |
            [(wipe & d2 & e & ren & d3 & Wp & Rn & E) |
             (wipe & d2 & ren & d3 & post & d4 & Wp & Rn & Fpost & E)]]]);
      rewrite E; cbn [result emitted]; clear E; try (intros _; reflexivity).
    destruct (keeps_names_none (prepare_keeps Fp)) as [P1 P2].
    destruct (keeps_names_none (events_of (wipe_keeps W method path b) Wp)) as [W1 W2].
    destruct (renameAndUnlink_ok W _ _ _ Rn) as (loop & -> & _ & _ & Hu & _).
    rewrite !unlinksOf_app, P2, W2, Hu. cbn [app unlinksOf flat_map].
    intros [=].
Qed.

Lemma C3_witness :
  failuresOf (emitted (shredSingleFile (Sample.sticky 10) "/data/a.txt"
                         (callback true) [] 0%N))
  = [RenameSync "/data/a.txt" "/data/1415161718191a1b1c1d1e1f20212223.txt";
     UnlinkSync "/data/a.txt"] /\
  result (shredSingleFile (Sample.sticky 10) "/data/a.txt" (callback true) [] 0%N)
  = inl tt /\
  result (static_shredFile (Sample.sticky 10) "/data/a.txt" "dod" (callback true) [] 0%N)
  = inl false.
Proof.
  split; [vm_compute; reflexivity|]. split.
  - apply (proj1 (C3_instance_suppresses_rename_failures (Sample.sticky 10) "/data/a.txt"
                    "dod" true [] 0%N)); vm_compute; reflexivity.
  - apply (proj1 (proj2 (C3_instance_suppresses_rename_failures (Sample.sticky 10)
                           "/data/a.txt" "dod" true [] 0%N))
             "/data/a.txt" "/data/1c1d1e1f202122232425262728292a2b" EPERM).
    vm_compute. left. reflexivity.
Defined.

(** C3 as stated fails on the static path: the three passes complete,
    the first rename fails, and [shredFile] returns [false] without
    trying to unlink anything. *)
Lemma C3_counterexample :
  passesOf (emitted (static_shredFile (Sample.sticky 10) "/data/a.txt" "dod"
                       (callback true) [] 0%N)) = dodSchedule /\
  failuresOf (emitted (static_shredFile (Sample.sticky 10) "/data/a.txt" "dod"
                         (callback true) [] 0%N))
  = [RenameSync "/data/a.txt" "/data/1c1d1e1f202122232425262728292a2b"] /\
  unlinksOf (emitted (static_shredFile (Sample.sticky 10) "/data/a.txt" "dod"
                        (callback true) [] 0%N)) = [] /\
  result (static_shredFile (Sample.sticky 10) "/data/a.txt" "dod"
            (callback true) [] 0%N) = inl false.
Proof.
  split; [vm_compute; reflexivity|]. split; [vm_compute; reflexivity|].
  split; vm_compute; reflexivity.
Qed.

End WipeClaims.

(* ================================================================== *)
(** ** The helpers of [Utils] *)
(* ================================================================== *)

Module UtilsFacts.
Import Utils FileShredder Passes StaticPhases FileClaims PassTrace TraceClasses PassFacts
       StaticFacts Names.

Local Open Scope string_scope.
Local Open Scope list_scope.
Local Open Scope Z_scope.

(** *** Random names *)

Lemma substring_hex n s : isHex s = true -> isHex (String.substring 0 n s) = true.
Proof.
  revert s. induction n as [|n IH]; intros s H.
  - destruct s; reflexivity.
  - destruct s as [|c s]; [reflexivity|]. cbn [String.substring isHex] in *.
    apply andb_prop in H. destruct H as [Hc Hs]. now rewrite Hc, IH.
Qed.

Lemma substring_length n s :
  (n <= String.length s)%nat -> String.length (String.substring 0 n s) = n.
Proof.
  revert s. induction n as [|n IH]; intros s H.
  - destruct s; reflexivity.
  - destruct s as [|c s]; [cbn in H; lia|]. cbn [String.substring String.length] in *.
    rewrite IH; [reflexivity | lia].
Qed.

(** The largest length for which [randomBytes] accepts
    [ceil(length / 2)]: twice [2^31 - 1]. *)
Lemma halves length :
  0 <= length ->
  sizeAccepted ((length + 1) / 2) = (length <=? 4294967294).
Proof.
  intros Hl. unfold sizeAccepted.
  assert (0 <= (length + 1) / 2) by (apply Z.div_pos; lia).
  pose proof (Z.div_mod (length + 1) 2 ltac:(lia)) as DM.
  pose proof (Z.mod_pos_bound (length + 1) 2 ltac:(lia)) as MB.
  destruct (length <=? 4294967294) eqn:B.
  - apply Z.leb_le in B. apply andb_true_intro. split; apply Z.leb_le; lia.
  - apply Z.leb_gt in B. apply andb_false_intro2. apply Z.leb_gt. lia.
Qed.

Lemma generateRandomString_run W length h d :
  0 <= length <= 4294967294 ->
  exists s,
    generateRandomString W length h d
    = Out (inl s) [RandomBytes ((length + 1) / 2)] (d + Z.to_N ((length + 1) / 2))%N /\
    String.length s = Z.to_nat length /\
    isHex s = true.
Proof.
  intros [Hl Hu]. unfold generateRandomString.
  assert (A : sizeAccepted ((length + 1) / 2) = true).
  { rewrite (halves Hl). apply Z.leb_le, Hu. }
  eexists. split; [|split].
  - erewrite run_bind; [|apply randomBytes_run, A|reflexivity]. reflexivity.
  - apply substring_length. rewrite toHex_length, length_map, length_seq.
    assert (length <= 2 * ((length + 1) / 2)) by (pose proof (Z.div_mod (length + 1) 2); pose proof (Z.mod_pos_bound (length + 1) 2); lia).
    assert (0 <= (length + 1) / 2) by (apply Z.div_pos; lia).
    lia.
  - apply substring_hex, toHex_hex.
Qed.

(** X11.  [generateRandomString(length)] for [length >= 0].  Up to a
    length of [2^28 - 16] (a string every version of the engine can
    build) it asks the generator for [ceil(length / 2)] bytes and
    returns exactly [length] lower-case hexadecimal digits.  Above a
    length of [2 * (2^31 - 1)], [crypto.randomBytes] refuses the size:
    the call throws a [RangeError] and nothing is generated. *)
Theorem generateRandomString_shape W length h d :
  0 <= length ->
  (length <= 268435440 ->
   exists s,
     generateRandomString W length h d
     = Out (inl s) [RandomBytes ((length + 1) / 2)] (d + Z.to_N ((length + 1) / 2))%N /\
     String.length s = Z.to_nat length /\
     isHex s = true) /\
  (4294967294 < length ->
   generateRandomString W length h d
   = Out (inr (SizeOutOfRange ((length + 1) / 2))) [] d).
Proof.
  intros Hl. split.
  - intros Hu. apply generateRandomString_run. lia.
  - intros Hu. unfold generateRandomString.
    apply run_bind_fail. unfold randomBytes.
    rewrite (halves Hl). replace (length <=? 4294967294) with false; [reflexivity|].
    symmetry. apply Z.leb_gt, Hu.
Qed.

Lemma X11_witness :
  (exists s,
     generateRandomString (Sample.calm 0) 5 [] 0%N
     = Out (inl s) [RandomBytes 3] 3%N /\
     String.length s = 5%nat /\ isHex s = true) /\
  generateRandomString (Sample.calm 0) 4294967296 [] 0%N
  = Out (inr (SizeOutOfRange 2147483648)) [] 0%N.
Proof.
  split.
  - apply (proj1 (@generateRandomString_shape (Sample.calm 0) 5 [] 0%N ltac:(lia))). lia.
  - apply (proj2 (@generateRandomString_shape (Sample.calm 0) 4294967296 [] 0%N
                    ltac:(lia))). lia.
Defined.

(** *** The temporary directory *)

(** X12.  [createSecureTempDir] never throws.  It asks for 8 random
    bytes and names the directory [shredder-temp-] followed by 16
    hexadecimal digits, below the temporary directory of the system.
    It returns that path when the directory exists already or
    [mkdirSync] succeeds, and [null], with the failure logged, when
    [mkdirSync] fails. *)
Theorem createSecureTempDir_outcome W h d :
  exists name,
    String.length name = 16%nat /\ isHex name = true /\
    ((result (createSecureTempDir W h d)
      = inl (Some (join W (tmpdir W) ("shredder-temp-" ++ name))) /\
      (emitted (createSecureTempDir W h d) = [RandomBytes 8] \/
       emitted (createSecureTempDir W h d)
       = [RandomBytes 8;
          Sys (MkdirSync (join W (tmpdir W) ("shredder-temp-" ++ name))) None])) \/
     (result (createSecureTempDir W h d) = inl None /\
      exists code,
        emitted (createSecureTempDir W h d)
        = [RandomBytes 8;
           Sys (MkdirSync (join W (tmpdir W) ("shredder-temp-" ++ name))) (Some code);
           ConsoleError
             (IOError (MkdirSync (join W (tmpdir W) ("shredder-temp-" ++ name))) code)])).
Proof.
  destruct (@generateRandomString_run W 16 h d ltac:(lia)) as (name & G & L & X).
  change ((16 + 1) / 2) with 8 in G.
  exists name. split; [exact L|]. split; [exact X|].
  set (t := join W (tmpdir W) ("shredder-temp-" ++ name)).
  unfold createSecureTempDir. cbv zeta.
  set (h1 := h ++ [RandomBytes 8]). set (d1 := (d + Z.to_N 8)%N) in *.
  assert (Ens : forall r es d',
             ensureDirectoryExists W t h1 d1 = Out (inl r) es d' ->
             try_catch
               (randomDirName <- generateRandomString W 16 ;;
                created <- ensureDirectoryExists W
                             (join W (tmpdir W) ("shredder-temp-" ++ randomDirName)) ;;
                if negb created then ret None
                else ret (Some (join W (tmpdir W) ("shredder-temp-" ++ randomDirName))))
               (fun error => emit (ConsoleError error) ;;; ret None) h d
             = Out (inl (if negb r then None else Some t)) ([RandomBytes 8] ++ es) d').
  { intros r es d' E. eapply run_catch_ok. eapply run_bind; [exact G|].
    eapply run_bind_nil; [exact E|]. destruct r; reflexivity. }
  destruct (exists_ W h1 t) eqn:Ex.
  - left. rewrite (Ens true [] d1).
    + cbn. split; [reflexivity | left; reflexivity].
    + unfold ensureDirectoryExists.
      eapply run_catch_ok. rewrite existsSync_bind, Ex. reflexivity.
  - destruct (sys_run W (MkdirSync t) h1 d1) as [Mk|[code Mk]].
    + left. rewrite (Ens true [Sys (MkdirSync t) None] d1).
      * cbn. split; [reflexivity | right; reflexivity].
      * unfold ensureDirectoryExists.
        eapply run_catch_ok. rewrite existsSync_bind, Ex. cbn [negb when_].
        eapply run_bind_nil; [exact Mk | reflexivity].
    + right.
      rewrite (Ens false [Sys (MkdirSync t) (Some code);
                          ConsoleError (IOError (MkdirSync t) code)] d1).
      * cbn. split; [reflexivity | exists code; reflexivity].
      * unfold ensureDirectoryExists.
        change [Sys (MkdirSync t) (Some code); ConsoleError (IOError (MkdirSync t) code)]
          with ([Sys (MkdirSync t) (Some code)]
                ++ [ConsoleError (IOError (MkdirSync t) code)]).
        eapply run_catch_fail; [|reflexivity].
        rewrite existsSync_bind, Ex. cbn [negb when_].
        eapply run_bind_fail. exact Mk.
Qed.

(** *** The validation of a path *)

Lemma isFileLocked_run W p h d :
  (forall code,
     fails W h (OpenSync p) = Some code ->
     isFileLocked W p h d
     = Out (inl match code with EBUSY | EPERM => true | _ => false end)
           [Sys (OpenSync p) (Some code)] d) /\
  (fails W h (OpenSync p) = None ->
   exists locked r,
     isFileLocked W p h d
     = Out (inl locked) [Sys (OpenSync p) None; Sys (CloseSync p) r] d /\
     (r = None -> locked = false)).
Proof.
  unfold isFileLocked. split.
  - intros code F.
    eapply run_catch_fail with (es2 := []) (es1 := [Sys (OpenSync p) (Some code)]).
    + eapply run_bind_fail. apply sys_fail, F.
    + destruct code; reflexivity.
  - intros F.
    destruct (sys_run W (CloseSync p) (h ++ [Sys (OpenSync p) None]) d) as [C|[code C]].
    + exists false, None. split; [|reflexivity].
      eapply run_catch_ok.
      eapply run_bind with (es1 := [Sys (OpenSync p) None]) (es2 := [Sys (CloseSync p) None]);
        [apply sys_ok, F|].
      eapply run_bind_nil; [exact C | reflexivity].
    + exists (match code with EBUSY | EPERM => true | _ => false end), (Some code).
      split; [|discriminate].
      eapply run_catch_fail
        with (es2 := []) (es1 := [Sys (OpenSync p) None; Sys (CloseSync p) (Some code)]).
      * eapply run_bind with (es1 := [Sys (OpenSync p) None])
                             (es2 := [Sys (CloseSync p) (Some code)]); [apply sys_ok, F|].
        eapply run_bind_fail. exact C.
      * destruct code; reflexivity.
Qed.

(** X13.  [isFileLocked] never throws.  When [openSync] fails, the
    file counts as locked exactly for the codes [EBUSY] and [EPERM]: a
    file that cannot be opened for another reason (one that does not
    exist, say) is reported as not locked.  When [openSync] succeeds
    the descriptor is closed again, and nothing else is done to the
    file. *)
Theorem isFileLocked_verdict W p h d :
  (forall code,
     fails W h (OpenSync p) = Some code ->
     isFileLocked W p h d
     = Out (inl match code with EBUSY | EPERM => true | _ => false end)
           [Sys (OpenSync p) (Some code)] d) /\
  (fails W h (OpenSync p) = None ->
   exists locked r,
     isFileLocked W p h d
     = Out (inl locked) [Sys (OpenSync p) None; Sys (CloseSync p) r] d /\
     (r = None -> locked = false)).
Proof. exact (isFileLocked_run W p h d). Qed.

Lemma X13_witness :
  isFileLocked Hosts.vacant "/data/a.txt" [] 0%N
  = Out (inl false) [Sys (OpenSync "/data/a.txt") (Some ENOENT)] 0%N.
Proof.
  apply (proj1 (isFileLocked_verdict Hosts.vacant "/data/a.txt" [] 0%N) ENOENT).
  reflexivity.
Defined.

(** X14.  [isSystemCriticalFile] decides by the location alone: a
    path is critical exactly when its normalised lower-case form starts
    with one of the system paths.  The list of system extensions never
    changes the answer. *)
Theorem isSystemCriticalFile_by_location W p :
  isSystemCriticalFile W p
  = startsWithAny (toLowerCase (normalize W p)) systemPaths.
Proof.
  unfold isSystemCriticalFile.
  destruct (startsWithAny (toLowerCase (normalize W p)) systemPaths);
    [reflexivity|].
  destruct (existsb _ systemExtensions); reflexivity.
Qed.

(** [trim] strips the white space of every script: a path that holds
    only a no-break space, an ideographic space or a byte order mark is
    blank; a letter is not.  A code point above [U+FFFF] counts as two
    in [length]. *)
Lemma isBlank_samples :
  isBlank (String (ascii_of_nat 194) (String (ascii_of_nat 160) "")) = true /\
  isBlank (String (ascii_of_nat 227) (String (ascii_of_nat 128)
             (String (ascii_of_nat 128) ""))) = true /\
  isBlank (String (ascii_of_nat 239) (String (ascii_of_nat 187)
             (String (ascii_of_nat 191) " "))) = true /\
  isBlank " a " = false /\
  utf16Length (String (ascii_of_nat 240) (String (ascii_of_nat 159)
                 (String (ascii_of_nat 152) (String (ascii_of_nat 128) "a")))) = 3%nat.
Proof. repeat split; reflexivity. Qed.

(** X15.  [validateFilePath] never throws and always returns its
    result object, valid exactly when its list of errors is empty; an
    invalid result carries one reason.  A blank path, and a path that
    does not exist, are reported without any [fs] call.  A path is
    reported valid only if it is not blank, exists, is not below a
    system path, is at most 260 UTF-16 code units long, and was not
    found locked; the only calls made open and close the path itself.
    Blank is what [trim] empties: white space and line terminators of
    any script, not only of ASCII. *)
Theorem validateFilePath_verdict W p h d :
  exists v,
    result (validateFilePath W p h d) = inl v /\
    (isValid v = true <-> errors v = []) /\
    (List.length (errors v) <= 1)%nat /\
    (isBlank p = true -> v = invalid EmptyPath /\ emitted (validateFilePath W p h d) = []) /\
    (isBlank p = false -> exists_ W h p = false ->
     v = invalid Missing /\ emitted (validateFilePath W p h d) = []) /\
    (isValid v = true ->
     isBlank p = false /\ exists_ W h p = true /\ isSystemCriticalFile W p = false /\
     (utf16Length p <= 260)%nat /\
     result (isFileLocked W p h d) = inl false) /\
    Forall (fun ev => exists r, ev = Sys (OpenSync p) r \/ ev = Sys (CloseSync p) r)
           (emitted (validateFilePath W p h d)).
Proof.
  unfold validateFilePath, pathExists.
  destruct (isBlank p) eqn:B.
  { eexists. split; [reflexivity|]. cbn.
    repeat split; try discriminate; try (intros; discriminate); auto. }
  rewrite existsSync_bind.
  destruct (exists_ W h p) eqn:Ex; cbn [negb].
  2:{ eexists. split; [reflexivity|]. cbn.
      repeat split; try discriminate; try (intros; discriminate); auto. }
  destruct (isSystemCriticalFile W p) eqn:Cr.
  { eexists. split; [reflexivity|]. cbn.
    repeat split; try discriminate; try (intros; discriminate); auto. }
  assert (Ev : Forall (fun ev => exists r, ev = Sys (OpenSync p) r \/ ev = Sys (CloseSync p) r)
                      (emitted (isFileLocked W p h d))).
  { destruct (fails W h (OpenSync p)) as [code|] eqn:F.
    - rewrite (proj1 (isFileLocked_run W p h d) code F). cbn.
      repeat constructor. eexists. left. reflexivity.
    - destruct (proj2 (isFileLocked_run W p h d) F) as (l & r & E & _).
      rewrite E. cbn. repeat constructor; eexists; [left | right]; reflexivity. }
  destruct (never_fails h d (isFileLocked_probe W p)) as [locked L].
  set (es := emitted (isFileLocked W p h d)) in *.
  set (d' := drawn (isFileLocked W p h d)) in *.
  assert (R : result (isFileLocked W p h d) = inl locked) by (rewrite L; reflexivity).
  destruct locked.
  { exists (invalid Locked).
    assert (E : bind (isFileLocked W p)
                  (fun locked =>
                     if locked then ret (invalid Locked)
                     else if (260 <? utf16Length p)%nat then ret (invalid PathTooLong)
                          else ret {| isValid := true; errors := [] |}) h d
                = Out (inl (invalid Locked)) es d')
      by (eapply run_bind_nil; [exact L | reflexivity]).
    rewrite E. cbn.
    repeat split; try discriminate; try (intros; discriminate); auto. }
  destruct (260 <? utf16Length p)%nat eqn:Len.
  { exists (invalid PathTooLong).
    assert (E : bind (isFileLocked W p)
                  (fun locked =>
                     if locked then ret (invalid Locked)
                     else if true then ret (invalid PathTooLong)
                          else ret {| isValid := true; errors := [] |}) h d
                = Out (inl (invalid PathTooLong)) es d')
      by (eapply run_bind_nil; [exact L | reflexivity]).
    rewrite E. cbn.
    repeat split; try discriminate; try (intros; discriminate); auto. }
  exists {| isValid := true; errors := [] |}.
  assert (E : bind (isFileLocked W p)
                (fun locked =>
                   if locked then ret (invalid Locked)
                   else if false then ret (invalid PathTooLong)
                        else ret {| isValid := true; errors := [] |}) h d
              = Out (inl {| isValid := true; errors := [] |}) es d')
    by (eapply run_bind_nil; [exact L | reflexivity]).
  rewrite E. cbn. apply Nat.ltb_ge in Len.
  repeat split; try discriminate; try (intros; discriminate); auto.
Qed.

Lemma X15_witness :
  result (validateFilePath Hosts.vacant "/data/a.txt" [] 0%N) = inl (invalid Missing).
Proof.
  destruct (validateFilePath_verdict Hosts.vacant "/data/a.txt" [] 0%N)
    as (v & R & _ & _ & _ & M & _).
  destruct (M eq_refl eq_refl) as [-> _]. exact R.
Defined.

(** *** The names of [secureDeleteFileName] *)

Lemma renameShrinking_round W dir ext i steps cur h d :
  0 <= i ->
  exists name h',
    String.length name = (2 * Z.to_nat (Z.max 8 (16 - i * 2)))%nat /\
    isHex name = true /\
    ((renameShrinking W dir ext cur (i :: steps) h d
      = Out (result (renameShrinking W dir ext (join W dir (name ++ ext)) steps h'
                       (d + Z.to_N (Z.max 8 (16 - i * 2)))%N))
            ([RandomBytes (Z.max 8 (16 - i * 2));
              Sys (RenameSync cur (join W dir (name ++ ext))) None] ++
             emitted (renameShrinking W dir ext (join W dir (name ++ ext)) steps h'
                        (d + Z.to_N (Z.max 8 (16 - i * 2)))%N))
            (drawn (renameShrinking W dir ext (join W dir (name ++ ext)) steps h'
                      (d + Z.to_N (Z.max 8 (16 - i * 2)))%N))) \/
     (exists code,
        renameShrinking W dir ext cur (i :: steps) h d
        = Out (inl cur)
              [RandomBytes (Z.max 8 (16 - i * 2));
               Sys (RenameSync cur (join W dir (name ++ ext))) (Some code)]
              (d + Z.to_N (Z.max 8 (16 - i * 2)))%N)).
Proof.
  intros Hi.
  destruct (@randomHex_name W (Z.max 8 (16 - i * 2)) h d (shrinking_size Hi))
    as (name & Hn & Ln & Xn).
  exists name. eexists. split; [exact Ln|]. split; [exact Xn|].
  set (n := Z.max 8 (16 - i * 2)) in *.
  set (new := join W dir (name ++ ext)).
  cbn [renameShrinking]. fold n.
  destruct (sys_run W (RenameSync cur new) (h ++ [RandomBytes n]) (d + Z.to_N n)%N)
    as [R|[code R]].
  - left. etransitivity.
    { eapply run_bind; [exact Hn|].
      eapply run_bind.
      + apply run_catch_ok. eapply run_bind; [exact R | reflexivity].
      + apply outcome_eta. }
    reflexivity.
  - right. exists code. etransitivity.
    { eapply run_bind; [exact Hn|].
      eapply run_bind.
      + eapply run_catch_fail; [|reflexivity].
        eapply run_bind_fail. exact R.
      + reflexivity. }
    reflexivity.
Qed.

Lemma renameShrinking_follows W dir ext steps cur h d :
  Forall (fun i => 0 <= i <= 4) steps ->
  follows cur (renamesOf (emitted (renameShrinking W dir ext cur steps h d))) = true /\
  Forall (fun r => exists name,
                     snd (fst r) = join W dir (name ++ ext) /\
                     isHex name = true /\
                     (16 <= String.length name <= 32)%nat)
         (renamesOf (emitted (renameShrinking W dir ext cur steps h d))).
Proof.
  intros Hs. revert cur h d. induction Hs as [|i steps Hi _ IH]; intros cur h d.
  - cbn. split; constructor.
  - destruct (@renameShrinking_round W dir ext i steps cur h d (proj1 Hi))
      as (name & h' & Ln & Xn & [E|[code E]]); rewrite E; clear E;
      cbn [result emitted drawn].
    + destruct (IH (join W dir (name ++ ext)) h' (d + Z.to_N (Z.max 8 (16 - i * 2)))%N)
        as [F S].
      rewrite renamesOf_app. cbn [renamesOf flat_map app follows].
      rewrite String.eqb_refl, F. split; [reflexivity|].
      constructor; [|exact S]. exists name. cbn [fst snd].
      split; [reflexivity|]. split; [exact Xn | lia].
    + cbn [renamesOf flat_map app follows]. rewrite String.eqb_refl.
      split; [reflexivity|].
      constructor; [|constructor]. exists name. cbn [fst snd].
      split; [reflexivity|]. split; [exact Xn | lia].
Qed.

(** X18.  The renames of [secureDeleteFileName] are attempted one
    after the other, each from the name the file has after the renames
    before it, and no rename is attempted after one that failed.  Every
    new name lies in the directory of the file, keeps the extension of
    the file and consists, before the extension, of 16 to 32
    hexadecimal digits. *)
Theorem secureDeleteFileName_renames W p h d :
  follows p (renamesOf (emitted (secureDeleteFileName W p h d))) = true /\
  Forall (fun r => exists name,
                     snd (fst r) = join W (dirname W p) (name ++ extname W p) /\
                     isHex name = true /\
                     (16 <= String.length name <= 32)%nat)
         (renamesOf (emitted (secureDeleteFileName W p h d))).
Proof.
  assert (Hs : Forall (fun i => 0 <= i <= 4) (indices 0 5))
    by (repeat constructor; lia).
  pose proof (renameShrinking_follows W (dirname W p) (extname W p) p h d Hs) as F.
  destruct (@renameShrinking_spec W (dirname W p) (extname W p) (indices 0 5) p h d
              (indices_nonneg 5 (Z.le_refl 0)))
    as (k & cur & _ & Hr & _).
  unfold secureDeleteFileName.
  set (loop := renameShrinking W (dirname W p) (extname W p) p (indices 0 5)) in *.
  assert (L : loop h d = Out (inl cur) (emitted (loop h d)) (drawn (loop h d)))
    by (apply outcome_with, Hr).
  assert (E : exists r d',
             try_catch
               (currentPath <- loop;;
                try_catch (sys W (UnlinkSync currentPath)) (fun _ => ret tt))
               (fun _ => ret tt) h d
             = Out (inl tt) (emitted (loop h d) ++ [Sys (UnlinkSync cur) r]) d').
  { destruct (sys_run W (UnlinkSync cur) (h ++ emitted (loop h d)) (drawn (loop h d)))
      as [R|[code R]].
    - exists None. eexists. apply run_catch_ok. eapply run_bind; [exact L|].
      apply run_catch_ok. exact R.
    - exists (Some code). eexists. apply run_catch_ok. eapply run_bind; [exact L|].
      eapply run_catch_fail with (es2 := []) (es1 := [Sys (UnlinkSync cur) (Some code)]);
        [exact R | reflexivity]. }
  destruct E as (r & d' & E). rewrite E. cbn [emitted].
  rewrite renamesOf_app. cbn [renamesOf flat_map]. rewrite app_nil_r. exact F.
Qed.

End UtilsFacts.

(* ================================================================== *)
(** ** The shred of a directory, counted *)
(* ================================================================== *)

Module DirectoryFacts.
Import Utils FileShredder Passes StaticPhases FileClaims WipeClaims DirNumbers Directory
       PassTrace TraceClasses PassFacts StaticFacts.

Local Open Scope string_scope.
Local Open Scope list_scope.
Local Open Scope Z_scope.

(** From a sequence that completed to its two parts. *)
Lemma bind_out_inv {A B} (m : M A) (k : A -> M B) h d b es d' :
  bind m k h d = Out (inl b) es d' ->
  exists a es1 d1 es2,
    m h d = Out (inl a) es1 d1 /\
    k a (h ++ es1) d1 = Out (inl b) es2 d' /\
    es = es1 ++ es2.
Proof.
  unfold bind. destruct (m h d) as [[a|e] es1 d1]; cbn; [|discriminate].
  destruct (k a (h ++ es1) d1) as [r es2 d2] eqn:K. cbn.
  intros H. injection H as -> <- <-. exists a, es1, d1, es2.
  split; [reflexivity | split; [exact K | reflexivity]].
Qed.

Tactic Notation "bind_inv" hyp(H) "as"
    ident(a) ident(es1) ident(d1) ident(es2) ident(Hm) ident(Hk) :=
  let E := fresh "E" in
  destruct (bind_out_inv _ _ _ _ H) as (a & es1 & d1 & es2 & Hm & Hk & E);
  rewrite E in *; clear H E.

Lemma fileCount_dir name children : fileCount (Dir name children) = fileCounts children.
Proof.
  change (fileCount (Dir name children))
    with ((fix sum (l : list node) : Z :=
             match l with [] => 0 | c :: r => fileCount c + sum r end) children).
  induction children as [|c cs IH]; [reflexivity|].
  cbn [fileCounts]. now rewrite IH.
Qed.

Lemma dirCount_dir name children : dirCount (Dir name children) = 1 + dirCounts children.
Proof.
  change (dirCount (Dir name children))
    with (1 + (fix sum (l : list node) : Z :=
                 match l with [] => 0 | c :: r => dirCount c + sum r end) children).
  apply (f_equal (Z.add 1)).
  induction children as [|c cs IH]; [reflexivity|].
  cbn [dirCounts]. now rewrite IH.
Qed.

(** The numbers of passes started, of unlinks and of removals of
    directories attempted in a trace. *)
Lemma tally_app a b :
  List.length (passesOf (a ++ b))
  = (List.length (passesOf a) + List.length (passesOf b))%nat /\
  List.length (unlinksOf (a ++ b))
  = (List.length (unlinksOf a) + List.length (unlinksOf b))%nat /\
  List.length (rmdirsOf (a ++ b))
  = (List.length (rmdirsOf a) + List.length (rmdirsOf b))%nat.
Proof.
  rewrite passesOf_app, unlinksOf_app, rmdirsOf_app, !length_app. auto.
Qed.

Section WithWorld.

Variable W : World.

Lemma name_event_quiet es :
  Forall name_event es -> passesOf es = [] /\ rmdirsOf es = [].
Proof.
  induction 1 as [|ev es Hev _ [IH1 IH2]]; [split; reflexivity|].
  destruct ev as [c r| | | | |]; try contradiction; try (split; assumption).
  destruct c; try contradiction; split; assumption.
Qed.

Lemma wipe_event_quiet es :
  Forall wipe_event es -> unlinksOf es = [] /\ rmdirsOf es = [].
Proof.
  induction 1 as [|ev es Hev _ [IH1 IH2]]; [split; reflexivity|].
  destruct ev as [c r| | | | |]; try contradiction; try (split; assumption).
  destruct c; try contradiction; split; assumption.
Qed.

(** A file shredded through [shredSingleFile] has had three passes and
    one attempt to unlink it. *)
Lemma shredSingleFile_tally p cb h d es d' :
  (forall v, sat only_progress never (call_if cb v)) ->
  shredSingleFile W p cb h d = Out (inl tt) es d' ->
  List.length (passesOf es) = 3%nat /\
  List.length (unlinksOf es) = 1%nat /\
  List.length (rmdirsOf es) = 0%nat.
Proof.
  intros Hcb H. unfold shredSingleFile in H.
  rewrite existsSync_bind in H. destruct (negb (exists_ W h p)); [discriminate|].
  bind_inv H as u es1 d1 es2 Hw Hs. destruct u.
  assert (Fw : Forall wipe_event es1).
  { eapply events_of; [|exact Hw].
    unfold performDoDWipe, performDoDWipeInternal.
    apply (@Shape.wipeLoop_sat W wipe_event (fun _ => True)); try (intros; exact I).
    - intros [c r| | | | |]; try contradiction; try (intros _; exact I). intros Hc. exact Hc.
    - intros v. eapply sat_weaken; [apply Hcb | | intros e []].
      intros [c r| | | | |]; try contradiction. intros _. exact I. }
  destruct (wipe_event_quiet Fw) as [U1 R1].
  assert (P1 : List.length (passesOf es1) = 3%nat).
  { unfold performDoDWipe, performDoDWipeInternal in Hw.
    cbn [List.length Z.of_nat Pos.of_succ_nat Pos.succ] in Hw.
    destruct (wipeLoop_passes W cb p 3 0 [Fixed 0; Fixed 255; Random] h d) as [k [_ Pk]].
    - intros v. eapply sat_weaken; [apply Hcb | | intros e []].
      intros [c r| | | | |]; try contradiction. intros _. exact I.
    - rewrite Hw in Pk. cbn [result emitted] in Pk. rewrite (Pk eq_refl). reflexivity. }
  destruct (secureDeleteFileName_spec W p (h ++ es1) d1) as (k & r & _ & _ & _ & _ & Hu & _).
  destruct (name_event_quiet (proj1 (secureDeleteFileName_names W p (h ++ es1) d1)))
    as [P2 R2].
  rewrite Hs in Hu, P2, R2. cbn [emitted] in Hu, P2, R2.
  destruct (tally_app es1 es2) as (-> & -> & ->).
  rewrite P1, U1, R1, P2, R2, Hu. repeat split.
Qed.

Lemma read_event_quiet es :
  Forall read_event es -> passesOf es = [] /\ unlinksOf es = [] /\ rmdirsOf es = [].
Proof.
  induction 1 as [|ev es Hev _ (IH1 & IH2 & IH3)]; [repeat split|].
  destruct ev as [c r| | | | |]; try contradiction.
  destruct c; try contradiction; repeat split; assumption.
Qed.

Lemma closure_reports total b processed v :
  sat only_progress never
    (call_if (Some (fun fileProgress =>
                      match callback b with
                      | Some callback => callback (fileShare processed fileProgress total)
                      | None => ret tt
                      end)) v).
Proof.
  destruct b; cbn; [apply sat_emit; exact I | apply sat_ret].
Qed.

Lemma callback_tally b v h d u es d' :
  call_if (callback b) v h d = Out (inl u) es d' ->
  passesOf es = [] /\ unlinksOf es = [] /\ rmdirsOf es = [].
Proof. destruct b; cbn; intros H; injection H as _ <- _; repeat split. Qed.

(** What the traversal has done when it completes. *)
Lemma traversal_tally total b :
  (forall n path pr h d p' es d',
     processItems W total (callback b) path n pr h d = Out (inl p') es d' ->
     Z.of_nat (List.length (passesOf es)) = 3 * fileCount n /\
     Z.of_nat (List.length (unlinksOf es)) = fileCount n /\
     Z.of_nat (List.length (rmdirsOf es)) = dirCount n) /\
  (forall l path pr h d p' es d',
     processAll W total (callback b) path l pr h d = Out (inl p') es d' ->
     Z.of_nat (List.length (passesOf es)) = 3 * fileCounts l /\
     Z.of_nat (List.length (unlinksOf es)) = fileCounts l /\
     Z.of_nat (List.length (rmdirsOf es)) = dirCounts l).
Proof.
  apply node_list_ind.
  - intros name path pr h d p' es d' H. rewrite processItems_file in H.
    bind_inv H as u0 es0 d0 rest0 Hs H1.
    destruct (sys_inl _ _ _ _ Hs) as (_ & -> & ->).
    bind_inv H1 as done es1 d1 rest1 Hf H2.
    bind_inv Hf as u1 es2 d2 rest2 Hsh H3.
    destruct u1. injection H3 as _ <- _.
    destruct (shredSingleFile_tally (closure_reports total b pr) Hsh) as (P & U & Rm).
    bind_inv H2 as u3 es3 d3 rest3 Hc H4.
    injection H4 as _ <- _.
    destruct (callback_tally _ _ _ _ Hc) as (C1 & C2 & C3).
    rewrite !app_nil_r.
    destruct (tally_app [Sys (StatSync path) None] (es2 ++ es3)) as (-> & -> & ->).
    destruct (tally_app es2 es3) as (-> & -> & ->).
    rewrite P, U, Rm, C1, C2, C3. cbn. repeat split.
  - intros name children IH path pr h d p' es d' H. rewrite processItems_dir in H.
    rewrite fileCount_dir, dirCount_dir.
    bind_inv H as u0 es0 d0 rest0 Hs H1.
    destruct (sys_inl _ _ _ _ Hs) as (_ & -> & ->).
    bind_inv H1 as done es1 d1 rest1 Hd H2.
    bind_inv Hd as u1 es2 d2 rest2 Hr H3.
    destruct (sys_inl _ _ _ _ Hr) as (_ & -> & ->).
    bind_inv H3 as done' es3 d3 rest3 Hp H4.
    destruct (IH _ _ _ _ _ _ _ Hp) as (P & U & Rm).
    bind_inv H4 as u2 es4 d4 rest4 Hrm H5.
    injection H5 as _ <- _.
    assert (Erm : exists r, es4 = [Sys (RmdirSync path) r]).
    { unfold try_catch in Hrm.
      match type of Hrm with
      | context [sys W (RmdirSync path) ?hh ?dd] =>
          destruct (sys_run W (RmdirSync path) hh dd) as [E|[code E]]; rewrite E in Hrm
      end; cbn in Hrm; injection Hrm as _ <- _; eexists; reflexivity. }
    destruct Erm as [r ->].
    bind_inv H2 as u3 es5 d5 rest5 Hc H6.
    injection H6 as _ <- _.
    destruct (callback_tally _ _ _ _ Hc) as (C1 & C2 & C3).
    rewrite !app_nil_r.
    repeat match goal with
           | |- context [passesOf (?a ++ ?b)] =>
               destruct (tally_app a b) as (-> & -> & ->)
           end.
    rewrite C1, C2, C3. cbn [passesOf unlinksOf rmdirsOf flat_map List.length app].
    lia.
  - intros path pr h d p' es d' H. cbn in H. injection H as _ <- _. repeat split.
  - intros n l IHn IHl path pr h d p' es d' H. cbn [processAll] in H.
    bind_inv H as p1 es1 d1 rest1 Hn H1.
    destruct (IHn _ _ _ _ _ _ _ Hn) as (P1 & U1 & R1').
    destruct (IHl _ _ _ _ _ _ _ H1) as (P2 & U2 & R2').
    destruct (tally_app es1 rest1) as (-> & -> & ->).
    cbn [fileCounts dirCounts]. lia.
Qed.

(** X16.  A directory shred that completes has started three passes
    for every file of the tree, has attempted one unlink for every
    file, and one [rmdirSync] for every directory of the tree and for
    the root. *)
Theorem directory_success_tally dirPath items b h d :
  result (shredDirectory W dirPath items (callback b) h d) = inl tt ->
  Z.of_nat (List.length (passesOf (emitted (shredDirectory W dirPath items
                                              (callback b) h d))))
  = 3 * fileCounts items /\
  Z.of_nat (List.length (unlinksOf (emitted (shredDirectory W dirPath items
                                               (callback b) h d))))
  = fileCounts items /\
  Z.of_nat (List.length (rmdirsOf (emitted (shredDirectory W dirPath items
                                              (callback b) h d))))
  = dirCounts items + 1.
Proof.
  intros H.
  destruct (shredDirectory_run W dirPath items (callback b) h d)
    as [pre [Hpre [(e & d' & Hs & _) | (h' & d' & [(e & Hr & Hs) | (p & r & Hr & Hs)])]]];
    rewrite Hs in H |- *; cbn [result emitted] in H |- *; try discriminate.
  destruct (read_event_quiet Hpre) as (P0 & U0 & R0).
  destruct (proj2 (traversal_tally (weights items) b) _ _ _ _ _ _ _ _ (outcome_with _ Hr))
    as (P & U & Rm).
  repeat match goal with
         | |- context [passesOf (?a ++ ?b)] =>
             destruct (tally_app a b) as (-> & -> & ->)
         end.
  rewrite P0, U0, R0. cbn [passesOf unlinksOf rmdirsOf flat_map List.length app].
  lia.
Qed.

(** X17.  The static [shredDirectory] never throws: it returns [true]
    when the instance method completes, and otherwise logs the failure
    with [console.error] and returns [false].  The failure logged is
    never that of removing a directory.  A directory that does not
    exist is refused before any [fs] call. *)
Theorem static_shredDirectory_outcome dirPath items b h d :
  (result (shredDirectory W dirPath items (callback b) h d) = inl tt /\
   static_shredDirectory W dirPath items (callback b) h d
   = Out (inl true) (emitted (shredDirectory W dirPath items (callback b) h d))
         (drawn (shredDirectory W dirPath items (callback b) h d))) \/
  (exists cause,
     not_rmdir_failure cause /\
     result (shredDirectory W dirPath items (callback b) h d)
     = inr (DirectoryFailed cause) /\
     static_shredDirectory W dirPath items (callback b) h d
     = Out (inl false)
           (emitted (shredDirectory W dirPath items (callback b) h d)
            ++ [ConsoleError (DirectoryFailed cause)])
           (drawn (shredDirectory W dirPath items (callback b) h d)) /\
     (exists_ W h dirPath = false ->
      cause = DirNotFound dirPath /\
      emitted (shredDirectory W dirPath items (callback b) h d) = [])).
Proof.
  unfold static_shredDirectory.
  destruct (shredDirectory_run W dirPath items (callback b) h d)
    as [pre [Hpre [(e & d' & Hs & He) | (h' & d' & [(e & Hr & Hs) | (p & r & Hr & Hs)])]]].
  - right. exists e. split; [exact He|]. rewrite Hs. cbn [result emitted drawn].
    split; [reflexivity|]. split.
    + apply catch_logs. eapply run_bind_fail. exact Hs.
    + intros Ex. unfold shredDirectory in Hs.
      assert (E0 : try_catch
                     (found <- existsSync W dirPath ;;
                      if negb found then throw (DirNotFound dirPath)
                      else
                        sys W (ReaddirSync dirPath) ;;;
                        totalItems <- countAll W dirPath items 0 ;;
                        processAll W totalItems (callback b) dirPath items 0 ;;;
                        try_catch (sys W (RmdirSync dirPath)) (fun _ => ret tt))
                     (fun error => throw (DirectoryFailed error)) h d
                   = Out (inr (DirectoryFailed (DirNotFound dirPath))) [] d).
      { eapply run_catch_fail with (es1 := []) (es2 := []); [|reflexivity].
        rewrite existsSync_bind, Ex. reflexivity. }
      rewrite E0 in Hs. injection Hs as <- <- _. split; reflexivity.
  - right. exists e.
    split; [exact (proj2 (proj2 (process_sat W (weights items) b) items dirPath 0 h' d') e Hr)|].
    rewrite Hs. cbn [result emitted drawn].
    split; [reflexivity|]. split.
    + apply catch_logs. eapply run_bind_fail. exact Hs.
    + intros Ex. unfold shredDirectory in Hs.
      assert (E0 : try_catch
                     (found <- existsSync W dirPath ;;
                      if negb found then throw (DirNotFound dirPath)
                      else
                        sys W (ReaddirSync dirPath) ;;;
                        totalItems <- countAll W dirPath items 0 ;;
                        processAll W totalItems (callback b) dirPath items 0 ;;;
                        try_catch (sys W (RmdirSync dirPath)) (fun _ => ret tt))
                     (fun error => throw (DirectoryFailed error)) h d
                   = Out (inr (DirectoryFailed (DirNotFound dirPath))) [] d).
      { eapply run_catch_fail with (es1 := []) (es2 := []); [|reflexivity].
        rewrite existsSync_bind, Ex. reflexivity. }
      rewrite E0 in Hs. injection Hs as <- <- _. split; reflexivity.
  - left. rewrite Hs. cbn [result emitted drawn]. split; [reflexivity|].
    eapply run_catch_ok. eapply run_bind_nil; [exact Hs | reflexivity].
Qed.

End WithWorld.

Lemma X16_witness :
  Z.of_nat (List.length
              (passesOf (emitted (shredDirectory (Sample.calm 10) "/data"
                                    [File "a"; Dir "sub" [File "b"]; File "c"]
                                    (callback false) [] 0%N))))
  = 9.
Proof.
  apply (directory_success_tally (Sample.calm 10) "/data"
           [File "a"; Dir "sub" [File "b"]; File "c"] false [] 0%N).
  vm_compute. reflexivity.
Defined.

Lemma X17_witness :
  static_shredDirectory Hosts.vacant "/data" [File "a"] (callback false) [] 0%N
  = Out (inl false) [ConsoleError (DirectoryFailed (DirNotFound "/data"))] 0%N.
Proof.
  destruct (static_shredDirectory_outcome Hosts.vacant "/data" [File "a"] false [] 0%N)
    as [[R _] | (cause & _ & _ & S & H)].
  - vm_compute in R. discriminate R.
  - destruct (H eq_refl) as [-> E]. rewrite S, E. reflexivity.
Defined.

End DirectoryFacts.

(* ================================================================== *)
(** ** The rest of [Utils] and the instance entry point *)
(* ================================================================== *)

Module RestFacts.
Import Utils FileShredder Passes StaticPhases FileClaims DirNumbers Directory
       PassTrace TraceClasses PassFacts StaticFacts UtilsFacts DirectoryFacts
       UtilsRest Entry.

Local Open Scope string_scope.
Local Open Scope list_scope.
Local Open Scope Z_scope.

(** *** Comparison of buffers *)

Lemma timingSafeEqual_eq a b : timingSafeEqual a b = true <-> a = b.
Proof.
  revert b. induction a as [|x a IH]; intros [|y b]; cbn; split; intros H;
    try reflexivity; try discriminate.
  - apply andb_prop in H. destruct H as [Hx Ha].
    apply Byte.byte_dec_bl in Hx. apply IH in Ha. congruence.
  - injection H as -> ->. rewrite Byte.byte_dec_lb by reflexivity.
    cbn. apply IH. reflexivity.
Qed.

Lemma sameAt_spec a b positions :
  sameAt a b positions = true <->
  (forall i, In i positions -> nth i a x00 = nth i b x00).
Proof.
  induction positions as [|i rest IH]; cbn [sameAt].
  - split; [intros _ i [] | reflexivity].
  - destruct (Byte.eqb (nth i a x00) (nth i b x00)) eqn:E; cbn [negb].
    + apply Byte.byte_dec_bl in E. rewrite IH. split.
      * intros H j [<-|Hj]; [exact E | apply H, Hj].
      * intros H j Hj. apply H. right. exact Hj.
    + split; [discriminate|]. intros H. apply Byte.eqb_false in E.
      exfalso. apply E, H. left. reflexivity.
Qed.

(** X19.  [safeBufferCompare] returns [true] exactly when the two
    buffers hold the same bytes, whether [crypto.timingSafeEqual] is
    available or the byte-by-byte loop of the [catch] branch decides. *)
Theorem safeBufferCompare_equality supported a b :
  safeBufferCompare supported a b = true <-> a = b.
Proof.
  unfold safeBufferCompare.
  destruct (List.length a =? List.length b)%nat eqn:L; cbn [negb].
  - apply Nat.eqb_eq in L. destruct supported; [apply timingSafeEqual_eq|].
    rewrite sameAt_spec. split.
    + intros H. apply (nth_ext a b x00 x00 L).
      intros n Hn. apply H, in_seq. lia.
    + intros -> i _. reflexivity.
  - apply Nat.eqb_neq in L. split; [discriminate|]. intros ->. contradiction L. reflexivity.
Qed.

(** *** Retries *)

Lemma waitsOf_app a b : waitsOf (a ++ b) = (waitsOf a + waitsOf b)%nat.
Proof. unfold waitsOf. now rewrite flat_map_app, length_app. Qed.

Lemma waitsOf_none es : Forall not_yield es -> waitsOf es = 0%nat.
Proof.
  induction 1 as [|ev es Hev _ IH]; [reflexivity|].
  destruct ev; try contradiction; exact IH.
Qed.

Lemma retryLoop_attempts {A} (fn : M A) (X : error -> Prop) delayMs remaining h d :
  sat not_yield X fn ->
  (waitsOf (emitted (retryLoop fn delayMs remaining h d)) <= remaining)%nat /\
  (forall e, result (retryLoop fn delayMs remaining h d) = inr e ->
             waitsOf (emitted (retryLoop fn delayMs remaining h d)) = remaining /\ X e) /\
  (forall a, result (fn h d) = inl a -> retryLoop fn delayMs remaining h d = fn h d).
Proof.
  intros S. revert h d. induction remaining as [|k IH]; intros h d;
    cbn [retryLoop]; destruct (fn h d) as [[a|e] es1 d1] eqn:F.
  - erewrite run_catch_ok; [|exact F]. cbn [result emitted].
    pose proof (waitsOf_none (events_of S F)) as W0. rewrite W0.
    split; [lia|]. split; [discriminate | reflexivity].
  - erewrite run_catch_fail with (es2 := []); [|exact F|reflexivity].
    cbn [result emitted]. rewrite app_nil_r.
    pose proof (waitsOf_none (events_of S F)) as W0. rewrite W0.
    split; [lia|]. split; [|discriminate].
    intros e' [= <-]. split; [reflexivity|].
    apply (proj2 (S h d) e). rewrite F. reflexivity.
  - erewrite run_catch_ok; [|exact F]. cbn [result emitted].
    pose proof (waitsOf_none (events_of S F)) as W0. rewrite W0.
    split; [lia|]. split; [discriminate | reflexivity].
  - destruct (IH ((h ++ es1) ++ [Yield]) d1) as (B & T & _).
    set (rec := retryLoop fn delayMs k ((h ++ es1) ++ [Yield]) d1) in *.
    erewrite run_catch_fail
      with (es2 := [Yield] ++ emitted rec) (r := result rec) (d2 := drawn rec);
      [|exact F|].
    2:{ unfold delay. eapply run_bind; [reflexivity | apply outcome_eta]. }
    cbn [result emitted].
    rewrite !waitsOf_app, (waitsOf_none (events_of S F)).
    change (waitsOf [Yield]) with 1%nat.
    split; [lia|]. split; [|discriminate].
    intros e' R. destruct (T e' R) as [Tk Xe]. split; [lia | exact Xe].
Qed.

(** X23.  [retry(fn, maxRetries, delayMs)] returns what the first
    successful attempt of [fn] returns, without any wait when the first
    attempt succeeds.  It waits once between two attempts and not after
    the last one, so at most [maxRetries] times; when it throws, it has
    waited [maxRetries] times, that is, [fn] has failed
    [maxRetries + 1] times, and what it throws is an error of [fn]. *)
Theorem retry_attempts {A} (fn : M A) (X : error -> Prop) maxRetries delayMs h d :
  sat not_yield X fn ->
  (waitsOf (emitted (retry fn maxRetries delayMs h d)) <= maxRetries)%nat /\
  (forall e, result (retry fn maxRetries delayMs h d) = inr e ->
             waitsOf (emitted (retry fn maxRetries delayMs h d)) = maxRetries /\ X e) /\
  (forall a, result (fn h d) = inl a -> retry fn maxRetries delayMs h d = fn h d).
Proof. intros S. apply (retryLoop_attempts delayMs maxRetries h d S). Qed.

Lemma X23_witness :
  waitsOf (emitted (retry (sys (Sample.sticky 10) (UnlinkSync "/data/a.txt")) 3 1000
                      [] 0%N)) = 3%nat.
Proof.
  apply (proj1 (proj2 (@retry_attempts unit (sys (Sample.sticky 10) (UnlinkSync "/data/a.txt"))
                         (fun _ => True) 3 1000 [] 0%N
                         ltac:(apply sat_sys; intros; exact I)))
           (IOError (UnlinkSync "/data/a.txt") EPERM)).
  reflexivity.
Defined.

(** *** The files of a tree *)

Section WithWorld.

Variable W : World.

Lemma guarded_run c h d :
  guarded W c h d = Out (inl true) [Sys c None] d \/
  exists code,
    guarded W c h d
    = Out (inl false) [Sys c (Some code); ConsoleError (IOError c code)] d.
Proof.
  unfold guarded. destruct (sys_run W c h d) as [R|[code R]].
  - left. eapply run_catch_ok. eapply run_bind_nil; [exact R | reflexivity].
  - right. exists code.
    eapply run_catch_fail with (es1 := [Sys c (Some code)])
                               (es2 := [ConsoleError (IOError c code)]);
      [|reflexivity].
    eapply run_bind_fail. exact R.
Qed.

Lemma guarded_true c h d es d' :
  guarded W c h d = Out (inl true) es d' -> fails W h c = None.
Proof.
  unfold guarded, try_catch, bind, sys.
  destruct (fails W h c); cbn; [discriminate | reflexivity].
Qed.

Lemma bind_assoc {A B C} (m : M A) (k : A -> M B) (k' : B -> M C) h d :
  bind (bind m k) k' h d = bind m (fun a => bind (k a) k') h d.
Proof.
  unfold bind. destruct (m h d) as [[a|e] es1 d1]; cbn [result emitted drawn];
    [|reflexivity].
  destruct (k a (h ++ es1) d1) as [[b|e] es2 d2]; cbn [result emitted drawn];
    [|reflexivity].
  rewrite !app_assoc. reflexivity.
Qed.

Lemma collect_local itemPath subItems files h d :
  (fix collect (items : list node) (files : list path) {struct items} : M (list path) :=
     match items with
     | [] => ret files
     | item :: rest =>
         ok <- guarded W (StatSync (join W itemPath (nodeName item))) ;;
         if negb ok then ret files
         else
           pushed <- filesOf W (join W itemPath (nodeName item)) item files ;;
           match pushed with
           | None => ret files
           | Some files => collect rest files
           end
     end) subItems files h d
  = collect W itemPath subItems files h d.
Proof.
  revert files h d. induction subItems as [|item rest IH]; intros files h d.
  - reflexivity.
  - cbn [collect]. apply bind_ext. intros ok h1 d1.
    destruct (negb ok); [reflexivity|].
    apply bind_ext. intros pushed h2 d2. destruct pushed; [apply IH | reflexivity].
Qed.

(** In a directory, [filesOf] is the recursive call followed by the
    [push] of what it returned. *)
Lemma filesOf_dir itemPath name subItems files h d :
  filesOf W itemPath (Dir name subItems) files h d
  = (subFiles <- getAllFilesInDirectory W itemPath subItems ;;
     pushAll W files subFiles) h d.
Proof.
  unfold getAllFilesInDirectory. rewrite bind_assoc. cbn [filesOf].
  apply bind_ext. intros listed h1 d1.
  destruct (negb listed); [reflexivity|].
  apply bind_cong. apply collect_local.
Qed.

Lemma pushAll_run files subFiles h d :
  (overflows W h (N.of_nat (List.length subFiles)) = false /\
   pushAll W files subFiles h d = Out (inl (Some (files ++ subFiles))) [] d) \/
  (overflows W h (N.of_nat (List.length subFiles)) = true /\
   pushAll W files subFiles h d
   = Out (inl None) [ConsoleError (TooManyArguments (N.of_nat (List.length subFiles)))] d).
Proof.
  unfold pushAll. cbv zeta.
  destruct (overflows W h (N.of_nat (List.length subFiles)));
    [right | left]; split; reflexivity.
Qed.

Lemma loggedOf_app a b : loggedOf (a ++ b) = loggedOf a ++ loggedOf b.
Proof. apply flat_map_app. Qed.

Lemma pathsOf_dir itemPath name subItems :
  pathsOf W itemPath (Dir name subItems) = filesBelow W itemPath subItems.
Proof.
  change (pathsOf W itemPath (Dir name subItems))
    with ((fix below (items : list node) : list path :=
             match items with
             | [] => []
             | item :: rest =>
                 pathsOf W (join W itemPath (nodeName item)) item ++ below rest
             end) subItems).
  induction subItems as [|c cs IH]; [reflexivity|].
  cbn [filesBelow]. now rewrite IH.
Qed.

Lemma files_counted :
  (forall n itemPath, Z.of_nat (List.length (pathsOf W itemPath n)) = fileCount n) /\
  (forall l dirPath, Z.of_nat (List.length (filesBelow W dirPath l)) = fileCounts l).
Proof.
  apply node_list_ind.
  - intros name itemPath. reflexivity.
  - intros name children IH itemPath. rewrite pathsOf_dir, fileCount_dir. apply IH.
  - intros dirPath. reflexivity.
  - intros n l IHn IHl dirPath. cbn [filesBelow fileCounts].
    rewrite length_app, Nat2Z.inj_add, IHn, IHl. reflexivity.
Qed.

(** The listing of a directory, from the loop over its items. *)
Lemma getAll_from_loop dirPath items h d :
  (forall files h' d',
     exists fs es d'',
       collect W dirPath items files h' d' = Out (inl (files ++ fs)) es d'' /\
       incl fs (filesBelow W dirPath items) /\
       Forall survey_event es /\
       (loggedOf es = [] -> fs = filesBelow W dirPath items)) ->
  exists files es d',
    getAllFilesInDirectory W dirPath items h d = Out (inl files) es d' /\
    incl files (filesBelow W dirPath items) /\
    Forall survey_event es /\
    (loggedOf es = [] -> files = filesBelow W dirPath items) /\
    (forall code, fails W h (ReaddirSync dirPath) = Some code -> files = []).
Proof.
  intros Loop. unfold getAllFilesInDirectory.
  destruct (guarded_run (ReaddirSync dirPath) h d) as [G|[code G]].
  - destruct (Loop [] (h ++ [Sys (ReaddirSync dirPath) None]) d)
      as (fs & es & d' & C & Inc & F & Full).
    exists fs, ([Sys (ReaddirSync dirPath) None] ++ es), d'.
    split; [eapply run_bind; [exact G | exact C]|]. split; [exact Inc|].
    split; [constructor; [exact I | exact F]|]. split.
    + intros NF. apply Full. exact NF.
    + intros code Fl. rewrite (guarded_true _ _ _ G) in Fl. discriminate.
  - exists [], [Sys (ReaddirSync dirPath) (Some code);
                ConsoleError (IOError (ReaddirSync dirPath) code)], d.
    split; [eapply run_bind_nil; [exact G | reflexivity]|].
    split; [intros f []|].
    split; [repeat constructor|]. split; [cbn; discriminate | reflexivity].
Qed.

(** The listing never throws and only reads.  What an item adds to
    [files] are files of its tree, all of them when nothing was logged;
    when the [catch] was entered, something was logged. *)
Lemma listing_ok :
  (forall n itemPath files h d,
     exists pushed es d',
       filesOf W itemPath n files h d = Out (inl pushed) es d' /\
       Forall survey_event es /\
       (forall files', pushed = Some files' ->
          exists fs, files' = files ++ fs /\ incl fs (pathsOf W itemPath n)) /\
       (pushed = None -> loggedOf es <> []) /\
       (loggedOf es = [] -> pushed = Some (files ++ pathsOf W itemPath n))) /\
  (forall l dirPath files h d,
     exists fs es d',
       collect W dirPath l files h d = Out (inl (files ++ fs)) es d' /\
       incl fs (filesBelow W dirPath l) /\
       Forall survey_event es /\
       (loggedOf es = [] -> fs = filesBelow W dirPath l)).
Proof.
  apply node_list_ind.
  - intros name itemPath files h d. exists (Some (files ++ [itemPath])), [], d. cbn.
    split; [reflexivity|]. split; [constructor|].
    split; [intros files' [= <-]; exists [itemPath]; split;
              [reflexivity | apply incl_refl]|].
    split; [discriminate | reflexivity].
  - intros name children IH itemPath files h d.
    rewrite filesOf_dir, pathsOf_dir.
    destruct (getAll_from_loop itemPath children h d (IH itemPath))
      as (sub & es & d1 & G & Inc & F & Full & _).
    destruct (pushAll_run files sub (h ++ es) d1) as [[_ P]|[_ P]].
    + exists (Some (files ++ sub)), es, d1.
      split; [eapply run_bind_nil; [exact G | exact P]|].
      split; [exact F|].
      split; [intros files' [= <-]; exists sub; split; [reflexivity | exact Inc]|].
      split; [discriminate|].
      intros NL. rewrite (Full NL). reflexivity.
    + exists None,
        (es ++ [ConsoleError (TooManyArguments (N.of_nat (List.length sub)))]), d1.
      split; [eapply run_bind; [exact G | exact P]|].
      split; [apply Forall_app; split; [exact F | repeat constructor]|].
      split; [discriminate|].
      assert (L : loggedOf (es ++ [ConsoleError
                                     (TooManyArguments (N.of_nat (List.length sub)))])
                  <> []).
      { rewrite loggedOf_app. cbn [loggedOf flat_map]. intros NL.
        apply app_eq_nil in NL. destruct NL as [_ NL]. discriminate NL. }
      split; [intros _; exact L | intros NL; destruct (L NL)].
  - intros dirPath files h d. exists [], [], d. cbn. rewrite app_nil_r.
    repeat split; auto using incl_refl.
  - intros n l IHn IHl dirPath files h d. cbn [collect filesBelow].
    set (itemPath := join W dirPath (nodeName n)).
    destruct (guarded_run (StatSync itemPath) h d) as [G|[code G]].
    + destruct (IHn itemPath files (h ++ [Sys (StatSync itemPath) None]) d)
        as (pushed & es1 & d1 & C1 & F1 & Some1 & None1 & Full1).
      destruct pushed as [files'|].
      * destruct (Some1 files' eq_refl) as (fs1 & -> & I1).
        destruct (IHl dirPath (files ++ fs1)
                    ((h ++ [Sys (StatSync itemPath) None]) ++ es1) d1)
          as (fs2 & es2 & d2 & C2 & I2 & F2 & Full2).
        exists (fs1 ++ fs2), ([Sys (StatSync itemPath) None] ++ es1 ++ es2), d2.
        split.
        { eapply run_bind; [exact G|]. cbn [negb].
          eapply run_bind; [exact C1|]. rewrite app_assoc. exact C2. }
        split; [apply incl_app; [apply incl_appl, I1 | apply incl_appr, I2]|].
        split; [constructor; [exact I | apply Forall_app; split; assumption]|].
        intros NL. cbn [app loggedOf flat_map] in NL.
        fold (loggedOf (es1 ++ es2)) in NL. rewrite loggedOf_app in NL.
        apply app_eq_nil in NL. destruct NL as [N1 N2].
        pose proof (Full1 N1) as E1. injection E1 as E1.
        apply app_inv_head in E1. rewrite E1, (Full2 N2). reflexivity.
      * exists [], ([Sys (StatSync itemPath) None] ++ es1), d1.
        split.
        { rewrite app_nil_r. eapply run_bind; [exact G|]. cbn [negb].
          eapply run_bind_nil; [exact C1 | reflexivity]. }
        split; [intros f []|].
        split; [constructor; [exact I | exact F1]|].
        intros NL. cbn [app loggedOf flat_map] in NL. fold (loggedOf es1) in NL.
        destruct (None1 eq_refl NL).
    + exists [], [Sys (StatSync itemPath) (Some code);
                  ConsoleError (IOError (StatSync itemPath) code)], d.
      split; [rewrite app_nil_r; eapply run_bind_nil; [exact G | reflexivity]|].
      split; [intros f []|]. split; [repeat constructor|].
      cbn. discriminate.
Qed.

Lemma getAll_run dirPath items h d :
  exists files es d',
    getAllFilesInDirectory W dirPath items h d = Out (inl files) es d' /\
    incl files (filesBelow W dirPath items) /\
    Forall survey_event es /\
    (loggedOf es = [] -> files = filesBelow W dirPath items) /\
    (forall code, fails W h (ReaddirSync dirPath) = Some code -> files = []).
Proof. apply getAll_from_loop. intros files h' d'. apply (proj2 listing_ok). Qed.

(** X20.  [getAllFilesInDirectory] never throws and only reads the
    tree.  Every path it returns is that of a file of the tree; when
    nothing was logged it returns all of them, in the order of the
    listings, as many as the tree has files.  What enters the [catch]
    is logged and ends the listing of its directory with the files
    collected so far: a call that fails, or a sub-directory with more
    files than the engine pushes in one call.  When the directory
    itself cannot be listed the result is empty. *)
Theorem getAllFilesInDirectory_listing dirPath items h d :
  exists files,
    result (getAllFilesInDirectory W dirPath items h d) = inl files /\
    incl files (filesBelow W dirPath items) /\
    Forall survey_event (emitted (getAllFilesInDirectory W dirPath items h d)) /\
    (loggedOf (emitted (getAllFilesInDirectory W dirPath items h d)) = [] ->
     files = filesBelow W dirPath items /\
     Z.of_nat (List.length files) = fileCounts items) /\
    (forall code, fails W h (ReaddirSync dirPath) = Some code -> files = []).
Proof.
  destruct (getAll_run dirPath items h d) as (files & es & d' & E & Inc & F & Full & Fl).
  exists files. rewrite E. cbn [result emitted].
  split; [reflexivity|]. split; [exact Inc|]. split; [exact F|]. split; [|exact Fl].
  intros NF. rewrite (Full NF). split; [reflexivity | apply files_counted].
Qed.

(** *** The size of a target *)

Lemma sizesOf_nonneg files : 0 <= sizesOf W files.
Proof. unfold sizesOf. induction files as [|f files IH]; cbn [fold_right]; lia. Qed.

Lemma sumSizes_run files total h d :
  (exists es d',
     sumSizes W files total h d = Out (inl (total + sizesOf W files)) es d' /\
     Forall survey_event es /\ failuresOf es = []) \/
  (exists c code es d',
     sumSizes W files total h d = Out (inr (IOError c code)) es d' /\
     Forall survey_event es /\ failuresOf es <> []).
Proof.
  revert total h d. induction files as [|f files IH]; intros total h d.
  - left. exists [], d. cbn. rewrite Z.add_0_r. repeat split. constructor.
  - cbn [sumSizes sizesOf fold_right]. fold (sizesOf W files).
    destruct (sys_run W (StatSync f) h d) as [R|[code R]].
    + destruct (IH (total + Z.of_N (size_of W f)) (h ++ [Sys (StatSync f) None]) d)
        as [(es & d' & E & F & NF) | (c & code & es & d' & E & F & NF)].
      * left. exists ([Sys (StatSync f) None] ++ es), d'.
        split; [|split].
        -- rewrite Z.add_assoc. eapply run_bind; [exact R | exact E].
        -- constructor; [exact I | exact F].
        -- cbn. exact NF.
      * right. exists c, code, ([Sys (StatSync f) None] ++ es), d'.
        split; [|split].
        -- eapply run_bind; [exact R | exact E].
        -- constructor; [exact I | exact F].
        -- cbn. exact NF.
    + right. exists (StatSync f), code, [Sys (StatSync f) (Some code)], d.
      split; [|split].
      * eapply run_bind_fail. exact R.
      * repeat constructor.
      * cbn. discriminate.
Qed.

Lemma calc_run filePath target h d :
  exists total es d',
    calculateTotalSize W filePath target h d = Out (inl total) es d' /\
    0 <= total /\
    Forall survey_event es /\
    (loggedOf es = [] ->
     total = match target with
             | File _ => Z.of_N (size_of W filePath)
             | Dir _ items => sizesOf W (filesBelow W filePath items)
             end) /\
    (forall code, fails W h (StatSync filePath) = Some code -> total = 0).
Proof.
  unfold calculateTotalSize.
  destruct (sys_run W (StatSync filePath) h d) as [R|[code R]].
  2:{ exists 0, ([Sys (StatSync filePath) (Some code)]
                 ++ [ConsoleError (IOError (StatSync filePath) code)]), d.
      split; [eapply run_catch_fail; [eapply run_bind_fail; exact R | reflexivity]|].
      split; [lia|]. split; [repeat constructor|].
      split; [cbn; discriminate | reflexivity]. }
  assert (NoFail : forall code, fails W h (StatSync filePath) = Some code -> False).
  { intros code Fl. rewrite (sys_fail _ _ _ _ Fl) in R. discriminate. }
  destruct target as [name|name items].
  - exists (Z.of_N (size_of W filePath)), [Sys (StatSync filePath) None], d.
    split; [eapply run_catch_ok; eapply run_bind_nil; [exact R | reflexivity]|].
    split; [lia|]. split; [repeat constructor|].
    split; [reflexivity|]. intros code Fl. destruct (NoFail code Fl).
  - destruct (getAll_run filePath items (h ++ [Sys (StatSync filePath) None]) d)
      as (files & es & d1 & E & Inc & F & Full & _).
    destruct (sumSizes_run files 0 ((h ++ [Sys (StatSync filePath) None]) ++ es) d1)
      as [(es2 & d2 & E2 & F2 & NF2) | (c & code & es2 & d2 & E2 & F2 & NF2)].
    + exists (sizesOf W files), ([Sys (StatSync filePath) None] ++ es ++ es2), d2.
      split.
      { eapply run_catch_ok. eapply run_bind; [exact R|].
        eapply run_bind; [exact E | exact E2]. }
      split; [apply sizesOf_nonneg|].
      split; [constructor; [exact I | apply Forall_app; split; assumption]|].
      split; [|intros code Fl; destruct (NoFail code Fl)].
      intros NL. cbn [app loggedOf flat_map] in NL. fold (loggedOf (es ++ es2)) in NL.
      rewrite loggedOf_app in NL. apply app_eq_nil in NL. destruct NL as [N1 _].
      rewrite (Full N1). reflexivity.
    + exists 0, (([Sys (StatSync filePath) None] ++ es ++ es2)
                 ++ [ConsoleError (IOError c code)]), d2.
      split.
      { eapply run_catch_fail; [|reflexivity]. eapply run_bind; [exact R|].
        eapply run_bind; [exact E | exact E2]. }
      split; [lia|].
      split.
      { rewrite <- !app_assoc. constructor; [exact I|].
        repeat (apply Forall_app; split); try assumption. repeat constructor. }
      split; [|intros code' Fl; destruct (NoFail code' Fl)].
      intros NL. exfalso. rewrite loggedOf_app in NL.
      apply app_eq_nil in NL. destruct NL as [_ NL]. discriminate NL.
Qed.

(** X21.  [calculateTotalSize] never throws, only reads, and returns a
    size that is not negative.  When nothing was logged it is the size
    of the file, or the sum of the sizes of all the files of the tree
    below a directory; what enters a [catch] on the way (a call that
    fails, a sub-directory with more files than the engine pushes in
    one call) is logged.  When the first [statSync] fails the size
    returned is 0. *)
Theorem calculateTotalSize_outcome filePath target h d :
  exists total,
    result (calculateTotalSize W filePath target h d) = inl total /\
    0 <= total /\
    Forall survey_event (emitted (calculateTotalSize W filePath target h d)) /\
    (loggedOf (emitted (calculateTotalSize W filePath target h d)) = [] ->
     total = match target with
             | File _ => Z.of_N (size_of W filePath)
             | Dir _ items => sizesOf W (filesBelow W filePath items)
             end) /\
    (forall code, fails W h (StatSync filePath) = Some code -> total = 0).
Proof.
  destruct (calc_run filePath target h d) as (total & es & d' & E & H).
  exists total. rewrite E. cbn [result emitted]. split; [reflexivity | exact H].
Qed.

(** *** The instance [shredFile] *)

Lemma probe_survey es : Forall probe_event es -> Forall survey_event es.
Proof.
  apply Forall_impl. intros [c r| | | | |]; try contradiction; try (intros _; exact I).
  destruct c; try contradiction; intros _; exact I.
Qed.

(** The checks only survey the target, and they never throw in the
    sense of the model; a target over the limit is always a file. *)
Lemma preflight_run filePath target isDirectory h d :
  exists size rej es d',
    preflight W filePath target isDirectory h d = Out (inl (size, rej)) es d' /\
    Forall survey_event es /\
    (forall v, result (validateFilePath W filePath h d) = inl v -> isValid v = false ->
               rej = Some (ValidationFailed (errors v))) /\
    (forall big, rej = Some (TooLarge big) ->
                 isDirectory = false /\ maxFileSize < big /\ size = big) /\
    (rej = None -> isDirectory = false -> size <= maxFileSize).
Proof.
  unfold preflight.
  destruct (never_fails h d (validateFilePath_probe W filePath)) as [v V].
  set (es1 := emitted (validateFilePath W filePath h d)) in *.
  set (d1 := drawn (validateFilePath W filePath h d)) in *.
  assert (F1 : Forall survey_event es1)
    by (apply probe_survey, (proj1 (validateFilePath_probe W filePath h d))).
  assert (Rv : result (validateFilePath W filePath h d) = inl v) by (rewrite V; reflexivity).
  destruct (isValid v) eqn:Val; cbn [negb].
  2:{ exists 0, (Some (ValidationFailed (errors v))), es1, d1.
      split; [eapply run_bind_nil; [exact V | rewrite Val; reflexivity]|].
      split; [exact F1|]. split; [intros v' R' _; congruence|].
      split; [intros big [=] | discriminate]. }
  assert (NoVal : forall v', result (validateFilePath W filePath h d) = inl v' ->
                             isValid v' = false -> False).
  { intros v' R' Hv. rewrite Rv in R'. injection R' as <-. congruence. }
  destruct (negb (exists_ W (h ++ es1) filePath)) eqn:Ex.
  { exists 0, (Some (NotFound filePath)), es1, d1.
    split.
    { eapply run_bind_nil; [exact V|]. rewrite Val. cbn [negb].
      rewrite existsSync_bind, Ex. reflexivity. }
    split; [exact F1|]. split; [intros v' R' Hv; destruct (NoVal v' R' Hv)|].
    split; [intros big [=] | discriminate]. }
  destruct (never_fails (h ++ es1) d1 (isFileLocked_probe W filePath)) as [locked L].
  set (es2 := emitted (isFileLocked W filePath (h ++ es1) d1)) in *.
  set (d2 := drawn (isFileLocked W filePath (h ++ es1) d1)) in *.
  assert (F2 : Forall survey_event es2)
    by (apply probe_survey, (proj1 (isFileLocked_probe W filePath (h ++ es1) d1))).
  destruct locked.
  { exists 0, (Some (LockedFile filePath)), (es1 ++ es2), d2.
    split.
    { eapply run_bind; [exact V|]. rewrite Val. cbn [negb].
      rewrite existsSync_bind, Ex.
      eapply run_bind_nil; [exact L | reflexivity]. }
    split; [apply Forall_app; split; assumption|].
    split; [intros v' R' Hv; destruct (NoVal v' R' Hv)|].
    split; [intros big [=] | discriminate]. }
  destruct (calc_run filePath target ((h ++ es1) ++ es2) d2)
    as (size & es3 & d3 & C & _ & F3 & _).
  destruct (negb isDirectory && (maxFileSize <? size)) eqn:Big.
  - exists size, (Some (TooLarge size)), (es1 ++ es2 ++ es3), d3.
    split.
    { eapply run_bind; [exact V|]. rewrite Val. cbn [negb].
      rewrite existsSync_bind, Ex.
      eapply run_bind; [exact L|].
      eapply run_bind_nil; [exact C | rewrite Big; reflexivity]. }
    split; [repeat (apply Forall_app; split); assumption|].
    split; [intros v' R' Hv; destruct (NoVal v' R' Hv)|].
    split; [|discriminate].
    intros big [= <-]. apply andb_prop in Big. destruct Big as [B1 B2].
    apply Z.ltb_lt in B2. destruct isDirectory; [discriminate|]. auto.
  - exists size, None, (es1 ++ es2 ++ es3), d3.
    split.
    { eapply run_bind; [exact V|]. rewrite Val. cbn [negb].
      rewrite existsSync_bind, Ex.
      eapply run_bind; [exact L|].
      eapply run_bind_nil; [exact C | rewrite Big; reflexivity]. }
    split; [repeat (apply Forall_app; split); assumption|].
    split; [intros v' R' Hv; destruct (NoVal v' R' Hv)|].
    split; [intros big [=]|].
    intros _ ->. cbn [negb andb] in Big. apply Z.ltb_ge in Big. exact Big.
Qed.

(** X22.  The instance [shredFile] checks its target before it
    shreds.  A path that [validateFilePath] finds invalid (blank,
    missing, below a system path, locked, too long) is rejected with
    the validation error.  Whatever the check that rejects the target,
    the engine has then only surveyed it: no pass was started, nothing
    was written, renamed, unlinked or removed.  The size limit only
    rejects files, never directories.  When there is a logger, exactly
    one record is logged, for the path given, marked as a success
    exactly when nothing is thrown and carrying what is thrown as the
    reason of the failure; without a logger nothing is logged. *)
Theorem shredFile_checks_first logger filePath target isDirectory b h d :
  exists c,
    result (shredFile W logger filePath target isDirectory (callback b) h d) = inl c /\
    (forall v, result (validateFilePath W filePath h d) = inl v -> isValid v = false ->
               thrown c = Some (Rejected (ValidationFailed (errors v)))) /\
    (forall r, thrown c = Some (Rejected r) ->
               Forall survey_event
                 (emitted (shredFile W logger filePath target isDirectory
                             (callback b) h d)) /\
               (forall big, r = TooLarge big -> isDirectory = false /\ maxFileSize < big)) /\
    (logger = false -> logged c = None) /\
    (logger = true ->
     exists info,
       logged c = Some info /\
       infoPath info = filePath /\
       failureReason info = thrown c /\
       (succeeded info = true <-> thrown c = None)).
Proof.
  unfold shredFile.
  destruct (preflight_run filePath target isDirectory h d)
    as (size & rej & es & d' & P & F & Hv & Hbig & _).
  destruct rej as [r|].
  - eexists. erewrite run_bind_nil; [|exact P|reflexivity]. cbn [result emitted snd fst].
    split; [reflexivity|]. cbn [thrown logged].
    split; [intros v Rv Iv; pose proof (Hv v Rv Iv) as Hr; injection Hr as ->; reflexivity|].
    split.
    { intros r' [= <-]. split; [exact F|]. intros big ->.
      destruct (Hbig big eq_refl) as (A & B & _). auto. }
    split; [intros ->; reflexivity|].
    intros ->. eexists. split; [reflexivity|]. cbn.
    split; [reflexivity|]. split; [reflexivity|]. split; discriminate.
  - assert (NoVal : forall v, result (validateFilePath W filePath h d) = inl v ->
                              isValid v = false -> False)
      by (intros v Rv Iv; discriminate (Hv v Rv Iv)).
    set (act := if isDirectory
                then shredDirectory W filePath (children target) (callback b)
                else shredSingleFile W filePath (callback b)).
    destruct (act (h ++ es) d') as [[[]|e] es2 d2] eqn:A.
    + eexists. erewrite run_bind; [|exact P|].
      2:{ cbn [snd fst]. eapply run_catch_ok. eapply run_bind_nil; [exact A | reflexivity]. }
      cbn [result emitted thrown logged].
      split; [reflexivity|].
      split; [intros v Rv Iv; destruct (NoVal v Rv Iv)|].
      split; [intros r [=]|].
      split; [intros ->; reflexivity|].
      intros ->. eexists. split; [reflexivity|]. cbn.
      split; [reflexivity|]. split; [reflexivity|]. split; reflexivity.
    + eexists. erewrite run_bind; [|exact P|].
      2:{ cbn [snd fst].
          eapply run_catch_fail with (es2 := []); [|reflexivity].
          eapply run_bind_fail. exact A. }
      cbn [result emitted thrown logged].
      split; [reflexivity|].
      split; [intros v Rv Iv; destruct (NoVal v Rv Iv)|].
      split; [intros r [=]|].
      split; [intros ->; reflexivity|].
      intros ->. eexists. split; [reflexivity|]. cbn.
      split; [reflexivity|]. split; [reflexivity|]. split; discriminate.
Qed.

End WithWorld.

Lemma X20_witness :
  exists files,
    result (getAllFilesInDirectory (Sample.calm 10) "/data"
              [File "a"; Dir "sub" [File "b"]; File "c"] [] 0%N) = inl files /\
    files = ["/data/a"; "/data/sub/b"; "/data/c"].
Proof.
  destruct (getAllFilesInDirectory_listing (Sample.calm 10) "/data"
              [File "a"; Dir "sub" [File "b"]; File "c"] [] 0%N)
    as (files & R & _ & _ & H & _).
  exists files. split; [exact R|].
  destruct H as [-> _]; [vm_compute; reflexivity|]. vm_compute. reflexivity.
Defined.

Lemma X21_witness :
  result (calculateTotalSize (Sample.calm 10) "/data"
            (Dir "data" [File "a"; Dir "sub" [File "b"]; File "c"]) [] 0%N)
  = inl 30.
Proof.
  destruct (calculateTotalSize_outcome (Sample.calm 10) "/data"
              (Dir "data" [File "a"; Dir "sub" [File "b"]; File "c"]) [] 0%N)
    as (total & R & _ & _ & H & _).
  rewrite R, H; [|vm_compute; reflexivity]. vm_compute. reflexivity.
Defined.

Lemma X22_witness :
  exists c,
    result (shredFile Hosts.vacant true "/data/a.txt" (File "a.txt") false
              (callback false) [] 0%N) = inl c /\
    thrown c = Some (Rejected (ValidationFailed [Missing])).
Proof.
  destruct (shredFile_checks_first Hosts.vacant true "/data/a.txt" (File "a.txt") false
              false [] 0%N)
    as (c & R & V & _).
  exists c. split; [exact R|].
  apply (V (invalid Missing)); vm_compute; reflexivity.
Defined.

End RestFacts.
